(** * tsserver-mcp: the subprocess protocol client

    A shallow embedding of [src/tsserver/client.ts] (class [TSServerClient])
    and of the message types of [src/tsserver/protocol.ts], followed by the
    properties of the framer, the request correlator, the retry policy, the
    timeouts, the open-file tracker and the shutdown sequence.

    The client is event driven: every handler runs to completion on the
    JavaScript event loop.  The model is a state record ([World]) holding the
    fields of the class next to the part of the runtime the class relies on
    (suspended [async] calls, timers, a clock), and one function per handler.
    Everything the client does to its surroundings (continuations invoked,
    text written to the child's stdin, events emitted, log records) is
    appended to [trace].

    Around the client: the logger ([src/logger/index.ts]) and the
    configuration manager ([src/config/manager.ts]) over a file system, the
    tools ([src/tools/*.ts]) as resumable computations over [World], and the
    handler of 'tools/call' ([src/index.ts]) that calls them. *)

From stdpp Require Import base decidable option list sorting gmap strings.
From Stdlib Require Import ZArith NArith Ascii String Lia DecimalString DecimalPos DecimalZ.

Local Open Scope string_scope.
Local Open Scope list_scope.
#[local] Arguments String.append !s1 s2 : simpl nomatch.

(** ** JavaScript strings

    A string is a sequence of code units; the client only compares code units
    with ASCII characters, so [string] over [ascii] is used. *)

Definition LF : ascii := ascii_of_nat 10.
Definition CR : ascii := ascii_of_nat 13.

(** [s.slice(from)] and [s.slice(from, to)] for [0 <= from]: indices past the
    end are clamped. *)
Fixpoint slice_from (s : string) (from : nat) {struct from} : string :=
  match from, s with
  | O, _ => s
  | S n, String _ s' => slice_from s' n
  | S _, EmptyString => EmptyString
  end.

Fixpoint str_take (n : nat) (s : string) {struct n} : string :=
  match n, s with
  | O, _ => EmptyString
  | S n', String c s' => String c (str_take n' s')
  | S _, EmptyString => EmptyString
  end.

Definition slice (s : string) (from to : nat) : string :=
  str_take (to - from) (slice_from s from).


(** [Buffer.byteLength(s, 'utf8')] for code units below 256: the UTF-8
    encoding has one byte for a code unit below 128 and two for the others.
    These are the bytes tsserver counts in [Content-Length]. *)
Fixpoint byteLength (s : string) : nat :=
  match s with
  | EmptyString => 0
  | String c s' => (if (nat_of_ascii c <? 128)%nat then 1 else 2) + byteLength s'
  end.

(** [s.includes(needle)] *)
Fixpoint includes (s needle : string) : bool :=
  String.prefix needle s ||
  match s with
  | EmptyString => false
  | String _ s' => includes s' needle
  end.

(** Truthiness of an optional string: [undefined] and [''] are falsy. *)
Definition truthy (o : option string) : option string :=
  match o with
  | Some s => if String.eqb s "" then None else Some s
  | None => None
  end.

(** [s] between double quotes. *)
Definition quoted (s : string) : string :=
  String (ascii_of_nat 34) (s +:+ String (ascii_of_nat 34) "").

(** Decimal rendering of a number inside a template literal. *)
Definition show (z : Z) : string := NilZero.string_of_int (Z.to_int z).

(** ** The header pattern [/^Content-Length: (\d+)\r?\n\r?\n/]

    The pattern is anchored at the start of the input.  [\d+] is followed by a
    character that is not a digit, and [\r?] by [\n], so the greedy choice at
    each quantifier is the only one that can lead to a match and no
    backtracking is needed. *)

Definition is_digit (c : ascii) : bool :=
  (48 <=? nat_of_ascii c)%nat && (nat_of_ascii c <=? 57)%nat.

Fixpoint strip_literal (lit s : string) : option string :=
  match lit, s with
  | EmptyString, _ => Some s
  | String a lit', String b s' =>
      if Ascii.eqb a b then strip_literal lit' s' else None
  | String _ _, EmptyString => None
  end.

Fixpoint digits_span (s : string) : string * string :=
  match s with
  | String c s' =>
      if is_digit c
      then let '(d, r) := digits_span s' in (String c d, r)
      else (EmptyString, s)
  | EmptyString => (EmptyString, EmptyString)
  end.

Definition opt_char (c : ascii) (s : string) : string * string :=
  match s with
  | String a s' => if Ascii.eqb a c then (String c EmptyString, s') else (EmptyString, s)
  | EmptyString => (EmptyString, EmptyString)
  end.

Definition one_char (c : ascii) (s : string) : option string :=
  match s with
  | String a s' => if Ascii.eqb a c then Some s' else None
  | EmptyString => None
  end.

(** The result of [buffer.match(...)]: [whole] is [headerMatch[0]] and
    [group1] is [headerMatch[1]]. *)
Record HeaderMatch := { whole : string; group1 : string }.

Definition matchHeader (buffer : string) : option HeaderMatch :=
  match strip_literal "Content-Length: " buffer with
  | None => None
  | Some rest =>
      let '(digits, rest) := digits_span rest in
      if String.eqb digits "" then None else
      let '(cr1, rest) := opt_char CR rest in
      match one_char LF rest with
      | None => None
      | Some rest =>
          let '(cr2, rest) := opt_char CR rest in
          match one_char LF rest with
          | None => None
          | Some _ =>
              Some {| whole := "Content-Length: " +:+ digits +:+ cr1 +:+ String LF (cr2 +:+ String LF "");
                      group1 := digits |}
          end
      end
  end.

(** [parseInt(digits, 10)] on a non-empty run of decimal digits.  The result
    is exact here; a JavaScript number is exact below 2^53, and a content
    length at or above that exceeds the length of every string, so the
    comparison that consumes it gives the same answer. *)
Definition digit_value (c : ascii) : N := N.of_nat (nat_of_ascii c - 48).

Fixpoint parseInt_from (acc : N) (digits : string) : N :=
  match digits with
  | EmptyString => acc
  | String c d => parseInt_from (10 * acc + digit_value c)%N d
  end.

Definition parseInt (digits : string) : N := parseInt_from 0%N digits.

(** ** [Map<number, V>]: keys in insertion order *)

Section JsMap.
Context {V : Type}.

Fixpoint map_get (k : Z) (m : list (Z * V)) : option V :=
  match m with
  | [] => None
  | (k', v) :: m' => if (k =? k')%Z then Some v else map_get k m'
  end.

Definition map_has (k : Z) (m : list (Z * V)) : bool :=
  match map_get k m with Some _ => true | None => false end.

Fixpoint map_set (k : Z) (v : V) (m : list (Z * V)) : list (Z * V) :=
  match m with
  | [] => [(k, v)]
  | (k', v') :: m' =>
      if (k =? k')%Z then (k, v) :: m' else (k', v') :: map_set k v m'
  end.

Fixpoint map_delete (k : Z) (m : list (Z * V)) : list (Z * V) :=
  match m with
  | [] => []
  | (k', v) :: m' =>
      if (k =? k')%Z then map_delete k m' else (k', v) :: map_delete k m'
  end.

Definition keys (m : list (Z * V)) : list Z := m.*1.
End JsMap.

(** ** Frames

    The vocabulary for streams of whole frames. *)

(** A string made of digits only. *)
Fixpoint all_digits (s : string) : bool :=
  match s with
  | EmptyString => true
  | String c s' => is_digit c && all_digits s'
  end.

Definition starts_with_digit (s : string) : bool :=
  match s with
  | String c _ => is_digit c
  | EmptyString => false
  end.

(** A header as the pattern accepts it: the literal, a non-empty run of
    digits, and two line ends, each an optional CR and a LF. *)
Definition line_end (cr : bool) : string :=
  if cr then String CR (String LF "") else String LF "".

Definition header (digits : string) (cr1 cr2 : bool) : string :=
  "Content-Length: " +:+ digits +:+ line_end cr1 +:+ line_end cr2.

Definition cr_text (cr : bool) : string := if cr then String CR "" else "".

(** ** Protocol messages ([protocol.ts]) and runtime values *)

Section Protocol.

(** Values of TypeScript type [any]: request arguments and response bodies.
    The client hands them on without inspecting them. *)
Context {any : Type}.

(** The [arguments] of a request: the object literals the client builds
    itself, or whatever the caller passed. *)
Inductive Arguments :=
| FileArgs (file : string)          (* { file: normalizedPath } *)
| ConfigurePreferences              (* { preferences: { ... } } of start() *)
| AnyArgs (a : any).

(** [TSServerRequest]; its [type] field is the constant ['request'] and
    [None] stands for [undefined]. *)
Record TSServerRequest := {
  req_seq : Z;
  req_command : string;
  req_arguments : option Arguments;
}.

Record TSServerResponse := {
  res_seq : Z;
  res_command : string;
  request_seq : Z;
  success : bool;
  message : option string;
  res_body : option any;
}.

Record TSServerEvent := {
  ev_seq : Z;
  event : string;
  ev_body : option any;
}.

(** A parsed message, by its [type] field. *)
Inductive Message :=
| Response (r : TSServerResponse)
| Event (e : TSServerEvent)
| UnknownType.

(** An [Error] object; only its [message] is read. *)
Record Error := { error_message : string }.

(** How a promise settles. *)
Inductive Outcome :=
| Resolved (value : option any)
| Rejected (e : Error).

(** The [ChildProcess] fields the client reads. *)
Record ChildProcess := {
  pid : nat;
  stdin : bool;          (* the stdin pipe is not null *)
  killed : bool;
}.

(** Where a call of [requestWithRetry] is suspended. *)
Inductive Phase :=
| Running
| Awaiting (seq : Z)     (* at [await new Promise], the promise of request [seq] *)
| Sleeping               (* at the [await] of the backoff delay *)
| Finished (o : Outcome).

(** The locals of one call of [requestWithRetry]. *)
Record Call := {
  command : string;
  args : option Arguments;
  maxRetries : Z;
  attempt : Z;
  phase : Phase;
}.

(** A call of [openFile] or [closeFile] that is suspended at
    [await this.notify(...)]: the path it goes on with, and the error
    [notify] has thrown, if any. *)
Inductive FileOperation := OpenFile | CloseFile.

Record FileCall := {
  operation : FileOperation;
  normalizedPath : string;
  thrown : option Error;
}.

(** The closures handed to [setTimeout]. *)
Inductive Callback :=
| RequestTimeout (cid : nat) (seq : Z) (command : string) (timeout : Z)
| RetryDelay (cid : nat)
| StopGrace (sid : nat)
| StartReady
| StartConfigure.

Record Timer := {
  armed_at : Z;
  delay : Z;
  callback : Callback;
  fired : bool;
}.

Inductive Level := Info | Warn | ErrorLevel.

Inductive Emitted :=
| EmitEvent (e : TSServerEvent)                           (* emit('event', message) *)
| EmitExit (code : option Z) (signal : option string).    (* emit('exit', code, signal) *)

(** What the client does to its surroundings. *)
Inductive Obs :=
| Resolve (seq : Z) (cid : nat) (body : option any)   (* pending.resolve(body) *)
| Reject (seq : Z) (cid : nat) (e : Error)            (* reject(error) *)
| Return (cid : nat) (value : option any)             (* request() fulfilled *)
| Throw (cid : nat) (e : Error)                       (* request() rejected *)
| Write (r : TSServerRequest)                         (* stdin.write(JSON.stringify(request) + LF) *)
| WriteRaw (text : string)                            (* stdin.write(text) *)
| End                                                 (* stdin.end() *)
| Kill (pid : nat) (signal : string)                  (* process.kill(signal) *)
| Emit (e : Emitted)
| Log (level : Level) (text : string)                 (* logger.info / warn / error *)
| Started                                             (* start() fulfilled *)
| Failed (operation : string) (e : Error).            (* start / openFile / closeFile rejected *)

(** The state.  The first six fields are the fields of [TSServerClient]
    ([sequence] counts up from 1 by one per request, far below 2^53, where
    JavaScript numbers stop being exact).  [calls] holds the calls of
    [requestWithRetry], a call's index being its identity; [stops] the calls
    of [stop] with the child they wait for, [true] while suspended at
    [await Promise.race]; [fileCalls] the calls of [openFile] and [closeFile]
    that reached [await this.notify(...)], [true] while suspended there. *)
Record World := {
  process : option ChildProcess;
  sequence : Z;
  pendingRequests : list (Z * nat);
  buffer : string;
  openFiles : gset string;
  skipAvailabilityCheck : bool;
  calls : list Call;
  stops : list (nat * bool);
  fileCalls : list (FileCall * bool);
  timers : list Timer;
  now : Z;
  spawned : nat;
  trace : list (Z * Obs);
}.

(** What the event loop runs: a call of a public method by the rest of the
    program, the continuation of a suspended call of [openFile] or
    [closeFile], data or the exit of the child, a timer that fires, time that
    passes. *)
Inductive Task :=
| CallStart
| CallRequest (cmd : string) (a : option Arguments)
| CallOpenFile (file : string)
| CallCloseFile (file : string)
| FileCallResumes (fid : nat)
| CallStop
| StdoutData (data : string)
| ProcessExit (p : nat) (code : option Z) (signal : option string)
| TimerFires (i : nat)
| Elapse (dt : Z).

End Protocol.

(** ** The file system ([fs], [fs/promises] and [path.join])

    What the logger and the configuration manager use of it.  A file is the
    sequence of its bytes and a path is a string.  Directories are not
    modelled ([mkdir] with [recursive: true] makes them as needed), and an
    operation is taken to succeed where the code has checked with
    [existsSync] that its file is there. *)

Module Fs.

Abbreviation Files := (gmap string string).

Definition existsSync (path : string) (fs : Files) : bool :=
  bool_decide (is_Some (fs !! path)).

(** [writeFile(path, data)] *)
Definition writeFile (path data : string) (fs : Files) : Files := <[path := data]> fs.

(** [writeFile(path, data, { flag: 'a' })]: the file is created if need be. *)
Definition appendFile (path data : string) (fs : Files) : Files :=
  <[path := default "" (fs !! path) +:+ data]> fs.

Definition unlink (path : string) (fs : Files) : Files := delete path fs.

(** What a lookup gives once a file that is there has been emptied. *)
Definition emptied (found : option string) : option string :=
  match found with
  | Some _ => Some ""
  | None => None
  end.

(** [stat(path).size] *)
Definition size (data : string) : Z := Z.of_nat (String.length data).

(** [join(dir, name)] for a directory path in normal form and a file name. *)
Definition join (dir name : string) : string := dir +:+ "/" +:+ name.

End Fs.

(** ** The configuration ([config/types.ts], [config/manager.ts]) *)

(** The type ['error' | 'warn' | 'info' | 'debug']. *)
Module LogLevel.
Inductive t := error | warn | info | debug.

#[global] Instance eq_dec : EqDecision t.
Proof. solve_decision. Defined.

(** The string a level is. *)
Definition text (level : t) : string :=
  match level with
  | error => "error"
  | warn => "warn"
  | info => "info"
  | debug => "debug"
  end.
End LogLevel.

Module Config.

Record DebugConfig := {
  enabled : bool;
  level : LogLevel.t;
  logToFile : bool;
  maxFileSize : Z;    (* in MB *)
  maxFiles : Z;       (* number of rotated log files to keep *)
}.

Record AppConfig := { debug : DebugConfig }.

(** [Partial<AppConfig>] as [load] reads it: [debug] may be missing, and so
    may each of its fields.  Fields of other types than declared are outside
    the model. *)
Record PartialDebugConfig := {
  p_enabled : option bool;
  p_level : option LogLevel.t;
  p_logToFile : option bool;
  p_maxFileSize : option Z;
  p_maxFiles : option Z;
}.

Record PartialAppConfig := { p_debug : option PartialDebugConfig }.

(** The object literal the constant [defaultConfig] is bound to. *)
Definition defaultConfig_literal : AppConfig :=
  {| debug := {| enabled := false; level := LogLevel.info; logToFile := true;
                 maxFileSize := 10; maxFiles := 5 |} |}.

(** [{ ...base, ...over }] *)
Definition spread (base : DebugConfig) (over : option PartialDebugConfig) : DebugConfig :=
  match over with
  | None => base
  | Some o =>
      {| enabled := default (enabled base) (p_enabled o);
         level := default (level base) (p_level o);
         logToFile := default (logToFile base) (p_logToFile o);
         maxFileSize := default (maxFileSize base) (p_maxFileSize o);
         maxFiles := default (maxFiles base) (p_maxFiles o) |}
  end.

(** Every field present. *)
Definition whole (c : AppConfig) : PartialAppConfig :=
  {| p_debug := Some {| p_enabled := Some (enabled (debug c));
                        p_level := Some (level (debug c));
                        p_logToFile := Some (logToFile (debug c));
                        p_maxFileSize := Some (maxFileSize (debug c));
                        p_maxFiles := Some (maxFiles (debug c)) |} |}.

(** The object [this.config] refers to: the object [defaultConfig] itself
    (the field initialiser and the [catch] of [load] assign that very
    object), or the object [load] built from the file. *)
Inductive Ref :=
| TheDefault
| Own (c : AppConfig).

(** The store: the object [defaultConfig] of the module, the field
    [this.config] of the one [ConfigManager], and the files. *)
Record State := {
  defaultConfig : AppConfig;
  config : Ref;
  files : Fs.Files;
}.

Definition set_defaultConfig (c : AppConfig) (s : State) : State :=
  {| defaultConfig := c; config := config s; files := files s |}.

Definition set_config (r : Ref) (s : State) : State :=
  {| defaultConfig := defaultConfig s; config := r; files := files s |}.

Definition set_files (fs : Fs.Files) (s : State) : State :=
  {| defaultConfig := defaultConfig s; config := config s; files := fs |}.

Definition with_enabled (x : bool) (d : DebugConfig) : DebugConfig :=
  {| enabled := x; level := level d; logToFile := logToFile d;
     maxFileSize := maxFileSize d; maxFiles := maxFiles d |}.

Definition with_level (x : LogLevel.t) (d : DebugConfig) : DebugConfig :=
  {| enabled := enabled d; level := x; logToFile := logToFile d;
     maxFileSize := maxFileSize d; maxFiles := maxFiles d |}.

Definition with_logToFile (x : bool) (d : DebugConfig) : DebugConfig :=
  {| enabled := enabled d; level := level d; logToFile := x;
     maxFileSize := maxFileSize d; maxFiles := maxFiles d |}.

Section Manager.

(** [join(dirs.config, 'config.json')] *)
Variable configPath : string.

(** [JSON.parse(configData)] and the reading of [loadedConfig.debug]:
    [None] when either throws (text that is no JSON, or the JSON [null]). *)
Variable JSON_parse : string → option PartialAppConfig.

(** [JSON.stringify(this.config, null, 2)] *)
Variable JSON_stringify : AppConfig → string.

(** [new ConfigManager()] in a process that has just loaded the module. *)
Definition new_ConfigManager (fs : Fs.Files) : State :=
  {| defaultConfig := defaultConfig_literal; config := TheDefault; files := fs |}.

Definition get (s : State) : AppConfig :=
  match config s with
  | TheDefault => defaultConfig s
  | Own c => c
  end.

Definition getDebugConfig (s : State) : DebugConfig := debug (get s).

Definition save (s : State) : State :=
  set_files (Fs.writeFile configPath (JSON_stringify (get s)) (files s)) s.

Definition load (s : State) : State :=
  if negb (Fs.existsSync configPath (files s)) then save s
  else
    match files s !! configPath with
    | Some configData =>
        match JSON_parse configData with
        | Some loadedConfig =>
            set_config (Own {| debug := spread (debug (defaultConfig s))
                                               (p_debug loadedConfig) |}) s
        | None => set_config TheDefault s
        end
    | None => set_config TheDefault s
    end.

(** [this.config.debug.f = x]: an assignment to a field of the object
    [this.config.debug], whichever object that is. *)
Definition assign_debug (f : DebugConfig → DebugConfig) (s : State) : State :=
  match config s with
  | TheDefault => set_defaultConfig {| debug := f (debug (defaultConfig s)) |} s
  | Own c => set_config (Own {| debug := f (debug c) |}) s
  end.

Definition setDebugEnabled (enabled : bool) (s : State) : State :=
  save (assign_debug (with_enabled enabled) s).

Definition setDebugLevel (level : LogLevel.t) (s : State) : State :=
  save (assign_debug (with_level level) s).

Definition setLogToFile (logToFile : bool) (s : State) : State :=
  save (assign_debug (with_logToFile logToFile) s).

End Manager.

End Config.

(** ** The logger ([logger/index.ts])

    Each [async] method is taken as one step: what it does when no other
    call of the logger runs between its [await]s.  The output to the console
    is left out. *)

Module Logger.

Definition levels : list LogLevel.t :=
  [LogLevel.error; LogLevel.warn; LogLevel.info; LogLevel.debug].

(** [l.indexOf(x)]: the first index of [x], or -1. *)
Fixpoint indexOf_from (i : Z) (x : LogLevel.t) (l : list LogLevel.t) : Z :=
  match l with
  | [] => -1
  | y :: l' => if decide (y = x) then i else indexOf_from (i + 1) x l'
  end.

Definition indexOf (x : LogLevel.t) (l : list LogLevel.t) : Z := indexOf_from 0 x l.

Definition shouldLog (config : Config.DebugConfig) (level : LogLevel.t) : bool :=
  if negb (Config.enabled config) then false
  else
    let currentLevelIndex := indexOf (Config.level config) levels in
    let messageLevel := indexOf level levels in
    (messageLevel <=? currentLevelIndex)%Z.

(** [s.toUpperCase()] on ASCII text. *)
Definition upper (c : ascii) : ascii :=
  if (97 <=? nat_of_ascii c)%nat && (nat_of_ascii c <=? 122)%nat
  then ascii_of_nat (nat_of_ascii c - 32) else c.

Fixpoint toUpperCase (s : string) : string :=
  match s with
  | EmptyString => EmptyString
  | String c s' => String (upper c) (toUpperCase s')
  end.

Section Logger.

(** The type [Record<string, unknown>] of a context, with [JSON.stringify]. *)
Context {Context_ : Type}.
Variable JSON_stringify : Context_ → string.

(** [getAppDirectories().logs] *)
Variable logDir : string.

Record LogEntry := {
  timestamp : string;
  level : LogLevel.t;
  message : string;
  context : option Context_;
}.

Definition logFile : string := Fs.join logDir "tsserver-mcp.log".

(** [join(this.logDir, `tsserver-mcp.log.${i}`)] *)
Definition rotated (i : Z) : string := Fs.join logDir ("tsserver-mcp.log." +:+ show i).

Definition formatLogEntry (entry : LogEntry) : string :=
  let contextStr :=
    match context entry with
    | Some c => " " +:+ JSON_stringify c
    | None => ""
    end in
  "[" +:+ timestamp entry +:+ "] " +:+ toUpperCase (LogLevel.text (level entry)) +:+ ": "
      +:+ message entry +:+ contextStr +:+ String (ascii_of_nat 10) "".

(** [i === 0 ? this.logFile : join(this.logDir, `tsserver-mcp.log.${i}`)] *)
Definition currentLog (i : Z) : string := if (i =? 0)%Z then logFile else rotated i.

(** One turn of the loop of [rotateLogs]. *)
Definition rotate_turn (i : Z) (fs : Fs.Files) : Fs.Files :=
  let nextLog := rotated (i + 1) in
  match fs !! currentLog i with
  | Some data =>
      let fs := Fs.writeFile nextLog data fs in
      if (i =? 0)%Z then Fs.writeFile logFile "" fs else Fs.unlink (currentLog i) fs
  | None => fs
  end.

(** [for (let i = ...; i >= 0; i--)] with [n] turns to go: the next turn has
    [i = n - 1]. *)
Fixpoint rotate_loop (n : nat) (fs : Fs.Files) : Fs.Files :=
  match n with
  | O => fs
  | S n' => rotate_loop n' (rotate_turn (Z.of_nat n') fs)
  end.

(** [rotateLogs]: the loop starts at [i = maxFiles - 2]. *)
Definition rotateLogs (maxFiles : Z) (fs : Fs.Files) : Fs.Files :=
  let oldestLog := rotated (maxFiles - 1) in
  let fs := if Fs.existsSync oldestLog fs then Fs.unlink oldestLog fs else fs in
  rotate_loop (Z.to_nat (maxFiles - 1)) fs.

(** [stats.size / (1024 * 1024) > config.maxFileSize], the division being
    exact in floating point. *)
Definition rotateLogsIfNeeded (config : Config.DebugConfig) (fs : Fs.Files) : Fs.Files :=
  match fs !! logFile with
  | None => fs
  | Some data =>
      if (Config.maxFileSize config * (1024 * 1024) <? Fs.size data)%Z
      then rotateLogs (Config.maxFiles config) fs
      else fs
  end.

Definition writeToFile (config : Config.DebugConfig) (entry : LogEntry) (fs : Fs.Files)
    : Fs.Files :=
  if negb (Config.logToFile config) then fs
  else
    let fs := rotateLogsIfNeeded config fs in
    let logLine := formatLogEntry entry in
    Fs.appendFile logFile logLine fs.

(** [log], at the time [now] ([new Date().toISOString()]), with the
    configuration the manager holds. *)
Definition log (config : Config.DebugConfig) (now : string) (level : LogLevel.t)
    (message : string) (context : option Context_) (fs : Fs.Files) : Fs.Files :=
  if negb (shouldLog config level) then fs
  else
    let entry := {| timestamp := now; level := level; message := message;
                    context := context |} in
    writeToFile config entry fs.

Definition error (config : Config.DebugConfig) (now message : string)
    (context : option Context_) (fs : Fs.Files) : Fs.Files :=
  log config now LogLevel.error message context fs.

Definition warn (config : Config.DebugConfig) (now message : string)
    (context : option Context_) (fs : Fs.Files) : Fs.Files :=
  log config now LogLevel.warn message context fs.

Definition info (config : Config.DebugConfig) (now message : string)
    (context : option Context_) (fs : Fs.Files) : Fs.Files :=
  log config now LogLevel.info message context fs.

Definition debug (config : Config.DebugConfig) (now message : string)
    (context : option Context_) (fs : Fs.Files) : Fs.Files :=
  log config now LogLevel.debug message context fs.

End Logger.

End Logger.


(** ** The data of the tools ([tsserver/protocol.ts], [tools/*.ts])

    The response bodies as [protocol.ts] types them, with [option] for what
    a tool tests before it reads it; the arguments and the results of the
    tools; and what each tool computes from the body it is given. *)

Module Tools.

Record Position := { line : Z; offset : Z }.

Record LocationRange := { start : Position; end_ : Position }.

Record DefinitionInfo := {
  file : string;
  di_start : Position;
  di_end : Position;
  kind : option string;
  name : option string;
  containerKind : option string;
  containerName : option string;
}.

(** [DefinitionArgs]; [HoverArgs] and [ReferencesArgs] have the same fields. *)
Record DefinitionArgs := { a_file : string; a_line : Z; a_offset : Z }.

Abbreviation HoverArgs := DefinitionArgs.
Abbreviation ReferencesArgs := DefinitionArgs.

Record RenameArgs := { r_file : string; r_line : Z; r_offset : Z; newName : string }.

(** An element of [DefinitionResult.definitions] and of
    [ReferencesResult.references]. *)
Record Location := {
  l_file : string;
  l_line : Z;
  l_offset : Z;
  l_endLine : Z;
  l_endOffset : Z;
  l_kind : option string;
  l_name : option string;
  l_containerKind : option string;
  l_containerName : option string;
}.

Record DefinitionResult := { definitions : list Location }.

(** The function both [getDefinition] and [getReferences] map over the
    locations they are given. *)
Definition location_of (def : DefinitionInfo) : Location :=
  {| l_file := file def;
     l_line := line (di_start def);
     l_offset := offset (di_start def);
     l_endLine := line (di_end def);
     l_endOffset := offset (di_end def);
     l_kind := kind def;
     l_name := name def;
     l_containerKind := containerKind def;
     l_containerName := containerName def |}.

(** [(response || []).map(...)], then [{ definitions }] *)
Definition getDefinition_result (response : option (list DefinitionInfo)) : DefinitionResult :=
  {| definitions := location_of <$> default [] response |}.

(** [QuickInfo]: the fields [getHover] reads. *)
Record QuickInfo := {
  displayString : string;
  documentation : string;
  q_start : option Position;
  q_end : option Position;
}.

Record Range := { startLine : Z; startOffset : Z; endLine : Z; endOffset : Z }.

Record HoverResult := { contents : string; range : option Range }.

Definition range_of (s e : Position) : Range :=
  {| startLine := line s; startOffset := offset s; endLine := line e; endOffset := offset e |}.

(** [getHover], from [let contents = ''] to [return result]. *)
Definition getHover_result (response : QuickInfo) : HoverResult :=
  let contents := "" in
  let contents :=
    if String.eqb (displayString response) "" then contents
    else contents +:+ "```typescript" +:+ String LF (displayString response)
                  +:+ String LF "```" in
  let contents :=
    if String.eqb (documentation response) "" then contents
    else (if String.eqb contents "" then contents else contents +:+ String LF (String LF ""))
         +:+ documentation response in
  {| contents := contents;
     range := match q_start response, q_end response with
              | Some s, Some e => Some (range_of s e)
              | _, _ => None
              end |}.

Record ReferencesResponseBody := {
  refs : option (list DefinitionInfo);
  symbolName : string;
  symbolDisplayString : string;
}.

Record ReferencesResult := {
  r_symbolName : string;
  r_symbolDisplayString : string;
  references : list Location;
}.

(** [getReferences], from [if (!response || !response.refs)] on. *)
Definition getReferences_result (response : option ReferencesResponseBody)
    : option ReferencesResult :=
  match response with
  | Some response =>
      match refs response with
      | Some refs =>
          Some {| r_symbolName := symbolName response;
                  r_symbolDisplayString := symbolDisplayString response;
                  references := location_of <$> refs |}
      | None => None
      end
  | None => None
  end.

Record RenameInfo := {
  canRename : bool;
  localizedErrorMessage : option string;
  displayName : option string;
  fullDisplayName : option string;
  i_kind : option string;
}.

Record SpanGroup := { g_file : string; locs : list LocationRange }.

Record RenameResponseBody := { info : option RenameInfo; b_locs : list SpanGroup }.

Record Edit := {
  e_startLine : Z;
  e_startOffset : Z;
  e_endLine : Z;
  e_endOffset : Z;
  e_newText : string;
}.

Record FileEdits := { f_file : string; edits : list Edit }.

Record RenameResult := {
  res_canRename : bool;
  res_localizedErrorMessage : option string;
  res_displayName : option string;
  res_fullDisplayName : option string;
  res_kind : option string;
  changes : option (list FileEdits);
}.

(** The result of the first [return] of [getRename]. *)
Definition cannot_rename (localizedErrorMessage : option string) : RenameResult :=
  {| res_canRename := false;
     res_localizedErrorMessage :=
       Some (default "Cannot rename symbol" (truthy localizedErrorMessage));
     res_displayName := None; res_fullDisplayName := None; res_kind := None;
     changes := None |}.

Definition edit_of (newName : string) (loc : LocationRange) : Edit :=
  {| e_startLine := line (start loc);
     e_startOffset := offset (start loc);
     e_endLine := line (end_ loc);
     e_endOffset := offset (end_ loc);
     e_newText := newName |}.

(** [getRename], from [if (!response || !response.info || ...)] on. *)
Definition getRename_result (newName : string) (response : option RenameResponseBody)
    : RenameResult :=
  match response with
  | Some response =>
      match info response with
      | Some info =>
          if canRename info then
            {| res_canRename := true;
               res_localizedErrorMessage := None;
               res_displayName := displayName info;
               res_fullDisplayName := fullDisplayName info;
               res_kind := i_kind info;
               changes :=
                 Some ((λ spanGroup,
                          {| f_file := g_file spanGroup;
                             edits := edit_of newName <$> locs spanGroup |})
                       <$> b_locs response) |}
          else cannot_rename (localizedErrorMessage info)
      | None => cannot_rename None
      end
  | None => cannot_rename None
  end.

(** An element of the body of an 'organizeImports' response, typed [any] in
    the code: the two properties [organizeImports] reads. *)
Record Change := { c_newText : option string; span : option LocationRange }.

Record TextChange := { t_newText : string; t_span : Range }.

Record OrganizeImportsResult := { success : bool; o_changes : option (list TextChange) }.

(** The function [organizeImports] maps over the body; [None] where the
    reading of [change.span.start] throws. *)
Definition change_of (change : Change) : option TextChange :=
  match span change with
  | Some span =>
      Some {| t_newText := default "" (truthy (c_newText change));
              t_span := range_of (start span) (end_ span) |}
  | None => None
  end.

(** [organizeImports], from [if (!response || !response.length)] on, with
    the [catch] block for an exception of the mapping. *)
Definition organizeImports_result (response : option (list Change)) : OrganizeImportsResult :=
  match response with
  | None | Some [] => {| success := false; o_changes := None |}
  | Some response =>
      match mapM change_of response with
      | Some changes => {| success := true; o_changes := Some changes |}
      | None => {| success := false; o_changes := None |}
      end
  end.

End Tools.

(** ** Sample data

    Input for the runs at the end of the file, with stand-ins for the two
    library functions: [parse_among] accepts the texts of a given list of
    responses and nothing else, [resolve_in] puts a relative path under a
    directory. *)

Module Scenario.

(** The JSON text of a response whose body, if any, is a string. *)
Definition render (r : @TSServerResponse string) : string :=
  "{" +:+ quoted "seq" +:+ ":" +:+ show (res_seq r) +:+ ","
      +:+ quoted "type" +:+ ":" +:+ quoted "response" +:+ ","
      +:+ quoted "command" +:+ ":" +:+ quoted (res_command r) +:+ ","
      +:+ quoted "request_seq" +:+ ":" +:+ show (request_seq r) +:+ ","
      +:+ quoted "success" +:+ ":" +:+ (if success r then "true" else "false")
      +:+ match message r with
          | Some text => "," +:+ quoted "message" +:+ ":" +:+ quoted text
          | None => ""
          end
      +:+ match res_body r with
          | Some text => "," +:+ quoted "body" +:+ ":" +:+ quoted text
          | None => ""
          end
      +:+ "}".

Fixpoint parse_among (rs : list (@TSServerResponse string)) (text : string)
    : option (@Message string) :=
  match rs with
  | [] => None
  | r :: rs' => if String.eqb (render r) text then Some (Response r) else parse_among rs' text
  end.

Definition resolve_in (cwd file : string) : string :=
  match file with
  | String c _ => if Ascii.eqb c "/" then file else cwd +:+ "/" +:+ file
  | EmptyString => cwd
  end.

(** A frame as tsserver writes it: the length counts the bytes of the
    content. *)
Definition frame (content : string) : string :=
  header (show (Z.of_nat (byteLength content))) true true +:+ content.


Definition ok (seq : Z) (cmd body : string) : @TSServerResponse string :=
  {| res_seq := 0; res_command := cmd; request_seq := seq; success := true;
     message := None; res_body := Some body |}.

Definition failed (seq : Z) (cmd text : string) : @TSServerResponse string :=
  {| res_seq := 0; res_command := cmd; request_seq := seq; success := false;
     message := Some text; res_body := None |}.

Definition responses : list (@TSServerResponse string) :=
  [ok 1 "definition" "result1"; ok 2 "quickinfo" "result2";
   failed 1 "definition" "Debug Failure. False expression.";
   failed 2 "definition" "Debug Failure. False expression.";
   failed 3 "definition" "Debug Failure. False expression.";
   failed 4 "definition" "Debug Failure. False expression.";
   failed 1 "definition" "No project."].

Definition parse : string → option (@Message string) := parse_among responses.
Definition resolve : string → string := resolve_in "/work".

Definition debug_failure : string := "Debug Failure. False expression.".

(** A request whose every attempt is answered with a debug failure. *)
Definition retry_tasks : list (@Task string) :=
  [CallStart; CallRequest "definition" None;
   StdoutData (frame (render (failed 1 "definition" debug_failure)));
   Elapse 1000; TimerFires 2;
   StdoutData (frame (render (failed 2 "definition" debug_failure)));
   Elapse 2000; TimerFires 4;
   StdoutData (frame (render (failed 3 "definition" debug_failure)));
   Elapse 4000; TimerFires 6].

Definition last_failure : list (@Task string) :=
  [StdoutData (frame (render (failed 4 "definition" debug_failure)))].

(** Two requests in flight. *)
Definition two_requests : list (@Task string) :=
  [CallStart; CallRequest "definition" None; CallRequest "quickinfo" None].

(** A request, and the child exits before it answers. *)
Definition crash_tasks : list (@Task string) :=
  [CallStart; CallRequest "definition" None; ProcessExit 0 (Some 1%Z) None].





(** A configuration file and a log directory. *)
Definition configPath : string := "/home/user/.config/tsserver-mcp/config.json".
Definition logDir : string := "/home/user/.local/share/tsserver-mcp".

(** The JSON text of a configuration, on one line. *)
Definition render_config (c : Config.AppConfig) : string :=
  "{" +:+ quoted "debug" +:+ ":{"
      +:+ quoted "enabled" +:+ ":"
      +:+ (if Config.enabled (Config.debug c) then "true" else "false") +:+ ","
      +:+ quoted "level" +:+ ":" +:+ quoted (LogLevel.text (Config.level (Config.debug c))) +:+ ","
      +:+ quoted "logToFile" +:+ ":"
      +:+ (if Config.logToFile (Config.debug c) then "true" else "false") +:+ ","
      +:+ quoted "maxFileSize" +:+ ":" +:+ show (Config.maxFileSize (Config.debug c)) +:+ ","
      +:+ quoted "maxFiles" +:+ ":" +:+ show (Config.maxFiles (Config.debug c))
      +:+ "}}".

(** A parser that accepts the texts of the given configurations. *)
Fixpoint parse_config_among (cs : list Config.AppConfig) (text : string)
    : option Config.PartialAppConfig :=
  match cs with
  | [] => None
  | c :: cs' =>
      if String.eqb (render_config c) text then Some (Config.whole c)
      else parse_config_among cs' text
  end.

(** The default configuration with logging switched on. *)
Definition logging_on : Config.AppConfig :=
  {| Config.debug := Config.with_enabled true (Config.debug Config.defaultConfig_literal) |}.

Definition parse_config : string → option Config.PartialAppConfig :=
  parse_config_among [Config.defaultConfig_literal; logging_on].

(** A log entry without context. *)
Definition entry : @Logger.LogEntry unit :=
  {| Logger.timestamp := "2024-01-01T00:00:00.000Z"; Logger.level := LogLevel.info;
     Logger.message := "Starting TSServer MCP"; Logger.context := None |}.

End Scenario.

(** ** The client *)

Section Client.

Context {any : Type}.

Local Abbreviation Arguments := (@Arguments any).
Local Abbreviation TSServerRequest := (@TSServerRequest any).
Local Abbreviation TSServerResponse := (@TSServerResponse any).
Local Abbreviation TSServerEvent := (@TSServerEvent any).
Local Abbreviation Message := (@Message any).
Local Abbreviation Outcome := (@Outcome any).
Local Abbreviation Phase := (@Phase any).
Local Abbreviation Call := (@Call any).
Local Abbreviation Emitted := (@Emitted any).
Local Abbreviation Obs := (@Obs any).
Local Abbreviation World := (@World any).
Local Abbreviation Task := (@Task any).

(** [JSON.parse] followed by the reading of [message.type]: [None] when
    either throws (both are inside the [try] of [handleData]). *)
Variable JSON_parse : string → option Message.

(** [resolve] of the [path] module. *)
Variable resolve : string → string.

(** *** Field updates *)

Definition set_process (x : option ChildProcess) (w : World) : World :=
  {| process := x; sequence := sequence w; pendingRequests := pendingRequests w;
     buffer := buffer w; openFiles := openFiles w;
     skipAvailabilityCheck := skipAvailabilityCheck w; calls := calls w;
     stops := stops w; fileCalls := fileCalls w;
     timers := timers w; now := now w; spawned := spawned w;
     trace := trace w |}.

Definition set_sequence (x : Z) (w : World) : World :=
  {| process := process w; sequence := x; pendingRequests := pendingRequests w;
     buffer := buffer w; openFiles := openFiles w;
     skipAvailabilityCheck := skipAvailabilityCheck w; calls := calls w;
     stops := stops w; fileCalls := fileCalls w;
     timers := timers w; now := now w; spawned := spawned w;
     trace := trace w |}.

Definition set_pendingRequests (x : list (Z * nat)) (w : World) : World :=
  {| process := process w; sequence := sequence w; pendingRequests := x;
     buffer := buffer w; openFiles := openFiles w;
     skipAvailabilityCheck := skipAvailabilityCheck w; calls := calls w;
     stops := stops w; fileCalls := fileCalls w;
     timers := timers w; now := now w; spawned := spawned w;
     trace := trace w |}.

Definition set_buffer (x : string) (w : World) : World :=
  {| process := process w; sequence := sequence w; pendingRequests := pendingRequests w;
     buffer := x; openFiles := openFiles w;
     skipAvailabilityCheck := skipAvailabilityCheck w; calls := calls w;
     stops := stops w; fileCalls := fileCalls w;
     timers := timers w; now := now w; spawned := spawned w;
     trace := trace w |}.

Definition set_openFiles (x : gset string) (w : World) : World :=
  {| process := process w; sequence := sequence w; pendingRequests := pendingRequests w;
     buffer := buffer w; openFiles := x;
     skipAvailabilityCheck := skipAvailabilityCheck w; calls := calls w;
     stops := stops w; fileCalls := fileCalls w;
     timers := timers w; now := now w; spawned := spawned w;
     trace := trace w |}.

Definition set_calls (x : list Call) (w : World) : World :=
  {| process := process w; sequence := sequence w; pendingRequests := pendingRequests w;
     buffer := buffer w; openFiles := openFiles w;
     skipAvailabilityCheck := skipAvailabilityCheck w; calls := x;
     stops := stops w; fileCalls := fileCalls w;
     timers := timers w; now := now w; spawned := spawned w;
     trace := trace w |}.

Definition set_stops (x : list (nat * bool)) (w : World) : World :=
  {| process := process w; sequence := sequence w; pendingRequests := pendingRequests w;
     buffer := buffer w; openFiles := openFiles w;
     skipAvailabilityCheck := skipAvailabilityCheck w; calls := calls w;
     stops := x; fileCalls := fileCalls w;
     timers := timers w; now := now w; spawned := spawned w;
     trace := trace w |}.

Definition set_fileCalls (x : list (FileCall * bool)) (w : World) : World :=
  {| process := process w; sequence := sequence w; pendingRequests := pendingRequests w;
     buffer := buffer w; openFiles := openFiles w;
     skipAvailabilityCheck := skipAvailabilityCheck w; calls := calls w;
     stops := stops w; fileCalls := x;
     timers := timers w; now := now w; spawned := spawned w;
     trace := trace w |}.

Definition set_timers (x : list Timer) (w : World) : World :=
  {| process := process w; sequence := sequence w; pendingRequests := pendingRequests w;
     buffer := buffer w; openFiles := openFiles w;
     skipAvailabilityCheck := skipAvailabilityCheck w; calls := calls w;
     stops := stops w; fileCalls := fileCalls w;
     timers := x; now := now w; spawned := spawned w;
     trace := trace w |}.

Definition set_now (x : Z) (w : World) : World :=
  {| process := process w; sequence := sequence w; pendingRequests := pendingRequests w;
     buffer := buffer w; openFiles := openFiles w;
     skipAvailabilityCheck := skipAvailabilityCheck w; calls := calls w;
     stops := stops w; fileCalls := fileCalls w;
     timers := timers w; now := x; spawned := spawned w;
     trace := trace w |}.

Definition set_spawned (x : nat) (w : World) : World :=
  {| process := process w; sequence := sequence w; pendingRequests := pendingRequests w;
     buffer := buffer w; openFiles := openFiles w;
     skipAvailabilityCheck := skipAvailabilityCheck w; calls := calls w;
     stops := stops w; fileCalls := fileCalls w;
     timers := timers w; now := now w; spawned := x;
     trace := trace w |}.

Definition set_trace (x : list (Z * Obs)) (w : World) : World :=
  {| process := process w; sequence := sequence w; pendingRequests := pendingRequests w;
     buffer := buffer w; openFiles := openFiles w;
     skipAvailabilityCheck := skipAvailabilityCheck w; calls := calls w;
     stops := stops w; fileCalls := fileCalls w;
     timers := timers w; now := now w; spawned := spawned w;
     trace := x |}.

Definition set_phase (p : Phase) (c : Call) : Call :=
  {| command := command c; args := args c; maxRetries := maxRetries c;
     attempt := attempt c; phase := p |}.

Definition set_attempt (a : Z) (c : Call) : Call :=
  {| command := command c; args := args c; maxRetries := maxRetries c;
     attempt := a; phase := phase c |}.

Definition set_fired (t : Timer) : Timer :=
  {| armed_at := armed_at t; delay := delay t; callback := callback t; fired := true |}.

Definition set_killed (p : ChildProcess) : ChildProcess :=
  {| pid := pid p; stdin := stdin p; killed := true |}.

(** *** Runtime services *)

(** Append an observation, stamped with the current time. *)
Definition observe (o : Obs) (w : World) : World :=
  set_trace (trace w ++ [(now w, o)]) w.

Definition log (level : Level) (text : string) (w : World) : World :=
  observe (Log level text) w.

(** [setTimeout(callback, delay)] *)
Definition setTimeout (cb : Callback) (d : Z) (w : World) : World :=
  set_timers (timers w ++
    [{| armed_at := now w; delay := d; callback := cb; fired := false |}]) w.

Definition set_call (cid : nat) (c : Call) (w : World) : World :=
  set_calls (<[cid := c]> (calls w)) w.

(** ** The handlers of [TSServerClient]

    A continuation that follows an [await] runs as a microtask of the task
    that settled the awaited promise.  The continuations of
    [requestWithRetry] read only the locals of their own call and arm at most
    one timer, so the model runs them at the point of settlement; within one
    task, their trace entries may therefore precede entries that the runtime
    would produce first.  [logger.debug] and [console] output are left out. *)

(** The async function [requestWithRetry] settles, and with it the promise
    [request] returned to the caller. *)
Definition finish (cid : nat) (o : Outcome) (w : World) : World :=
  match calls w !! cid with
  | Some c =>
      observe (match o with
               | Resolved v => Return cid v
               | Rejected e => Throw cid e
               end)
        (set_call cid (set_phase (Finished o) c) w)
  | None => w
  end.

(** [Math.min(1000 * Math.pow(2, attempt), 5000)] *)
Definition backoff (attempt : Z) : Z := Z.min (1000 * 2 ^ attempt) 5000.

(** [requestWithRetry] resumes after [await new Promise]: the [return] on
    fulfilment, the [catch] block on rejection. *)
Definition resume_request (cid : nat) (o : Outcome) (w : World) : World :=
  match calls w !! cid with
  | None => w
  | Some c =>
      match o with
      | Resolved v => finish cid (Resolved v) w
      | Rejected error =>
          let errorMessage := error_message error in
          let isDebugFailure := includes errorMessage "Debug Failure" in
          let isLastAttempt := (attempt c =? maxRetries c)%Z in
          let w := log Warn "TSServer request failed" w in
          if isDebugFailure && negb isLastAttempt then
            let delay := backoff (attempt c) in
            let w := log Info "Retrying TSServer request after debug failure" w in
            setTimeout (RetryDelay cid) delay (set_call cid (set_phase Sleeping c) w)
          else
            finish cid (Rejected error) w
      end
  end.

(** A promise settles once: settling the promise of request [seq] resumes
    call [cid] only while the call still awaits that promise. *)
Definition settle (cid : nat) (seq : Z) (o : Outcome) (w : World) : World :=
  match calls w !! cid with
  | Some c =>
      match phase c with
      | Awaiting s => if (s =? seq)%Z then resume_request cid o w else w
      | _ => w
      end
  | None => w
  end.

(** The [resolve] and [reject] functions of the promise of request [seq],
    created by call [cid]. *)
Definition invoke_resolve (seq : Z) (cid : nat) (body : option any) (w : World) : World :=
  settle cid seq (Resolved body) (observe (Resolve seq cid body) w).

Definition invoke_reject (seq : Z) (cid : nat) (e : Error) (w : World) : World :=
  settle cid seq (Rejected e) (observe (Reject seq cid e) w).

(** [handleMessage] *)
Definition failure_error (m : option string) : Error :=
  match truthy m with
  | Some text =>
      if includes text "Debug Failure"
      then {| error_message :=
                "TSServer Debug Failure: " +:+ text +:+
                ". This may be due to file state issues or concurrent operations." |}
      else {| error_message := text |}
  | None => {| error_message := "Request failed" |}
  end.

Definition handleMessage (m : Message) (w : World) : World :=
  match m with
  | Response r =>
      match map_get (request_seq r) (pendingRequests w) with
      | Some cid =>
          let w := set_pendingRequests (map_delete (request_seq r) (pendingRequests w)) w in
          if success r then
            invoke_resolve (request_seq r) cid (res_body r) w
          else
            let error := failure_error (message r) in
            let w := log ErrorLevel "TSServer request failed" w in
            invoke_reject (request_seq r) cid error w
      | None =>
          log Warn "TSServer response received for unknown request" w
      end
  | Event e => observe (Emit (EmitEvent e)) w
  | UnknownType => log Warn "TSServer unknown message type received" w
  end.

(** [handleData]: the [while (true)] loop.  Every turn that does not [break]
    removes a non-empty header from the buffer, so the length of the buffer
    bounds the number of turns ([handleData_loop_fuel] below). *)
Fixpoint handleData_loop (fuel : nat) (w : World) : World :=
  match fuel with
  | O => w
  | S fuel' =>
      match matchHeader (buffer w) with
      | None => w
      | Some headerMatch =>
          let contentLength := parseInt (group1 headerMatch) in
          let headerLength := String.length (whole headerMatch) in
          if (N.of_nat (String.length (buffer w)) <? N.of_nat headerLength + contentLength)%N
          then w
          else
            let content :=
              slice (buffer w) headerLength (headerLength + N.to_nat contentLength) in
            let w := set_buffer
                       (slice_from (buffer w) (headerLength + N.to_nat contentLength)) w in
            let w := match JSON_parse content with
                     | Some message => handleMessage message w
                     | None => log Warn "Failed to parse TSServer Content-Length message" w
                     end in
            handleData_loop fuel' w
      end
  end.

Definition handleData (data : string) (w : World) : World :=
  let w := set_buffer (buffer w +:+ data) w in
  handleData_loop (S (String.length (buffer w))) w.

(** The per-command budget of [requestWithRetry]. *)
Definition timeout_for (command : string) : Z :=
  if String.eqb command "open" then 30000 else 15000.

Definition timeout_error (command : string) (timeout : Z) : Error :=
  {| error_message := "Request " +:+ command +:+ " timed out after " +:+ show timeout +:+ "ms" |}.

Definition not_started : Error := {| error_message := "TSServer not started" |}.

(** What [this.process!.stdin!.write] throws when [process], or its [stdin],
    is null (the text is V8's). *)
Definition null_process_error : Error :=
  {| error_message := "Cannot read properties of null (reading 'stdin')" |}.
Definition null_stdin_error : Error :=
  {| error_message := "Cannot read properties of null (reading 'write')" |}.

(** One turn of the [for] loop of [requestWithRetry], up to its [await].  An
    exception in the promise executor rejects the promise, and the entry
    stored before it stays in the map. *)
Definition attempt_request (cid : nat) (w : World) : World :=
  match calls w !! cid with
  | None => w
  | Some c =>
      if (attempt c <=? maxRetries c)%Z then
        let seq := sequence w in
        let w := set_sequence (seq + 1) w in
        let request := {| req_seq := seq; req_command := command c;
                          req_arguments := args c |} in
        let w := set_pendingRequests (map_set seq cid (pendingRequests w)) w in
        let w := set_call cid (set_phase (Awaiting seq) c) w in
        match process w with
        | Some p =>
            if stdin p then
              let w := observe (Write request) w in
              let timeout := timeout_for (command c) in
              setTimeout (RequestTimeout cid seq (command c) timeout) timeout w
            else settle cid seq (Rejected null_stdin_error) w
        | None => settle cid seq (Rejected null_process_error) w
        end
      else
        finish cid
          (Rejected {| error_message :=
             "Request " +:+ command c +:+ " failed after " +:+ show (maxRetries c + 1) +:+ " attempts" |})
          w
  end.

Definition requestWithRetry (cmd : string) (a : option Arguments) (retries : Z)
    (w : World) : World :=
  let cid := List.length (calls w) in
  let w := set_calls (calls w ++
             [{| command := cmd; args := a; maxRetries := retries;
                 attempt := 0; phase := Running |}]) w in
  match process w with
  | Some p =>
      if stdin p then attempt_request cid w
      else finish cid (Rejected not_started) w
  | None => finish cid (Rejected not_started) w
  end.

Definition request (cmd : string) (a : option Arguments) (w : World) : World :=
  requestWithRetry cmd a 3 w.

(** [notify]: the error it throws, if any. *)
Definition notify (cmd : string) (a : option Arguments) (w : World) : World * option Error :=
  match process w with
  | Some p =>
      if stdin p then
        let seq := sequence w in
        let w := set_sequence (seq + 1) w in
        (observe (Write {| req_seq := seq; req_command := cmd; req_arguments := a |}) w, None)
      else (w, Some not_started)
  | None => (w, Some not_started)
  end.

(** [openFile] and [closeFile] up to [await this.notify(...)]: the call has
    returned ([None]), or it is suspended there.  [notify] writes before it
    returns its promise; the set is updated by the continuation. *)
Definition openFile (file : string) (w : World) : World * option FileCall :=
  let normalizedPath := resolve file in
  if decide (normalizedPath ∈ openFiles w) then (w, None)
  else
    let '(w, thrown) := notify "open" (Some (FileArgs normalizedPath)) w in
    (w, Some {| operation := OpenFile; normalizedPath := normalizedPath;
                thrown := thrown |}).

Definition closeFile (file : string) (w : World) : World * option FileCall :=
  let normalizedPath := resolve file in
  if decide (normalizedPath ∉ openFiles w) then (w, None)
  else
    let '(w, thrown) := notify "close" (Some (FileArgs normalizedPath)) w in
    (w, Some {| operation := CloseFile; normalizedPath := normalizedPath;
                thrown := thrown |}).

(** The continuation after [await this.notify(...)], with the error the call
    throws, if any: an error of [notify] is thrown on, and otherwise the set
    is updated. *)
Definition resume_fileCall (c : FileCall) (w : World) : World * option Error :=
  match thrown c with
  | Some e => (w, Some e)
  | None =>
      match operation c with
      | OpenFile => (set_openFiles ({[normalizedPath c]} ∪ openFiles w) w, None)
      | CloseFile => (set_openFiles (openFiles w ∖ {[normalizedPath c]}) w, None)
      end
  end.

(** A call of [openFile] or [closeFile] that a caller awaits while nothing
    else runs: the continuation follows the suspension at once. *)
Definition awaited (r : World * option FileCall) : World * option Error :=
  match r with
  | (w, Some c) => resume_fileCall c w
  | (w, None) => (w, None)
  end.

Definition shutting_down : Error := {| error_message := "TSServer is shutting down" |}.

(** The text [{"seq":0,"type":"request","command":"exit"}] and a line feed. *)
Definition exit_command : string :=
  "{" +:+ quoted "seq" +:+ ":0," +:+ quoted "type" +:+ ":" +:+ quoted "request" +:+ ","
      +:+ quoted "command" +:+ ":" +:+ quoted "exit" +:+ "}" +:+ String LF "".

(** [stop], up to its [await Promise.race]: the entries of the map are
    visited in insertion order. *)
Definition cancel_all (entries : list (Z * nat)) (w : World) : World :=
  fold_left (fun w entry => invoke_reject entry.1 entry.2 shutting_down w) entries w.

Definition stop (w : World) : World :=
  let w := cancel_all (pendingRequests w) w in
  let w := set_pendingRequests [] w in
  match process w with
  | Some p =>
      let w := if stdin p then observe End (observe (WriteRaw exit_command) w) else w in
      let sid := List.length (stops w) in
      let w := set_stops (stops w ++ [(pid p, true)]) w in
      setTimeout (StopGrace sid) 3000 w
  | None => set_openFiles ∅ w
  end.

(** [stop] resumes after [await Promise.race], once. *)
Definition stop_resume (sid : nat) (w : World) : World :=
  match stops w !! sid with
  | Some (p, true) =>
      let w := set_stops (<[sid := (p, false)]> (stops w)) w in
      let w := match process w with
               | Some cp =>
                   if negb (killed cp)
                   then observe (Kill (pid cp) "SIGKILL") (set_process (Some (set_killed cp)) w)
                   else w
               | None => w
               end in
      let w := set_process None w in
      set_openFiles ∅ w
  | _ => w
  end.

(** The ['exit'] listeners of child [p]: the one registered by [start], then
    the [once('exit')] listeners of the suspended calls of [stop]. *)
Definition waiting_stops (p : nat) (w : World) : list nat :=
  filter (fun sid => bool_decide (stops w !! sid = Some (p, true)))
         (seq 0 (List.length (stops w))).

Definition on_exit (p : nat) (code : option Z) (signal : option string) (w : World) : World :=
  let w := log Info "TSServer process exited" w in
  let w := set_process None w in
  let w := observe (Emit (EmitExit code signal)) w in
  fold_left (fun w sid => stop_resume sid w) (waiting_stops p w) w.

(** [start].  [spawn] with [stdio: 'pipe'] gives the child all three pipes,
    so the test for a missing pipe does not fire.  In the other mode the
    promise of [start] follows the outcome of the ['configure'] request. *)
Definition start (w : World) : World :=
  match process w with
  | Some _ => observe (Failed "start" {| error_message := "TSServer already started" |}) w
  | None =>
      let p := {| pid := spawned w; stdin := true; killed := false |} in
      let w := set_spawned (S (spawned w)) (set_process (Some p) w) in
      if skipAvailabilityCheck w
      then setTimeout StartReady 100 w
      else setTimeout StartConfigure 2000 w
  end.

(** A timer callback. *)
Definition run_callback (cb : Callback) (w : World) : World :=
  match cb with
  | RequestTimeout cid seq cmd timeout =>
      if map_has seq (pendingRequests w) then
        let w := set_pendingRequests (map_delete seq (pendingRequests w)) w in
        let timeoutError := timeout_error cmd timeout in
        let w := log ErrorLevel "TSServer request timeout" w in
        invoke_reject seq cid timeoutError w
      else w
  | RetryDelay cid =>
      match calls w !! cid with
      | Some c => attempt_request cid (set_call cid (set_attempt (attempt c + 1) c) w)
      | None => w
      end
  | StopGrace sid => stop_resume sid w
  | StartReady => observe Started w
  | StartConfigure => request "configure" (Some ConfigurePreferences) w
  end.

(** Timer [i] fires: once, and not before its delay has passed. *)
Definition fire (i : nat) (w : World) : World :=
  match timers w !! i with
  | Some t =>
      if fired t || (now w <? armed_at t + delay t)%Z then w
      else run_callback (callback t) (set_timers (<[i := set_fired t]> (timers w)) w)
  | None => w
  end.

(** ** The event loop

    A call of [openFile] or [closeFile] by the rest of the program runs up to
    its [await], and its continuation is a task of its own: it runs once the
    code that made the call has come to its own end, and other calls that
    this code makes run before it. *)

Definition record_failure (operation : string) (r : World * option Error) : World :=
  match r with
  | (w, Some e) => observe (Failed operation e) w
  | (w, None) => w
  end.

Definition suspend (r : World * option FileCall) : World :=
  match r with
  | (w, Some c) => set_fileCalls (fileCalls w ++ [(c, true)]) w
  | (w, None) => w
  end.

Definition operation_name (c : FileCall) : string :=
  match operation c with
  | OpenFile => "openFile"
  | CloseFile => "closeFile"
  end.

(** A suspended call resumes, once. *)
Definition fileCall_resume (fid : nat) (w : World) : World :=
  match fileCalls w !! fid with
  | Some (c, true) =>
      let w := set_fileCalls (<[fid := (c, false)]> (fileCalls w)) w in
      record_failure (operation_name c) (resume_fileCall c w)
  | _ => w
  end.

Definition step (w : World) (t : Task) : World :=
  match t with
  | CallStart => start w
  | CallRequest cmd a => request cmd a w
  | CallOpenFile file => suspend (openFile file w)
  | CallCloseFile file => suspend (closeFile file w)
  | FileCallResumes fid => fileCall_resume fid w
  | CallStop => stop w
  | StdoutData data => if (0 <? spawned w)%nat then handleData data w else w
  | ProcessExit p code signal => if (p <? spawned w)%nat then on_exit p code signal w else w
  | TimerFires i => fire i w
  | Elapse dt => if (0 <=? dt)%Z then set_now (now w + dt) w else w
  end.

Definition run (ts : list Task) (w : World) : World := fold_left step ts w.

(** [new TSServerClient(tsserverPath, skipAvailabilityCheck)] at time [t0]. *)
Definition new_client (skip : bool) (t0 : Z) : World :=
  {| process := None; sequence := 1; pendingRequests := []; buffer := "";
     openFiles := ∅; skipAvailabilityCheck := skip; calls := []; stops := [];
     fileCalls := []; timers := []; now := t0; spawned := 0; trace := [] |}.

(** ** Vocabulary of the properties *)

(** One turn of the loop of [handleData] on the buffer alone: the content
    sliced out and the buffer left, or [None] where the loop breaks. *)
Definition next_frame (buf : string) : option (string * string) :=
  match matchHeader buf with
  | None => None
  | Some hm =>
      let n := parseInt (group1 hm) in
      let h := String.length (whole hm) in
      if (N.of_nat (String.length buf) <? N.of_nat h + n)%N then None
      else Some (slice buf h (h + N.to_nat n), slice_from buf (h + N.to_nat n))
  end.

(** What the loop does with a slice: the [try] block. *)
Definition deliver (content : string) (w : World) : World :=
  match JSON_parse content with
  | Some m => handleMessage m w
  | None => log Warn "Failed to parse TSServer Content-Length message" w
  end.

(** The data arrives in chunks. *)
Definition feed (chunks : list string) (w : World) : World :=
  fold_left (fun w chunk => handleData chunk w) chunks w.

Definition join (chunks : list string) : string :=
  fold_right String.append "" chunks.

(** The same on the buffer alone: the slices one call yields and the buffer
    it leaves. *)
Fixpoint frames (fuel : nat) (buf : string) : list string * string :=
  match fuel with
  | O => ([], buf)
  | S fuel' =>
      match next_frame buf with
      | None => ([], buf)
      | Some (content, rest) =>
          let '(contents, remaining) := frames fuel' rest in (content :: contents, remaining)
      end
  end.

Definition yielded (buf data : string) : list string * string :=
  frames (S (String.length (buf +:+ data))) (buf +:+ data).

Definition deliver_all (contents : list string) (w : World) : World :=
  fold_left (fun w content => deliver content w) contents w.

(** Chunks fed one after the other: the slices of all calls in order, and
    the buffer left at the end. *)
Fixpoint yielded_chunks (buf : string) (chunks : list string) : list string * string :=
  match chunks with
  | [] => ([], buf)
  | chunk :: chunks' =>
      let '(contents, buf') := yielded buf chunk in
      let '(more, final) := yielded_chunks buf' chunks' in
      (contents ++ more, final)
  end.

(** A stream of frames as section 6 of the protocol description has them: a
    header that announces the length of the content in decimal, then the
    content. *)
Inductive framed : list string → string → Prop :=
| framed_nil : framed [] ""
| framed_cons digits cr1 cr2 content contents text :
    all_digits digits = true → digits ≠ "" →
    parseInt digits = N.of_nat (String.length content) →
    framed contents text →
    framed (content :: contents) (header digits cr1 cr2 +:+ content +:+ text).

(** [s] differs from [lit] at a position both have. *)
Fixpoint departs (lit s : string) : bool :=
  match lit, s with
  | String a lit', String b s' => if Ascii.eqb a b then departs lit' s' else true
  | _, _ => false
  end.

(** The continuations invoked on a trace: [resolve] and [reject] of the
    promise of a request. *)
Definition settlement (entry : Z * Obs) : option (Z * nat * Outcome) :=
  match entry.2 with
  | Resolve seq cid body => Some (seq, cid, Resolved body)
  | Reject seq cid e => Some (seq, cid, Rejected e)
  | _ => None
  end.

Definition settlements (w : World) : list (Z * nat * Outcome) :=
  omap settlement (trace w).

Definition settled_seqs (w : World) : list Z := (settlements w).*1.*1.

(** [w'] differs from [w] in its calls, by new timers and by new trace
    entries that are not invocations of a continuation. *)
Record quiet (w w' : World) : Prop := {
  quiet_process : process w' = process w;
  quiet_sequence : sequence w' = sequence w;
  quiet_pendingRequests : pendingRequests w' = pendingRequests w;
  quiet_buffer : buffer w' = buffer w;
  quiet_openFiles : openFiles w' = openFiles w;
  quiet_skip : skipAvailabilityCheck w' = skipAvailabilityCheck w;
  quiet_stops : stops w' = stops w;
  quiet_now : now w' = now w;
  quiet_spawned : spawned w' = spawned w;
  quiet_settlements : settlements w' = settlements w;
  quiet_calls : List.length (calls w') = List.length (calls w);
  quiet_trace : ∃ more, trace w' = trace w ++ more;
  quiet_timers : ∃ more, timers w' = timers w ++ more;
}.

(** The part of the state the invariant reads. *)
Definition same_core (w w' : World) : Prop :=
  pendingRequests w' = pendingRequests w ∧ sequence w' = sequence w ∧
  settlements w' = settlements w.


(** [w'] differs from [w] in its calls, by new timers and by new trace
    entries. *)
Record stable (w w' : World) : Prop := {
  stable_process : process w' = process w;
  stable_sequence : sequence w' = sequence w;
  stable_pendingRequests : pendingRequests w' = pendingRequests w;
  stable_buffer : buffer w' = buffer w;
  stable_openFiles : openFiles w' = openFiles w;
  stable_skip : skipAvailabilityCheck w' = skipAvailabilityCheck w;
  stable_stops : stops w' = stops w;
  stable_now : now w' = now w;
  stable_spawned : spawned w' = spawned w;
  stable_calls : List.length (calls w') = List.length (calls w);
  stable_trace : ∃ more, trace w' = trace w ++ more;
  stable_timers : ∃ more, timers w' = timers w ++ more;
}.

Definition cancelled (entry : Z * nat) : Z * nat * Outcome :=
  (entry.1, entry.2, Rejected shutting_down).

Definition retry_armed (cid : nat) (t : Timer) : bool :=
  negb (fired t) &&
  match callback t with
  | RetryDelay c => (c =? cid)%nat
  | _ => false
  end.

Definition armed_retries (cid : nat) (w : World) : nat :=
  List.length (List.filter (retry_armed cid) (timers w)).

Definition timer_ok (tr : list (Z * Obs)) (t : Timer) : Prop :=
  match callback t with
  | RequestTimeout cid seq cmd timeout =>
      timeout = timeout_for cmd ∧ delay t = timeout ∧
      ∃ a, (armed_at t, Write {| req_seq := seq; req_command := cmd; req_arguments := a |}) ∈ tr
  | _ => True
  end.

Record RuntimeInv (w : World) : Prop := {
  ri_calls : ∀ cid c, calls w !! cid = Some c →
    maxRetries c = 3%Z ∧ (0 ≤ attempt c ≤ 3)%Z ∧
    (armed_retries cid w = 0 ∨
     (armed_retries cid w = 1 ∧ phase c = Sleeping ∧ (attempt c < 3)%Z));
  ri_none : ∀ cid, calls w !! cid = None → armed_retries cid w = 0;
  ri_timers : Forall (timer_ok (trace w)) (timers w);
}.

(** The call after [await new Promise] has settled with [o]. *)
Definition resumed (c : Call) (o : Outcome) : Call :=
  match o with
  | Resolved v => set_phase (Finished (Resolved v)) c
  | Rejected e =>
      if includes (error_message e) "Debug Failure" && negb (attempt c =? maxRetries c)%Z
      then set_phase Sleeping c
      else set_phase (Finished (Rejected e)) c
  end.

Definition resumed_calls (cid : nat) (seq : Z) (o : Outcome) (cs : list Call) : list Call :=
  match cs !! cid with
  | Some c =>
      match phase c with
      | Awaiting s => if (s =? seq)%Z then <[cid := resumed c o]> cs else cs
      | _ => cs
      end
  | None => cs
  end.

(** The outcome a response carries. *)
Definition outcome_of (r : TSServerResponse) : Outcome :=
  if success r then Resolved (res_body r) else Rejected (failure_error (message r)).

(** Responses handled one after the other. *)
Definition handle_all (rs : list TSServerResponse) (w : World) : World :=
  fold_left (λ w r, handleMessage (Response r) w) rs w.

Definition settled_by (pending : list (Z * nat)) (r : TSServerResponse)
    : option (Z * nat * Outcome) :=
  match map_get (request_seq r) pending with
  | Some cid => Some (request_seq r, cid, outcome_of r)
  | None => None
  end.


(** Settlements applied to the calls one after the other. *)
Definition apply_settlements (ss : list (Z * nat * Outcome)) (cs : list Call) : list Call :=
  fold_left (λ cs s, resumed_calls s.1.2 s.1.1 s.2 cs) ss cs.

(** The messages among the slices: those that [JSON.parse] accepts. *)
Definition parsed (contents : list string) : list Message := omap JSON_parse contents.



(** The commands the tools of the repository pass to [request]. *)
Definition tool_commands : list string :=
  ["configure"; "definition"; "quickinfo"; "references"; "rename"; "organizeImports";
   "syntacticDiagnosticsSync"; "semanticDiagnosticsSync"].


Definition debug_failure_text (text : string) : string :=
  "TSServer Debug Failure: " +:+ text +:+
  ". This may be due to file state issues or concurrent operations.".

Definition running (w : World) : Prop :=
  ∃ p, process w = Some p ∧ stdin p = true.

(** The world in which the client has written a request. *)
Definition notified (cmd : string) (file : string) (w : World) : World :=
  observe (Write {| req_seq := sequence w; req_command := cmd;
                    req_arguments := Some (FileArgs (resolve file)) |})
    (set_sequence (sequence w + 1) w).

(** A call suspended at [await this.notify(...)], [notify] having returned. *)
Definition suspended_at (operation : FileOperation) (file : string) : FileCall :=
  {| operation := operation; normalizedPath := resolve file; thrown := None |}.

Definition outward (o : Obs) : bool :=
  match o with
  | Write _ | WriteRaw _ | End | Kill _ _ => true
  | _ => false
  end.

Definition outputs (w : World) : list (Z * Obs) :=
  List.filter (λ e, outward e.2) (trace w).

(** The sequence numbers of the requests written, in the order of writing. *)
Definition written_seq (e : Z * Obs) : option Z :=
  match e.2 with
  | Write r => Some (req_seq r)
  | _ => None
  end.

Definition written (w : World) : list Z := omap written_seq (trace w).

(** [w'] is [w] after work that stays inside the client: the child, the
    sequence counter and the open-file set are as before, and nothing has
    been done to the child. *)
Record inward (w w' : World) : Prop := {
  inward_process : process w' = process w;
  inward_sequence : sequence w' = sequence w;
  inward_openFiles : openFiles w' = openFiles w;
  inward_stops : stops w' = stops w;
  inward_now : now w' = now w;
  inward_spawned : spawned w' = spawned w;
  inward_calls : List.length (calls w') = List.length (calls w);
  inward_keys : keys (pendingRequests w') `sublist_of` keys (pendingRequests w);
  inward_trace : ∃ more, trace w' = trace w ++ more ∧ Forall (λ e, outward e.2 = false) more;
}.



Definition timeout_armed (cid : nat) (seq : Z) (c : Call) (w : World) : Prop :=
  ∃ i t, timers w !! i = Some t ∧ fired t = false ∧
         callback t = RequestTimeout cid seq (command c) (timeout_for (command c)) ∧
         delay t = timeout_for (command c) ∧ (armed_at t ≤ now w)%Z.

Definition retry_timer (cid : nat) (c : Call) (w : World) : Prop :=
  ∃ i t, timers w !! i = Some t ∧ fired t = false ∧ callback t = RetryDelay cid ∧
         delay t = backoff (attempt c) ∧ (armed_at t ≤ now w)%Z.

Definition call_ok (w : World) (cid : nat) (c : Call) : Prop :=
  match phase c with
  | Running => False
  | Awaiting seq => map_get seq (pendingRequests w) = Some cid ∧ timeout_armed cid seq c w
  | Sleeping => retry_timer cid c w
  | Finished _ => True
  end.

(** A timeout timer is for a request below the counter, and if the request
    is in the map, it is there under the call of the timer. *)
Definition timers_ok (w : World) : Prop :=
  ∀ i t cid seq cmd timeout,
    timers w !! i = Some t → callback t = RequestTimeout cid seq cmd timeout →
    (seq < sequence w)%Z ∧
    ∀ cid', map_get seq (pendingRequests w) = Some cid' → cid' = cid.

(** The invariant, but for the calls in [hole]: those a handler is working
    on. *)
Record ProgressBut (hole : nat → Call → Prop) (w : World) : Prop := {
  pr_calls : ∀ cid c, calls w !! cid = Some c → ¬ hole cid c → call_ok w cid c;
  pr_timers : timers_ok w;
  pr_keys : ∀ k, k ∈ keys (pendingRequests w) → (k < sequence w)%Z;
}.

Definition no_hole : nat → Call → Prop := λ _ _, False.
Definition hole_at (cid : nat) : nat → Call → Prop := λ cid' _, cid' = cid.
Definition hole_awaiting (seq : Z) : nat → Call → Prop := λ _ c, phase c = Awaiting seq.

Definition Progress (w : World) : Prop := ProgressBut no_hole w.

(** The calls a timer is for. *)
Definition claims (t : Timer) : nat → Call → Prop :=
  match callback t with
  | RequestTimeout _ seq _ _ => hole_awaiting seq
  | RetryDelay cid => hole_at cid
  | _ => no_hole
  end.

Definition no_timeout (t : Timer) : Prop :=
  match callback t with RequestTimeout _ _ _ _ => False | _ => True end.

(** [w'] is [w] with the same calls and pending map, later in time, the
    counter further on and more timers, none of them a timeout timer. *)
Record grown (w w' : World) : Prop := {
  grown_calls : calls w' = calls w;
  grown_pendingRequests : pendingRequests w' = pendingRequests w;
  grown_sequence : (sequence w ≤ sequence w')%Z;
  grown_now : (now w ≤ now w')%Z;
  grown_timers : ∃ more, timers w' = timers w ++ more ∧ Forall no_timeout more;
}.

(** Only call [cid] awaits request [seq]. *)
Definition only_awaits (cid : nat) (seq : Z) (w : World) : Prop :=
  ∀ cid' c', calls w !! cid' = Some c' → phase c' = Awaiting seq → cid' = cid.

(** The state of a client that was never started. *)
Record Idle (w : World) : Prop := {
  idle_process : process w = None;
  idle_spawned : spawned w = 0;
  idle_sequence : sequence w = 1%Z;
  idle_pendingRequests : pendingRequests w = [];
  idle_timers : timers w = [];
  idle_openFiles : openFiles w = ∅;
  idle_buffer : buffer w = "";
  idle_outputs : outputs w = [];
  idle_calls : ∀ cid c, calls w !! cid = Some c → phase c = Finished (Rejected not_started);
  idle_fileCalls : ∀ fid c b, fileCalls w !! fid = Some (c, b) → thrown c = Some not_started;
}.

Definition timeout_of (cid : nat) (t : Timer) : bool :=
  match callback t with
  | RequestTimeout c _ _ _ => (c =? cid)%nat
  | _ => false
  end.

(** The timeout timers that call [cid] has armed, one with each request it
    has written. *)
Definition attempts (cid : nat) (w : World) : list Timer :=
  List.filter (timeout_of cid) (timers w).

Record Bounded (w : World) : Prop := {
  bd_calls : ∀ cid c, calls w !! cid = Some c →
    (Z.of_nat (List.length (attempts cid w)) ≤ attempt c + 1)%Z;
  bd_none : ∀ cid, calls w !! cid = None → attempts cid w = [];
}.

(** [w'] is [w] with the same calls at the same attempts, and more timers,
    none of them a timeout timer. *)
Record resting (w w' : World) : Prop := {
  rest_length : List.length (calls w') = List.length (calls w);
  rest_attempt : ∀ cid c c', calls w !! cid = Some c → calls w' !! cid = Some c' →
    attempt c' = attempt c;
  rest_timers : ∃ more, timers w' = timers w ++ more ∧ Forall no_timeout more;
}.

(** ** The tools ([tools/*.ts]) *)

(** The tools are [async] functions over the client.  What they take for
    granted about values of type [any]: the object literals they pass as
    arguments, and the typed view that [request<T>] gives of a response
    body, [None] where the body is falsy.  A body that is not of its type is
    outside the model. *)
Record Casts := {
  position_args : string → Z → Z → any;        (* { file, line, offset } *)
  diagnostics_args : string → any;             (* { file, includeLinePosition: true } *)
  is_truthy : any → bool;
  as_DefinitionInfos : any → option (list Tools.DefinitionInfo);
  as_QuickInfo : any → option Tools.QuickInfo;
  as_ReferencesResponseBody : any → option Tools.ReferencesResponseBody;
  as_RenameResponseBody : any → option Tools.RenameResponseBody;
  as_Changes : any → option (list Tools.Change);
}.

(** How an [async] function ends. *)
Inductive Settled (R : Type) :=
| Returned (r : R)
| Thrown (e : Error).
Arguments Returned {R} r.
Arguments Thrown {R} e.

(** A tool has ended, or it is suspended at [await client.request(...)] on
    call [cid], with what it does once the call has finished.  A tool awaits
    [openFile] and [closeFile] as well; there the continuation of the client
    and then that of the tool are the next to run when no other caller is at
    work, and the model of a tool takes the two calls together with their
    continuations ([awaited]).  It is the model of a tool whose calls of
    [openFile] and [closeFile] do not overlap with those of another caller. *)
#[warning="-register-all"] Inductive Tool (R : Type) :=
| Done (r : Settled R)
| Await (cid : nat) (k : Outcome → World → World * Tool R).
Arguments Done {R} r.
Arguments Await {R} cid k.

(** The microtask that runs a suspended tool on once its call has finished. *)
Definition resume {R : Type} (t : Tool R) (w : World) : World * Tool R :=
  match t with
  | Done _ => (w, t)
  | Await cid k =>
      match phase <$> calls w !! cid with
      | Some (Finished o) => k o w
      | _ => (w, t)
      end
  end.

(** [finally { await client.closeFile(file) }] after a [try] (and [catch])
    that ended with [r]: an error of [closeFile] replaces [r]. *)
Definition finally_closeFile {R : Type} (file : string) (r : Settled R) (w : World)
    : World * Tool R :=
  match awaited (closeFile file w) with
  | (w, Some e) => (w, Done (Thrown e))
  | (w, None) => (w, Done r)
  end.

(** [getDefinition] ([tools/definition.ts]) *)
Definition getDefinition (casts : Casts) (args : Tools.DefinitionArgs) (w : World)
    : World * Tool Tools.DefinitionResult :=
  let normalizedPath := resolve (Tools.a_file args) in
  match awaited (openFile normalizedPath w) with
  | (w, Some e) => (w, Done (Thrown e))
  | (w, None) =>
      let cid := List.length (calls w) in
      let w := request "definition"
                 (Some (AnyArgs (position_args casts normalizedPath
                                   (Tools.a_line args) (Tools.a_offset args)))) w in
      (w, Await cid (λ o w,
             finally_closeFile normalizedPath
               match o with
               | Resolved response =>
                   Returned (Tools.getDefinition_result (response ≫= as_DefinitionInfos casts))
               | Rejected e => Thrown e
               end w))
  end.

(** [getHover] ([tools/hover.ts]); its [catch] block returns [null]. *)
Definition getHover (casts : Casts) (args : Tools.HoverArgs) (w : World)
    : World * Tool (option Tools.HoverResult) :=
  let normalizedPath := resolve (Tools.a_file args) in
  match awaited (openFile normalizedPath w) with
  | (w, Some e) => (w, Done (Thrown e))
  | (w, None) =>
      let cid := List.length (calls w) in
      let w := request "quickinfo"
                 (Some (AnyArgs (position_args casts normalizedPath
                                   (Tools.a_line args) (Tools.a_offset args)))) w in
      (w, Await cid (λ o w,
             finally_closeFile normalizedPath
               match o with
               | Resolved response =>
                   Returned (Tools.getHover_result <$> (response ≫= as_QuickInfo casts))
               | Rejected _ => Returned None
               end w))
  end.

(** [getReferences] ([tools/references.ts]) *)
Definition getReferences (casts : Casts) (args : Tools.ReferencesArgs) (w : World)
    : World * Tool (option Tools.ReferencesResult) :=
  match awaited (openFile (Tools.a_file args) w) with
  | (w, Some e) => (w, Done (Thrown e))
  | (w, None) =>
      let cid := List.length (calls w) in
      let w := request "references"
                 (Some (AnyArgs (position_args casts (Tools.a_file args)
                                   (Tools.a_line args) (Tools.a_offset args)))) w in
      (w, Await cid (λ o w,
             finally_closeFile (Tools.a_file args)
               match o with
               | Resolved response =>
                   Returned (Tools.getReferences_result
                               (response ≫= as_ReferencesResponseBody casts))
               | Rejected e => Thrown e
               end w))
  end.

(** [getRename] ([tools/rename.ts]); the new name is not sent. *)
Definition getRename (casts : Casts) (args : Tools.RenameArgs) (w : World)
    : World * Tool Tools.RenameResult :=
  match awaited (openFile (Tools.r_file args) w) with
  | (w, Some e) => (w, Done (Thrown e))
  | (w, None) =>
      let cid := List.length (calls w) in
      let w := request "rename"
                 (Some (AnyArgs (position_args casts (Tools.r_file args)
                                   (Tools.r_line args) (Tools.r_offset args)))) w in
      (w, Await cid (λ o w,
             finally_closeFile (Tools.r_file args)
               match o with
               | Resolved response =>
                   Returned (Tools.getRename_result (Tools.newName args)
                               (response ≫= as_RenameResponseBody casts))
               | Rejected e => Thrown e
               end w))
  end.

(** [organizeImports] ([tools/organizeImports.ts]); its [catch] block
    returns [{ success: false }] (what it prints with [console.error] is left
    out). *)
Definition organizeImports (casts : Casts) (file : string) (w : World)
    : World * Tool Tools.OrganizeImportsResult :=
  match awaited (openFile file w) with
  | (w, Some e) => (w, Done (Thrown e))
  | (w, None) =>
      let cid := List.length (calls w) in
      let w := request "organizeImports" (Some (FileArgs file)) w in
      (w, Await cid (λ o w,
             finally_closeFile file
               match o with
               | Resolved response =>
                   Returned (Tools.organizeImports_result (response ≫= as_Changes casts))
               | Rejected _ =>
                   Returned {| Tools.success := false; Tools.o_changes := None |}
               end w))
  end.

(** [response || []] for a response of type [any]: [None] is the empty
    array. *)
Definition or_empty (casts : Casts) (response : option any) : option any :=
  match response with
  | Some a => if is_truthy casts a then Some a else None
  | None => None
  end.

(** The result of [getDiagnostics]. *)
Record Diagnostics := { syntactic : option any; semantic : option any }.

(** [getDiagnostics] ([tools/diagnostics.ts]): two requests, the second
    made once the first has been answered. *)
Definition getDiagnostics (casts : Casts) (file : string) (w : World)
    : World * Tool Diagnostics :=
  match awaited (openFile file w) with
  | (w, Some e) => (w, Done (Thrown e))
  | (w, None) =>
      let cid := List.length (calls w) in
      let w := request "syntacticDiagnosticsSync"
                 (Some (AnyArgs (diagnostics_args casts file))) w in
      (w, Await cid (λ o w,
             match o with
             | Resolved syntacticResponse =>
                 let cid := List.length (calls w) in
                 let w := request "semanticDiagnosticsSync"
                            (Some (AnyArgs (diagnostics_args casts file))) w in
                 (w, Await cid (λ o w,
                        finally_closeFile file
                          match o with
                          | Resolved semanticResponse =>
                              Returned {| syntactic := or_empty casts syntacticResponse;
                                          semantic := or_empty casts semanticResponse |}
                          | Rejected e => Thrown e
                          end w))
             | Rejected e => finally_closeFile file (Thrown e) w
             end))
  end.


(** ** Vocabulary of the tools *)

(** The shape the tools with one request share: open the file, make the
    request, and in [finally] close the file; [post] is the rest of the
    [try] block, with the [catch] block where there is one. *)
Definition with_file {R : Type} (file cmd : string) (a : option Arguments)
    (post : Outcome → Settled R) (w : World) : World * Tool R :=
  match awaited (openFile file w) with
  | (w, Some e) => (w, Done (Thrown e))
  | (w, None) =>
      let cid := List.length (calls w) in
      let w := request cmd a w in
      (w, Await cid (λ o w, finally_closeFile file (post o) w))
  end.

(** The call a request makes, as it waits for the answer to [seq]. *)
Definition waiting_call (cmd : string) (a : option Arguments) (seq : Z) : Call :=
  {| command := cmd; args := a; maxRetries := 3; attempt := 0; phase := Awaiting seq |}.

Definition open_notification (seq : Z) (file : string) : TSServerRequest :=
  {| req_seq := seq; req_command := "open"; req_arguments := Some (FileArgs (resolve file)) |}.

Definition close_notification (seq : Z) (file : string) : TSServerRequest :=
  {| req_seq := seq; req_command := "close"; req_arguments := Some (FileArgs (resolve file)) |}.

(** A tool begun as [b], once the response [r] has been handled. *)
Definition answered {R : Type} (r : TSServerResponse) (b : World * Tool R) : World * Tool R :=
  resume b.2 (handleMessage (Response r) b.1).

(** What a tool with one request has done when it ends in [w], having begun
    in [w0] and been answered with [body]: three messages to the child with
    consecutive sequence numbers, the notification that opens [file], the
    request, and the notification that closes [file]. *)
Definition round_trip (file cmd : string) (a : option Arguments) (body : option any)
    (w0 w : World) : Prop :=
  let seq := sequence w0 in
  let cid := List.length (calls w0) in
  trace w = trace w0 ++
    [(now w0, Write (open_notification seq file));
     (now w0, Write {| req_seq := seq + 1; req_command := cmd; req_arguments := a |});
     (now w0, Resolve (seq + 1) cid body);
     (now w0, Return cid body);
     (now w0, Write (close_notification (seq + 2) file))] ∧
  openFiles w = openFiles w0 ∧
  sequence w = (seq + 3)%Z ∧
  process w = process w0.

(** What a tool with one request has done when it ends in [w], having begun
    in [w0] and been answered with a failure that the client turns into
    [error] and does not retry. *)
Definition failed_trip (file cmd : string) (a : option Arguments) (error : Error)
    (w0 w : World) : Prop :=
  let seq := sequence w0 in
  let cid := List.length (calls w0) in
  trace w = trace w0 ++
    [(now w0, Write (open_notification seq file));
     (now w0, Write {| req_seq := seq + 1; req_command := cmd; req_arguments := a |});
     (now w0, Log ErrorLevel "TSServer request failed");
     (now w0, Reject (seq + 1) cid error);
     (now w0, Log Warn "TSServer request failed");
     (now w0, Throw cid error);
     (now w0, Write (close_notification (seq + 2) file))] ∧
  openFiles w = openFiles w0 ∧
  sequence w = (seq + 3)%Z ∧
  process w = process w0.

(** ** The handler of 'tools/call' ([index.ts]) *)

(** The rest of an [async] function after [await tool(...)]: [f] maps how
    the tool ends to how the function ends. *)
Fixpoint and_then {R S : Type} (f : Settled R → Settled S) (t : Tool R) : Tool S :=
  match t with
  | Done r => Done (f r)
  | Await cid k => Await cid (λ o w, let '(w', t') := k o w in (w', and_then f t'))
  end.

(** What the handler of 'tools/call' ([index.ts]) takes for granted: the
    typed view of the arguments ([args as any]) and the text that
    [JSON.stringify(result, null, 2)] gives. *)
Record Wire := {
  as_DefinitionArgs : any → Tools.DefinitionArgs;    (* HoverArgs, ReferencesArgs *)
  as_RenameArgs : any → Tools.RenameArgs;
  as_FileArgs : any → string;                        (* the [file] of { file: string } *)
  show_DefinitionResult : Tools.DefinitionResult → string;
  show_HoverResult : Tools.HoverResult → string;
  show_ReferencesResult : Tools.ReferencesResult → string;
  show_RenameResult : Tools.RenameResult → string;
  show_Diagnostics : Diagnostics → string;
  show_OrganizeImportsResult : Tools.OrganizeImportsResult → string;
}.

(** The result of the handler: one item of text, and [isError]. *)
Record CallToolResult := { content_text : string; isError : bool }.

(** The [return] of a [case] of the handler, and the [return] of its
    [catch] block. *)
Definition text_result (text : string) : CallToolResult :=
  {| content_text := text; isError := false |}.

Definition error_result (error : Error) : CallToolResult :=
  {| content_text := "Error: " +:+ error_message error; isError := true |}.

(** A [case] of the handler after [await tool(...)], inside [try]. *)
Definition reply {R : Type} (text : R → string) (b : World * Tool R)
    : World * Tool CallToolResult :=
  (b.1, and_then (λ r, Returned match r with
                                | Returned result => text_result (text result)
                                | Thrown error => error_result error
                                end) b.2).

(** The handler of 'tools/call' ([index.ts]); the lines it logs are left
    out. *)
Definition callTool (casts : Casts) (wire : Wire) (name : string) (args : option any)
    (w : World) : World * Tool CallToolResult :=
  match args with
  | None => (w, Done (Thrown {| error_message := "Arguments are required" |}))
  | Some args =>
      if String.eqb name "ts_definition" then
        reply (show_DefinitionResult wire)
          (getDefinition casts (as_DefinitionArgs wire args) w)
      else if String.eqb name "ts_hover" then
        reply (λ result, match result with
                         | Some result => show_HoverResult wire result
                         | None => "No hover information available"
                         end)
          (getHover casts (as_DefinitionArgs wire args) w)
      else if String.eqb name "ts_references" then
        reply (λ result, match result with
                         | Some result => show_ReferencesResult wire result
                         | None => "No references found"
                         end)
          (getReferences casts (as_DefinitionArgs wire args) w)
      else if String.eqb name "ts_rename" then
        reply (show_RenameResult wire) (getRename casts (as_RenameArgs wire args) w)
      else if String.eqb name "ts_diagnostics" then
        reply (show_Diagnostics wire) (getDiagnostics casts (as_FileArgs wire args) w)
      else if String.eqb name "ts_organize_imports" then
        reply (show_OrganizeImportsResult wire)
          (organizeImports casts (as_FileArgs wire args) w)
      else
        (w, Done (Returned (error_result {| error_message := "Unknown tool: " +:+ name |})))
  end.

(** The names in the [switch] of the handler. *)
Definition tool_names : list string :=
  ["ts_definition"; "ts_hover"; "ts_references"; "ts_rename"; "ts_diagnostics";
   "ts_organize_imports"].

(** However its calls end, the function is not rejected. *)
Inductive never_throws {R : Type} : Tool R → Prop :=
| never_throws_Done (r : R) : never_throws (Done (Returned r))
| never_throws_Await (cid : nat) (k : Outcome → World → World * Tool R) :
    (∀ o w, never_throws (k o w).2) → never_throws (Await cid k).


(** * Properties *)

(** ** Strings *)

Lemma str_length_app (a b : string) :
  String.length (a +:+ b) = String.length a + String.length b.
Proof. induction a as [|c a IH]; simpl; [reflexivity | now rewrite IH]. Qed.

Lemma app_assoc_s (a b c : string) : (a +:+ b) +:+ c = a +:+ (b +:+ c).
Proof. induction a as [|x a IH]; simpl; [reflexivity | now rewrite IH]. Qed.

Lemma app_empty_r (a : string) : a +:+ "" = a.
Proof. induction a as [|x a IH]; simpl; [reflexivity | now rewrite IH]. Qed.

Lemma slice_from_app (a b : string) : slice_from (a +:+ b) (String.length a) = b.
Proof. induction a as [|x a IH]; simpl; [now destruct b | exact IH]. Qed.

Lemma take_app (a b : string) : str_take (String.length a) (a +:+ b) = a.
Proof. induction a as [|x a IH]; simpl; [reflexivity | now rewrite IH]. Qed.

Lemma slice_app (a b c : string) :
  slice (a +:+ b +:+ c) (String.length a) (String.length a + String.length b) = b.
Proof.
  unfold slice. rewrite slice_from_app.
  replace (String.length a + String.length b - String.length a) with (String.length b) by lia.
  apply take_app.
Qed.

Lemma slice_from_add (s : string) (a b : nat) :
  slice_from s (a + b) = slice_from (slice_from s a) b.
Proof.
  revert s. induction a as [|a IH]; intros s; simpl; [reflexivity|].
  destruct s; [now destruct b | apply IH].
Qed.

Lemma take_slice_from (s : string) (n : nat) : str_take n s +:+ slice_from s n = s.
Proof.
  revert s. induction n as [|n IH]; intros s; simpl; [reflexivity|].
  destruct s; simpl; [reflexivity | now rewrite IH].
Qed.

Lemma length_take (s : string) (n : nat) :
  (n <= String.length s)%nat → String.length (str_take n s) = n.
Proof.
  revert s. induction n as [|n IH]; intros s H; simpl; [reflexivity|].
  destruct s; simpl in *; [lia | rewrite IH; lia].
Qed.

Lemma app_inv_head_s (a b c : string) : a +:+ b = a +:+ c → b = c.
Proof. induction a as [|x a IH]; simpl; [auto | intros [= H]; auto]. Qed.

(** [includes] finds exactly the substrings. *)
Lemma prefix_app (n s : string) : String.prefix n (n +:+ s) = true.
Proof.
  induction n as [|c n IH]; simpl; [now destruct s|].
  destruct (ascii_dec c c); [exact IH | congruence].
Qed.

Lemma prefix_inv (n s : string) : String.prefix n s = true → ∃ t, s = n +:+ t.
Proof.
  revert s. induction n as [|c n IH]; intros s H; [now exists s|].
  destruct s as [|d s]; simpl in H; [discriminate|].
  destruct (ascii_dec c d) as [->|]; [|discriminate].
  destruct (IH _ H) as [t ->]. now exists t.
Qed.

Lemma includes_prefix (s n : string) : String.prefix n s = true → includes s n = true.
Proof. intros H. destruct s; cbn [includes]; now rewrite H. Qed.

Lemma includes_app (a n b : string) : includes (a +:+ n +:+ b) n = true.
Proof.
  induction a as [|c a IH].
  - change ("" +:+ n +:+ b) with (n +:+ b). apply includes_prefix, prefix_app.
  - cbn [String.append includes]. rewrite IH. apply orb_true_r.
Qed.

Lemma includes_inv (s n : string) :
  includes s n = true → ∃ a b, s = a +:+ n +:+ b.
Proof.
  induction s as [|c s IH]; cbn [includes]; intros H.
  - apply orb_true_iff in H as [H|H]; [|discriminate].
    destruct (prefix_inv _ _ H) as [t ->]. now exists "", t.
  - apply orb_true_iff in H as [H|H].
    + destruct (prefix_inv _ _ H) as [t ->]. now exists "", t.
    + destruct (IH H) as (a & b & ->). now exists (String c a), b.
Qed.

Lemma includes_self (s : string) : includes s s = true.
Proof.
  pose proof (includes_app "" s "") as H. simpl in H. now rewrite app_empty_r in H.
Qed.

(** ** The header pattern *)

Lemma strip_literal_inv (l s r : string) : strip_literal l s = Some r → s = l +:+ r.
Proof.
  revert s. induction l as [|a l IH]; intros s H; simpl in *.
  - congruence.
  - destruct s as [|b s]; [discriminate|].
    destruct (Ascii.eqb_spec a b) as [->|]; [|discriminate].
    now rewrite (IH _ H).
Qed.

Lemma strip_literal_app (l r : string) : strip_literal l (l +:+ r) = Some r.
Proof.
  induction l as [|a l IH]; simpl; [reflexivity|].
  now rewrite Ascii.eqb_refl.
Qed.

Lemma digits_span_inv (s d r : string) :
  digits_span s = (d, r) →
  s = d +:+ r ∧ all_digits d = true ∧ starts_with_digit r = false.
Proof.
  revert d r. induction s as [|c s IH]; intros d r H; simpl in H.
  - now inversion H.
  - destruct (is_digit c) eqn:Hc.
    + destruct (digits_span s) as [d' r'] eqn:E. inversion H; subst.
      destruct (IH _ _ eq_refl) as (-> & Hd & Hr). simpl. now rewrite Hc, Hd.
    + inversion H; subst. simpl. now rewrite Hc.
Qed.

Lemma digits_span_app (d r : string) :
  all_digits d = true → starts_with_digit r = false → r ≠ "" →
  digits_span (d +:+ r) = (d, r).
Proof.
  intros Hd Hr Hne. induction d as [|c d IH]; simpl in *.
  - destruct r as [|x r]; [congruence|]. simpl in *. now rewrite Hr.
  - apply andb_true_iff in Hd as [Hc Hd]. now rewrite Hc, (IH Hd).
Qed.

Lemma is_digit_CR : is_digit CR = false.
Proof. reflexivity. Qed.

Lemma is_digit_LF : is_digit LF = false.
Proof. reflexivity. Qed.

Lemma matchHeader_header (digits : string) (cr1 cr2 : bool) (rest : string) :
  all_digits digits = true → digits ≠ "" →
  matchHeader (header digits cr1 cr2 +:+ rest)
  = Some {| whole := header digits cr1 cr2; group1 := digits |}.
Proof.
  intros Hd Hne. unfold matchHeader, header.
  rewrite app_assoc_s, strip_literal_app, app_assoc_s.
  rewrite digits_span_app; [| assumption | now destruct cr1 | now destruct cr1].
  destruct (String.eqb_spec digits "") as [|_]; [contradiction|].
  destruct cr1, cr2; reflexivity.
Qed.

Lemma opt_char_CR (s : string) :
  ∃ cr r, opt_char CR s = (cr_text cr, r) ∧ s = cr_text cr +:+ r.
Proof.
  destruct s as [|a s]; simpl; [now exists false, ""|].
  destruct (Ascii.eqb_spec a CR) as [->|]; [now exists true, s | now exists false, (String a s)].
Qed.

Lemma one_char_inv (c : ascii) (s r : string) : one_char c s = Some r → s = String c r.
Proof.
  destruct s as [|a s]; simpl; [discriminate|].
  destruct (Ascii.eqb_spec a c) as [->|]; [congruence | discriminate].
Qed.

(** Every match has this shape, and the matched text is a prefix of the
    buffer. *)
Lemma matchHeader_inv (buf : string) (hm : HeaderMatch) :
  matchHeader buf = Some hm →
  ∃ cr1 cr2 rest,
    whole hm = header (group1 hm) cr1 cr2 ∧ buf = whole hm +:+ rest ∧
    all_digits (group1 hm) = true ∧ group1 hm ≠ "".
Proof.
  unfold matchHeader. intros H.
  destruct (strip_literal _ buf) as [r0|] eqn:E0; [|discriminate].
  apply strip_literal_inv in E0.
  destruct (digits_span r0) as [d r1] eqn:E1.
  apply digits_span_inv in E1 as (-> & Hd & _).
  destruct (String.eqb_spec d "") as [|Hne]; [discriminate|].
  destruct (opt_char_CR r1) as (cr1 & r1' & E2 & ->). rewrite E2 in H.
  destruct (one_char LF r1') as [r2|] eqn:E3; [|discriminate].
  apply one_char_inv in E3 as ->.
  destruct (opt_char_CR r2) as (cr2 & r2' & E4 & ->). rewrite E4 in H.
  destruct (one_char LF r2') as [r3|] eqn:E5; [|discriminate].
  apply one_char_inv in E5 as ->.
  inversion H; subst hm; clear H. simpl.
  exists cr1, cr2, r3. split; [|split; [|split]]; try assumption.
  - unfold header. destruct cr1, cr2; reflexivity.
  - rewrite E0. destruct cr1, cr2; simpl; rewrite !app_assoc_s; reflexivity.
Qed.

(** A match depends only on the matched prefix: more input does not change
    it. *)
Lemma matchHeader_app (buf more : string) (hm : HeaderMatch) :
  matchHeader buf = Some hm → matchHeader (buf +:+ more) = Some hm.
Proof.
  intros H. destruct (matchHeader_inv _ _ H) as (cr1 & cr2 & rest & Hw & -> & Hd & Hne).
  rewrite app_assoc_s, Hw, matchHeader_header by assumption.
  destruct hm; simpl in *; now subst.
Qed.

Lemma header_length (digits : string) (cr1 cr2 : bool) :
  0 < String.length (header digits cr1 cr2).
Proof. unfold header. simpl. lia. Qed.



(** ** The framer *)

Lemma handleData_loop_S (fuel : nat) (w : World) :
  handleData_loop (S fuel) w =
  match next_frame (buffer w) with
  | None => w
  | Some (content, rest) => handleData_loop fuel (deliver content (set_buffer rest w))
  end.
Proof.
  cbn [handleData_loop]. unfold next_frame, deliver.
  destruct (matchHeader (buffer w)) as [hm|]; [|reflexivity].
  destruct (_ <? _)%N; reflexivity.
Qed.

(** The buffer is touched by [handleData] only. *)
Lemma set_buffer_eta (w : World) : set_buffer (buffer w) w = w.
Proof. now destruct w. Qed.

Lemma set_buffer_twice (a b : string) (w : World) :
  set_buffer a (set_buffer b w) = set_buffer a w.
Proof. reflexivity. Qed.

Lemma observe_set_buffer b o (w : World) :
  observe o (set_buffer b w) = set_buffer b (observe o w).
Proof. reflexivity. Qed.

Lemma setTimeout_set_buffer b cb d (w : World) :
  setTimeout cb d (set_buffer b w) = set_buffer b (setTimeout cb d w).
Proof. reflexivity. Qed.

Lemma set_call_set_buffer b cid c (w : World) :
  set_call cid c (set_buffer b w) = set_buffer b (set_call cid c w).
Proof. reflexivity. Qed.

Lemma finish_set_buffer b cid o (w : World) :
  finish cid o (set_buffer b w) = set_buffer b (finish cid o w).
Proof. unfold finish. simpl. now destruct (calls w !! cid). Qed.

Lemma resume_request_set_buffer b cid o (w : World) :
  resume_request cid o (set_buffer b w) = set_buffer b (resume_request cid o w).
Proof.
  unfold resume_request, log. simpl. destruct (calls w !! cid); [|reflexivity].
  destruct o; rewrite ?observe_set_buffer, ?finish_set_buffer; [reflexivity|].
  now destruct (_ && _).
Qed.

Lemma settle_set_buffer b cid seq o (w : World) :
  settle cid seq o (set_buffer b w) = set_buffer b (settle cid seq o w).
Proof.
  unfold settle. simpl. destruct (calls w !! cid) as [c|]; [|reflexivity].
  destruct (phase c); try reflexivity.
  destruct (_ =? _)%Z; [apply resume_request_set_buffer | reflexivity].
Qed.

Lemma handleMessage_set_buffer b m (w : World) :
  handleMessage m (set_buffer b w) = set_buffer b (handleMessage m w).
Proof.
  unfold handleMessage, invoke_resolve, invoke_reject, log. destruct m; try reflexivity. simpl.
  destruct (map_get _ _); [|reflexivity].
  destruct (success r); rewrite <- settle_set_buffer; reflexivity.
Qed.

Lemma deliver_set_buffer b content (w : World) :
  deliver content (set_buffer b w) = set_buffer b (deliver content w).
Proof.
  unfold deliver. destruct (JSON_parse content); [apply handleMessage_set_buffer | reflexivity].
Qed.

Lemma deliver_buffer content (w : World) : buffer (deliver content w) = buffer w.
Proof.
  rewrite <- (set_buffer_eta w) at 1. now rewrite deliver_set_buffer.
Qed.

(** A turn that does not break removes the header and the content from the
    front of the buffer. *)
Lemma next_frame_inv (buf content rest : string) :
  next_frame buf = Some (content, rest) →
  ∃ hm, matchHeader buf = Some hm ∧
        String.length content = N.to_nat (parseInt (group1 hm)) ∧
        buf = whole hm +:+ content +:+ rest.
Proof.
  unfold next_frame. intros H. destruct (matchHeader buf) as [hm|] eqn:E; [|discriminate].
  destruct (N.ltb_spec (N.of_nat (String.length buf))
              (N.of_nat (String.length (whole hm)) + parseInt (group1 hm))) as [|Hle];
    [discriminate|].
  inversion H; subst; clear H. exists hm. split; [reflexivity|].
  destruct (matchHeader_inv _ _ E) as (_ & _ & tail & _ & -> & _).
  rewrite str_length_app in Hle.
  unfold slice. rewrite slice_from_add, !slice_from_app.
  replace (String.length (whole hm) + N.to_nat (parseInt (group1 hm))
           - String.length (whole hm))%nat
    with (N.to_nat (parseInt (group1 hm))) by lia.
  split; [apply length_take; lia | now rewrite take_slice_from].
Qed.



Lemma next_frame_shrinks (buf content rest : string) :
  next_frame buf = Some (content, rest) → String.length rest < String.length buf.
Proof.
  intros H. destruct (next_frame_inv _ _ _ H) as (hm & E & _ & ->).
  destruct (matchHeader_inv _ _ E) as (cr1 & cr2 & _ & Hw & _).
  rewrite !str_length_app, Hw. pose proof (header_length (group1 hm) cr1 cr2). lia.
Qed.

(** More input behind a complete frame does not change the frame. *)
Lemma next_frame_app (buf more content rest : string) :
  next_frame buf = Some (content, rest) →
  next_frame (buf +:+ more) = Some (content, rest +:+ more).
Proof.
  intros H. destruct (next_frame_inv _ _ _ H) as (hm & E & Hlen & ->).
  unfold next_frame. rewrite (matchHeader_app _ more _ E). cbv zeta.
  rewrite !str_length_app.
  destruct (N.ltb_spec (N.of_nat (String.length (whole hm) +
              (String.length content + String.length rest) + String.length more))
              (N.of_nat (String.length (whole hm)) + parseInt (group1 hm))) as [Hlt|_]; [lia|].
  rewrite <- Hlen, !app_assoc_s. f_equal. f_equal.
  - apply slice_app.
  - rewrite <- (app_assoc_s (whole hm)), <- str_length_app. apply slice_from_app.
Qed.

(** The loop ends by a [break], whatever fuel above the length of the buffer
    it is given. *)
Lemma handleData_loop_fuel (f1 f2 : nat) (w : World) :
  String.length (buffer w) < f1 → String.length (buffer w) < f2 →
  handleData_loop f1 w = handleData_loop f2 w.
Proof.
  revert f2 w. induction f1 as [|f1 IH]; intros f2 w H1 H2; [lia|].
  destruct f2 as [|f2]; [lia|]. rewrite !handleData_loop_S.
  destruct (next_frame (buffer w)) as [[content rest]|] eqn:E; [|reflexivity].
  apply next_frame_shrinks in E.
  apply IH; rewrite deliver_buffer; simpl; lia.
Qed.

Lemma handleData_loop_drained (fuel : nat) (w : World) :
  String.length (buffer w) < fuel →
  next_frame (buffer (handleData_loop fuel w)) = None.
Proof.
  revert w. induction fuel as [|fuel IH]; intros w H; [lia|].
  rewrite handleData_loop_S.
  destruct (next_frame (buffer w)) as [[content rest]|] eqn:E; [|assumption].
  apply next_frame_shrinks in E. apply IH. rewrite deliver_buffer. simpl. lia.
Qed.

Lemma handleData_loop_append (fuel f1 f2 : nat) (w : World) (more : string) :
  String.length (buffer w) < fuel →
  String.length (buffer (handleData_loop fuel w) +:+ more) < f1 →
  String.length (buffer w +:+ more) < f2 →
  handleData_loop f1
    (set_buffer (buffer (handleData_loop fuel w) +:+ more) (handleData_loop fuel w))
  = handleData_loop f2 (set_buffer (buffer w +:+ more) w).
Proof.
  revert f1 f2 w. induction fuel as [|fuel IH]; intros f1 f2 w H H1 H2; [lia|].
  rewrite handleData_loop_S in *.
  destruct (next_frame (buffer w)) as [[content rest]|] eqn:E.
  - pose proof (next_frame_shrinks _ _ _ E) as Hs.
    destruct f2 as [|f2]; [lia|].
    rewrite (handleData_loop_S f2). cbn [buffer set_buffer].
    rewrite (next_frame_app _ more _ _ E), set_buffer_twice.
    rewrite (IH f1 f2 (deliver content (set_buffer rest w))).
    + now rewrite deliver_buffer, <- deliver_set_buffer.
    + rewrite deliver_buffer. simpl. lia.
    + assumption.
    + rewrite deliver_buffer. cbn [buffer set_buffer].
      rewrite str_length_app in *. lia.
  - apply handleData_loop_fuel; assumption.
Qed.

(** Two calls of [handleData] amount to one call on the joined data. *)
Lemma handleData_handleData (d1 d2 : string) (w : World) :
  handleData d2 (handleData d1 w) = handleData (d1 +:+ d2) w.
Proof.
  unfold handleData. cbn [buffer set_buffer].
  rewrite (handleData_loop_append _ _
             (S (String.length (buffer w +:+ d1 +:+ d2))) (set_buffer (buffer w +:+ d1) w)).
  - cbn [buffer set_buffer]. now rewrite set_buffer_twice, app_assoc_s.
  - simpl. lia.
  - lia.
  - cbn [buffer set_buffer]. rewrite app_assoc_s. lia.
Qed.

Lemma feed_join (chunk : string) (chunks : list string) (w : World) :
  feed (chunk :: chunks) w = handleData (join (chunk :: chunks)) w.
Proof.
  revert chunk w. induction chunks as [|c cs IH]; intros chunk w.
  - simpl. now rewrite app_empty_r.
  - change (feed (chunk :: c :: cs) w) with (feed (c :: cs) (handleData chunk w)).
    rewrite IH, handleData_handleData. reflexivity.
Qed.

Lemma deliver_all_set_buffer b contents (w : World) :
  deliver_all contents (set_buffer b w) = set_buffer b (deliver_all contents w).
Proof.
  revert w. induction contents as [|c cs IH]; intros w; [reflexivity|].
  simpl. now rewrite deliver_set_buffer, IH.
Qed.

Lemma handleData_loop_frames (fuel : nat) (w : World) :
  handleData_loop fuel w =
  set_buffer (frames fuel (buffer w)).2 (deliver_all (frames fuel (buffer w)).1 w).
Proof.
  revert w. induction fuel as [|fuel IH]; intros w.
  - simpl. now rewrite set_buffer_eta.
  - rewrite handleData_loop_S. cbn [frames].
    destruct (next_frame (buffer w)) as [[content rest]|] eqn:E.
    + rewrite IH, deliver_buffer. cbn [buffer set_buffer].
      destruct (frames fuel rest) as [contents remaining]. cbn [fst snd deliver_all fold_left].
      fold (deliver_all contents (deliver content (set_buffer rest w))).
      fold (deliver_all contents (deliver content w)).
      now rewrite deliver_set_buffer, deliver_all_set_buffer, set_buffer_twice.
    + simpl. now rewrite set_buffer_eta.
Qed.

Lemma handleData_yielded (data : string) (w : World) :
  handleData data w =
  set_buffer (yielded (buffer w) data).2 (deliver_all (yielded (buffer w) data).1 w).
Proof.
  unfold handleData, yielded. rewrite handleData_loop_frames. cbn [buffer set_buffer].
  now rewrite deliver_all_set_buffer, set_buffer_twice.
Qed.



Lemma frames_fuel (f1 f2 : nat) (buf : string) :
  String.length buf < f1 → String.length buf < f2 → frames f1 buf = frames f2 buf.
Proof.
  revert f2 buf. induction f1 as [|f1 IH]; intros f2 buf H1 H2; [lia|].
  destruct f2 as [|f2]; [lia|]. cbn [frames].
  destruct (next_frame buf) as [[content rest]|] eqn:E; [|reflexivity].
  apply next_frame_shrinks in E. rewrite (IH f2 rest); [reflexivity | lia | lia].
Qed.

Lemma frames_drained (fuel : nat) (buf : string) :
  String.length buf < fuel → next_frame (frames fuel buf).2 = None.
Proof.
  revert buf. induction fuel as [|fuel IH]; intros buf H; [lia|]. cbn [frames].
  destruct (next_frame buf) as [[content rest]|] eqn:E; [|assumption].
  apply next_frame_shrinks in E. specialize (IH rest ltac:(lia)).
  now destruct (frames fuel rest).
Qed.

Lemma frames_append (fuel f1 f2 : nat) (buf more : string) :
  String.length buf < fuel →
  String.length ((frames fuel buf).2 +:+ more) < f1 →
  String.length (buf +:+ more) < f2 →
  frames f2 (buf +:+ more) =
  ((frames fuel buf).1 ++ (frames f1 ((frames fuel buf).2 +:+ more)).1,
   (frames f1 ((frames fuel buf).2 +:+ more)).2).
Proof.
  revert f1 f2 buf. induction fuel as [|fuel IH]; intros f1 f2 buf H H1 H2; [lia|].
  cbn [frames] in *.
  destruct (next_frame buf) as [[content rest]|] eqn:E.
  - pose proof (next_frame_shrinks _ _ _ E) as Hs.
    destruct f2 as [|f2]; [lia|]. cbn [frames].
    rewrite (next_frame_app _ more _ _ E).
    destruct (frames fuel rest) as [contents remaining] eqn:E'.
    cbn [fst snd] in *.
    rewrite (IH f1 f2 rest); rewrite ?E'; cbn [fst snd]; try lia; try assumption.
    + reflexivity.
    + rewrite str_length_app in *. lia.
  - cbn [fst snd] in *. rewrite (frames_fuel f2 f1) by assumption.
    now destruct (frames f1 (buf +:+ more)).
Qed.

Lemma yielded_append (buf d1 d2 : string) :
  yielded buf (d1 +:+ d2) =
  ((yielded buf d1).1 ++ (yielded (yielded buf d1).2 d2).1,
   (yielded (yielded buf d1).2 d2).2).
Proof.
  unfold yielded. rewrite <- app_assoc_s.
  apply (frames_append (S (String.length (buf +:+ d1)))); lia.
Qed.

Lemma yielded_chunks_join (buf chunk : string) (chunks : list string) :
  yielded_chunks buf (chunk :: chunks) = yielded buf (join (chunk :: chunks)).
Proof.
  revert buf chunk. induction chunks as [|c cs IH]; intros buf chunk.
  - simpl. rewrite app_empty_r. destruct (yielded buf chunk). now rewrite app_nil_r.
  - change (join (chunk :: c :: cs)) with (chunk +:+ join (c :: cs)).
    rewrite yielded_append, <- IH.
    change (yielded_chunks buf (chunk :: c :: cs))
      with (let '(contents, buf') := yielded buf chunk in
            let '(more, final) := yielded_chunks buf' (c :: cs) in
            (contents ++ more, final)).
    destruct (yielded buf chunk) as [contents buf']. cbn [fst snd].
    now destruct (yielded_chunks buf' (c :: cs)).
Qed.

Lemma next_frame_header (digits : string) (cr1 cr2 : bool) (content rest : string) :
  all_digits digits = true → digits ≠ "" →
  parseInt digits = N.of_nat (String.length content) →
  next_frame (header digits cr1 cr2 +:+ content +:+ rest) = Some (content, rest).
Proof.
  intros Hd Hne Hn. unfold next_frame.
  rewrite matchHeader_header by assumption. cbn [whole group1]. rewrite Hn, !str_length_app.
  destruct (N.ltb_spec (N.of_nat (String.length (header digits cr1 cr2) +
              (String.length content + String.length rest)))
              (N.of_nat (String.length (header digits cr1 cr2)) +
               N.of_nat (String.length content))) as [Hlt|_]; [lia|].
  rewrite Nat2N.id. f_equal. f_equal.
  - apply slice_app.
  - rewrite <- app_assoc_s, <- str_length_app. apply slice_from_app.
Qed.

(** Only whole frames leave the buffer. *)
Lemma frames_framed (fuel : nat) (buf : string) :
  ∃ consumed, framed (frames fuel buf).1 consumed ∧ buf = consumed +:+ (frames fuel buf).2.
Proof.
  revert buf. induction fuel as [|fuel IH]; intros buf.
  - exists "". split; [constructor | reflexivity].
  - cbn [frames]. destruct (next_frame buf) as [[content rest]|] eqn:E.
    + destruct (next_frame_inv _ _ _ E) as (hm & Em & Hlen & ->).
      destruct (matchHeader_inv _ _ Em) as (cr1 & cr2 & _ & Hw & _ & Hd & Hne).
      destruct (IH rest) as (consumed & Hf & Hrest).
      destruct (frames fuel rest) as [contents remaining]. cbn [fst snd] in *.
      exists (whole hm +:+ content +:+ consumed). split.
      * rewrite Hw. constructor; try assumption. lia.
      * rewrite Hrest at 1. now rewrite !app_assoc_s.
    + exists "". split; [constructor | reflexivity].
Qed.

(** A stream of whole frames is taken apart into its contents. *)
Lemma frames_of_framed (contents : list string) (text rest : string) (fuel : nat) :
  framed contents text → next_frame rest = None →
  String.length (text +:+ rest) < fuel →
  frames fuel (text +:+ rest) = (contents, rest).
Proof.
  intros Hf Hrest. revert fuel. induction Hf as [|digits cr1 cr2 content contents text Hd Hne Hn Hf IH];
    intros fuel Hfuel.
  - destruct fuel as [|fuel]; [reflexivity|]. simpl. now rewrite Hrest.
  - destruct fuel as [|fuel]; [lia|]. cbn [frames].
    rewrite !app_assoc_s, next_frame_header by assumption.
    rewrite IH; [reflexivity|].
    rewrite !str_length_app in *. pose proof (header_length digits cr1 cr2). lia.
Qed.



(** ** Text that starts no header *)

Lemma strip_literal_departs (lit s more : string) :
  departs lit s = true → strip_literal lit (s +:+ more) = None.
Proof.
  revert s. induction lit as [|a lit IH]; intros s H; [discriminate|].
  destruct s as [|b s]; [discriminate|]. cbn in *.
  destruct (Ascii.eqb a b); [now apply IH | reflexivity].
Qed.

Lemma departs_app (lit s more : string) :
  departs lit s = true → departs lit (s +:+ more) = true.
Proof.
  revert s. induction lit as [|a lit IH]; intros s H; [discriminate|].
  destruct s as [|b s]; [discriminate|]. cbn in *.
  destruct (Ascii.eqb a b); [now apply IH | reflexivity].
Qed.

Lemma handleData_departs (data : string) (w : World) :
  departs "Content-Length: " (buffer w) = true →
  handleData data w = set_buffer (buffer w +:+ data) w.
Proof.
  intros H. unfold handleData. cbn [handleData_loop buffer set_buffer].
  unfold matchHeader. now rewrite strip_literal_departs.
Qed.



(** ** Bytes and code units *)







(** ** The pending map *)

Section JsMapFacts.
Context {V : Type}.
Implicit Types (m : list (Z * V)) (k : Z) (v : V).

Lemma map_get_Some_keys m k v : map_get k m = Some v → k ∈ keys m.
Proof.
  induction m as [|[k' v'] m IH]; simpl; [discriminate|].
  destruct (Z.eqb_spec k k') as [->|_]; intros H.
  - apply list_elem_of_here.
  - apply list_elem_of_further, IH, H.
Qed.

Lemma map_get_None_keys m k : map_get k m = None ↔ k ∉ keys m.
Proof.
  induction m as [|[k' v'] m IH]; simpl.
  - split; [intros _; apply not_elem_of_nil | reflexivity].
  - destruct (Z.eqb_spec k k') as [->|Hne]; rewrite not_elem_of_cons.
    + split; [discriminate | intros [? _]; congruence].
    + rewrite IH. tauto.
Qed.

Lemma map_get_elem_of m k v : NoDup (keys m) → (k, v) ∈ m → map_get k m = Some v.
Proof.
  induction m as [|[k' v'] m IH]; simpl; intros Hnd Hin.
  - now apply elem_of_nil in Hin.
  - apply NoDup_cons in Hnd as [Hk Hnd]. apply elem_of_cons in Hin as [Heq|Hin].
    + inversion Heq; subst. now rewrite Z.eqb_refl.
    + destruct (Z.eqb_spec k k') as [->|_]; [|auto].
      exfalso. apply Hk. apply (list_elem_of_fmap_2 fst) in Hin. exact Hin.
Qed.

Lemma map_get_In m k v : map_get k m = Some v → (k, v) ∈ m.
Proof.
  induction m as [|[k' v'] m IH]; simpl; [discriminate|].
  destruct (Z.eqb_spec k k') as [->|_]; intros H.
  - inversion H; subst. apply list_elem_of_here.
  - apply list_elem_of_further, IH, H.
Qed.

Lemma map_has_true m k : map_has k m = true ↔ k ∈ keys m.
Proof.
  unfold map_has. destruct (map_get k m) eqn:E.
  - split; [intros _; eapply map_get_Some_keys, E | reflexivity].
  - split; [discriminate | intros H; now apply map_get_None_keys in E].
Qed.

Lemma keys_map_delete m k : keys (map_delete k m) = filter (λ k', k' ≠ k) (keys m).
Proof.
  induction m as [|[k' v'] m IH]; simpl; [reflexivity|].
  destruct (Z.eqb_spec k k') as [->|Hne].
  - rewrite filter_cons_False by tauto. exact IH.
  - rewrite filter_cons_True by congruence. simpl. now rewrite IH.
Qed.

Lemma elem_of_keys_map_delete m k k' : k' ∈ keys (map_delete k m) ↔ k' ∈ keys m ∧ k' ≠ k.
Proof. rewrite keys_map_delete, list_elem_of_filter. tauto. Qed.

Lemma NoDup_keys_map_delete m k : NoDup (keys m) → NoDup (keys (map_delete k m)).
Proof. rewrite keys_map_delete. apply NoDup_filter. Qed.

Lemma map_get_map_delete m k : map_get k (map_delete k m) = None.
Proof. apply map_get_None_keys. rewrite elem_of_keys_map_delete. tauto. Qed.

Lemma map_get_map_delete_ne m k k' : k' ≠ k → map_get k' (map_delete k m) = map_get k' m.
Proof.
  intros Hne. induction m as [|[k0 v0] m IH]; simpl; [reflexivity|].
  destruct (Z.eqb_spec k k0) as [->|Hk]; simpl.
  - destruct (Z.eqb_spec k' k0); [congruence | exact IH].
  - destruct (Z.eqb_spec k' k0); [reflexivity | exact IH].
Qed.

Lemma map_delete_absent m k : k ∉ keys m → map_delete k m = m.
Proof.
  induction m as [|[k0 v0] m IH]; simpl; [reflexivity|].
  rewrite not_elem_of_cons. intros [Hne Hk].
  destruct (Z.eqb_spec k k0); [congruence | now rewrite IH].
Qed.

(** A fresh key goes to the end. *)
Lemma map_set_fresh m k v : k ∉ keys m → map_set k v m = m ++ [(k, v)].
Proof.
  induction m as [|[k0 v0] m IH]; simpl; [reflexivity|].
  rewrite not_elem_of_cons. intros [Hne Hk].
  destruct (Z.eqb_spec k k0); [congruence | now rewrite IH].
Qed.

Lemma keys_map_set_fresh m k v : k ∉ keys m → keys (map_set k v m) = keys m ++ [k].
Proof. intros H. rewrite map_set_fresh by assumption. unfold keys. now rewrite fmap_app. Qed.

Lemma keys_map_set m k v : ∀ k', k' ∈ keys (map_set k v m) ↔ k' = k ∨ k' ∈ keys m.
Proof.
  intros k'. induction m as [|[k0 v0] m IH]; simpl.
  - rewrite list_elem_of_singleton. split; [auto | intros [?|H]; [auto | now apply elem_of_nil in H]].
  - destruct (Z.eqb_spec k k0) as [->|Hk]; simpl; rewrite !elem_of_cons; [tauto|].
    rewrite IH. tauto.
Qed.

Lemma NoDup_keys_map_set m k v : NoDup (keys m) → NoDup (keys (map_set k v m)).
Proof.
  induction m as [|[k0 v0] m IH]; simpl; intros Hnd.
  - apply NoDup_singleton.
  - apply NoDup_cons in Hnd as [Hk0 Hnd].
    destruct (Z.eqb_spec k k0) as [->|Hk]; simpl; apply NoDup_cons.
    + auto.
    + split; [|auto]. rewrite keys_map_set. intros [?|?]; [congruence | contradiction].
Qed.

Lemma map_get_map_set m k v : map_get k (map_set k v m) = Some v.
Proof.
  induction m as [|[k0 v0] m IH]; simpl; [now rewrite Z.eqb_refl|].
  destruct (Z.eqb_spec k k0) as [->|Hk]; simpl.
  - now rewrite Z.eqb_refl.
  - destruct (Z.eqb_spec k k0); [congruence | exact IH].
Qed.

Lemma map_get_map_set_ne m k k' v : k' ≠ k → map_get k' (map_set k v m) = map_get k' m.
Proof.
  intros Hne. induction m as [|[k0 v0] m IH]; simpl.
  - destruct (Z.eqb_spec k' k); [congruence | reflexivity].
  - destruct (Z.eqb_spec k k0) as [->|Hk]; simpl.
    + destruct (Z.eqb_spec k' k0); [congruence | reflexivity].
    + destruct (Z.eqb_spec k' k0); [reflexivity | exact IH].
Qed.
End JsMapFacts.



(** ** What the continuations leave alone *)

Lemma quiet_refl (w : World) : quiet w w.
Proof. split; try reflexivity; exists []; now rewrite app_nil_r. Qed.

Lemma quiet_trans (w1 w2 w3 : World) : quiet w1 w2 → quiet w2 w3 → quiet w1 w3.
Proof.
  intros [] []. split; try congruence.
  - destruct quiet_trace0 as [m1 E1], quiet_trace1 as [m2 E2].
    exists (m1 ++ m2). now rewrite E2, E1, app_assoc.
  - destruct quiet_timers0 as [m1 E1], quiet_timers1 as [m2 E2].
    exists (m1 ++ m2). now rewrite E2, E1, app_assoc.
Qed.

Lemma settlements_observe (o : Obs) (w : World) :
  settlements (observe o w) =
  settlements w ++ match settlement (now w, o) with Some s => [s] | None => [] end.
Proof.
  unfold settlements, observe. cbn [trace set_trace]. rewrite omap_app. simpl.
  now destruct (settlement (now w, o)).
Qed.

Lemma quiet_observe (o : Obs) (w : World) :
  settlement (now w, o) = None → quiet w (observe o w).
Proof.
  intros H. split; try reflexivity.
  - rewrite settlements_observe, H. now rewrite app_nil_r.
  - now eexists.
  - exists []. now rewrite app_nil_r.
Qed.

Lemma quiet_log (level : Level) (text : string) (w : World) : quiet w (log level text w).
Proof. now apply quiet_observe. Qed.

Lemma settlements_observe_other (o : Obs) (w : World) :
  settlement (now w, o) = None → settlements (observe o w) = settlements w.
Proof. intros H. apply (quiet_settlements _ _ (quiet_observe o w H)). Qed.

Lemma settlements_log (level : Level) (text : string) (w : World) :
  settlements (log level text w) = settlements w.
Proof. apply (quiet_settlements _ _ (quiet_log level text w)). Qed.

Lemma quiet_setTimeout (cb : Callback) (d : Z) (w : World) : quiet w (setTimeout cb d w).
Proof.
  split; try reflexivity.
  - exists []. now rewrite app_nil_r.
  - now eexists.
Qed.

Lemma quiet_set_call (cid : nat) (c : Call) (w : World) : quiet w (set_call cid c w).
Proof.
  split; try reflexivity.
  - unfold set_call. simpl. apply length_insert.
  - exists []. now rewrite app_nil_r.
  - exists []. now rewrite app_nil_r.
Qed.

Lemma quiet_finish (cid : nat) (o : Outcome) (w : World) : quiet w (finish cid o w).
Proof.
  unfold finish. destruct (calls w !! cid); [|apply quiet_refl].
  eapply quiet_trans; [apply quiet_set_call|]. apply quiet_observe. now destruct o.
Qed.

Lemma quiet_resume_request (cid : nat) (o : Outcome) (w : World) :
  quiet w (resume_request cid o w).
Proof.
  unfold resume_request. destruct (calls w !! cid); [|apply quiet_refl].
  destruct o; [apply quiet_finish|].
  eapply quiet_trans; [apply quiet_log|].
  destruct (_ && _).
  - eapply quiet_trans; [apply quiet_log|].
    eapply quiet_trans; [apply quiet_set_call | apply quiet_setTimeout].
  - apply quiet_finish.
Qed.

Lemma quiet_settle (cid : nat) (seq : Z) (o : Outcome) (w : World) :
  quiet w (settle cid seq o w).
Proof.
  unfold settle. destruct (calls w !! cid) as [c|]; [|apply quiet_refl].
  destruct (phase c); try apply quiet_refl.
  destruct (_ =? _)%Z; [apply quiet_resume_request | apply quiet_refl].
Qed.

(** Invoking a continuation adds one settlement. *)
Lemma settlements_invoke_resolve seq cid body (w : World) :
  settlements (invoke_resolve seq cid body w) = settlements w ++ [(seq, cid, Resolved body)].
Proof.
  unfold invoke_resolve. rewrite (quiet_settlements _ _ (quiet_settle _ _ _ _)).
  now rewrite settlements_observe.
Qed.

Lemma settlements_invoke_reject seq cid e (w : World) :
  settlements (invoke_reject seq cid e w) = settlements w ++ [(seq, cid, Rejected e)].
Proof.
  unfold invoke_reject. rewrite (quiet_settlements _ _ (quiet_settle _ _ _ _)).
  now rewrite settlements_observe.
Qed.

Lemma pendingRequests_invoke_resolve seq cid body (w : World) :
  pendingRequests (invoke_resolve seq cid body w) = pendingRequests w.
Proof. unfold invoke_resolve. now rewrite (quiet_pendingRequests _ _ (quiet_settle _ _ _ _)). Qed.

Lemma pendingRequests_invoke_reject seq cid e (w : World) :
  pendingRequests (invoke_reject seq cid e w) = pendingRequests w.
Proof. unfold invoke_reject. now rewrite (quiet_pendingRequests _ _ (quiet_settle _ _ _ _)). Qed.

Lemma sequence_invoke_resolve seq cid body (w : World) :
  sequence (invoke_resolve seq cid body w) = sequence w.
Proof. unfold invoke_resolve. now rewrite (quiet_sequence _ _ (quiet_settle _ _ _ _)). Qed.

Lemma sequence_invoke_reject seq cid e (w : World) :
  sequence (invoke_reject seq cid e w) = sequence w.
Proof. unfold invoke_reject. now rewrite (quiet_sequence _ _ (quiet_settle _ _ _ _)). Qed.

(** ** The shapes of [openFile], [closeFile] and their continuations *)

Lemma openFile_cases (file : string) (w : World) :
  openFile file w = (w, None) ∨
  ∃ thrown, openFile file w
            = ((notify "open" (Some (FileArgs (resolve file))) w).1,
               Some {| operation := OpenFile; normalizedPath := resolve file;
                       thrown := thrown |}).
Proof.
  unfold openFile. destruct (decide _); [now left|]. right.
  destruct (notify _ _ w) as [w' thrown]. now exists thrown.
Qed.

Lemma closeFile_cases (file : string) (w : World) :
  closeFile file w = (w, None) ∨
  ∃ thrown, closeFile file w
            = ((notify "close" (Some (FileArgs (resolve file))) w).1,
               Some {| operation := CloseFile; normalizedPath := resolve file;
                       thrown := thrown |}).
Proof.
  unfold closeFile. destruct (decide _); [now left|]. right.
  destruct (notify _ _ w) as [w' thrown]. now exists thrown.
Qed.

Lemma suspend_cases (r : World * option FileCall) :
  suspend r = r.1 ∨ ∃ c, suspend r = set_fileCalls (fileCalls r.1 ++ [(c, true)]) r.1.
Proof. destruct r as [w [c|]]; [right; now exists c | now left]. Qed.

Lemma resume_fileCall_cases (c : FileCall) (w : World) :
  resume_fileCall c w = (w, thrown c) ∨
  ∃ files, resume_fileCall c w = (set_openFiles files w, None).
Proof.
  unfold resume_fileCall. destruct (thrown c); [now left|]. right.
  destruct (operation c); eexists; reflexivity.
Qed.

Lemma fileCall_resume_cases (fid : nat) (w : World) :
  fileCall_resume fid w = w ∨
  ∃ c, fileCalls w !! fid = Some (c, true) ∧
       fileCall_resume fid w
       = record_failure (operation_name c)
           (resume_fileCall c (set_fileCalls (<[fid := (c, false)]> (fileCalls w)) w)).
Proof.
  unfold fileCall_resume. destruct (fileCalls w !! fid) as [[c [|]]|]; try now left.
  right. now exists c.
Qed.



(** ** The invariant of the correlator

    The keys of the pending map are distinct and below the sequence counter;
    a request whose continuation has been invoked is no longer in the map,
    and no request has had a continuation invoked twice. *)
Record Inv (w : World) : Prop := {
  inv_keys : NoDup (keys (pendingRequests w));
  inv_pending_fresh : ∀ k, k ∈ keys (pendingRequests w) → (k < sequence w)%Z;
  inv_settled_fresh : ∀ s, s ∈ settled_seqs w → (s < sequence w)%Z;
  inv_settled_gone : ∀ s, s ∈ settled_seqs w → s ∉ keys (pendingRequests w);
  inv_settled_once : NoDup (settled_seqs w);
}.

Lemma same_core_refl (w : World) : same_core w w.
Proof. now repeat split. Qed.

Lemma same_core_trans (w1 w2 w3 : World) : same_core w1 w2 → same_core w2 w3 → same_core w1 w3.
Proof. unfold same_core. intros (?&?&?) (?&?&?). repeat split; congruence. Qed.

Lemma same_core_quiet (w w' : World) : quiet w w' → same_core w w'.
Proof. intros []. now repeat split. Qed.

Lemma Inv_same_core (w w' : World) : same_core w w' → Inv w → Inv w'.
Proof.
  intros (Hp & Hs & Ht) []. unfold settled_seqs in *.
  split; unfold settled_seqs; rewrite ?Hp, ?Hs, ?Ht; assumption.
Qed.

Lemma settled_seqs_snoc (w w' : World) seq cid o :
  settlements w' = settlements w ++ [(seq, cid, o)] →
  settled_seqs w' = settled_seqs w ++ [seq].
Proof. unfold settled_seqs. intros ->. now rewrite !fmap_app. Qed.

(** An entry leaves the map and its continuation is invoked. *)
Lemma Inv_settled (w w' : World) (seq : Z) (cid : nat) (o : Outcome) :
  Inv w → seq ∈ keys (pendingRequests w) →
  pendingRequests w' = map_delete seq (pendingRequests w) →
  sequence w' = sequence w →
  settlements w' = settlements w ++ [(seq, cid, o)] →
  Inv w'.
Proof.
  intros [] Hin Hp Hs Ht. apply settled_seqs_snoc in Ht.
  split; rewrite ?Hp, ?Hs, ?Ht.
  - now apply NoDup_keys_map_delete.
  - intros k Hk. apply elem_of_keys_map_delete in Hk as [Hk _]. auto.
  - intros s Hs'. apply elem_of_app in Hs' as [Hs'|Hs']; [auto|].
    apply list_elem_of_singleton in Hs' as ->. auto.
  - intros s Hs'. rewrite elem_of_keys_map_delete.
    apply elem_of_app in Hs' as [Hs'|Hs'].
    + intros [Hk _]. now apply (inv_settled_gone0 s).
    + apply list_elem_of_singleton in Hs' as ->. tauto.
  - apply NoDup_app. split; [assumption|]. split; [|apply NoDup_singleton].
    intros s Hs' Hs''. apply list_elem_of_singleton in Hs'' as ->.
    now apply (inv_settled_gone0 seq).
Qed.

(** The next sequence number is taken, for a request that is registered or
    for a notification. *)
Lemma Inv_registered (w w' : World) (cid : nat) :
  Inv w →
  pendingRequests w' = map_set (sequence w) cid (pendingRequests w) →
  sequence w' = (sequence w + 1)%Z →
  settlements w' = settlements w →
  Inv w'.
Proof.
  intros [] Hp Hs Ht. unfold settled_seqs in *.
  split; unfold settled_seqs; rewrite ?Hp, ?Hs, ?Ht.
  - now apply NoDup_keys_map_set.
  - intros k Hk. apply keys_map_set in Hk as [->|Hk]; [lia|].
    specialize (inv_pending_fresh0 k Hk). lia.
  - intros s Hs'. specialize (inv_settled_fresh0 s Hs'). lia.
  - intros s Hs'. rewrite keys_map_set. intros [->|Hk].
    + specialize (inv_settled_fresh0 _ Hs'). lia.
    + now apply (inv_settled_gone0 s).
  - assumption.
Qed.

Lemma Inv_notified (w w' : World) :
  Inv w →
  pendingRequests w' = pendingRequests w →
  sequence w' = (sequence w + 1)%Z →
  settlements w' = settlements w →
  Inv w'.
Proof.
  intros [] Hp Hs Ht. unfold settled_seqs in *.
  split; unfold settled_seqs; rewrite ?Hp, ?Hs, ?Ht; try assumption.
  - intros k Hk. specialize (inv_pending_fresh0 k Hk). lia.
  - intros s Hs'. specialize (inv_settled_fresh0 s Hs'). lia.
Qed.

(** A fresh sequence number is not in the map. *)
Lemma Inv_sequence_fresh (w : World) : Inv w → sequence w ∉ keys (pendingRequests w).
Proof. intros [] Hin. specialize (inv_pending_fresh0 _ Hin). lia. Qed.

(** *** The handlers keep the invariant *)

Lemma Inv_handleMessage (m : Message) (w : World) : Inv w → Inv (handleMessage m w).
Proof.
  intros HI. unfold handleMessage. destruct m as [r| |].
  - destruct (map_get (request_seq r) (pendingRequests w)) as [cid|] eqn:E.
    + apply map_get_Some_keys in E.
      destruct (success r).
      * eapply Inv_settled; [exact HI | exact E | ..].
        -- now rewrite pendingRequests_invoke_resolve.
        -- now rewrite sequence_invoke_resolve.
        -- now rewrite settlements_invoke_resolve.
      * eapply Inv_settled; [exact HI | exact E | ..].
        -- now rewrite pendingRequests_invoke_reject.
        -- now rewrite sequence_invoke_reject.
        -- now rewrite settlements_invoke_reject, settlements_log.
    + eapply Inv_same_core; [|exact HI]. apply same_core_quiet, quiet_log.
  - eapply Inv_same_core; [|exact HI]. now apply same_core_quiet, quiet_observe.
  - eapply Inv_same_core; [|exact HI]. apply same_core_quiet, quiet_log.
Qed.

Lemma Inv_deliver (content : string) (w : World) : Inv w → Inv (deliver content w).
Proof.
  intros HI. unfold deliver. destruct (JSON_parse content).
  - now apply Inv_handleMessage.
  - eapply Inv_same_core; [|exact HI]. apply same_core_quiet, quiet_log.
Qed.

Lemma Inv_set_buffer (b : string) (w : World) : Inv w → Inv (set_buffer b w).
Proof. apply Inv_same_core. now repeat split. Qed.

Lemma Inv_handleData (data : string) (w : World) : Inv w → Inv (handleData data w).
Proof.
  intros HI. rewrite handleData_yielded. apply Inv_set_buffer.
  generalize (yielded (buffer w) data).1. intros contents. revert w HI.
  induction contents as [|c cs IH]; intros w HI; [assumption|].
  apply IH, Inv_deliver, HI.
Qed.

Lemma Inv_attempt_request (cid : nat) (w : World) : Inv w → Inv (attempt_request cid w).
Proof.
  intros HI. unfold attempt_request. destruct (calls w !! cid) as [c|]; [|assumption].
  destruct (_ <=? _)%Z.
  - assert (Inv (set_call cid (set_phase (Awaiting (sequence w)) c)
              (set_pendingRequests (map_set (sequence w) cid (pendingRequests w))
                 (set_sequence (sequence w + 1) w)))) as HI'.
    { eapply Inv_registered; [exact HI | reflexivity..]. }
    cbn [process set_call set_calls set_pendingRequests set_sequence].
    destruct (process w) as [p|].
    + destruct (stdin p).
      * eapply Inv_same_core; [|exact HI']. apply same_core_quiet.
        eapply quiet_trans; [|apply quiet_setTimeout]. now apply quiet_observe.
      * eapply Inv_same_core; [|exact HI']. apply same_core_quiet, quiet_settle.
    + eapply Inv_same_core; [|exact HI']. apply same_core_quiet, quiet_settle.
  - eapply Inv_same_core; [|exact HI]. apply same_core_quiet, quiet_finish.
Qed.

Lemma Inv_request (cmd : string) (a : option Arguments) (w : World) :
  Inv w → Inv (request cmd a w).
Proof.
  intros HI. unfold request, requestWithRetry. cbn [process set_calls].
  set (w1 := set_calls _ w).
  assert (Inv w1) as HI1 by (eapply Inv_same_core; [|exact HI]; now repeat split).
  destruct (process w) as [p|].
  - destruct (stdin p).
    + now apply Inv_attempt_request.
    + eapply Inv_same_core; [|exact HI1]. apply same_core_quiet, quiet_finish.
  - eapply Inv_same_core; [|exact HI1]. apply same_core_quiet, quiet_finish.
Qed.

Lemma Inv_notify (cmd : string) (a : option Arguments) (w : World) :
  Inv w → Inv (notify cmd a w).1.
Proof.
  intros HI. unfold notify. destruct (process w) as [p|]; [|assumption].
  destruct (stdin p); [|assumption].
  eapply Inv_notified; [exact HI | reflexivity | reflexivity |].
  cbn [fst]. now rewrite settlements_observe_other.
Qed.

Lemma Inv_openFile (file : string) (w : World) : Inv w → Inv (openFile file w).1.
Proof.
  intros HI. destruct (openFile_cases file w) as [-> | [thrown ->]]; [assumption|].
  now apply Inv_notify.
Qed.

Lemma Inv_closeFile (file : string) (w : World) : Inv w → Inv (closeFile file w).1.
Proof.
  intros HI. destruct (closeFile_cases file w) as [-> | [thrown ->]]; [assumption|].
  now apply Inv_notify.
Qed.

Lemma Inv_suspend (r : World * option FileCall) : Inv r.1 → Inv (suspend r).
Proof.
  intros HI. destruct (suspend_cases r) as [-> | [c ->]]; [assumption|].
  eapply Inv_same_core; [|exact HI]. now repeat split.
Qed.

Lemma Inv_record_failure (operation : string) (r : World * option Error) :
  Inv r.1 → Inv (record_failure operation r).
Proof.
  destruct r as [w [e|]]; simpl; [|auto].
  apply Inv_same_core. now apply same_core_quiet, quiet_observe.
Qed.

Lemma Inv_fileCall_resume (fid : nat) (w : World) : Inv w → Inv (fileCall_resume fid w).
Proof.
  intros HI. destruct (fileCall_resume_cases fid w) as [-> | (c & _ & ->)]; [assumption|].
  apply Inv_record_failure.
  destruct (resume_fileCall_cases c (set_fileCalls (<[fid := (c, false)]> (fileCalls w)) w))
    as [-> | [files ->]]; cbn [fst]; (eapply Inv_same_core; [|exact HI]); now repeat split.
Qed.


Lemma stable_refl (w : World) : stable w w.
Proof. split; try reflexivity; exists []; now rewrite app_nil_r. Qed.

Lemma stable_trans (w1 w2 w3 : World) : stable w1 w2 → stable w2 w3 → stable w1 w3.
Proof.
  intros [] []. split; try congruence.
  - destruct stable_trace0 as [m1 E1], stable_trace1 as [m2 E2].
    exists (m1 ++ m2). now rewrite E2, E1, app_assoc.
  - destruct stable_timers0 as [m1 E1], stable_timers1 as [m2 E2].
    exists (m1 ++ m2). now rewrite E2, E1, app_assoc.
Qed.

Lemma stable_quiet (w w' : World) : quiet w w' → stable w w'.
Proof. intros []. now split. Qed.

Lemma stable_observe (o : Obs) (w : World) : stable w (observe o w).
Proof.
  split; try reflexivity; [now eexists | exists []; now rewrite app_nil_r].
Qed.

Lemma stable_invoke_reject seq cid e (w : World) : stable w (invoke_reject seq cid e w).
Proof.
  unfold invoke_reject. eapply stable_trans; [apply stable_observe|].
  apply stable_quiet, quiet_settle.
Qed.

Lemma stable_invoke_resolve seq cid body (w : World) : stable w (invoke_resolve seq cid body w).
Proof.
  unfold invoke_resolve. eapply stable_trans; [apply stable_observe|].
  apply stable_quiet, quiet_settle.
Qed.

(** *** [stop] *)

Ltac solve_same_core :=
  repeat split; cbn; unfold settlements, log, observe; cbn;
  rewrite ?omap_app; cbn; rewrite ?app_nil_r; reflexivity.

Lemma stable_cancel_all (entries : list (Z * nat)) (w : World) :
  stable w (cancel_all entries w).
Proof.
  revert w. induction entries as [|[seq cid] es IH]; intros w; [apply stable_refl|].
  simpl. eapply stable_trans; [apply stable_invoke_reject | apply IH].
Qed.

Lemma settlements_cancel_all (entries : list (Z * nat)) (w : World) :
  settlements (cancel_all entries w) = settlements w ++ (cancelled <$> entries).
Proof.
  revert w. induction entries as [|[seq cid] es IH]; intros w.
  - simpl. now rewrite app_nil_r.
  - simpl. rewrite IH, settlements_invoke_reject, <- app_assoc. reflexivity.
Qed.

Lemma Inv_cancelled (w w' : World) :
  Inv w →
  pendingRequests w' = [] →
  sequence w' = sequence w →
  settlements w' = settlements w ++ (cancelled <$> pendingRequests w) →
  Inv w'.
Proof.
  intros [] Hp Hs Ht.
  assert (settled_seqs w' = settled_seqs w ++ keys (pendingRequests w)) as Hk.
  { unfold settled_seqs, keys. rewrite Ht, !fmap_app. f_equal.
    rewrite <- !list_fmap_compose. now apply list_fmap_ext. }
  split; rewrite ?Hp, ?Hs, ?Hk.
  - apply NoDup_nil_2.
  - intros k Hk'. now apply elem_of_nil in Hk'.
  - intros s Hs'. apply elem_of_app in Hs' as [?|?]; auto.
  - intros s _. apply not_elem_of_nil.
  - apply NoDup_app. repeat split; auto.
Qed.

Lemma Inv_stop (w : World) : Inv w → Inv (stop w).
Proof.
  intros HI. unfold stop.
  pose proof (stable_cancel_all (pendingRequests w) w) as Hst.
  set (w1 := set_pendingRequests [] (cancel_all (pendingRequests w) w)).
  assert (Inv w1) as HI1.
  { eapply Inv_cancelled; [exact HI | reflexivity | apply (stable_sequence _ _ Hst) |].
    apply settlements_cancel_all. }
  destruct (process w1) as [p|].
  - eapply Inv_same_core; [|exact HI1]. destruct (stdin p); solve_same_core.
  - eapply Inv_same_core; [|exact HI1]. solve_same_core.
Qed.

Lemma same_core_stop_resume (sid : nat) (w : World) : same_core w (stop_resume sid w).
Proof.
  unfold stop_resume. destruct (stops w !! sid) as [[p [|]]|]; try apply same_core_refl.
  cbn [process set_stops]. destruct (process w) as [cp|]; [|now repeat split].
  destruct (negb (killed cp)); solve_same_core.
Qed.

Lemma same_core_fold_stop_resume (sids : list nat) (w : World) :
  same_core w (fold_left (λ w sid, stop_resume sid w) sids w).
Proof.
  revert w. induction sids as [|sid sids IH]; intros w; [apply same_core_refl|].
  simpl. eapply same_core_trans; [apply same_core_stop_resume | apply IH].
Qed.

Lemma same_core_on_exit p code signal (w : World) : same_core w (on_exit p code signal w).
Proof.
  unfold on_exit.
  eapply same_core_trans; [|apply same_core_fold_stop_resume].
  solve_same_core.
Qed.

Lemma same_core_start (w : World) : same_core w (start w).
Proof.
  unfold start. destruct (process w).
  - now apply same_core_quiet, quiet_observe.
  - destruct (skipAvailabilityCheck _); now repeat split.
Qed.

Lemma Inv_run_callback (cb : Callback) (w : World) : Inv w → Inv (run_callback cb w).
Proof.
  intros HI. destruct cb as [cid seq cmd timeout|cid|sid| |]; cbn [run_callback].
  - destruct (map_has seq (pendingRequests w)) eqn:E; [|assumption].
    apply map_has_true in E.
    eapply Inv_settled; [exact HI | exact E | ..].
    + now rewrite pendingRequests_invoke_reject.
    + now rewrite sequence_invoke_reject.
    + now rewrite settlements_invoke_reject, settlements_log.
  - destruct (calls w !! cid) as [c|]; [|assumption].
    apply Inv_attempt_request. eapply Inv_same_core; [|exact HI].
    apply same_core_quiet, quiet_set_call.
  - eapply Inv_same_core; [apply same_core_stop_resume | exact HI].
  - eapply Inv_same_core; [|exact HI]. now apply same_core_quiet, quiet_observe.
  - now apply Inv_request.
Qed.

Lemma Inv_fire (i : nat) (w : World) : Inv w → Inv (fire i w).
Proof.
  intros HI. unfold fire. destruct (timers w !! i) as [t|]; [|assumption].
  destruct (_ || _); [assumption|].
  apply Inv_run_callback. eapply Inv_same_core; [|exact HI]. now repeat split.
Qed.

Lemma Inv_step (w : World) (t : Task) : Inv w → Inv (step w t).
Proof.
  intros HI. destruct t; cbn [step].
  - eapply Inv_same_core; [apply same_core_start | exact HI].
  - now apply Inv_request.
  - now apply Inv_suspend, Inv_openFile.
  - now apply Inv_suspend, Inv_closeFile.
  - now apply Inv_fileCall_resume.
  - now apply Inv_stop.
  - destruct (_ <? _)%nat; [now apply Inv_handleData | assumption].
  - destruct (_ <? _)%nat; [|assumption].
    eapply Inv_same_core; [apply same_core_on_exit | exact HI].
  - now apply Inv_fire.
  - destruct (_ <=? _)%Z; [|assumption].
    eapply Inv_same_core; [|exact HI]. now repeat split.
Qed.

Lemma Inv_run (ts : list Task) (w : World) : Inv w → Inv (run ts w).
Proof.
  revert w. induction ts as [|t ts IH]; intros w HI; [assumption|].
  apply IH, Inv_step, HI.
Qed.

Lemma Inv_new_client (skip : bool) (t0 : Z) : Inv (new_client skip t0).
Proof.
  split; cbn.
  - apply NoDup_nil_2.
  - intros k H. now apply elem_of_nil in H.
  - intros k H. now apply elem_of_nil in H.
  - intros k H. now apply elem_of_nil in H.
  - apply NoDup_nil_2.
Qed.



(** ** The invariant of the calls and the timers

    Every call was made by [request]: its ceiling is 3 and its attempt number
    is between 0 and 3.  A backoff timer that has not fired belongs to a call
    that sleeps before its next attempt, and there is one such timer at most.
    Every timeout timer carries the budget of its command and was armed when
    its request was written. *)

Lemma filter_lookup_nonempty {A : Type} (f : A → bool) (l : list A) (i : nat) (x : A) :
  l !! i = Some x → f x = true → List.filter f l ≠ [].
Proof.
  revert i. induction l as [|z l IH]; intros i Hi Hf; [now rewrite lookup_nil in Hi|].
  destruct i as [|i]; cbn in *.
  - injection Hi as ->. now rewrite Hf.
  - destruct (f z); [discriminate|]. now apply (IH i).
Qed.

Lemma timer_ok_mono (tr more : list (Z * Obs)) (t : Timer) :
  timer_ok tr t → timer_ok (tr ++ more) t.
Proof.
  unfold timer_ok. destruct (callback t); try tauto.
  intros (? & ? & a & Ha). repeat split; try assumption.
  exists a. apply elem_of_app. now left.
Qed.

Lemma timer_ok_set_fired (tr : list (Z * Obs)) (t : Timer) :
  timer_ok tr t → timer_ok tr (set_fired t).
Proof. now unfold timer_ok. Qed.

Lemma retry_armed_set_fired (cid : nat) (t : Timer) : retry_armed cid (set_fired t) = false.
Proof. reflexivity. Qed.

Lemma filter_insert_fired (cid i : nat) (ts : list Timer) (t : Timer) :
  ts !! i = Some t →
  List.length (List.filter (retry_armed cid) (<[i := set_fired t]> ts)) =
  List.length (List.filter (retry_armed cid) ts) - (if retry_armed cid t then 1 else 0) ∧
  (retry_armed cid t = true → (1 <= List.length (List.filter (retry_armed cid) ts))%nat).
Proof.
  unfold insert.
  revert i. induction ts as [|t0 ts IH]; intros i Hi; [discriminate|].
  destruct i as [|i]; cbn [list_insert List.filter] in *.
  - inversion Hi; subst t0. cbn [List.filter]. rewrite retry_armed_set_fired.
    destruct (retry_armed cid t); simpl; split; lia.
  - destruct (IH i Hi) as [IH1 IH2]. cbn [List.filter].
    destruct (retry_armed cid t0); cbn [List.length]; unfold insert in *; rewrite IH1;
      split; try lia.
    + destruct (retry_armed cid t); [specialize (IH2 eq_refl)|]; lia.
    + auto.
Qed.

(** States that agree on calls and timers and whose trace has grown. *)
Lemma RuntimeInv_same (w w' : World) :
  calls w' = calls w → timers w' = timers w → (∃ more, trace w' = trace w ++ more) →
  RuntimeInv w → RuntimeInv w'.
Proof.
  intros Hc Ht [more Htr] []. unfold armed_retries in *.
  split; unfold armed_retries; rewrite ?Hc, ?Ht, ?Htr; try assumption.
  eapply List.Forall_impl; [|exact ri_timers0]. intros t. apply timer_ok_mono.
Qed.

Lemma RuntimeInv_observe (o : Obs) (w : World) : RuntimeInv w → RuntimeInv (observe o w).
Proof. apply RuntimeInv_same; try reflexivity. now eexists. Qed.

Lemma RuntimeInv_log level text (w : World) : RuntimeInv w → RuntimeInv (log level text w).
Proof. apply RuntimeInv_observe. Qed.

Lemma armed_retries_setTimeout (cid : nat) (cb : Callback) (d : Z) (w : World) :
  armed_retries cid (setTimeout cb d w) =
  armed_retries cid w +
  match cb with RetryDelay c => if (c =? cid)%nat then 1 else 0 | _ => 0 end.
Proof.
  unfold armed_retries, setTimeout. cbn [timers set_timers].
  rewrite List.filter_app, List.length_app. f_equal.
  unfold retry_armed. cbn. destruct cb; try reflexivity. now destruct (_ =? _)%nat.
Qed.

(** A timer that is not a backoff timer is armed. *)
Lemma RuntimeInv_setTimeout (cb : Callback) (d : Z) (w : World) :
  (∀ cid, cb ≠ RetryDelay cid) →
  timer_ok (trace w) {| armed_at := now w; delay := d; callback := cb; fired := false |} →
  RuntimeInv w → RuntimeInv (setTimeout cb d w).
Proof.
  intros Hcb Hok []. split.
  - intros cid c Hc. rewrite armed_retries_setTimeout.
    destruct cb; try (rewrite Nat.add_0_r; now apply ri_calls0). now destruct (Hcb cid0).
  - intros cid Hc. rewrite armed_retries_setTimeout.
    destruct cb; try (rewrite Nat.add_0_r; now apply ri_none0). now destruct (Hcb cid0).
  - unfold setTimeout. cbn [timers trace set_timers]. apply Forall_app. split; [assumption|].
    now apply Forall_singleton.
Qed.

Lemma lookup_set_call (cid cid' : nat) (c c' : Call) (w : World) :
  calls w !! cid = Some c →
  calls (set_call cid c' w) !! cid' = if decide (cid = cid') then Some c' else calls w !! cid'.
Proof.
  intros Hc. unfold set_call. cbn [calls set_calls].
  destruct (decide (cid = cid')) as [->|Hne].
  - apply list_lookup_insert_eq. now apply lookup_lt_Some in Hc.
  - now apply list_lookup_insert_ne.
Qed.

(** A call without armed backoff timer changes its phase. *)
Lemma RuntimeInv_set_phase (cid : nat) (c : Call) (p : Phase) (w : World) :
  calls w !! cid = Some c → armed_retries cid w = 0 →
  RuntimeInv w → RuntimeInv (set_call cid (set_phase p c) w).
Proof.
  intros Hc Hz []. split.
  - intros cid' c' Hc'. rewrite (lookup_set_call _ _ c) in Hc' by assumption.
    change (armed_retries cid' (set_call cid (set_phase p c) w)) with (armed_retries cid' w).
    destruct (decide (cid = cid')) as [<-|Hne]; [|now apply ri_calls0].
    inversion Hc'; subst c'. destruct (ri_calls0 _ _ Hc) as (? & ? & _).
    cbn [maxRetries attempt set_phase]. auto.
  - intros cid' Hc'. rewrite (lookup_set_call _ _ c) in Hc' by assumption.
    destruct (decide (cid = cid')); [discriminate | now apply ri_none0].
  - assumption.
Qed.

Lemma RuntimeInv_finish (cid : nat) (o : Outcome) (w : World) :
  armed_retries cid w = 0 → RuntimeInv w → RuntimeInv (finish cid o w).
Proof.
  intros Hz HI. unfold finish. destruct (calls w !! cid) as [c|] eqn:Hc; [|assumption].
  apply RuntimeInv_observe. now apply RuntimeInv_set_phase.
Qed.

Lemma RuntimeInv_resume_request (cid : nat) (o : Outcome) (w : World) :
  armed_retries cid w = 0 → RuntimeInv w → RuntimeInv (resume_request cid o w).
Proof.
  intros Hz HI. unfold resume_request. destruct (calls w !! cid) as [c|] eqn:Hc; [|assumption].
  destruct o as [v|e]; [now apply RuntimeInv_finish|].
  destruct (includes _ _ && negb (attempt c =? maxRetries c)%Z) eqn:E.
  - apply andb_true_iff in E as [_ E]. apply negb_true_iff, Z.eqb_neq in E.
    destruct (ri_calls _ HI _ _ Hc) as (Hm & Ha & _).
    pose proof (RuntimeInv_log Warn "TSServer request failed" w HI) as HI1.
    pose proof (RuntimeInv_log Info "Retrying TSServer request after debug failure" _ HI1) as HI2.
    set (w2 := log Info _ _) in *.
    assert (calls w2 !! cid = Some c) as Hc2 by exact Hc.
    pose proof (RuntimeInv_set_phase cid c Sleeping w2 Hc2 Hz HI2) as HI3.
    destruct HI3. split.
    + intros cid' c' Hc'. rewrite armed_retries_setTimeout.
      change (calls (set_call cid (set_phase Sleeping c) w2) !! cid' = Some c') in Hc'.
      destruct (ri_calls0 _ _ Hc') as (? & ? & Harm).
      repeat split; try assumption; try lia.
      destruct (Nat.eqb_spec cid cid') as [<-|Hne]; [|now rewrite Nat.add_0_r].
      right. rewrite (lookup_set_call _ _ c) in Hc' by assumption.
      rewrite decide_True in Hc' by reflexivity. inversion Hc'; subst c'.
      change (armed_retries cid (set_call cid (set_phase Sleeping c) w2))
        with (armed_retries cid w).
      rewrite Hz. cbn [phase attempt set_phase]. repeat split; lia.
    + intros cid' Hc'. rewrite armed_retries_setTimeout.
      change (calls (set_call cid (set_phase Sleeping c) w2) !! cid' = None) in Hc'.
      destruct (Nat.eqb_spec cid cid') as [<-|Hne]; [|rewrite Nat.add_0_r; now apply ri_none0].
      rewrite (lookup_set_call _ _ c) in Hc' by assumption.
      now rewrite decide_True in Hc' by reflexivity.
    + unfold setTimeout. cbn [timers trace set_timers]. apply Forall_app.
      split; [assumption | now apply Forall_singleton].
  - apply RuntimeInv_finish; [exact Hz | now apply RuntimeInv_log].
Qed.

Lemma RuntimeInv_settle (cid : nat) (seq : Z) (o : Outcome) (w : World) :
  RuntimeInv w → RuntimeInv (settle cid seq o w).
Proof.
  intros HI. unfold settle. destruct (calls w !! cid) as [c|] eqn:Hc; [|assumption].
  destruct (phase c) eqn:Hp; try assumption.
  destruct (_ =? _)%Z; [|assumption].
  apply RuntimeInv_resume_request; [|assumption].
  destruct (ri_calls _ HI _ _ Hc) as (_ & _ & [Hz|(_ & Hs & _)]); [assumption | congruence].
Qed.

Lemma RuntimeInv_invoke_resolve seq cid body (w : World) :
  RuntimeInv w → RuntimeInv (invoke_resolve seq cid body w).
Proof. intros HI. now apply RuntimeInv_settle, RuntimeInv_observe. Qed.

Lemma RuntimeInv_invoke_reject seq cid e (w : World) :
  RuntimeInv w → RuntimeInv (invoke_reject seq cid e w).
Proof. intros HI. now apply RuntimeInv_settle, RuntimeInv_observe. Qed.

Lemma RuntimeInv_set_pendingRequests x (w : World) :
  RuntimeInv w → RuntimeInv (set_pendingRequests x w).
Proof. apply RuntimeInv_same; try reflexivity. exists []. now rewrite app_nil_r. Qed.

Lemma RuntimeInv_set_buffer x (w : World) : RuntimeInv w → RuntimeInv (set_buffer x w).
Proof. apply RuntimeInv_same; try reflexivity. exists []. now rewrite app_nil_r. Qed.

Lemma RuntimeInv_handleMessage (m : Message) (w : World) :
  RuntimeInv w → RuntimeInv (handleMessage m w).
Proof.
  intros HI. unfold handleMessage. destruct m as [r|e|].
  - destruct (map_get _ _) as [cid|]; [|now apply RuntimeInv_log].
    destruct (success r).
    + now apply RuntimeInv_invoke_resolve, RuntimeInv_set_pendingRequests.
    + now apply RuntimeInv_invoke_reject, RuntimeInv_log, RuntimeInv_set_pendingRequests.
  - now apply RuntimeInv_observe.
  - now apply RuntimeInv_log.
Qed.

Lemma RuntimeInv_deliver (content : string) (w : World) :
  RuntimeInv w → RuntimeInv (deliver content w).
Proof.
  intros HI. unfold deliver. destruct (JSON_parse content).
  - now apply RuntimeInv_handleMessage.
  - now apply RuntimeInv_log.
Qed.

Lemma RuntimeInv_handleData (data : string) (w : World) :
  RuntimeInv w → RuntimeInv (handleData data w).
Proof.
  intros HI. rewrite handleData_yielded. apply RuntimeInv_set_buffer.
  generalize (yielded (buffer w) data).1. intros contents. revert w HI.
  induction contents as [|c cs IH]; intros w HI; [assumption|].
  apply IH, RuntimeInv_deliver, HI.
Qed.



Lemma RuntimeInv_set_sequence x (w : World) : RuntimeInv w → RuntimeInv (set_sequence x w).
Proof. apply RuntimeInv_same; try reflexivity. exists []. now rewrite app_nil_r. Qed.

Lemma RuntimeInv_attempt_request (cid : nat) (w : World) :
  armed_retries cid w = 0 → RuntimeInv w → RuntimeInv (attempt_request cid w).
Proof.
  intros Hz HI. unfold attempt_request. destruct (calls w !! cid) as [c|] eqn:Hc; [|assumption].
  destruct (_ <=? _)%Z; [|now apply RuntimeInv_finish].
  set (w0 := set_pendingRequests _ (set_sequence _ w)).
  assert (RuntimeInv (set_call cid (set_phase (Awaiting (sequence w)) c) w0)) as HI1.
  { apply RuntimeInv_set_phase; [exact Hc | exact Hz |].
    now apply RuntimeInv_set_pendingRequests, RuntimeInv_set_sequence. }
  cbn [process set_call set_calls].
  change (process w0) with (process w).
  destruct (process w) as [p|]; [|now apply RuntimeInv_settle].
  destruct (stdin p); [|now apply RuntimeInv_settle].
  apply RuntimeInv_setTimeout; [discriminate | | now apply RuntimeInv_observe].
  unfold timer_ok. cbn [callback delay armed_at]. repeat split.
  exists (args c). unfold observe. cbn [trace set_trace now].
  apply elem_of_app. right. apply list_elem_of_singleton. reflexivity.
Qed.

Lemma RuntimeInv_new_call (cmd : string) (a : option Arguments) (w : World) :
  RuntimeInv w →
  RuntimeInv (set_calls (calls w ++
    [{| command := cmd; args := a; maxRetries := 3; attempt := 0; phase := Running |}]) w).
Proof.
  intros []. split; cbn [calls set_calls trace timers]; [| |assumption].
  - intros cid c Hc.
    change (armed_retries cid (set_calls _ w)) with (armed_retries cid w).
    destruct (decide (cid < List.length (calls w))%nat) as [Hlt|Hge].
    + rewrite lookup_app_l in Hc by assumption. now apply ri_calls0.
    + rewrite lookup_app_r in Hc by lia.
      destruct (cid - List.length (calls w)) as [|n] eqn:E; [|now destruct n].
      inversion Hc; subst c. cbn. repeat split; try lia.
      left. apply ri_none0. apply lookup_ge_None. lia.
  - intros cid Hc. change (armed_retries cid (set_calls _ w)) with (armed_retries cid w).
    apply ri_none0. apply lookup_ge_None in Hc. apply lookup_ge_None.
    rewrite List.length_app in Hc. lia.
Qed.

Lemma RuntimeInv_request (cmd : string) (a : option Arguments) (w : World) :
  RuntimeInv w → RuntimeInv (request cmd a w).
Proof.
  intros HI. unfold request, requestWithRetry. cbn [process set_calls].
  pose proof (RuntimeInv_new_call cmd a w HI) as HI1.
  set (w1 := set_calls _ w) in *.
  assert (armed_retries (List.length (calls w)) w1 = 0) as Hz.
  { change (armed_retries (List.length (calls w)) w1)
      with (armed_retries (List.length (calls w)) w).
    apply (ri_none _ HI). now apply lookup_ge_None. }
  destruct (process w) as [p|]; [|now apply RuntimeInv_finish].
  destruct (stdin p); [now apply RuntimeInv_attempt_request | now apply RuntimeInv_finish].
Qed.

Lemma RuntimeInv_cancel_all (entries : list (Z * nat)) (w : World) :
  RuntimeInv w → RuntimeInv (cancel_all entries w).
Proof.
  revert w. induction entries as [|[seq cid] es IH]; intros w HI; [assumption|].
  simpl. now apply IH, RuntimeInv_invoke_reject.
Qed.

Lemma RuntimeInv_stop (w : World) : RuntimeInv w → RuntimeInv (stop w).
Proof.
  intros HI. unfold stop.
  pose proof (RuntimeInv_set_pendingRequests [] _ (RuntimeInv_cancel_all (pendingRequests w) w HI))
    as HI1.
  set (w1 := set_pendingRequests [] _) in *.
  destruct (process w1) as [p|].
  - apply RuntimeInv_setTimeout; [discriminate | exact I |].
    assert (RuntimeInv (if stdin p then observe End (observe (WriteRaw exit_command) w1)
                        else w1)) as HI2
      by (destruct (stdin p); [now apply RuntimeInv_observe, RuntimeInv_observe | assumption]).
    revert HI2. apply RuntimeInv_same; try reflexivity. exists []. now rewrite app_nil_r.
  - revert HI1. apply RuntimeInv_same; try reflexivity. exists []. now rewrite app_nil_r.
Qed.

Lemma RuntimeInv_stop_resume (sid : nat) (w : World) :
  RuntimeInv w → RuntimeInv (stop_resume sid w).
Proof.
  intros HI. unfold stop_resume. destruct (stops w !! sid) as [[p [|]]|]; try assumption.
  cbn [process set_stops]. destruct (process w) as [cp|].
  - destruct (negb (killed cp)).
    + revert HI. apply RuntimeInv_same; try reflexivity. now eexists.
    + revert HI. apply RuntimeInv_same; try reflexivity. exists []. now rewrite app_nil_r.
  - revert HI. apply RuntimeInv_same; try reflexivity. exists []. now rewrite app_nil_r.
Qed.

Lemma RuntimeInv_on_exit p code signal (w : World) :
  RuntimeInv w → RuntimeInv (on_exit p code signal w).
Proof.
  intros HI. unfold on_exit.
  set (w1 := observe _ (set_process None (log Info _ w))).
  assert (RuntimeInv w1) as HI1.
  { apply RuntimeInv_observe. generalize (RuntimeInv_log Info "TSServer process exited" w HI).
    apply RuntimeInv_same; try reflexivity. exists []. now rewrite app_nil_r. }
  generalize (waiting_stops p w1). intros sids. revert HI1. generalize w1.
  induction sids as [|sid sids IH]; intros w2 HI2; [assumption|].
  simpl. now apply IH, RuntimeInv_stop_resume.
Qed.

Lemma RuntimeInv_start (w : World) : RuntimeInv w → RuntimeInv (start w).
Proof.
  intros HI. unfold start. destruct (process w); [now apply RuntimeInv_observe|].
  set (w1 := set_spawned _ _).
  assert (RuntimeInv w1) as HI1.
  { revert HI. apply RuntimeInv_same; try reflexivity. exists []. now rewrite app_nil_r. }
  destruct (skipAvailabilityCheck w1); now apply RuntimeInv_setTimeout.
Qed.

(** A timer fires. *)
Lemma armed_retries_fired (cid i : nat) (t : Timer) (w : World) :
  timers w !! i = Some t →
  armed_retries cid (set_timers (<[i := set_fired t]> (timers w)) w) =
  armed_retries cid w - (if retry_armed cid t then 1 else 0) ∧
  (retry_armed cid t = true → (1 <= armed_retries cid w)%nat).
Proof. intros Hi. unfold armed_retries. cbn [timers set_timers]. now apply filter_insert_fired. Qed.

Lemma RuntimeInv_fired (i : nat) (t : Timer) (w : World) :
  timers w !! i = Some t →
  RuntimeInv w → RuntimeInv (set_timers (<[i := set_fired t]> (timers w)) w).
Proof.
  intros Hi []. split.
  - intros cid c Hc. destruct (armed_retries_fired cid i t w Hi) as [-> _].
    destruct (ri_calls0 cid c Hc) as (Hm & Ha & Harm).
    split; [exact Hm|]. split; [exact Ha|]. destruct Harm as [Hz|(H1 & Hs & Hlt)].
    + left. destruct (retry_armed cid t); lia.
    + destruct (retry_armed cid t); [left; lia | right].
      split; [lia|]. split; assumption.
  - intros cid Hc. destruct (armed_retries_fired cid i t w Hi) as [-> _].
    rewrite (ri_none0 cid Hc). reflexivity.
  - cbn [timers trace set_timers]. apply Forall_insert; [assumption|].
    apply timer_ok_set_fired. eapply Forall_lookup_1; eassumption.
Qed.

Lemma RuntimeInv_fire (i : nat) (w : World) : RuntimeInv w → RuntimeInv (fire i w).
Proof.
  intros HI. unfold fire. destruct (timers w !! i) as [t|] eqn:Hi; [|assumption].
  destruct (fired t) eqn:Hf; [assumption|]. cbn [orb].
  destruct (_ <? _)%Z; [assumption|].
  pose proof (RuntimeInv_fired i t w Hi HI) as HI1.
  set (w1 := set_timers _ w) in *.
  destruct (callback t) as [cid seq cmd timeout|cid|sid| |] eqn:Hcb; cbn [run_callback].
  - destruct (map_has _ _); [|assumption].
    now apply RuntimeInv_invoke_reject, RuntimeInv_log, RuntimeInv_set_pendingRequests.
  - destruct (calls w1 !! cid) as [c|] eqn:Hc; [|assumption].
    destruct (armed_retries_fired cid i t w Hi) as [Harm Hone].
    assert (retry_armed cid t = true) as Hr.
    { unfold retry_armed. rewrite Hf, Hcb. cbn. apply Nat.eqb_refl. }
    rewrite Hr in Harm. specialize (Hone Hr).
    destruct (ri_calls _ HI cid c Hc) as (Hm & Ha & [Hz|(H1 & Hs & Hlt)]); [lia|].
    fold w1 in Harm.
    assert (armed_retries cid w1 = 0) as Hz by lia.
    apply RuntimeInv_attempt_request; [exact Hz|].
    destruct HI1. split.
    + intros cid' c' Hc'. rewrite (lookup_set_call _ _ c) in Hc' by assumption.
      change (armed_retries cid' (set_call cid (set_attempt (attempt c + 1) c) w1))
        with (armed_retries cid' w1).
      destruct (decide (cid = cid')) as [<-|Hne]; [|now apply ri_calls0].
      inversion Hc'; subst c'. cbn [maxRetries attempt set_attempt].
      repeat split; try assumption; try lia.
    + intros cid' Hc'. rewrite (lookup_set_call _ _ c) in Hc' by assumption.
      destruct (decide (cid = cid')); [discriminate | now apply ri_none0].
    + assumption.
  - now apply RuntimeInv_stop_resume.
  - now apply RuntimeInv_observe.
  - now apply RuntimeInv_request.
Qed.

Lemma RuntimeInv_notify cmd a (w : World) : RuntimeInv w → RuntimeInv (notify cmd a w).1.
Proof.
  intros HI. unfold notify. destruct (process w) as [p|]; [|assumption].
  destruct (stdin p); [|assumption].
  now apply RuntimeInv_observe, RuntimeInv_set_sequence.
Qed.

Lemma RuntimeInv_set_openFiles x (w : World) : RuntimeInv w → RuntimeInv (set_openFiles x w).
Proof. apply RuntimeInv_same; try reflexivity. exists []. now rewrite app_nil_r. Qed.

Lemma RuntimeInv_set_fileCalls x (w : World) : RuntimeInv w → RuntimeInv (set_fileCalls x w).
Proof. apply RuntimeInv_same; try reflexivity. exists []. now rewrite app_nil_r. Qed.

Lemma RuntimeInv_openFile file (w : World) : RuntimeInv w → RuntimeInv (openFile file w).1.
Proof.
  intros HI. destruct (openFile_cases file w) as [-> | [thrown ->]]; [assumption|].
  now apply RuntimeInv_notify.
Qed.

Lemma RuntimeInv_closeFile file (w : World) : RuntimeInv w → RuntimeInv (closeFile file w).1.
Proof.
  intros HI. destruct (closeFile_cases file w) as [-> | [thrown ->]]; [assumption|].
  now apply RuntimeInv_notify.
Qed.

Lemma RuntimeInv_suspend (r : World * option FileCall) : RuntimeInv r.1 → RuntimeInv (suspend r).
Proof.
  intros HI. destruct (suspend_cases r) as [-> | [c ->]]; [assumption|].
  now apply RuntimeInv_set_fileCalls.
Qed.

Lemma RuntimeInv_record_failure operation (r : World * option Error) :
  RuntimeInv r.1 → RuntimeInv (record_failure operation r).
Proof. destruct r as [w [e|]]; simpl; [apply RuntimeInv_observe | auto]. Qed.

Lemma RuntimeInv_fileCall_resume (fid : nat) (w : World) : RuntimeInv w → RuntimeInv (fileCall_resume fid w).
Proof.
  intros HI. destruct (fileCall_resume_cases fid w) as [-> | (c & _ & ->)]; [assumption|].
  apply RuntimeInv_record_failure.
  destruct (resume_fileCall_cases c (set_fileCalls (<[fid := (c, false)]> (fileCalls w)) w))
    as [-> | [files ->]]; cbn [fst].
  - now apply RuntimeInv_set_fileCalls.
  - now apply RuntimeInv_set_openFiles, RuntimeInv_set_fileCalls.
Qed.

Lemma RuntimeInv_step (w : World) (t : Task) : RuntimeInv w → RuntimeInv (step w t).
Proof.
  intros HI. destruct t; cbn [step].
  - now apply RuntimeInv_start.
  - now apply RuntimeInv_request.
  - now apply RuntimeInv_suspend, RuntimeInv_openFile.
  - now apply RuntimeInv_suspend, RuntimeInv_closeFile.
  - now apply RuntimeInv_fileCall_resume.
  - now apply RuntimeInv_stop.
  - destruct (_ <? _)%nat; [now apply RuntimeInv_handleData | assumption].
  - destruct (_ <? _)%nat; [now apply RuntimeInv_on_exit | assumption].
  - now apply RuntimeInv_fire.
  - destruct (_ <=? _)%Z; [|assumption].
    revert HI. apply RuntimeInv_same; try reflexivity. exists []. now rewrite app_nil_r.
Qed.

Lemma RuntimeInv_run (ts : list Task) (w : World) : RuntimeInv w → RuntimeInv (run ts w).
Proof.
  revert w. induction ts as [|t ts IH]; intros w HI; [assumption|].
  apply IH, RuntimeInv_step, HI.
Qed.

Lemma RuntimeInv_new_client (skip : bool) (t0 : Z) : RuntimeInv (new_client skip t0).
Proof.
  split; cbn.
  - intros cid c H. now rewrite lookup_nil in H.
  - reflexivity.
  - constructor.
Qed.



(** ** What a settlement does to the calls *)

Lemma calls_finish (cid : nat) (o : Outcome) (w : World) (c : Call) :
  calls w !! cid = Some c →
  calls (finish cid o w) = <[cid := set_phase (Finished o) c]> (calls w).
Proof. intros Hc. unfold finish. now rewrite Hc. Qed.

Lemma calls_resume_request (cid : nat) (o : Outcome) (w : World) (c : Call) :
  calls w !! cid = Some c →
  calls (resume_request cid o w) = <[cid := resumed c o]> (calls w).
Proof.
  intros Hc. unfold resume_request, resumed. rewrite Hc.
  destruct o as [v|e]; [now apply calls_finish|].
  destruct (_ && _); [reflexivity|].
  now apply (calls_finish cid (Rejected e) (log Warn "TSServer request failed" w)).
Qed.

Lemma calls_settle (cid : nat) (seq : Z) (o : Outcome) (w : World) :
  calls (settle cid seq o w) = resumed_calls cid seq o (calls w).
Proof.
  unfold settle, resumed_calls. destruct (calls w !! cid) as [c|] eqn:Hc; [|reflexivity].
  destruct (phase c); try reflexivity.
  destruct (_ =? _)%Z; [now apply calls_resume_request | reflexivity].
Qed.

Lemma calls_invoke_resolve seq cid body (w : World) :
  calls (invoke_resolve seq cid body w) = resumed_calls cid seq (Resolved body) (calls w).
Proof. unfold invoke_resolve. now rewrite calls_settle. Qed.

Lemma calls_invoke_reject seq cid e (w : World) :
  calls (invoke_reject seq cid e w) = resumed_calls cid seq (Rejected e) (calls w).
Proof. unfold invoke_reject. now rewrite calls_settle. Qed.

Lemma phase_resumed (c : Call) (o : Outcome) (seq : Z) : phase (resumed c o) ≠ Awaiting seq.
Proof. unfold resumed. destruct o; [discriminate|]. now destruct (_ && _). Qed.

(** A call that awaits [seq] is resumed; every other call stays as it is. *)
Lemma resumed_calls_awaiting (cid : nat) (seq : Z) (o : Outcome) (cs : list Call) (c : Call) :
  cs !! cid = Some c → phase c = Awaiting seq →
  resumed_calls cid seq o cs !! cid = Some (resumed c o).
Proof.
  intros Hc Hp. unfold resumed_calls. rewrite Hc, Hp, Z.eqb_refl.
  apply list_lookup_insert_eq. now apply lookup_lt_Some in Hc.
Qed.

Lemma resumed_calls_other (cid cid' : nat) (seq : Z) (o : Outcome) (cs : list Call) (c : Call) :
  cs !! cid' = Some c → phase c ≠ Awaiting seq →
  resumed_calls cid seq o cs !! cid' = Some c.
Proof.
  intros Hc Hp. unfold resumed_calls. destruct (cs !! cid) as [c0|] eqn:Hc0; [|assumption].
  destruct (phase c0) eqn:Hp0; try assumption.
  destruct (Z.eqb_spec seq0 seq) as [->|]; [|assumption].
  destruct (decide (cid = cid')) as [->|Hne]; [congruence|].
  now rewrite list_lookup_insert_ne.
Qed.

Lemma pendingRequests_handleMessage_response (r : TSServerResponse) (w : World) :
  pendingRequests (handleMessage (Response r) w) = map_delete (request_seq r) (pendingRequests w).
Proof.
  unfold handleMessage. destruct (map_get _ _) as [cid|] eqn:E.
  - destruct (success r).
    + now rewrite pendingRequests_invoke_resolve.
    + now rewrite pendingRequests_invoke_reject.
  - cbn. symmetry. apply map_delete_absent. now apply map_get_None_keys.
Qed.

Lemma settlements_handleMessage_response (r : TSServerResponse) (w : World) :
  settlements (handleMessage (Response r) w) =
  settlements w ++
  match map_get (request_seq r) (pendingRequests w) with
  | Some cid => [(request_seq r, cid, outcome_of r)]
  | None => []
  end.
Proof.
  unfold handleMessage, outcome_of. destruct (map_get _ _) as [cid|] eqn:E.
  - destruct (success r).
    + now rewrite settlements_invoke_resolve.
    + now rewrite settlements_invoke_reject, settlements_log.
  - now rewrite settlements_log, app_nil_r.
Qed.

Lemma calls_handleMessage_response (r : TSServerResponse) (w : World) :
  calls (handleMessage (Response r) w) =
  match map_get (request_seq r) (pendingRequests w) with
  | Some cid => resumed_calls cid (request_seq r) (outcome_of r) (calls w)
  | None => calls w
  end.
Proof.
  unfold handleMessage, outcome_of. destruct (map_get _ _) as [cid|] eqn:E; [|reflexivity].
  destruct (success r).
  - now rewrite calls_invoke_resolve.
  - now rewrite calls_invoke_reject.
Qed.

Lemma omap_settled_by_delete (pending : list (Z * nat)) (k : Z) (rs : list TSServerResponse) :
  k ∉ request_seq <$> rs →
  omap (settled_by (map_delete k pending)) rs = omap (settled_by pending) rs.
Proof.
  induction rs as [|r rs IH]; intros Hk; [reflexivity|].
  rewrite fmap_cons, not_elem_of_cons in Hk. destruct Hk as [Hne Hk].
  cbn [omap list_omap]. rewrite (IH Hk). unfold settled_by.
  rewrite map_get_map_delete_ne by congruence. reflexivity.
Qed.

Lemma settlements_handle_all (rs : list TSServerResponse) (w : World) :
  NoDup (request_seq <$> rs) →
  settlements (handle_all rs w) = settlements w ++ omap (settled_by (pendingRequests w)) rs.
Proof.
  revert w. induction rs as [|r rs IH]; intros w Hnd.
  - simpl. now rewrite app_nil_r.
  - rewrite fmap_cons in Hnd. apply NoDup_cons in Hnd as [Hr Hnd].
    cbn [handle_all fold_left]. fold (handle_all rs (handleMessage (Response r) w)).
    rewrite IH by assumption.
    rewrite settlements_handleMessage_response, pendingRequests_handleMessage_response.
    rewrite omap_settled_by_delete by assumption.
    rewrite <- app_assoc. f_equal. cbn [omap list_omap].
    generalize (omap (settled_by (pendingRequests w)) rs). intros l.
    unfold settled_by. now destruct (map_get _ _).
Qed.


Lemma apply_settlements_not_awaiting (ss : list (Z * nat * Outcome)) (cs : list Call)
    (cid : nat) (c : Call) :
  cs !! cid = Some c → (∀ s, s ∈ ss → phase c ≠ Awaiting s.1.1) →
  apply_settlements ss cs !! cid = Some c.
Proof.
  revert cs. induction ss as [|s ss IH]; intros cs Hc Hp; [assumption|].
  cbn [apply_settlements fold_left]. apply IH.
  - apply resumed_calls_other; [assumption|]. apply Hp, list_elem_of_here.
  - intros s' Hs'. apply Hp. now apply list_elem_of_further.
Qed.

(** Among settlements of distinct requests, the one for the request a call
    awaits resumes that call, and no other settlement touches it. *)
Lemma apply_settlements_awaiting (ss : list (Z * nat * Outcome)) (cs : list Call)
    (seq : Z) (cid : nat) (o : Outcome) (c : Call) :
  NoDup ss.*1.*1 → (seq, cid, o) ∈ ss →
  cs !! cid = Some c → phase c = Awaiting seq →
  apply_settlements ss cs !! cid = Some (resumed c o).
Proof.
  revert cs. induction ss as [|s ss IH]; intros cs Hnd Hin Hc Hp.
  - now apply elem_of_nil in Hin.
  - rewrite !fmap_cons in Hnd. apply NoDup_cons in Hnd as [Hs Hnd].
    cbn [apply_settlements fold_left]. apply elem_of_cons in Hin as [<-|Hin].
    + apply apply_settlements_not_awaiting.
      * now apply resumed_calls_awaiting.
      * intros s' _. apply phase_resumed.
    + apply IH; try assumption.
      apply resumed_calls_other; [assumption|]. rewrite Hp. intros [= Heq].
      apply Hs. rewrite <- Heq.
      apply (list_elem_of_fmap_2 fst), (list_elem_of_fmap_2 fst) in Hin. exact Hin.
Qed.

Lemma calls_handle_all (rs : list TSServerResponse) (w : World) :
  NoDup (request_seq <$> rs) →
  calls (handle_all rs w) = apply_settlements (omap (settled_by (pendingRequests w)) rs) (calls w).
Proof.
  revert w. induction rs as [|r rs IH]; intros w Hnd; [reflexivity|].
  rewrite fmap_cons in Hnd. apply NoDup_cons in Hnd as [Hr Hnd].
  cbn [handle_all fold_left]. fold (handle_all rs (handleMessage (Response r) w)).
  rewrite IH by assumption.
  rewrite calls_handleMessage_response, pendingRequests_handleMessage_response.
  rewrite omap_settled_by_delete by assumption.
  cbn [omap list_omap]. unfold settled_by at 2.
  now destruct (map_get _ _).
Qed.

Lemma calls_cancel_all (entries : list (Z * nat)) (w : World) :
  calls (cancel_all entries w) = apply_settlements (cancelled <$> entries) (calls w).
Proof.
  revert w. induction entries as [|[seq cid] es IH]; intros w; [reflexivity|].
  cbn [cancel_all fold_left]. fold (cancel_all es (invoke_reject seq cid shutting_down w)).
  now rewrite IH, calls_invoke_reject.
Qed.

Lemma NoDup_settled_by (pending : list (Z * nat)) (rs : list TSServerResponse) :
  NoDup (request_seq <$> rs) → NoDup (omap (settled_by pending) rs).*1.*1.
Proof.
  induction rs as [|r rs IH]; intros Hnd; [constructor|].
  rewrite fmap_cons in Hnd. apply NoDup_cons in Hnd as [Hr Hnd].
  cbn [omap list_omap]. unfold settled_by at 1.
  destruct (map_get _ _) as [cid|]; [|auto].
  rewrite !fmap_cons. apply NoDup_cons. split; [|auto]. cbn.
  intros Hin. apply Hr.
  apply list_elem_of_fmap in Hin as ([sc o] & Heq1 & Hin).
  apply list_elem_of_fmap in Hin as ([[s c] o'] & Heq2 & Hin).
  apply list_elem_of_omap in Hin as (r' & Hr' & Hs). unfold settled_by in Hs.
  destruct (map_get (request_seq r') pending); [|discriminate].
  simpl in *. simplify_eq.
  match goal with H : request_seq r = _ |- _ => rewrite H end.
  now apply list_elem_of_fmap_2.
Qed.




(** ** [stop], the exit of the child and the grace timer *)

Lemma stop_unfold (w : World) :
  stop w =
  let w1 := set_pendingRequests [] (cancel_all (pendingRequests w) w) in
  match process w with
  | Some p =>
      setTimeout (StopGrace (List.length (stops w))) 3000
        (set_stops (stops w ++ [(pid p, true)])
           (if stdin p then observe End (observe (WriteRaw exit_command) w1) else w1))
  | None => set_openFiles ∅ w1
  end.
Proof.
  unfold stop. cbn zeta.
  pose proof (stable_cancel_all (pendingRequests w) w) as Hst.
  cbn [process set_pendingRequests]. rewrite (stable_process _ _ Hst).
  destruct (process w) as [p|]; [|reflexivity].
  destruct (stdin p); cbn [stops observe set_trace set_pendingRequests];
    now rewrite (stable_stops _ _ Hst).
Qed.

Lemma pendingRequests_stop (w : World) : pendingRequests (stop w) = [].
Proof. rewrite stop_unfold. cbn zeta. destruct (process w) as [p|]; [|reflexivity]. now destruct (stdin p). Qed.

Lemma settlements_stop (w : World) :
  settlements (stop w) = settlements w ++ (cancelled <$> pendingRequests w).
Proof.
  rewrite <- settlements_cancel_all. rewrite stop_unfold. cbn zeta.
  destruct (process w) as [p|]; [|reflexivity].
  destruct (stdin p); [|reflexivity].
  unfold settlements. cbn. rewrite !omap_app. cbn. now rewrite !app_nil_r.
Qed.

Lemma calls_stop (w : World) :
  calls (stop w) = apply_settlements (cancelled <$> pendingRequests w) (calls w).
Proof.
  rewrite <- calls_cancel_all. rewrite stop_unfold. cbn zeta.
  destruct (process w) as [p|]; [|reflexivity]. now destruct (stdin p).
Qed.

Lemma now_cancel_all (entries : list (Z * nat)) (w : World) : now (cancel_all entries w) = now w.
Proof. apply (stable_now _ _ (stable_cancel_all entries w)). Qed.

(** [stop_resume] once the child has exited. *)
Lemma stop_resume_exited (sid : nat) (w : World) :
  process w = None →
  stop_resume sid w =
  match stops w !! sid with
  | Some (p, true) =>
      set_openFiles ∅ (set_process None (set_stops (<[sid := (p, false)]> (stops w)) w))
  | _ => w
  end.
Proof.
  intros Hp. unfold stop_resume. destruct (stops w !! sid) as [[p [|]]|]; try reflexivity.
  cbn [process set_stops]. now rewrite Hp.
Qed.

Ltac split_ands := repeat match goal with |- _ ∧ _ => split end.

Lemma fold_stop_resume_exited (sids : list nat) (w : World) :
  process w = None →
  let w' := fold_left (λ w sid, stop_resume sid w) sids w in
  process w' = None ∧ trace w' = trace w ∧ calls w' = calls w ∧
  pendingRequests w' = pendingRequests w ∧ timers w' = timers w ∧
  (∀ sid p b, stops w !! sid = Some (p, b) →
     stops w' !! sid = Some (p, if decide (sid ∈ sids) then false else b)) ∧
  ((openFiles w = ∅ ∨ ∃ sid p, sid ∈ sids ∧ stops w !! sid = Some (p, true)) → openFiles w' = ∅).
Proof.
  revert w. induction sids as [|s sids IH]; intros w Hp; cbn zeta.
  - split_ands; try reflexivity.
    + exact Hp.
    + intros sid p b H. rewrite decide_False by apply not_elem_of_nil. exact H.
    + intros [H|(sid & p & Hin & _)]; [assumption | now apply elem_of_nil in Hin].
  - cbn [fold_left]. rewrite (stop_resume_exited s w Hp).
    destruct (stops w !! s) as [[q [|]]|] eqn:Hs.
    + specialize (IH (set_openFiles ∅ (set_process None
                        (set_stops (<[s := (q, false)]> (stops w)) w))) eq_refl).
      cbn zeta in IH. destruct IH as (H1 & H2 & H3 & H4 & H5 & H6 & H7).
      split_ands; try assumption.
      * intros sid p b H. destruct (decide (sid = s)) as [->|Hne].
        -- rewrite decide_True by apply list_elem_of_here.
           rewrite Hs in H. inversion H; subst.
           specialize (H6 s p false). cbn [stops set_openFiles set_process set_stops] in H6.
           rewrite list_lookup_insert_eq in H6 by (now apply lookup_lt_Some in Hs).
           specialize (H6 eq_refl). now destruct (decide (s ∈ sids)).
        -- specialize (H6 sid p b). cbn [stops set_openFiles set_process set_stops] in H6.
           rewrite list_lookup_insert_ne in H6 by congruence. specialize (H6 H).
           rewrite H6. destruct (decide (sid ∈ sids)) as [Hin|Hin].
           ++ now rewrite decide_True by (now apply list_elem_of_further).
           ++ rewrite decide_False; [reflexivity|]. rewrite elem_of_cons. tauto.
      * intros _. apply H7. now left.
    + specialize (IH w Hp). cbn zeta in IH. destruct IH as (H1 & H2 & H3 & H4 & H5 & H6 & H7).
      split_ands; try assumption.
      * intros sid p b H. specialize (H6 sid p b H). rewrite H6.
        destruct (decide (sid = s)) as [->|Hne].
        -- rewrite Hs in H. inversion H; subst.
           rewrite (decide_True (P := s ∈ s :: sids)) by apply list_elem_of_here.
           now destruct (decide (s ∈ sids)).
        -- destruct (decide (sid ∈ sids)) as [Hin|Hin].
           ++ now rewrite decide_True by (now apply list_elem_of_further).
           ++ rewrite decide_False; [reflexivity|]. rewrite elem_of_cons. tauto.
      * intros [H|(sid & p & Hin & Hsid)]; [apply H7; now left|].
        apply elem_of_cons in Hin as [->|Hin]; [congruence|].
        apply H7. right. now exists sid, p.
    + specialize (IH w Hp). cbn zeta in IH. destruct IH as (H1 & H2 & H3 & H4 & H5 & H6 & H7).
      split_ands; try assumption.
      * intros sid p b H. specialize (H6 sid p b H). rewrite H6.
        destruct (decide (sid = s)) as [->|Hne]; [congruence|].
        destruct (decide (sid ∈ sids)) as [Hin|Hin].
        -- now rewrite decide_True by (now apply list_elem_of_further).
        -- rewrite decide_False; [reflexivity|]. rewrite elem_of_cons. tauto.
      * intros [H|(sid & p & Hin & Hsid)]; [apply H7; now left|].
        apply elem_of_cons in Hin as [->|Hin]; [congruence|].
        apply H7. right. now exists sid, p.
Qed.




(** * The claims *)

(** C1.  Feeding a stream to [handleData] chunk by chunk leaves the client in
    the state that one call on the whole stream leaves it in, for every
    stream and every way of cutting it: the same slices are parsed and
    handled in the same order and the same buffer remains.  One call hands
    over as many slices as the data completes (none, one or several), removes
    whole frames only from the front of the buffer, and keeps what follows
    them. *)
Theorem C1_chunks_as_whole :
  (∀ (w : World) (chunk : string) (chunks : list string),
      feed (chunk :: chunks) w = handleData (join (chunk :: chunks)) w) ∧
  (∀ (buf chunk : string) (chunks : list string),
      parsed (yielded_chunks buf (chunk :: chunks)).1
        = parsed (yielded buf (join (chunk :: chunks))).1 ∧
      (yielded_chunks buf (chunk :: chunks)).2 = (yielded buf (join (chunk :: chunks))).2) ∧
  (∀ (w : World) (data : string),
      handleData data w
        = set_buffer (yielded (buffer w) data).2 (deliver_all (yielded (buffer w) data).1 w) ∧
      next_frame (yielded (buffer w) data).2 = None ∧
      ∃ consumed, framed (yielded (buffer w) data).1 consumed ∧
                  buffer w +:+ data = consumed +:+ (yielded (buffer w) data).2) ∧
  (∀ (contents : list string) (text partial : string),
      framed contents text → next_frame partial = None →
      yielded "" (text +:+ partial) = (contents, partial)).
Proof.
  split; [|split; [|split]].
  - intros w chunk chunks. apply feed_join.
  - intros buf chunk chunks. now rewrite yielded_chunks_join.
  - intros w data. split; [apply handleData_yielded|]. split.
    + unfold yielded. apply frames_drained. lia.
    + unfold yielded. apply frames_framed.
  - intros contents text partial Hf Hp. unfold yielded.
    change ("" +:+ (text +:+ partial)) with (text +:+ partial).
    apply frames_of_framed; [assumption | assumption | lia].
Qed.




Lemma resumed_calls_ne (cid cid' : nat) (seq : Z) (o : Outcome) (cs : list Call) :
  cid' ≠ cid → resumed_calls cid seq o cs !! cid' = cs !! cid'.
Proof.
  intros Hne. unfold resumed_calls. destruct (cs !! cid) as [c|]; [|reflexivity].
  destruct (phase c); try reflexivity.
  destruct (_ =? _)%Z; [|reflexivity]. now rewrite list_lookup_insert_ne.
Qed.

Lemma trace_finish (cid : nat) (o : Outcome) (w : World) (c : Call) :
  calls w !! cid = Some c →
  trace (finish cid o w)
  = trace w ++ [(now w, match o with Resolved v => Return cid v | Rejected e => Throw cid e end)].
Proof. intros Hc. unfold finish. now rewrite Hc. Qed.

Lemma settle_awaiting (cid : nat) (seq : Z) (o : Outcome) (w : World) (c : Call) :
  calls w !! cid = Some c → phase c = Awaiting seq →
  settle cid seq o w = resume_request cid o w.
Proof. intros Hc Hp. unfold settle. now rewrite Hc, Hp, Z.eqb_refl. Qed.

Lemma resume_request_resolved (cid : nat) (v : option any) (w : World) (c : Call) :
  calls w !! cid = Some c →
  resume_request cid (Resolved v) w = finish cid (Resolved v) w.
Proof. intros Hc. unfold resume_request. now rewrite Hc. Qed.

Lemma trace_invoke_resolve_awaiting seq cid body (w : World) (c : Call) :
  calls w !! cid = Some c → phase c = Awaiting seq →
  trace (invoke_resolve seq cid body w)
  = trace w ++ [(now w, Resolve seq cid body); (now w, Return cid body)].
Proof.
  intros Hc Hp. unfold invoke_resolve.
  rewrite (settle_awaiting _ _ _ _ c), (resume_request_resolved _ _ _ c),
    (trace_finish _ _ _ c) by assumption.
  cbn. now rewrite <- app_assoc.
Qed.

(** The error of a failure response carries the failure text. *)
Lemma failure_error_carries (text : string) :
  ∃ a b, error_message (failure_error (Some text)) = a +:+ text +:+ b.
Proof.
  unfold failure_error, truthy. destruct (String.eqb_spec text "") as [->|Hne].
  - now exists "", "Request failed".
  - destruct (includes text "Debug Failure").
    + now exists "TSServer Debug Failure: ",
        ". This may be due to file state issues or concurrent operations.".
    + exists "", "". cbn. now rewrite app_empty_r.
Qed.

(** C2.  A response whose [request_seq] is in the pending map removes that
    entry and invokes the continuation stored under it, and no other:
    [resolve] with the body when [success] is true, [reject] with an error
    that carries the failure text when it is false.  The call that awaits the
    request is resumed with that outcome (with the body, it returns it) and
    every other call stays as it is.  Responses to distinct requests, in
    whatever order they arrive, invoke for each request the continuation
    registered under its sequence number with the outcome of its own
    response. *)
Theorem C2_response_settles_its_request :
  (∀ (r : TSServerResponse) (w : World) (cid : nat),
      map_get (request_seq r) (pendingRequests w) = Some cid →
      let w' := handleMessage (Response r) w in
      pendingRequests w' = map_delete (request_seq r) (pendingRequests w) ∧
      map_get (request_seq r) (pendingRequests w') = None ∧
      settlements w' = settlements w ++ [(request_seq r, cid, outcome_of r)] ∧
      (success r = true → outcome_of r = Resolved (res_body r)) ∧
      (success r = false →
         ∃ e, outcome_of r = Rejected e ∧
              ∀ text, message r = Some text → ∃ a b, error_message e = a +:+ text +:+ b) ∧
      (∀ c, calls w !! cid = Some c → phase c = Awaiting (request_seq r) →
         calls w' !! cid = Some (resumed c (outcome_of r)) ∧
         (success r = true →
            phase (resumed c (outcome_of r)) = Finished (Resolved (res_body r)) ∧
            (now w, Return cid (res_body r)) ∈ trace w')) ∧
      (∀ cid', cid' ≠ cid → calls w' !! cid' = calls w !! cid')) ∧
  (∀ (rs : list TSServerResponse) (w : World),
      NoDup (request_seq <$> rs) →
      settlements (handle_all rs w)
        = settlements w ++ omap (settled_by (pendingRequests w)) rs ∧
      (∀ r cid c, r ∈ rs →
         map_get (request_seq r) (pendingRequests w) = Some cid →
         calls w !! cid = Some c → phase c = Awaiting (request_seq r) →
         calls (handle_all rs w) !! cid = Some (resumed c (outcome_of r))) ∧
      (∀ rs', rs ≡ₚ rs' →
         omap (settled_by (pendingRequests w)) rs ≡ₚ omap (settled_by (pendingRequests w)) rs' ∧
         ∀ r cid c, r ∈ rs →
           map_get (request_seq r) (pendingRequests w) = Some cid →
           calls w !! cid = Some c → phase c = Awaiting (request_seq r) →
           calls (handle_all rs' w) !! cid = calls (handle_all rs w) !! cid)).
Proof.
  assert (∀ (rs : list TSServerResponse) (w : World), NoDup (request_seq <$> rs) →
            ∀ r cid c, r ∈ rs →
              map_get (request_seq r) (pendingRequests w) = Some cid →
              calls w !! cid = Some c → phase c = Awaiting (request_seq r) →
              calls (handle_all rs w) !! cid = Some (resumed c (outcome_of r))) as Hcalls.
  { intros rs w Hnd r cid c Hin Hget Hc Hp. rewrite calls_handle_all by assumption.
    apply apply_settlements_awaiting with (seq := request_seq r); try assumption.
    - now apply NoDup_settled_by.
    - apply list_elem_of_omap. exists r. split; [assumption|].
      unfold settled_by. now rewrite Hget. }
  split.
  - intros r w cid Hget. cbn zeta. split_ands.
    + apply pendingRequests_handleMessage_response.
    + rewrite pendingRequests_handleMessage_response. apply map_get_map_delete.
    + now rewrite settlements_handleMessage_response, Hget.
    + unfold outcome_of. now intros ->.
    + unfold outcome_of. intros ->. eexists. split; [reflexivity|].
      intros text ->. apply failure_error_carries.
    + intros c Hc Hp. rewrite calls_handleMessage_response, Hget. split.
      * now apply resumed_calls_awaiting.
      * intros Hs. unfold outcome_of. rewrite Hs. split; [reflexivity|].
        unfold handleMessage. rewrite Hget, Hs.
        rewrite (trace_invoke_resolve_awaiting _ _ _ _ c) by assumption.
        cbn [trace now set_pendingRequests]. apply elem_of_app. right.
        apply list_elem_of_further, list_elem_of_here.
    + intros cid' Hne. rewrite calls_handleMessage_response, Hget.
      now apply resumed_calls_ne.
  - intros rs w Hnd. split_ands.
    + now apply settlements_handle_all.
    + now apply Hcalls.
    + intros rs' Hperm. split; [now rewrite Hperm|].
      intros r cid c Hin Hget Hc Hp.
      rewrite (Hcalls rs w Hnd r cid c) by assumption.
      apply Hcalls; try assumption.
      * now rewrite <- Hperm.
      * now rewrite <- Hperm.
Qed.


Lemma fire_due (i : nat) (t : Timer) (w : World) :
  timers w !! i = Some t → fired t = false → (armed_at t + delay t <= now w)%Z →
  fire i w = run_callback (callback t) (set_timers (<[i := set_fired t]> (timers w)) w).
Proof.
  intros Hi Hf Hd. unfold fire. rewrite Hi, Hf. cbn [orb].
  apply Z.ltb_ge in Hd. now rewrite Hd.
Qed.


(** C3.  In every state the client can reach, the pending map holds a
    sequence number once at most, no request has had a continuation invoked
    twice, and a request whose continuation has been invoked is no longer in
    the map.  A response, a timeout and [stop] each take the entry out of the
    map before they invoke its continuation; for a sequence number that is
    not in the map, a response only logs a warning, a timeout does nothing
    and [stop] invokes nothing, so whichever removes the entry first is the
    only one to invoke a continuation. *)
Theorem C3_pending_entry_removed_once :
  (∀ (ts : list Task) (skip : bool) (t0 : Z),
      let w := run ts (new_client skip t0) in
      NoDup (keys (pendingRequests w)) ∧
      NoDup (settled_seqs w) ∧
      (∀ seq, seq ∈ settled_seqs w → seq ∉ keys (pendingRequests w)) ∧
      (∀ seq, seq ∈ keys (pendingRequests w) → (seq < sequence w)%Z)) ∧
  (∀ (w : World) (seq : Z),
      (∀ r, request_seq r = seq →
         seq ∉ keys (pendingRequests (handleMessage (Response r) w))) ∧
      (∀ cid cmd timeout,
         seq ∉ keys (pendingRequests (run_callback (RequestTimeout cid seq cmd timeout) w))) ∧
      seq ∉ keys (pendingRequests (stop w))) ∧
  (∀ (w : World) (seq : Z),
      seq ∉ keys (pendingRequests w) →
      (∀ r, request_seq r = seq →
         handleMessage (Response r) w
           = log Warn "TSServer response received for unknown request" w ∧
         settlements (handleMessage (Response r) w) = settlements w ∧
         calls (handleMessage (Response r) w) = calls w) ∧
      (∀ cid cmd timeout, run_callback (RequestTimeout cid seq cmd timeout) w = w) ∧
      (∀ s, s ∈ settlements (stop w) → s ∈ settlements w ∨ s.1.1 ≠ seq) ∧
      (∀ cid c, calls w !! cid = Some c → phase c ≠ Awaiting seq →
         calls (stop w) !! cid = Some c ∨ ∃ seq', seq' ≠ seq ∧ phase c = Awaiting seq')).
Proof.
  split; [|split].
  - intros ts skip t0 w.
    destruct (Inv_run ts _ (Inv_new_client skip t0)). now split_ands.
  - intros w seq. split_ands.
    + intros r <-. rewrite pendingRequests_handleMessage_response, elem_of_keys_map_delete. tauto.
    + intros cid cmd timeout. cbn [run_callback].
      destruct (map_has seq (pendingRequests w)) eqn:E.
      * rewrite pendingRequests_invoke_reject. unfold log, observe.
        cbn [pendingRequests set_trace set_pendingRequests].
        rewrite elem_of_keys_map_delete. tauto.
      * intros Hin. apply map_has_true in Hin. congruence.
    + rewrite pendingRequests_stop. apply not_elem_of_nil.
  - intros w seq Hseq. split_ands.
    + intros r <-. apply map_get_None_keys in Hseq. unfold handleMessage. rewrite Hseq.
      split_ands; [reflexivity | apply settlements_log | reflexivity].
    + intros cid cmd timeout. cbn [run_callback].
      destruct (map_has seq (pendingRequests w)) eqn:E; [|reflexivity].
      apply map_has_true in E. contradiction.
    + intros s Hs. rewrite settlements_stop in Hs. apply elem_of_app in Hs as [Hs|Hs]; [now left|].
      right. apply list_elem_of_fmap in Hs as ([k c] & -> & Hin). cbn. intros ->.
      apply Hseq. now apply (list_elem_of_fmap_2 fst) in Hin.
    + intros cid c Hc Hp. destruct (phase c) as [|seq'| |o] eqn:Hph.
      * left. rewrite calls_stop. apply apply_settlements_not_awaiting; [assumption|].
        intros s _. now rewrite Hph.
      * right. exists seq'. split; [congruence | reflexivity].
      * left. rewrite calls_stop. apply apply_settlements_not_awaiting; [assumption|].
        intros s _. now rewrite Hph.
      * left. rewrite calls_stop. apply apply_settlements_not_awaiting; [assumption|].
        intros s _. now rewrite Hph.
Qed.








(** ** The retry loop *)


Lemma settle_rejected_final (cid : nat) (seq : Z) (e : Error) (w : World) (c : Call) :
  calls w !! cid = Some c → phase c = Awaiting seq →
  includes (error_message e) "Debug Failure" = false ∨ attempt c = maxRetries c →
  settle cid seq (Rejected e) w =
  observe (Throw cid e)
    (set_call cid (set_phase (Finished (Rejected e)) c)
       (log Warn "TSServer request failed" w)).
Proof.
  intros Hc Hp Hor. rewrite (settle_awaiting _ _ _ _ c) by assumption.
  unfold resume_request. rewrite Hc.
  assert (includes (error_message e) "Debug Failure" && negb (attempt c =? maxRetries c)%Z
          = false) as ->.
  { destruct Hor as [-> | ->]; [reflexivity|]. rewrite Z.eqb_refl. apply andb_false_r. }
  unfold finish. cbn [calls log observe set_trace]. now rewrite Hc.
Qed.

Lemma attempt_request_written (cid : nat) (w : World) (c : Call) (p : ChildProcess) :
  calls w !! cid = Some c → (attempt c <= maxRetries c)%Z →
  process w = Some p → stdin p = true →
  attempt_request cid w =
  setTimeout (RequestTimeout cid (sequence w) (command c) (timeout_for (command c)))
    (timeout_for (command c))
    (observe (Write {| req_seq := sequence w; req_command := command c;
                       req_arguments := args c |})
       (set_call cid (set_phase (Awaiting (sequence w)) c)
          (set_pendingRequests (map_set (sequence w) cid (pendingRequests w))
             (set_sequence (sequence w + 1) w)))).
Proof.
  intros Hc Ha Hp Hs. unfold attempt_request. rewrite Hc.
  apply Z.leb_le in Ha. rewrite Ha. cbn [process set_call set_calls set_pendingRequests set_sequence].
  now rewrite Hp, Hs.
Qed.

Lemma backoff_values : backoff 0 = 1000%Z ∧ backoff 1 = 2000%Z ∧ backoff 2 = 4000%Z.
Proof. now repeat split. Qed.






Lemma backoff_nonneg (a : Z) : (0 ≤ backoff a)%Z.
Proof.
  unfold backoff. apply Z.min_glb; [|lia].
  assert (0 ≤ 2 ^ a)%Z by (apply Z.pow_nonneg; lia). lia.
Qed.



(** C7.  An attempt arms one timer with the budget of its command, 30000 ms
    for 'open' and 15000 ms for every other command, at the moment its
    request is written.  The timer does nothing before the budget has
    passed.  When it fires and the request is still in the pending map, the
    entry is removed and the promise of the attempt is rejected with the
    timed-out error; a call that awaits the request fails with that error
    (the error text of a command without the signature in its name is not
    retried).  When the request has left the map, the timer changes nothing
    but its own [fired] flag. *)
Theorem C7_timeout_budget :
  (timeout_for "open" = 30000%Z ∧
   (∀ cmd, cmd ≠ "open" → timeout_for cmd = 15000%Z) ∧
   (15000 < 30000)%Z) ∧
  (∀ (w : World) (cid : nat) (c : Call) (p : ChildProcess),
      calls w !! cid = Some c → (attempt c <= maxRetries c)%Z →
      process w = Some p → stdin p = true →
      let w' := attempt_request cid w in
      timers w' = timers w ++
        [{| armed_at := now w; delay := timeout_for (command c);
            callback := RequestTimeout cid (sequence w) (command c) (timeout_for (command c));
            fired := false |}] ∧
      map_get (sequence w) (pendingRequests w') = Some cid ∧
      trace w' = trace w ++
        [(now w, Write {| req_seq := sequence w; req_command := command c;
                          req_arguments := args c |})]) ∧
  (∀ (ts : list Task) (skip : bool) (t0 : Z) (i : nat) (t : Timer)
     (cid : nat) (seq : Z) (cmd : string) (timeout : Z),
      let w := run ts (new_client skip t0) in
      timers w !! i = Some t → callback t = RequestTimeout cid seq cmd timeout →
      timeout = timeout_for cmd ∧ delay t = timeout_for cmd ∧
      ∃ a, (armed_at t, Write {| req_seq := seq; req_command := cmd; req_arguments := a |})
             ∈ trace w) ∧
  (∀ (w : World) (i : nat) (t : Timer),
      timers w !! i = Some t → (now w < armed_at t + delay t)%Z → fire i w = w) ∧
  (∀ (w : World) (i : nat) (t : Timer) (cid : nat) (seq : Z) (cmd : string) (timeout : Z),
      timers w !! i = Some t → fired t = false → (armed_at t + delay t <= now w)%Z →
      callback t = RequestTimeout cid seq cmd timeout →
      seq ∈ keys (pendingRequests w) →
      let w' := fire i w in
      (seq ∉ keys (pendingRequests w')) ∧
      settlements w' = settlements w ++ [(seq, cid, Rejected (timeout_error cmd timeout))] ∧
      error_message (timeout_error cmd timeout)
        = ("Request " +:+ cmd +:+ " timed out after " +:+ show timeout +:+ "ms") ∧
      ∀ c, calls w !! cid = Some c → phase c = Awaiting seq →
           includes (error_message (timeout_error cmd timeout)) "Debug Failure" = false →
           calls w' !! cid
             = Some (set_phase (Finished (Rejected (timeout_error cmd timeout))) c) ∧
           (now w, Throw cid (timeout_error cmd timeout)) ∈ trace w') ∧
  (∀ (w : World) (i : nat) (t : Timer) (cid : nat) (seq : Z) (cmd : string) (timeout : Z),
      timers w !! i = Some t →
      callback t = RequestTimeout cid seq cmd timeout →
      seq ∉ keys (pendingRequests w) →
      let w' := fire i w in
      settlements w' = settlements w ∧ calls w' = calls w ∧ trace w' = trace w ∧
      pendingRequests w' = pendingRequests w) ∧
  Forall (λ cmd, includes (error_message (timeout_error cmd (timeout_for cmd)))
                   "Debug Failure" = false)
         ("open" :: tool_commands).
Proof.
  split_ands.
  - reflexivity.
  - intros cmd Hne. unfold timeout_for. now destruct (String.eqb_spec cmd "open").
  - lia.
  - intros w cid c p Hc Ha Hp Hs w'. subst w'.
    rewrite (attempt_request_written cid w c p) by assumption.
    split_ands; try reflexivity. cbn. apply map_get_map_set.
  - intros ts skip t0 i t cid seq cmd timeout w Hi Hcb.
    pose proof (ri_timers _ (RuntimeInv_run ts _ (RuntimeInv_new_client skip t0))) as HF.
    pose proof (Forall_lookup_1 _ _ _ _ HF Hi) as Hok. unfold timer_ok in Hok.
    rewrite Hcb in Hok. destruct Hok as (-> & Hd & Ha). now split_ands.
  - intros w i t Hi Hlt. unfold fire. rewrite Hi.
    destruct (fired t); [reflexivity|]. apply Z.ltb_lt in Hlt. now rewrite Hlt.
  - intros w i t cid seq cmd timeout Hi Hf Hd Hcb Hin w'. subst w'.
    rewrite (fire_due i t w) by assumption. rewrite Hcb. cbn [run_callback].
    set (w1 := set_timers _ w). change (pendingRequests w1) with (pendingRequests w).
    apply map_has_true in Hin as Hh. rewrite Hh.
    split_ands.
    + rewrite pendingRequests_invoke_reject. unfold log, observe.
      cbn [pendingRequests set_trace set_pendingRequests].
      rewrite elem_of_keys_map_delete. tauto.
    + now rewrite settlements_invoke_reject, settlements_log.
    + reflexivity.
    + intros c Hc Hp Hsig. unfold invoke_reject.
      rewrite (settle_rejected_final _ _ _ _ c); try assumption; [|now left]. split.
      * cbn [calls observe set_trace set_call set_calls log]. apply list_lookup_insert_eq.
        now apply lookup_lt_Some in Hc.
      * cbn. apply elem_of_app. right. apply list_elem_of_here.
  - intros w i t cid seq cmd timeout Hi Hcb Hnin w'. subst w'. unfold fire. rewrite Hi.
    destruct (_ || _); [now split_ands|]. rewrite Hcb. cbn [run_callback].
    set (w1 := set_timers _ w). change (pendingRequests w1) with (pendingRequests w).
    destruct (map_has seq (pendingRequests w)) eqn:E; [|now split_ands].
    apply map_has_true in E. contradiction.
  - repeat constructor.
Qed.


Lemma includes_debug_failure_text (text : string) :
  includes (debug_failure_text text) "Debug Failure" = true.
Proof.
  change (debug_failure_text text)
    with ("TSServer " +:+ "Debug Failure" +:+ (": " +:+ text +:+
          ". This may be due to file state issues or concurrent operations.")).
  apply includes_app.
Qed.

Lemma failure_error_plain (text : string) :
  text ≠ "" → includes text "Debug Failure" = false →
  failure_error (Some text) = {| error_message := text |}.
Proof.
  intros Hne Hi. unfold failure_error, truthy.
  destruct (String.eqb_spec text ""); [contradiction|]. now rewrite Hi.
Qed.

Lemma failure_error_debug (text : string) :
  includes text "Debug Failure" = true →
  failure_error (Some text) = {| error_message := debug_failure_text text |}.
Proof.
  intros Hi. unfold failure_error, truthy.
  destruct (String.eqb_spec text "") as [->|_]; [discriminate|]. now rewrite Hi.
Qed.

(** The [catch] block sees the signature exactly when the failure text has
    it. *)
Lemma includes_failure_error (m : option string) :
  includes (error_message (failure_error m)) "Debug Failure" =
  match truthy m with
  | Some text => includes text "Debug Failure"
  | None => false
  end.
Proof.
  unfold failure_error. destruct (truthy m) as [text|]; [|reflexivity].
  destruct (includes text "Debug Failure") eqn:E; [|exact E].
  apply includes_debug_failure_text.
Qed.

(** C10 (amended).  A failure that is not retried reaches the caller as the
    error object that [handleMessage] built; [requestWithRetry] rethrows it
    as it caught it.  For a failure text without the signature that error
    carries the text itself, and 'Request failed' when the response has no
    text; for a text with the signature it carries the text wrapped in
    'TSServer Debug Failure: ' and a hint about file state. *)
Theorem C10_failure_rethrown_as_built :
  (∀ (w : World) (cid : nat) (c : Call) (seq : Z) (e : Error),
      calls w !! cid = Some c → phase c = Awaiting seq →
      includes (error_message e) "Debug Failure" = false ∨ attempt c = maxRetries c →
      let w' := settle cid seq (Rejected e) w in
      calls w' !! cid = Some (set_phase (Finished (Rejected e)) c) ∧
      (now w, Throw cid e) ∈ trace w') ∧
  (∀ (r : TSServerResponse) (w : World) (cid : nat) (c : Call),
      map_get (request_seq r) (pendingRequests w) = Some cid →
      calls w !! cid = Some c → phase c = Awaiting (request_seq r) →
      success r = false →
      includes (error_message (failure_error (message r))) "Debug Failure" = false
        ∨ attempt c = maxRetries c →
      let w' := handleMessage (Response r) w in
      calls w' !! cid = Some (set_phase (Finished (Rejected (failure_error (message r)))) c) ∧
      (now w, Throw cid (failure_error (message r))) ∈ trace w') ∧
  (∀ text, text ≠ "" → includes text "Debug Failure" = false →
      failure_error (Some text) = {| error_message := text |}) ∧
  (∀ text, includes text "Debug Failure" = true →
      failure_error (Some text) = {| error_message := debug_failure_text text |}) ∧
  failure_error None = {| error_message := "Request failed" |} ∧
  failure_error (Some "") = {| error_message := "Request failed" |} ∧
  (∀ m, includes (error_message (failure_error m)) "Debug Failure" =
        match truthy m with
        | Some text => includes text "Debug Failure"
        | None => false
        end).
Proof.
  assert (∀ (w : World) (cid : nat) (c : Call) (seq : Z) (e : Error),
      calls w !! cid = Some c → phase c = Awaiting seq →
      includes (error_message e) "Debug Failure" = false ∨ attempt c = maxRetries c →
      calls (settle cid seq (Rejected e) w) !! cid
        = Some (set_phase (Finished (Rejected e)) c) ∧
      (now w, Throw cid e) ∈ trace (settle cid seq (Rejected e) w)) as Hsettle.
  { intros w cid c seq e Hc Hp Hor.
    rewrite (settle_rejected_final _ _ _ _ c) by assumption. split.
    - cbn [calls observe set_trace set_call set_calls log]. apply list_lookup_insert_eq.
      now apply lookup_lt_Some in Hc.
    - cbn. apply elem_of_app. right. apply list_elem_of_here. }
  split_ands.
  - intros w cid c seq e Hc Hp Hor w'. now apply Hsettle.
  - intros r w cid c Hget Hc Hp Hs Hor w'. subst w'. unfold handleMessage.
    rewrite Hget, Hs. unfold invoke_reject.
    set (w2 := observe _ (log ErrorLevel _ _)).
    exact (Hsettle w2 cid c _ _ Hc Hp Hor).
  - apply failure_error_plain.
  - apply failure_error_debug.
  - reflexivity.
  - reflexivity.
  - apply includes_failure_error.
Qed.

(** C5 (amended).  When the child exits, the handler notes the exit in the
    log, clears the process handle and emits 'exit' with the exit code and
    the signal.  It invokes no continuation and leaves the pending map, the
    calls and the timers as they are: a request that is pending at the exit
    stays pending until its own timer fires or [stop] cancels it. *)
Theorem C5_exit_leaves_pending_requests :
  ∀ (w : World) (p : nat) (code : option Z) (signal : option string),
    let w' := on_exit p code signal w in
    pendingRequests w' = pendingRequests w ∧
    calls w' = calls w ∧
    timers w' = timers w ∧
    settlements w' = settlements w ∧
    process w' = None ∧
    trace w' = trace w ++ [(now w, Log Info "TSServer process exited");
                           (now w, Emit (EmitExit code signal))].
Proof.
  intros w p code signal w'. subst w'. unfold on_exit.
  set (w1 := observe _ (set_process None (log Info _ w))).
  destruct (fold_stop_resume_exited (waiting_stops p w1) w1 eq_refl)
    as (H1 & H2 & H3 & H4 & H5 & _ & _).
  split_ands; try assumption.
  - unfold settlements. rewrite H2. subst w1. cbn. rewrite <- app_assoc, omap_app. cbn.
    now rewrite app_nil_r.
  - rewrite H2. subst w1. cbn. now rewrite <- app_assoc.
Qed.

Lemma notify_running (cmd : string) (a : option Arguments) (w : World) :
  running w →
  notify cmd a w =
  (observe (Write {| req_seq := sequence w; req_command := cmd; req_arguments := a |})
     (set_sequence (sequence w + 1) w), None).
Proof. intros (p & Hp & Hs). unfold notify. now rewrite Hp, Hs. Qed.

Lemma notify_not_running (cmd : string) (a : option Arguments) (w : World) :
  ¬ running w → notify cmd a w = (w, Some not_started).
Proof.
  intros Hn. unfold notify. destruct (process w) as [p|] eqn:Hp; [|reflexivity].
  destruct (stdin p) eqn:Hs; [|reflexivity]. exfalso. apply Hn. now exists p.
Qed.

Lemma running_same (w w' : World) : process w' = process w → running w → running w'.
Proof. intros Heq (p & Hp & Hs). exists p. now rewrite Heq. Qed.


Lemma openFile_begun (file : string) (w : World) :
  running w → resolve file ∉ openFiles w →
  openFile file w = (notified "open" file w, Some (suspended_at OpenFile file)).
Proof.
  intros Hrun Hnin. unfold openFile. rewrite decide_False by assumption.
  now rewrite (notify_running _ _ _ Hrun).
Qed.

Lemma closeFile_begun (file : string) (w : World) :
  running w → resolve file ∈ openFiles w →
  closeFile file w = (notified "close" file w, Some (suspended_at CloseFile file)).
Proof.
  intros Hrun Hin. unfold closeFile. rewrite decide_False by (intros H; now apply H).
  now rewrite (notify_running _ _ _ Hrun).
Qed.

Lemma openFile_stopped (file : string) (w : World) :
  ¬ running w → resolve file ∉ openFiles w →
  openFile file w
  = (w, Some {| operation := OpenFile; normalizedPath := resolve file;
                thrown := Some not_started |}).
Proof.
  intros Hrun Hnin. unfold openFile. rewrite decide_False by assumption.
  now rewrite (notify_not_running _ _ _ Hrun).
Qed.

Lemma closeFile_stopped (file : string) (w : World) :
  ¬ running w → resolve file ∈ openFiles w →
  closeFile file w
  = (w, Some {| operation := CloseFile; normalizedPath := resolve file;
                thrown := Some not_started |}).
Proof.
  intros Hrun Hin. unfold closeFile. rewrite decide_False by (intros H; now apply H).
  now rewrite (notify_not_running _ _ _ Hrun).
Qed.

Lemma openFile_open (file : string) (w : World) :
  resolve file ∈ openFiles w → openFile file w = (w, None).
Proof. intros Hin. unfold openFile. now rewrite decide_True. Qed.

Lemma closeFile_closed (file : string) (w : World) :
  resolve file ∉ openFiles w → closeFile file w = (w, None).
Proof. intros Hin. unfold closeFile. now rewrite decide_True. Qed.

Lemma openFile_fresh (file : string) (w : World) :
  running w → resolve file ∉ openFiles w →
  awaited (openFile file w) =
  (set_openFiles ({[resolve file]} ∪ openFiles w)
     (observe (Write {| req_seq := sequence w; req_command := "open";
                        req_arguments := Some (FileArgs (resolve file)) |})
        (set_sequence (sequence w + 1) w)), None).
Proof. intros Hrun Hnin. now rewrite openFile_begun. Qed.

Lemma closeFile_open (file : string) (w : World) :
  running w → resolve file ∈ openFiles w →
  awaited (closeFile file w) =
  (set_openFiles (openFiles w ∖ {[resolve file]})
     (observe (Write {| req_seq := sequence w; req_command := "close";
                        req_arguments := Some (FileArgs (resolve file)) |})
        (set_sequence (sequence w + 1) w)), None).
Proof. intros Hrun Hin. now rewrite closeFile_begun. Qed.

Lemma openFile_not_running (file : string) (w : World) :
  ¬ running w → resolve file ∉ openFiles w →
  awaited (openFile file w) = (w, Some not_started).
Proof. intros Hr Hn. now rewrite openFile_stopped. Qed.

Lemma openFile_reopened (file : string) (w : World) :
  resolve file ∈ openFiles w → awaited (openFile file w) = (w, None).
Proof. intros Hin. now rewrite openFile_open. Qed.

Lemma closeFile_reclosed (file : string) (w : World) :
  resolve file ∉ openFiles w → awaited (closeFile file w) = (w, None).
Proof. intros Hin. now rewrite closeFile_closed. Qed.

Lemma closeFile_not_running (file : string) (w : World) :
  ¬ running w → resolve file ∈ openFiles w →
  awaited (closeFile file w) = (w, Some not_started).
Proof. intros Hr Hn. now rewrite closeFile_stopped. Qed.










(** ** What reaches the child

    Text written to stdin, the end of stdin and signals are the only ways in
    which the client acts on the child. *)

Lemma inward_refl (w : World) : inward w w.
Proof.
  split; try reflexivity. exists []. split; [now rewrite app_nil_r | constructor].
Qed.

Lemma inward_trans (w1 w2 w3 : World) : inward w1 w2 → inward w2 w3 → inward w1 w3.
Proof.
  intros [] []. split; try congruence.
  - etransitivity; eassumption.
  - destruct inward_trace0 as (m1 & E1 & F1), inward_trace1 as (m2 & E2 & F2).
    exists (m1 ++ m2). split; [now rewrite E2, E1, app_assoc | now apply Forall_app].
Qed.

Lemma inward_stable (w w' : World) :
  stable w w' →
  (∃ more, trace w' = trace w ++ more ∧ Forall (λ e, outward e.2 = false) more) →
  inward w w'.
Proof. intros [] Ht. split; try assumption. now rewrite stable_pendingRequests0. Qed.

Lemma inward_observe (o : Obs) (w : World) : outward o = false → inward w (observe o w).
Proof.
  intros Ho. split; try reflexivity. exists [(now w, o)]. split; [reflexivity|].
  now apply Forall_singleton.
Qed.

Lemma inward_log (level : Level) (text : string) (w : World) : inward w (log level text w).
Proof. now apply inward_observe. Qed.

Lemma inward_setTimeout (cb : Callback) (d : Z) (w : World) : inward w (setTimeout cb d w).
Proof.
  split; try reflexivity. exists []. split; [now rewrite app_nil_r | constructor].
Qed.

Lemma inward_set_call (cid : nat) (c : Call) (w : World) : inward w (set_call cid c w).
Proof.
  split; try reflexivity.
  - unfold set_call. simpl. apply length_insert.
  - exists []. split; [now rewrite app_nil_r | constructor].
Qed.

Lemma inward_finish (cid : nat) (o : Outcome) (w : World) : inward w (finish cid o w).
Proof.
  unfold finish. destruct (calls w !! cid); [|apply inward_refl].
  eapply inward_trans; [apply inward_set_call|]. apply inward_observe. now destruct o.
Qed.

Lemma inward_resume_request (cid : nat) (o : Outcome) (w : World) :
  inward w (resume_request cid o w).
Proof.
  unfold resume_request. destruct (calls w !! cid); [|apply inward_refl].
  destruct o; [apply inward_finish|].
  eapply inward_trans; [apply inward_log|].
  destruct (_ && _).
  - eapply inward_trans; [apply inward_log|].
    eapply inward_trans; [apply inward_set_call | apply inward_setTimeout].
  - apply inward_finish.
Qed.

Lemma inward_settle (cid : nat) (seq : Z) (o : Outcome) (w : World) :
  inward w (settle cid seq o w).
Proof.
  unfold settle. destruct (calls w !! cid) as [c|]; [|apply inward_refl].
  destruct (phase c); try apply inward_refl.
  destruct (_ =? _)%Z; [apply inward_resume_request | apply inward_refl].
Qed.

Lemma inward_invoke_resolve seq cid body (w : World) : inward w (invoke_resolve seq cid body w).
Proof.
  unfold invoke_resolve. eapply inward_trans; [|apply inward_settle].
  now apply inward_observe.
Qed.

Lemma inward_invoke_reject seq cid e (w : World) : inward w (invoke_reject seq cid e w).
Proof.
  unfold invoke_reject. eapply inward_trans; [|apply inward_settle].
  now apply inward_observe.
Qed.

Lemma keys_map_delete_sublist (k : Z) (m : list (Z * nat)) :
  keys (map_delete k m) `sublist_of` keys m.
Proof.
  unfold keys. induction m as [|[k' v] m IH]; [reflexivity|].
  cbn [map_delete]. destruct (k =? k')%Z; rewrite ?fmap_cons.
  - now apply sublist_cons.
  - now apply sublist_skip.
Qed.

Lemma inward_delete (k : Z) (w : World) :
  inward w (set_pendingRequests (map_delete k (pendingRequests w)) w).
Proof.
  split; try reflexivity.
  - apply keys_map_delete_sublist.
  - exists []. split; [now rewrite app_nil_r | constructor].
Qed.

Lemma inward_handleMessage (m : Message) (w : World) : inward w (handleMessage m w).
Proof.
  unfold handleMessage. destruct m as [r|e|].
  - destruct (map_get _ _) as [cid|]; [|apply inward_log].
    eapply inward_trans; [apply inward_delete|].
    destruct (success r); [apply inward_invoke_resolve|].
    eapply inward_trans; [apply inward_log | apply inward_invoke_reject].
  - now apply inward_observe.
  - apply inward_log.
Qed.

Lemma inward_deliver (content : string) (w : World) : inward w (deliver content w).
Proof.
  unfold deliver. destruct (JSON_parse content); [apply inward_handleMessage | apply inward_log].
Qed.

Lemma inward_set_buffer (b : string) (w : World) : inward w (set_buffer b w).
Proof.
  split; try reflexivity. exists []. split; [now rewrite app_nil_r | constructor].
Qed.

Lemma inward_handleData (data : string) (w : World) : inward w (handleData data w).
Proof.
  rewrite handleData_yielded.
  eapply inward_trans; [|apply inward_set_buffer].
  generalize (yielded (buffer w) data).1. intros contents. revert w.
  induction contents as [|c cs IH]; intros w; [apply inward_refl|].
  cbn [deliver_all fold_left]. eapply inward_trans; [apply inward_deliver | apply IH].
Qed.


Lemma outputs_inward (w w' : World) : inward w w' → outputs w' = outputs w.
Proof.
  intros [_ _ _ _ _ _ _ _ (more & Heq & Hm)]. unfold outputs.
  rewrite Heq, List.filter_app.
  assert (List.filter (λ e : Z * Obs, outward e.2) more = []) as ->; [|apply app_nil_r].
  clear Heq. induction Hm as [|e more He _ IH]; [reflexivity|]. cbn [List.filter]. now rewrite He.
Qed.

Lemma written_inward (w w' : World) : inward w w' → written w' = written w.
Proof.
  intros [_ _ _ _ _ _ _ _ (more & Heq & Hm)]. unfold written.
  rewrite Heq, omap_app.
  assert (omap written_seq more = []) as ->; [|apply app_nil_r].
  clear Heq. induction Hm as [|[t o] more He _ IH]; [reflexivity|]. cbn [omap list_omap].
  rewrite IH. unfold written_seq. cbn in *. now destruct o.
Qed.

(** X3.  [handleData] works inside the client only: whatever the data, it
    writes nothing to the child, ends and kills nothing, takes no sequence
    number, leaves the process handle and the open-file set as they are, and
    registers no request: the keys of the pending map afterwards are among
    the keys before, in the same order. *)
Theorem X3_handleData_stays_inside :
  ∀ (data : string) (w : World),
    let w' := handleData data w in
    outputs w' = outputs w ∧
    written w' = written w ∧
    sequence w' = sequence w ∧
    process w' = process w ∧
    openFiles w' = openFiles w ∧
    List.length (calls w') = List.length (calls w) ∧
    keys (pendingRequests w') `sublist_of` keys (pendingRequests w) ∧
    (∀ k, k ∈ keys (pendingRequests w') → k ∈ keys (pendingRequests w)).
Proof.
  intros data w w'. subst w'.
  pose proof (inward_handleData data w) as H.
  split_ands; try apply H.
  - now apply outputs_inward.
  - now apply written_inward.
  - intros k Hk. eapply elem_of_sublist; [exact Hk | apply H].
Qed.


(** ** The sequence numbers on the wire

    Every request and notification is written under the value of the
    sequence counter, which is then incremented: the numbers written go up
    strictly, start at 1, and stay below the counter. *)




























(** ** No call waits without a timer

    A call of [requestWithRetry] is suspended at one of two [await]s.  At
    the first, its request is in the pending map under its own call and the
    timeout timer of the request has not fired; at the second, its backoff
    timer has not fired.  So every suspended call has a timer that will wake
    it up. *)

Lemma grown_refl (w : World) : grown w w.
Proof.
  split; try reflexivity. exists []. split; [now rewrite app_nil_r | constructor].
Qed.

Lemma grown_trans (w1 w2 w3 : World) : grown w1 w2 → grown w2 w3 → grown w1 w3.
Proof.
  intros [] []. split; try congruence; try lia.
  destruct grown_timers0 as (m1 & E1 & F1), grown_timers1 as (m2 & E2 & F2).
  exists (m1 ++ m2). split; [now rewrite E2, E1, app_assoc | now apply Forall_app].
Qed.

Ltac solve_grown :=
  split; try reflexivity; try (cbn; lia);
  exists []; split; [now rewrite app_nil_r | constructor].

Lemma grown_observe (o : Obs) (w : World) : grown w (observe o w).
Proof. solve_grown. Qed.

Lemma grown_log (level : Level) (text : string) (w : World) : grown w (log level text w).
Proof. apply grown_observe. Qed.

Lemma grown_setTimeout (cb : Callback) (d : Z) (w : World) :
  (∀ cid seq cmd timeout, cb ≠ RequestTimeout cid seq cmd timeout) →
  grown w (setTimeout cb d w).
Proof.
  intros Hcb. split; try reflexivity. eexists. split; [reflexivity|].
  apply Forall_singleton. unfold no_timeout. cbn. destruct cb; try exact I.
  now destruct (Hcb cid seq command0 timeout).
Qed.

Lemma timeout_armed_grown (cid : nat) (seq : Z) (c : Call) (w w' : World) :
  (now w ≤ now w')%Z → (∃ more, timers w' = timers w ++ more) →
  timeout_armed cid seq c w → timeout_armed cid seq c w'.
Proof.
  intros Hn [more Ht] (i & t & Hi & Hf & Hcb & Hd & Ha).
  exists i, t. split_ands; try assumption; [|lia].
  rewrite Ht. now apply lookup_app_l_Some.
Qed.

Lemma retry_timer_grown (cid : nat) (c : Call) (w w' : World) :
  (now w ≤ now w')%Z → (∃ more, timers w' = timers w ++ more) →
  retry_timer cid c w → retry_timer cid c w'.
Proof.
  intros Hn [more Ht] (i & t & Hi & Hf & Hcb & Hd & Ha).
  exists i, t. split_ands; try assumption; [|lia].
  rewrite Ht. now apply lookup_app_l_Some.
Qed.

Lemma call_ok_grown (cid : nat) (c : Call) (w w' : World) :
  pendingRequests w' = pendingRequests w →
  (now w ≤ now w')%Z → (∃ more, timers w' = timers w ++ more) →
  call_ok w cid c → call_ok w' cid c.
Proof.
  intros Hp Hn Ht. unfold call_ok. destruct (phase c); try tauto.
  - rewrite Hp. intros [? ?]. split; [assumption|]. now apply (timeout_armed_grown _ _ _ w).
  - now apply retry_timer_grown.
Qed.

Lemma ProgressBut_grown (hole : nat → Call → Prop) (w w' : World) :
  grown w w' → ProgressBut hole w → ProgressBut hole w'.
Proof.
  intros [Hc Hp Hs Hn (more & Ht & Hm)] [].
  split.
  - intros cid c Hl Hh. rewrite Hc in Hl.
    apply (call_ok_grown _ _ w); try assumption; [now exists more | auto].
  - intros i t cid seq cmd timeout Hi Hcb. rewrite Ht in Hi.
    apply lookup_app_Some in Hi as [Hi|[_ Hi]].
    + destruct (pr_timers0 _ _ _ _ _ _ Hi Hcb) as [H1 H2]. rewrite Hp. split; [lia | exact H2].
    + apply list_elem_of_lookup_2 in Hi. rewrite Forall_forall in Hm.
      specialize (Hm _ Hi). unfold no_timeout in Hm. now rewrite Hcb in Hm.
  - rewrite Hp. intros k Hk. specialize (pr_keys0 _ Hk). lia.
Qed.

Lemma ProgressBut_weaken (hole hole' : nat → Call → Prop) (w : World) :
  (∀ cid c, hole cid c → hole' cid c) → ProgressBut hole w → ProgressBut hole' w.
Proof. intros Hh []. split; try assumption. intros cid c Hc Hn. apply pr_calls0; auto. Qed.

(** The hole is closed once its call is in order. *)
Lemma ProgressBut_fill (cid : nat) (w : World) :
  ProgressBut (hole_at cid) w →
  (∀ c, calls w !! cid = Some c → call_ok w cid c) →
  Progress w.
Proof.
  intros [] Hf. split; try assumption. intros cid' c Hc _.
  destruct (decide (cid' = cid)) as [->|Hne]; [now apply Hf | now apply pr_calls0].
Qed.

Lemma ProgressBut_vacuous (cid : nat) (w : World) :
  ProgressBut (hole_at cid) w → calls w !! cid = None → Progress w.
Proof. intros H Hc. apply (ProgressBut_fill cid); [exact H|]. intros c. congruence. Qed.

Lemma Progress_grown (w w' : World) : grown w w' → Progress w → Progress w'.
Proof. apply ProgressBut_grown. Qed.

Lemma Progress_hole (hole : nat → Call → Prop) (w : World) : Progress w → ProgressBut hole w.
Proof. apply ProgressBut_weaken. intros cid c []. Qed.

Lemma ProgressBut_set_call (cid : nat) (c : Call) (w : World) :
  ProgressBut (hole_at cid) w → ProgressBut (hole_at cid) (set_call cid c w).
Proof.
  intros []. split; try assumption.
  intros cid' c' Hc Hh. unfold hole_at in Hh.
  unfold set_call in Hc. cbn [calls set_calls] in Hc.
  rewrite list_lookup_insert_ne in Hc by congruence.
  now apply pr_calls0.
Qed.

Lemma Progress_finish (cid : nat) (o : Outcome) (w : World) :
  ProgressBut (hole_at cid) w → Progress (finish cid o w).
Proof.
  intros H. unfold finish. destruct (calls w !! cid) as [c|] eqn:Hc.
  - apply (ProgressBut_fill cid).
    + eapply ProgressBut_grown; [apply grown_observe|]. now apply ProgressBut_set_call.
    + intros c'. cbn [observe calls set_trace set_call set_calls].
      rewrite list_lookup_insert_eq by (now apply lookup_lt_Some in Hc).
      intros [= <-]. exact I.
  - now apply (ProgressBut_vacuous cid).
Qed.

Lemma Progress_resume_request (cid : nat) (o : Outcome) (w : World) :
  ProgressBut (hole_at cid) w → Progress (resume_request cid o w).
Proof.
  intros H. unfold resume_request. destruct (calls w !! cid) as [c|] eqn:Hc;
    [|now apply (ProgressBut_vacuous cid)].
  destruct o as [v|e]; [now apply Progress_finish|].
  pose proof (ProgressBut_grown _ _ _ (grown_log Warn "TSServer request failed" w) H) as H1.
  destruct (_ && _); [|now apply Progress_finish].
  apply (ProgressBut_fill cid).
  - eapply ProgressBut_grown; [apply grown_setTimeout; discriminate|].
    apply ProgressBut_set_call. eapply ProgressBut_grown; [apply grown_log | exact H1].
  - intros c'. unfold setTimeout, log, observe.
    cbn [calls timers now set_timers set_call set_calls set_trace].
    rewrite list_lookup_insert_eq by (now apply lookup_lt_Some in Hc).
    intros [= <-]. unfold call_ok, retry_timer. cbn [phase set_phase attempt].
    eexists (List.length (timers w)), _. split_ands.
    + cbn [timers set_timers set_call set_calls set_trace]. now apply list_lookup_middle.
    + reflexivity.
    + reflexivity.
    + reflexivity.
    + cbn. lia.
Qed.

Lemma Progress_settle (cid : nat) (seq : Z) (o : Outcome) (w : World) :
  ProgressBut (hole_at cid) w →
  (∀ c, calls w !! cid = Some c → phase c ≠ Awaiting seq → call_ok w cid c) →
  Progress (settle cid seq o w).
Proof.
  intros H Hok. unfold settle. destruct (calls w !! cid) as [c|] eqn:E;
    [|now apply (ProgressBut_vacuous cid)].
  assert (phase c ≠ Awaiting seq → Progress w) as Hfill.
  { intros Hp. apply (ProgressBut_fill cid); [exact H|]. intros c' Hc'.
    rewrite E in Hc'. inversion Hc'; subst c'. now apply Hok. }
  destruct (phase c) eqn:Hp; try (apply Hfill; discriminate).
  destruct (Z.eqb_spec seq0 seq) as [->|Hne]; [now apply Progress_resume_request|].
  apply Hfill. congruence.
Qed.

Lemma Progress_settle_awaiting (cid : nat) (seq : Z) (o : Outcome) (w : World) :
  ProgressBut (hole_awaiting seq) w → only_awaits cid seq w →
  Progress (settle cid seq o w).
Proof.
  intros H Ho. apply Progress_settle.
  - destruct H. split; try assumption. intros cid' c' Hc' Hh. apply pr_calls0; [assumption|].
    intros Haw. apply Hh. now apply (Ho cid' c').
  - intros c Hc Hp. now apply (pr_calls _ _ H).
Qed.

Lemma only_awaits_entry (cid : nat) (seq : Z) (w : World) :
  Progress w → map_get seq (pendingRequests w) = Some cid → only_awaits cid seq w.
Proof.
  intros H Hm cid' c' Hc' Hp. pose proof (pr_calls _ _ H cid' c' Hc' (λ x, x)) as Hok.
  unfold call_ok in Hok. rewrite Hp in Hok. destruct Hok as [Hm' _]. congruence.
Qed.

Lemma only_awaits_timer (i : nat) (t : Timer) cid seq cmd timeout (w : World) :
  Progress w → timers w !! i = Some t → callback t = RequestTimeout cid seq cmd timeout →
  only_awaits cid seq w.
Proof.
  intros H Hi Hcb cid' c' Hc' Hp. pose proof (pr_calls _ _ H cid' c' Hc' (λ x, x)) as Hok.
  unfold call_ok in Hok. rewrite Hp in Hok. destruct Hok as [Hm' _].
  now apply (pr_timers _ _ H i t cid seq cmd timeout Hi Hcb).
Qed.

Lemma ProgressBut_delete (seq : Z) (w : World) :
  ProgressBut (hole_awaiting seq) w →
  ProgressBut (hole_awaiting seq)
    (set_pendingRequests (map_delete seq (pendingRequests w)) w).
Proof.
  intros []. split.
  - intros cid c Hc Hh. specialize (pr_calls0 cid c Hc Hh). unfold call_ok in *.
    unfold hole_awaiting in Hh.
    destruct (phase c) eqn:Hp; try exact pr_calls0.
    destruct pr_calls0 as [Hm Ht]. split; [|exact Ht].
    cbn [pendingRequests set_pendingRequests].
    rewrite map_get_map_delete_ne; [exact Hm | congruence].
  - intros i t cid seq0 cmd timeout Hi Hcb.
    destruct (pr_timers0 i t cid seq0 cmd timeout Hi Hcb) as [H1 H2]. split; [exact H1|].
    intros cid'. cbn [pendingRequests set_pendingRequests].
    destruct (decide (seq0 = seq)) as [->|Hne].
    + now rewrite map_get_map_delete.
    + rewrite map_get_map_delete_ne by assumption. apply H2.
  - intros k Hk. cbn [pendingRequests set_pendingRequests] in Hk.
    apply elem_of_keys_map_delete in Hk as [Hk _]. auto.
Qed.

Lemma Progress_handleMessage (m : Message) (w : World) :
  Progress w → Progress (handleMessage m w).
Proof.
  intros H. unfold handleMessage. destruct m as [r|e|].
  - destruct (map_get _ _) as [cid|] eqn:E; [|exact (Progress_grown _ _ (grown_log _ _ w) H)].
    pose proof (only_awaits_entry _ _ _ H E) as Ho.
    pose proof (ProgressBut_delete (request_seq r) w (Progress_hole _ _ H)) as H1.
    destruct (success r).
    + unfold invoke_resolve. apply Progress_settle_awaiting; [|exact Ho].
      eapply ProgressBut_grown; [apply grown_observe | exact H1].
    + unfold invoke_reject. apply Progress_settle_awaiting; [|exact Ho].
      eapply ProgressBut_grown; [apply grown_observe|].
      eapply ProgressBut_grown; [apply grown_log | exact H1].
  - exact (Progress_grown _ _ (grown_observe _ w) H).
  - exact (Progress_grown _ _ (grown_log _ _ w) H).
Qed.

Lemma Progress_deliver (content : string) (w : World) : Progress w → Progress (deliver content w).
Proof.
  intros H. unfold deliver. destruct (JSON_parse content).
  - now apply Progress_handleMessage.
  - exact (Progress_grown _ _ (grown_log _ _ w) H).
Qed.

Lemma Progress_handleData (data : string) (w : World) : Progress w → Progress (handleData data w).
Proof.
  intros H. rewrite handleData_yielded.
  apply (Progress_grown (deliver_all (yielded (buffer w) data).1 w)); [solve_grown|].
  generalize (yielded (buffer w) data).1. intros contents. revert w H.
  induction contents as [|c cs IH]; intros w H; [exact H|].
  apply IH, Progress_deliver, H.
Qed.


Lemma Progress_attempt_request (cid : nat) (w : World) :
  ProgressBut (hole_at cid) w → Progress (attempt_request cid w).
Proof.
  intros H. unfold attempt_request. destruct (calls w !! cid) as [c|] eqn:Hc;
    [|now apply (ProgressBut_vacuous cid)].
  destruct (_ <=? _)%Z; [|now apply Progress_finish].
  set (w1 := set_call cid (set_phase (Awaiting (sequence w)) c)
               (set_pendingRequests (map_set (sequence w) cid (pendingRequests w))
                  (set_sequence (sequence w + 1) w))).
  assert (calls w1 !! cid = Some (set_phase (Awaiting (sequence w)) c)) as Hc1.
  { unfold w1, set_call. cbn [calls set_calls set_pendingRequests set_sequence].
    apply list_lookup_insert_eq. now apply lookup_lt_Some in Hc. }
  assert (ProgressBut (hole_at cid) w1) as H1.
  { destruct H. split.
    - intros cid' c' Hc' Hh. unfold hole_at in Hh.
      unfold w1, set_call in Hc'. cbn [calls set_calls set_pendingRequests set_sequence] in Hc'.
      rewrite list_lookup_insert_ne in Hc' by congruence.
      specialize (pr_calls0 cid' c' Hc' Hh). unfold call_ok in *.
      destruct (phase c'); try exact pr_calls0.
      destruct pr_calls0 as [Hm Ht]. split; [|exact Ht].
      unfold w1. cbn [pendingRequests set_call set_calls set_pendingRequests].
      rewrite map_get_map_set_ne; [exact Hm|].
      intros ->. apply map_get_Some_keys in Hm. specialize (pr_keys0 _ Hm). lia.
    - intros i t cid0 seq0 cmd timeout Hi Hcb.
      destruct (pr_timers0 i t cid0 seq0 cmd timeout Hi Hcb) as [Hlt Hu].
      split; [cbn; lia|]. intros cid'.
      unfold w1. cbn [pendingRequests set_call set_calls set_pendingRequests].
      rewrite map_get_map_set_ne by lia. apply Hu.
    - intros k Hk. unfold w1 in Hk.
      cbn [pendingRequests set_call set_calls set_pendingRequests] in Hk.
      apply keys_map_set in Hk as [->|Hk]; [cbn; lia|].
      specialize (pr_keys0 _ Hk). cbn. lia. }
  cbn [process set_call set_calls set_pendingRequests set_sequence]. fold w1.
  assert (∀ e, Progress (settle cid (sequence w) (Rejected e) w1)) as Hrej.
  { intros e. apply Progress_settle; [exact H1|]. intros c' Hc' Hp.
    rewrite Hc1 in Hc'. inversion Hc'; subst c'. now destruct Hp. }
  destruct (process w) as [p|]; [destruct (stdin p)|]; try apply Hrej.
  apply (ProgressBut_fill cid).
  - destruct H1. split.
    + intros cid' c' Hc' Hh. apply (call_ok_grown _ _ w1); try reflexivity.
      * now eexists.
      * now apply pr_calls0.
    + intros i t cid0 seq0 cmd timeout Hi Hcb.
      unfold setTimeout, observe in Hi. cbn [timers set_timers set_trace] in Hi.
      apply lookup_app_Some in Hi as [Hi|[_ Hi]].
      * exact (pr_timers0 i t cid0 seq0 cmd timeout Hi Hcb).
      * apply list_lookup_singleton_Some in Hi as [_ <-]. cbn [callback] in Hcb.
        inversion Hcb; subst. split; [cbn; lia|]. intros cid'.
        unfold w1. cbn [pendingRequests setTimeout observe set_timers set_trace set_call
                        set_calls set_pendingRequests].
        rewrite map_get_map_set. congruence.
    + exact pr_keys0.
  - intros c' Hc'. change (calls w1 !! cid = Some c') in Hc'.
    rewrite Hc1 in Hc'. inversion Hc'; subst c'. clear Hc'.
    unfold call_ok. cbn [phase set_phase]. split.
    + cbn [pendingRequests set_timers set_trace]. unfold w1.
      cbn [pendingRequests set_call set_calls set_pendingRequests]. apply map_get_map_set.
    + eexists (List.length (timers w1)), _. split_ands.
      * cbn [timers set_timers set_trace]. now apply list_lookup_middle.
      * reflexivity.
      * reflexivity.
      * reflexivity.
      * cbn. lia.
Qed.

Lemma Progress_request (cmd : string) (a : option Arguments) (w : World) :
  Progress w → Progress (request cmd a w).
Proof.
  intros H. unfold request, requestWithRetry. cbn [process set_calls].
  set (w1 := set_calls _ w).
  assert (ProgressBut (hole_at (List.length (calls w))) w1) as H1.
  { destruct H. split; try assumption.
    intros cid c Hc Hh. unfold hole_at in Hh. unfold w1 in Hc. cbn [calls set_calls] in Hc.
    assert (cid < List.length (calls w))%nat as Hlt.
    { apply lookup_lt_Some in Hc. rewrite List.length_app in Hc. cbn in Hc. lia. }
    rewrite lookup_app_l in Hc by assumption.
    exact (pr_calls0 cid c Hc (λ x, x)). }
  destruct (process w) as [p|]; [destruct (stdin p)|].
  - now apply Progress_attempt_request.
  - now apply Progress_finish.
  - now apply Progress_finish.
Qed.

Lemma grown_notify (cmd : string) (a : option Arguments) (w : World) : grown w (notify cmd a w).1.
Proof.
  unfold notify. destruct (process w) as [p|]; [|apply grown_refl].
  destruct (stdin p); [|apply grown_refl]. solve_grown.
Qed.

Lemma grown_openFile (file : string) (w : World) : grown w (openFile file w).1.
Proof.
  destruct (openFile_cases file w) as [-> | [thrown ->]]; [apply grown_refl|].
  apply grown_notify.
Qed.

Lemma grown_closeFile (file : string) (w : World) : grown w (closeFile file w).1.
Proof.
  destruct (closeFile_cases file w) as [-> | [thrown ->]]; [apply grown_refl|].
  apply grown_notify.
Qed.

Lemma grown_record_failure (operation : string) (r : World * option Error) :
  grown r.1 (record_failure operation r).
Proof. destruct r as [w [e|]]; simpl; [apply grown_observe | apply grown_refl]. Qed.

Lemma grown_suspend (r : World * option FileCall) : grown r.1 (suspend r).
Proof. destruct r as [w [c|]]; cbn [fst suspend]; [solve_grown | apply grown_refl]. Qed.

Lemma grown_fileCall_resume (fid : nat) (w : World) : grown w (fileCall_resume fid w).
Proof.
  destruct (fileCall_resume_cases fid w) as [-> | (c & _ & ->)]; [apply grown_refl|].
  eapply grown_trans; [|apply grown_record_failure].
  destruct (resume_fileCall_cases c (set_fileCalls (<[fid := (c, false)]> (fileCalls w)) w))
    as [-> | [files ->]]; cbn [fst]; solve_grown.
Qed.

Lemma grown_file_step (w : World) (t : Task) :
  match t with
  | CallOpenFile _ | CallCloseFile _ | FileCallResumes _ => grown w (step w t)
  | _ => True
  end.
Proof.
  destruct t; try exact I; cbn [step].
  - eapply grown_trans; [apply grown_openFile | apply grown_suspend].
  - eapply grown_trans; [apply grown_closeFile | apply grown_suspend].
  - apply grown_fileCall_resume.
Qed.

(** *** [stop] *)

Lemma Progress_invoke_reject seq cid e (w : World) :
  Progress w → Progress (invoke_reject seq cid e w).
Proof.
  intros H. unfold invoke_reject.
  pose proof (Progress_grown _ _ (grown_observe (Reject seq cid e) w) H) as H1.
  apply Progress_settle; [now apply Progress_hole|].
  intros c Hc _. exact (pr_calls _ _ H1 cid c Hc (λ x, x)).
Qed.

Lemma Progress_cancel_all (entries : list (Z * nat)) (w : World) :
  Progress w → Progress (cancel_all entries w).
Proof.
  revert w. induction entries as [|[seq cid] es IH]; intros w H; [exact H|].
  simpl. now apply IH, Progress_invoke_reject.
Qed.

(** A settlement never makes a call wait: a call that awaits a request
    afterwards did so before, and no settlement was for it. *)
Lemma resumed_calls_awaiting_inv (cid cid' : nat) (seq s : Z) (o : Outcome)
    (cs : list Call) (c : Call) :
  resumed_calls cid seq o cs !! cid' = Some c → phase c = Awaiting s →
  cs !! cid' = Some c ∧ ¬ (cid = cid' ∧ seq = s).
Proof.
  intros Hl Hp. unfold resumed_calls in Hl.
  destruct (cs !! cid) as [c0|] eqn:Hc0.
  - destruct (phase c0) eqn:Hp0; try (split; [exact Hl | intros [-> ->]; congruence]).
    destruct (Z.eqb_spec seq0 seq) as [->|Hne].
    + destruct (decide (cid = cid')) as [->|Hn].
      * rewrite list_lookup_insert_eq in Hl by (now apply lookup_lt_Some in Hc0).
        inversion Hl; subst c. now destruct (phase_resumed c0 o s).
      * rewrite list_lookup_insert_ne in Hl by assumption. split; [exact Hl | tauto].
    + split; [exact Hl | intros [-> ->]; congruence].
  - split; [exact Hl | intros [-> _]; congruence].
Qed.

Lemma apply_settlements_awaiting_inv (ss : list (Z * nat * Outcome)) (cs : list Call)
    (cid : nat) (c : Call) (s : Z) :
  apply_settlements ss cs !! cid = Some c → phase c = Awaiting s →
  cs !! cid = Some c ∧ ∀ o, (s, cid, o) ∉ ss.
Proof.
  revert cs. induction ss as [|[[s0 cid0] o0] ss IH]; intros cs Hl Hp.
  - split; [exact Hl|]. intros o. apply not_elem_of_nil.
  - cbn [apply_settlements fold_left] in Hl. destruct (IH _ Hl Hp) as [Hl' Hn].
    cbn [fst snd] in Hl'.
    destruct (resumed_calls_awaiting_inv _ _ _ _ _ _ _ Hl' Hp) as [Hc Hne].
    split; [exact Hc|]. intros o Hin. apply elem_of_cons in Hin as [Heq|Hin].
    + inversion Heq; subst. now apply Hne.
    + now apply (Hn o).
Qed.

Lemma Progress_stop (w : World) : Progress w → Progress (stop w).
Proof.
  intros H. rewrite stop_unfold. cbn zeta.
  pose proof (Progress_cancel_all (pendingRequests w) w H) as HW.
  set (W := cancel_all (pendingRequests w) w) in *.
  assert (Progress (set_pendingRequests [] W)) as H1.
  { destruct HW. split.
    - intros cid c Hc _. specialize (pr_calls0 cid c Hc (λ x, x)). unfold call_ok in *.
      destruct (phase c) eqn:Hp; try exact pr_calls0. exfalso.
      cbn [calls set_pendingRequests] in Hc. unfold W in Hc. rewrite calls_cancel_all in Hc.
      destruct (apply_settlements_awaiting_inv _ _ _ _ _ Hc Hp) as [Hc0 Hn].
      pose proof (pr_calls _ _ H cid c Hc0 (λ x, x)) as Hok. unfold call_ok in Hok.
      rewrite Hp in Hok. destruct Hok as [Hm _]. apply map_get_In in Hm.
      apply (Hn (Rejected shutting_down)).
      now apply (list_elem_of_fmap_2 cancelled) in Hm.
    - intros i t cid seq cmd timeout Hi Hcb.
      destruct (pr_timers0 i t cid seq cmd timeout Hi Hcb) as [Hlt _].
      split; [exact Hlt|]. intros cid'. discriminate.
    - intros k Hk. now apply elem_of_nil in Hk. }
  destruct (process w) as [p|].
  - eapply Progress_grown; [|exact H1].
    eapply grown_trans; [|apply grown_setTimeout; discriminate].
    destruct (stdin p); solve_grown.
  - eapply Progress_grown; [|exact H1]. solve_grown.
Qed.

Lemma grown_stop_resume (sid : nat) (w : World) : grown w (stop_resume sid w).
Proof.
  unfold stop_resume. destruct (stops w !! sid) as [[p [|]]|]; try apply grown_refl.
  cbn [process set_stops]. destruct (process w) as [cp|]; [|solve_grown].
  destruct (negb (killed cp)); solve_grown.
Qed.

Lemma grown_on_exit p code signal (w : World) : grown w (on_exit p code signal w).
Proof.
  unfold on_exit. set (w1 := observe _ _).
  apply (grown_trans _ w1); [solve_grown|].
  generalize (waiting_stops p w1). intros sids. generalize w1. clear w1.
  induction sids as [|sid sids IH]; intros w1; [apply grown_refl|].
  simpl. eapply grown_trans; [apply grown_stop_resume | apply IH].
Qed.

Lemma grown_start (w : World) : grown w (start w).
Proof.
  unfold start. destruct (process w); [apply grown_observe|].
  set (w1 := set_spawned _ _). apply (grown_trans _ w1); [solve_grown|].
  destruct (skipAvailabilityCheck w1); apply grown_setTimeout; discriminate.
Qed.

(** *** A timer fires *)

Lemma ProgressBut_mark (i : nat) (t : Timer) (w : World) :
  Progress w → timers w !! i = Some t →
  ProgressBut (claims t) (set_timers (<[i := set_fired t]> (timers w)) w).
Proof.
  intros [] Hi. split.
  - intros cid c Hc Hh. specialize (pr_calls0 cid c Hc (λ x, x)). unfold call_ok in *.
    destruct (phase c) eqn:Hp; try exact pr_calls0.
    + destruct pr_calls0 as [Hm (j & tj & Hj & Hf & Hcb & Hd & Ha)]. split; [exact Hm|].
      exists j, tj. split_ands; try assumption.
      cbn [timers set_timers]. rewrite list_lookup_insert_ne; [exact Hj|].
      intros <-. rewrite Hi in Hj. inversion Hj; subst tj.
      apply Hh. unfold claims. rewrite Hcb. exact Hp.
    + destruct pr_calls0 as (j & tj & Hj & Hf & Hcb & Hd & Ha).
      exists j, tj. split_ands; try assumption.
      cbn [timers set_timers]. rewrite list_lookup_insert_ne; [exact Hj|].
      intros <-. rewrite Hi in Hj. inversion Hj; subst tj.
      apply Hh. unfold claims. rewrite Hcb. reflexivity.
  - intros j t' cid seq cmd timeout Hj Hcb. cbn [timers set_timers] in Hj.
    destruct (decide (i = j)) as [<-|Hne].
    + rewrite list_lookup_insert_eq in Hj by (now apply lookup_lt_Some in Hi).
      inversion Hj; subst t'. exact (pr_timers0 i t cid seq cmd timeout Hi Hcb).
    + rewrite list_lookup_insert_ne in Hj by assumption.
      exact (pr_timers0 j t' cid seq cmd timeout Hj Hcb).
  - exact pr_keys0.
Qed.

Lemma Progress_fire (i : nat) (w : World) : Progress w → Progress (fire i w).
Proof.
  intros H. unfold fire. destruct (timers w !! i) as [t|] eqn:Hi; [|exact H].
  destruct (_ || _); [exact H|].
  pose proof (ProgressBut_mark i t w H Hi) as H1.
  set (w1 := set_timers _ w) in *.
  unfold claims in H1.
  destruct (callback t) as [cid seq cmd timeout|cid|sid| |] eqn:Hcb; cbn [run_callback].
  - pose proof (only_awaits_timer _ _ _ _ _ _ _ H Hi Hcb) as Ho.
    destruct (map_has seq (pendingRequests w1)) eqn:Hm.
    + unfold invoke_reject. apply Progress_settle_awaiting; [|exact Ho].
      eapply ProgressBut_grown; [apply grown_observe|].
      eapply ProgressBut_grown; [apply grown_log|]. now apply ProgressBut_delete.
    + destruct H1. split; try assumption. intros cid' c' Hc' _.
      apply pr_calls0; [exact Hc'|]. unfold hole_awaiting. intros Hp.
      pose proof (pr_calls _ _ H cid' c' Hc' (λ x, x)) as Hok. unfold call_ok in Hok.
      rewrite Hp in Hok. destruct Hok as [Hg _].
      unfold map_has in Hm. change (pendingRequests w1) with (pendingRequests w) in Hm.
      now rewrite Hg in Hm.
  - destruct (calls w1 !! cid) as [c|] eqn:Hc; [|now apply (ProgressBut_vacuous cid)].
    now apply Progress_attempt_request, ProgressBut_set_call.
  - exact (Progress_grown _ _ (grown_stop_resume sid w1) H1).
  - exact (Progress_grown _ _ (grown_observe Started w1) H1).
  - now apply Progress_request.
Qed.

Lemma Progress_step (w : World) (t : Task) : Progress w → Progress (step w t).
Proof.
  intros H. destruct t; cbn [step].
  - exact (Progress_grown _ _ (grown_start w) H).
  - now apply Progress_request.
  - exact (Progress_grown _ _ (grown_file_step w (CallOpenFile file)) H).
  - exact (Progress_grown _ _ (grown_file_step w (CallCloseFile file)) H).
  - exact (Progress_grown _ _ (grown_file_step w (FileCallResumes fid)) H).
  - now apply Progress_stop.
  - destruct (_ <? _)%nat; [now apply Progress_handleData | exact H].
  - destruct (_ <? _)%nat; [|exact H]. exact (Progress_grown _ _ (grown_on_exit _ _ _ w) H).
  - now apply Progress_fire.
  - destruct (Z.leb_spec 0 dt); [|exact H].
    eapply Progress_grown; [|exact H]. solve_grown.
Qed.

Lemma Progress_run (ts : list Task) (w : World) : Progress w → Progress (run ts w).
Proof.
  revert w. induction ts as [|t ts IH]; intros w H; [exact H|].
  apply IH, Progress_step, H.
Qed.

Lemma Progress_new_client (skip : bool) (t0 : Z) : Progress (new_client skip t0).
Proof.
  split.
  - intros cid c Hc. cbn in Hc. now rewrite lookup_nil in Hc.
  - intros i t cid seq cmd timeout Hi. cbn in Hi. now rewrite lookup_nil in Hi.
  - intros k Hk. now apply elem_of_nil in Hk.
Qed.


(** The call after one turn of the loop of [requestWithRetry]: it awaits the
    request just registered, or it has failed. *)
Lemma attempt_request_phase (cid : nat) (w : World) (c : Call) :
  calls w !! cid = Some c →
  ∃ c', calls (attempt_request cid w) !! cid = Some c' ∧
        attempt c' = attempt c ∧ command c' = command c ∧
        (phase c' = Awaiting (sequence w) ∨ ∃ e, phase c' = Finished (Rejected e)).
Proof.
  intros Hc. unfold attempt_request. rewrite Hc.
  assert (cid < List.length (calls w))%nat as Hlt by (now apply lookup_lt_Some in Hc).
  destruct (_ <=? _)%Z.
  - set (w1 := set_call cid (set_phase (Awaiting (sequence w)) c)
                 (set_pendingRequests (map_set (sequence w) cid (pendingRequests w))
                    (set_sequence (sequence w + 1) w))).
    assert (calls w1 !! cid = Some (set_phase (Awaiting (sequence w)) c)) as Hc1.
    { unfold w1, set_call. cbn [calls set_calls set_pendingRequests set_sequence].
      now apply list_lookup_insert_eq. }
    cbn [process set_call set_calls set_pendingRequests set_sequence]. fold w1.
    assert (∀ e, includes (error_message e) "Debug Failure" = false →
              ∃ c', calls (settle cid (sequence w) (Rejected e) w1) !! cid = Some c' ∧
                    attempt c' = attempt c ∧ command c' = command c ∧
                    (phase c' = Awaiting (sequence w) ∨ ∃ e, phase c' = Finished (Rejected e)))
      as Hrej.
    { intros e He. rewrite calls_settle.
      rewrite (resumed_calls_awaiting _ _ _ _ _ Hc1 eq_refl).
      eexists. split; [reflexivity|]. unfold resumed. rewrite He. cbn. eauto. }
    destruct (process w) as [p|]; [destruct (stdin p)|]; try (apply Hrej; reflexivity).
    exists (set_phase (Awaiting (sequence w)) c). split; [exact Hc1|]. cbn. auto.
  - rewrite (calls_finish _ _ _ _ Hc). rewrite list_lookup_insert_eq by assumption.
    eexists. split; [reflexivity|]. cbn. eauto.
Qed.

Lemma timeout_for_pos (cmd : string) : (0 < timeout_for cmd)%Z.
Proof. unfold timeout_for. destruct (String.eqb cmd "open"); lia. Qed.

(** X1.  In every state the client can reach, a call of [request] is
    finished or suspended with a timer that has not fired.  A call that
    awaits the answer to request [seq] has that request in the pending map
    under its own name and the timeout timer of the request armed: once the
    budget of the command has passed, the timer removes the entry and resumes
    the call with the timed-out error.  A call that sleeps between two
    attempts has its backoff timer armed, with the delay of its attempt
    number: once the delay has passed, the timer starts the next attempt.  No
    call is left between the two. *)
Theorem X1_suspended_call_has_live_timer :
  ∀ (ts : list Task) (skip : bool) (t0 : Z) (cid : nat) (c : Call),
    let w := run ts (new_client skip t0) in
    calls w !! cid = Some c →
    phase c ≠ Running ∧
    (∀ seq, phase c = Awaiting seq →
       map_get seq (pendingRequests w) = Some cid ∧
       ∃ i t, timers w !! i = Some t ∧ fired t = false ∧
              callback t = RequestTimeout cid seq (command c) (timeout_for (command c)) ∧
              delay t = timeout_for (command c) ∧ (armed_at t ≤ now w)%Z ∧
              ∀ dt, (timeout_for (command c) ≤ dt)%Z →
                let w' := run [Elapse dt; TimerFires i] w in
                calls w' !! cid
                  = Some (resumed c (Rejected (timeout_error (command c)
                                                 (timeout_for (command c))))) ∧
                (∀ s, phase (resumed c (Rejected (timeout_error (command c)
                                                    (timeout_for (command c))))) ≠ Awaiting s) ∧
                seq ∉ keys (pendingRequests w')) ∧
    (phase c = Sleeping →
       ∃ i t, timers w !! i = Some t ∧ fired t = false ∧ callback t = RetryDelay cid ∧
              delay t = backoff (attempt c) ∧ (armed_at t ≤ now w)%Z ∧
              ∀ dt, (backoff (attempt c) ≤ dt)%Z →
                let w' := run [Elapse dt; TimerFires i] w in
                ∃ c', calls w' !! cid = Some c' ∧ attempt c' = (attempt c + 1)%Z ∧
                      (phase c' = Awaiting (sequence w) ∨ ∃ e, phase c' = Finished (Rejected e))).
Proof.
  intros ts skip t0 cid c w Hc.
  pose proof (Progress_run ts _ (Progress_new_client skip t0)) as HP. fold w in HP.
  pose proof (pr_calls _ _ HP cid c Hc (λ x, x)) as Hok. unfold call_ok in Hok.
  split_ands.
  - intros Hp. now rewrite Hp in Hok.
  - intros seq Hp. rewrite Hp in Hok. destruct Hok as [Hm (i & t & Hi & Hf & Hcb & Hd & Ha)].
    split; [exact Hm|]. exists i, t. split_ands; try assumption.
    intros dt Hdt w'. subst w'.
    pose proof (timeout_for_pos (command c)) as Hpos.
    cbn [run fold_left step].
    assert ((0 <=? dt)%Z = true) as -> by (apply Z.leb_le; lia).
    rewrite (fire_due i t) by (cbn; solve [assumption | lia]).
    rewrite Hcb. cbn [run_callback].
    cbn [pendingRequests set_timers set_now].
    unfold map_has. rewrite Hm.
    split_ands.
    + rewrite calls_invoke_reject. now apply resumed_calls_awaiting.
    + intros s. apply phase_resumed.
    + rewrite pendingRequests_invoke_reject. cbn [pendingRequests log observe set_trace
                                                   set_pendingRequests].
      rewrite elem_of_keys_map_delete. tauto.
  - intros Hp. rewrite Hp in Hok. destruct Hok as (i & t & Hi & Hf & Hcb & Hd & Ha).
    exists i, t. split_ands; try assumption.
    intros dt Hdt w'. subst w'.
    pose proof (backoff_nonneg (attempt c)) as Hpos.
    cbn [run fold_left step].
    assert ((0 <=? dt)%Z = true) as -> by (apply Z.leb_le; lia).
    rewrite (fire_due i t) by (cbn; solve [assumption | lia]).
    rewrite Hcb. cbn [run_callback].
    cbn [calls set_timers set_now]. rewrite Hc.
    set (w1 := set_call _ _ _).
    assert (calls w1 !! cid = Some (set_attempt (attempt c + 1) c)) as Hc1.
    { unfold w1, set_call. cbn [calls set_calls set_timers set_now].
      apply list_lookup_insert_eq. now apply lookup_lt_Some in Hc. }
    destruct (attempt_request_phase cid w1 _ Hc1) as (c' & Hc' & Hat & _ & Hph).
    exists c'. split_ands; assumption.
Qed.


(** ** A buffer that no header can start *)

(** X4.  The header pattern is anchored at the start of the buffer, and
    [handleData] removes nothing from a buffer the pattern does not match.
    So once the buffer holds a character that differs from the literal
    'Content-Length: ' at its position, no data that arrives later is ever
    handled: every call only appends to the buffer, whatever the chunks
    hold, frames included. *)
Theorem X4_framer_never_resynchronises :
  ∀ (w : World) (chunks : list string),
    departs "Content-Length: " (buffer w) = true →
    feed chunks w = set_buffer (buffer w +:+ join chunks) w ∧
    trace (feed chunks w) = trace w ∧
    pendingRequests (feed chunks w) = pendingRequests w ∧
    calls (feed chunks w) = calls w ∧
    departs "Content-Length: " (buffer (feed chunks w)) = true.
Proof.
  intros w chunks H.
  assert (feed chunks w = set_buffer (buffer w +:+ join chunks) w) as Heq.
  { revert w H. induction chunks as [|chunk chunks IH]; intros w H.
    - cbn. rewrite app_empty_r. now destruct w.
    - cbn [feed fold_left]. fold (feed chunks (handleData chunk w)).
      rewrite (handleData_departs chunk w H).
      rewrite IH by (cbn [buffer set_buffer]; now apply departs_app).
      cbn [buffer set_buffer join fold_right]. now rewrite app_assoc_s. }
  rewrite Heq. split_ands; try reflexivity.
  cbn [buffer set_buffer]. now apply departs_app.
Qed.

(** ** A call that sleeps while the client shuts down *)

(** X5.  [stop] cancels the requests of the pending map, and a call that
    sleeps between two attempts has none there: [stop] leaves the call as it
    is, asleep, with its backoff timer armed.  When that timer fires after
    the process handle has been cleared, the next attempt takes a sequence
    number and stores its entry in the pending map, and the write to stdin
    throws inside the promise executor: the call fails with that TypeError,
    not with the shutdown error and not with 'TSServer not started'; nothing
    is written, no timeout timer is armed, and the entry stays in the map. *)
Theorem X5_sleeping_call_outlives_stop :
  (∀ (w : World) (cid : nat) (c : Call),
      calls w !! cid = Some c → phase c = Sleeping →
      calls (stop w) !! cid = Some c ∧
      ∃ more, timers (stop w) = timers w ++ more) ∧
  (∀ (w : World) (cid : nat) (c : Call),
      calls w !! cid = Some c → process w = None → (attempt c < maxRetries c)%Z →
      let w' := run_callback (RetryDelay cid) w in
      calls w' !! cid
        = Some (set_phase (Finished (Rejected null_process_error))
                  (set_attempt (attempt c + 1) c)) ∧
      pendingRequests w' = map_set (sequence w) cid (pendingRequests w) ∧
      map_get (sequence w) (pendingRequests w') = Some cid ∧
      sequence w' = (sequence w + 1)%Z ∧
      timers w' = timers w ∧
      trace w' = trace w ++ [(now w, Log Warn "TSServer request failed");
                             (now w, Throw cid null_process_error)]).
Proof.
  split.
  - intros w cid c Hc Hp. split_ands.
    + rewrite calls_stop. apply apply_settlements_not_awaiting; [exact Hc|].
      intros s _. rewrite Hp. discriminate.
    + rewrite stop_unfold. cbn zeta.
      destruct (stable_timers _ _ (stable_cancel_all (pendingRequests w) w)) as [m Hm].
      destruct (process w) as [p|]; [|now exists m].
      exists (m ++ [{| armed_at := now w; delay := 3000;
                       callback := StopGrace (List.length (stops w)); fired := false |}]).
      unfold setTimeout. rewrite app_assoc, <- Hm.
      destruct (stdin p); cbn; now rewrite now_cancel_all.
  - intros w cid c Hc Hproc Hlt w'. subst w'. cbn [run_callback]. rewrite Hc.
    assert (cid < List.length (calls w))%nat as Hlen by (now apply lookup_lt_Some in Hc).
    unfold attempt_request.
    cbn [calls set_call set_calls]. rewrite list_lookup_insert_eq by assumption.
    cbn [attempt maxRetries set_attempt].
    assert ((attempt c + 1 <=? maxRetries c)%Z = true) as -> by (apply Z.leb_le; lia).
    cbn [process set_call set_calls set_pendingRequests set_sequence sequence pendingRequests].
    rewrite Hproc.
    set (c1 := set_phase _ _). set (w1 := set_call cid c1 _).
    assert (calls w1 !! cid = Some c1) as Hc1.
    { unfold w1, set_call. cbn [calls set_calls set_pendingRequests set_sequence].
      rewrite list_insert_insert_eq. now apply list_lookup_insert_eq. }
    rewrite (settle_rejected_final cid (sequence w) null_process_error w1 c1 Hc1 eq_refl)
      by (left; reflexivity).
    cbn [calls pendingRequests sequence timers trace observe log set_trace set_call set_calls].
    split_ands.
    + unfold w1, set_call. cbn [calls set_calls set_pendingRequests set_sequence].
      rewrite !list_insert_insert_eq. now apply list_lookup_insert_eq.
    + reflexivity.
    + apply map_get_map_set.
    + reflexivity.
    + reflexivity.
    + unfold w1. cbn. now rewrite <- app_assoc.
Qed.

(** ** The open-file set across a restart *)

(** X6.  The exit of the child clears the process handle and nothing else
    (unless a call of [stop] waits for that exit): the open-file set is kept,
    and [start] keeps it too.  A file that was open in the child that exited
    is therefore taken to be open in the next one: [openFile] on it returns
    at once and no 'open' notification reaches the new child. *)
Theorem X6_open_files_survive_exit :
  ∀ (w : World) (p : nat) (code : option Z) (signal : option string) (file : string),
    waiting_stops p w = [] → resolve file ∈ openFiles w →
    let w1 := on_exit p code signal w in
    let w2 := start w1 in
    openFiles w1 = openFiles w ∧
    process w1 = None ∧
    running w2 ∧
    spawned w2 = S (spawned w) ∧
    openFiles w2 = openFiles w ∧
    openFile file w2 = (w2, None).
Proof.
  intros w p code signal file Hw Hin w1 w2.
  assert (w1 = observe (Emit (EmitExit code signal))
                 (set_process None (log Info "TSServer process exited" w))) as H1.
  { subst w1. unfold on_exit.
    change (waiting_stops p (observe _ (set_process None (log Info _ w))))
      with (waiting_stops p w).
    now rewrite Hw. }
  assert (openFiles w2 = openFiles w ∧ running w2 ∧ spawned w2 = S (spawned w)) as (H2 & Hr & Hs).
  { subst w2. rewrite H1. unfold start.
    cbn [process observe set_trace set_process].
    destruct (skipAvailabilityCheck _); (split; [reflexivity|]); (split; [|reflexivity]);
      eexists; (split; [reflexivity|]); reflexivity. }
  split_ands; try assumption.
  - now rewrite H1.
  - now rewrite H1.
  - unfold openFile. rewrite decide_True; [reflexivity|]. now rewrite H2.
Qed.

(** ** Before [start] *)

Lemma Idle_step (w : World) (t : Task) : t ≠ CallStart → Idle w → Idle (step w t).
Proof.
  intros Ht [Hp Hsp Hsq Hpe Hti Hof Hb Ho Hc Hf]. destruct t; cbn [step]; try congruence.
  - unfold request, requestWithRetry. cbn [process set_calls]. rewrite Hp.
    unfold finish. cbn [calls set_calls].
    rewrite list_lookup_middle by reflexivity.
    split; try assumption.
    + unfold outputs. cbn. rewrite List.filter_app. cbn.
      unfold outputs in Ho. now rewrite Ho.
    + intros cid c. cbn [calls observe set_trace set_call set_calls].
      rewrite insert_app_r_alt, Nat.sub_diag by reflexivity. cbn [insert list_insert].
      intros Hl. apply lookup_app_Some in Hl as [Hl|[_ Hl]]; [now apply (Hc cid)|].
      apply list_lookup_singleton_Some in Hl as [_ <-]. reflexivity.
  - unfold openFile. rewrite Hof.
    rewrite decide_False by apply not_elem_of_empty.
    unfold notify. rewrite Hp. cbn [suspend].
    split; try assumption.
    intros fid c b. cbn [fileCalls set_fileCalls]. intros Hl.
    apply lookup_app_Some in Hl as [Hl|[_ Hl]]; [now apply (Hf fid c b)|].
    apply list_lookup_singleton_Some in Hl as [_ Hl]. now inversion Hl.
  - unfold closeFile. rewrite Hof.
    rewrite decide_True by apply not_elem_of_empty.
    cbn [suspend]. now split.
  - destruct (fileCall_resume_cases fid w) as [-> | (c & Hl & ->)]; [now split|].
    unfold resume_fileCall. rewrite (Hf fid c true Hl). cbn [record_failure].
    split; try assumption.
    + unfold outputs. cbn. rewrite List.filter_app. cbn.
      unfold outputs in Ho. now rewrite Ho.
    + intros fid' c' b'. cbn [fileCalls set_fileCalls observe set_trace]. intros Hl'.
      destruct (decide (fid' = fid)) as [->|Hne].
      * rewrite list_lookup_insert_eq in Hl' by (now apply lookup_lt_Some in Hl).
        inversion Hl'; subst. now apply (Hf fid c' true).
      * rewrite list_lookup_insert_ne in Hl' by congruence. now apply (Hf fid' c' b').
  - unfold stop. rewrite Hpe. cbn [cancel_all fold_left process set_pendingRequests].
    rewrite Hp. now split.
  - rewrite Hsp. now split.
  - rewrite Hsp. now split.
  - unfold fire. rewrite Hti, lookup_nil. now split.
  - destruct (_ <=? _)%Z; now split.
Qed.

(** X8.  A client that has not been asked to [start] does nothing to the
    outside: whatever else is called on it, it spawns no process, writes
    nothing, takes no sequence number, arms no timer and keeps its pending
    map and its open-file set empty; every [request] is rejected with
    'TSServer not started'. *)
Theorem X8_nothing_before_start :
  ∀ (ts : list Task) (skip : bool) (t0 : Z),
    CallStart ∉ ts →
    let w := run ts (new_client skip t0) in
    process w = None ∧ spawned w = 0 ∧ sequence w = 1%Z ∧
    pendingRequests w = [] ∧ timers w = [] ∧ openFiles w = ∅ ∧
    outputs w = [] ∧
    (∀ cid c, calls w !! cid = Some c → phase c = Finished (Rejected not_started)).
Proof.
  intros ts skip t0 Hts w.
  assert (Idle w) as [].
  { subst w. assert (Idle (new_client skip t0)) as H0.
    { split; try reflexivity.
      - intros cid c Hc. cbn in Hc. now rewrite lookup_nil in Hc.
      - intros fid c b Hc. cbn in Hc. now rewrite lookup_nil in Hc. }
    revert H0. generalize (new_client skip t0).
    induction ts as [|t ts IH]; intros w0 H0; [exact H0|].
    apply not_elem_of_cons in Hts as [Hne Hts].
    cbn [run fold_left]. apply (IH Hts). apply Idle_step; [congruence | exact H0]. }
  split_ands; assumption.
Qed.


(** ** The attempts of a call *)

Lemma resting_refl (w : World) : resting w w.
Proof.
  split; [reflexivity|congruence|].
  exists []. split; [now rewrite app_nil_r | constructor].
Qed.

Lemma resting_trans (w1 w2 w3 : World) : resting w1 w2 → resting w2 w3 → resting w1 w3.
Proof.
  intros [L1 A1 (m1 & E1 & F1)] [L2 A2 (m2 & E2 & F2)]. split.
  - congruence.
  - intros cid c c' Hc Hc'.
    destruct (lookup_lt_is_Some_2 (calls w2) cid) as [c2 Hc2].
    { rewrite L1. now apply lookup_lt_Some in Hc. }
    rewrite (A2 cid c2 c' Hc2 Hc'). now apply (A1 cid).
  - exists (m1 ++ m2). split; [now rewrite E2, E1, app_assoc | now apply Forall_app].
Qed.

Lemma resting_grown (w w' : World) : grown w w' → resting w w'.
Proof.
  intros [Hc _ _ _ Ht]. split; [now rewrite Hc| |exact Ht].
  intros cid c c' H H'. rewrite Hc in H'. congruence.
Qed.

Lemma attempts_no_timeout (cid : nat) (more : list Timer) :
  Forall no_timeout more → List.filter (timeout_of cid) more = [].
Proof.
  induction 1 as [|t more Ht _ IH]; [reflexivity|]. cbn [List.filter].
  unfold timeout_of. unfold no_timeout in Ht. now destruct (callback t).
Qed.

Lemma attempts_resting (cid : nat) (w w' : World) :
  resting w w' → attempts cid w' = attempts cid w.
Proof.
  intros [_ _ (more & E & F)]. unfold attempts.
  rewrite E, List.filter_app, (attempts_no_timeout cid more F). apply app_nil_r.
Qed.

Lemma Bounded_resting (w w' : World) : resting w w' → Bounded w → Bounded w'.
Proof.
  intros Hr [Hc Hn]. pose proof Hr as [L A _]. split.
  - intros cid c' Hc'. rewrite (attempts_resting cid _ _ Hr).
    destruct (lookup_lt_is_Some_2 (calls w) cid) as [c Hc0].
    { rewrite <- L. now apply lookup_lt_Some in Hc'. }
    rewrite (A cid c c' Hc0 Hc'). now apply Hc.
  - intros cid Hnone. rewrite (attempts_resting cid _ _ Hr). apply Hn.
    apply lookup_ge_None. rewrite <- L. now apply lookup_ge_None.
Qed.

Lemma resting_set_call (cid : nat) (c c' : Call) (w : World) :
  calls w !! cid = Some c → attempt c' = attempt c → resting w (set_call cid c' w).
Proof.
  intros Hc Ha. split.
  - unfold set_call. cbn. apply length_insert.
  - intros cid' c0 c0' H0 H0'. unfold set_call in H0'. cbn in H0'.
    destruct (decide (cid' = cid)) as [->|Hne].
    + rewrite list_lookup_insert_eq in H0' by (now apply lookup_lt_Some in Hc). congruence.
    + rewrite list_lookup_insert_ne in H0' by congruence. congruence.
  - exists []. split; [now rewrite app_nil_r | constructor].
Qed.

Lemma resting_finish (cid : nat) (o : Outcome) (w : World) : resting w (finish cid o w).
Proof.
  unfold finish. destruct (calls w !! cid) as [c|] eqn:Hc; [|apply resting_refl].
  eapply resting_trans; [|apply resting_grown, grown_observe].
  now apply (resting_set_call cid c).
Qed.

Lemma resting_resume_request (cid : nat) (o : Outcome) (w : World) :
  resting w (resume_request cid o w).
Proof.
  unfold resume_request. destruct (calls w !! cid) as [c|] eqn:Hc; [|apply resting_refl].
  destruct o; [apply resting_finish|].
  eapply resting_trans; [apply resting_grown, grown_log|].
  destruct (_ && _).
  - eapply resting_trans; [apply resting_grown, grown_log|].
    eapply resting_trans; [|apply resting_grown, grown_setTimeout; discriminate].
    now apply (resting_set_call cid c).
  - apply resting_finish.
Qed.

Lemma resting_settle (cid : nat) (seq : Z) (o : Outcome) (w : World) :
  resting w (settle cid seq o w).
Proof.
  unfold settle. destruct (calls w !! cid) as [c|]; [|apply resting_refl].
  destruct (phase c); try apply resting_refl.
  destruct (_ =? _)%Z; [apply resting_resume_request | apply resting_refl].
Qed.

Lemma resting_invoke_resolve seq cid body (w : World) :
  resting w (invoke_resolve seq cid body w).
Proof.
  unfold invoke_resolve. eapply resting_trans; [|apply resting_settle].
  apply resting_grown, grown_observe.
Qed.

Lemma resting_invoke_reject seq cid e (w : World) : resting w (invoke_reject seq cid e w).
Proof.
  unfold invoke_reject. eapply resting_trans; [|apply resting_settle].
  apply resting_grown, grown_observe.
Qed.

Lemma resting_same (w w' : World) :
  calls w' = calls w → timers w' = timers w → resting w w'.
Proof.
  intros Hc Ht. split; [now rewrite Hc| |].
  - intros cid c c' H H'. rewrite Hc in H'. congruence.
  - exists []. split; [now rewrite app_nil_r | constructor].
Qed.

Lemma resting_handleMessage (m : Message) (w : World) : resting w (handleMessage m w).
Proof.
  unfold handleMessage. destruct m as [r|e|].
  - destruct (map_get _ _) as [cid|]; [|apply resting_grown, grown_log].
    apply (resting_trans _ (set_pendingRequests
                              (map_delete (request_seq r) (pendingRequests w)) w));
      [now apply resting_same|].
    destruct (success r); [apply resting_invoke_resolve|].
    eapply resting_trans; [apply resting_grown, grown_log | apply resting_invoke_reject].
  - apply resting_grown, grown_observe.
  - apply resting_grown, grown_log.
Qed.

Lemma resting_deliver (content : string) (w : World) : resting w (deliver content w).
Proof.
  unfold deliver.
  destruct (JSON_parse content); [apply resting_handleMessage | apply resting_grown, grown_log].
Qed.

Lemma resting_handleData (data : string) (w : World) : resting w (handleData data w).
Proof.
  rewrite handleData_yielded.
  apply (resting_trans _ (deliver_all (yielded (buffer w) data).1 w));
    [|now apply resting_same].
  generalize (yielded (buffer w) data).1. intros contents. revert w.
  induction contents as [|c cs IH]; intros w; [apply resting_refl|].
  cbn [deliver_all fold_left]. eapply resting_trans; [apply resting_deliver | apply IH].
Qed.

Lemma resting_cancel_all (entries : list (Z * nat)) (w : World) :
  resting w (cancel_all entries w).
Proof.
  revert w. induction entries as [|[seq cid] es IH]; intros w; [apply resting_refl|].
  simpl. eapply resting_trans; [apply resting_invoke_reject | apply IH].
Qed.

Lemma resting_stop (w : World) : resting w (stop w).
Proof.
  rewrite stop_unfold. cbn zeta.
  set (w1 := set_pendingRequests [] _).
  assert (resting w w1) as H1.
  { eapply resting_trans; [apply resting_cancel_all | now apply resting_same]. }
  destruct (process w) as [p|].
  - eapply resting_trans; [exact H1|].
    eapply resting_trans; [|apply resting_grown, grown_setTimeout; discriminate].
    destruct (stdin p); now apply resting_same.
  - eapply resting_trans; [exact H1 | now apply resting_same].
Qed.

(** One turn of the loop adds at most one timeout timer, for its own call. *)
Lemma Bounded_attempt_request (cid : nat) (w : World) (c : Call) :
  calls w !! cid = Some c →
  (Z.of_nat (List.length (attempts cid w)) ≤ attempt c)%Z →
  (∀ cid' c', cid' ≠ cid → calls w !! cid' = Some c' →
     (Z.of_nat (List.length (attempts cid' w)) ≤ attempt c' + 1)%Z) →
  (∀ cid', calls w !! cid' = None → attempts cid' w = []) →
  Bounded (attempt_request cid w).
Proof.
  intros Hc Hle Hothers Hnone.
  assert (Bounded w) as HB.
  { split; [|exact Hnone]. intros cid' c' Hc'.
    destruct (decide (cid' = cid)) as [->|Hne]; [|now apply Hothers].
    assert (c' = c) as -> by congruence. lia. }
  unfold attempt_request. rewrite Hc.
  destruct (_ <=? _)%Z; [|exact (Bounded_resting _ _ (resting_finish _ _ _) HB)].
  set (w1 := set_call cid (set_phase (Awaiting (sequence w)) c)
               (set_pendingRequests (map_set (sequence w) cid (pendingRequests w))
                  (set_sequence (sequence w + 1) w))).
  assert (resting w w1) as H1.
  { apply (resting_trans _ (set_pendingRequests (map_set (sequence w) cid (pendingRequests w))
                              (set_sequence (sequence w + 1) w)));
      [now apply resting_same|].
    now apply (resting_set_call cid c). }
  cbn [process set_call set_calls set_pendingRequests set_sequence]. fold w1.
  destruct (process w) as [p|];
    [destruct (stdin p)|];
    try exact (Bounded_resting _ _ (resting_trans _ _ _ H1 (resting_settle _ _ _ _)) HB).
  split.
  - intros cid' c' Hc'. unfold attempts.
    cbn [timers setTimeout set_timers observe set_trace set_call set_calls
           set_pendingRequests set_sequence].
    rewrite List.filter_app. fold (attempts cid' w). rewrite length_app.
    cbn [List.filter timeout_of callback].
    cbn [calls setTimeout set_timers observe set_trace set_call set_calls
           set_pendingRequests set_sequence] in Hc'.
    destruct (decide (cid' = cid)) as [->|Hne].
    + rewrite Nat.eqb_refl. cbn [List.length].
      rewrite list_lookup_insert_eq in Hc' by (now apply lookup_lt_Some in Hc).
      assert (c' = set_phase (Awaiting (sequence w)) c) as -> by congruence.
      cbn [attempt set_phase]. lia.
    + assert ((cid =? cid')%nat = false) as -> by (apply Nat.eqb_neq; congruence).
      cbn [List.length]. rewrite Nat.add_0_r.
      rewrite list_lookup_insert_ne in Hc' by congruence. now apply Hothers.
  - intros cid' Hn'. unfold attempts.
    cbn [timers setTimeout set_timers observe set_trace set_call set_calls
           set_pendingRequests set_sequence].
    rewrite List.filter_app. fold (attempts cid' w).
    cbn [calls setTimeout set_timers observe set_trace set_call set_calls
           set_pendingRequests set_sequence] in Hn'.
    assert (calls w !! cid' = None) as Hn0.
    { apply lookup_ge_None. apply lookup_ge_None in Hn'. now rewrite length_insert in Hn'. }
    rewrite (Hnone cid' Hn0). cbn [List.filter timeout_of callback app].
    destruct (Nat.eqb_spec cid cid') as [<-|]; [congruence|reflexivity].
Qed.

Lemma Bounded_request (cmd : string) (a : option Arguments) (w : World) :
  Bounded w → Bounded (request cmd a w).
Proof.
  intros [Hc Hn]. unfold request, requestWithRetry.
  set (c := {| command := cmd; args := a; maxRetries := 3; attempt := 0; phase := Running |}).
  set (w1 := set_calls (calls w ++ [c]) w).
  set (cid := List.length (calls w)).
  assert (calls w1 !! cid = Some c) as Hc1 by (now apply list_lookup_middle).
  assert (attempts cid w1 = []) as Ha1.
  { apply (Hn cid). now apply lookup_ge_None. }
  assert (∀ cid' c', cid' ≠ cid → calls w1 !! cid' = Some c' →
            (Z.of_nat (List.length (attempts cid' w1)) ≤ attempt c' + 1)%Z) as Ho.
  { intros cid' c' Hne Hc'. unfold w1 in Hc'. cbn in Hc'.
    apply lookup_app_Some in Hc' as [Hc'|[Hge Hc']]; [now apply (Hc cid')|].
    apply list_lookup_singleton_Some in Hc' as [Hz _]. subst cid. lia. }
  assert (∀ cid', calls w1 !! cid' = None → attempts cid' w1 = []) as Hn1.
  { intros cid' Hn'. apply (Hn cid'). apply lookup_ge_None. apply lookup_ge_None in Hn'.
    unfold w1 in Hn'. cbn in Hn'. rewrite length_app in Hn'. lia. }
  assert (Bounded w1) as HB1.
  { split; [|exact Hn1]. intros cid' c' Hc'.
    destruct (decide (cid' = cid)) as [->|Hne]; [|now apply Ho].
    rewrite Ha1. assert (c' = c) as -> by congruence. cbn. lia. }
  cbn [process set_calls]. fold w1.
  assert (Bounded (attempt_request cid w1)) as HA.
  { apply (Bounded_attempt_request cid w1 c Hc1); [|exact Ho|exact Hn1].
    rewrite Ha1. cbn. lia. }
  destruct (process w1) as [p|]; [destruct (stdin p)|]; try exact HA;
    exact (Bounded_resting _ _ (resting_finish _ _ _) HB1).
Qed.

Lemma length_filter_insert {A : Type} (f : A → bool) (l : list A) (i : nat) (x y : A) :
  l !! i = Some x → f y = f x →
  List.length (List.filter f (<[i := y]> l)) = List.length (List.filter f l).
Proof.
  revert i. induction l as [|z l IH]; intros i Hi Hf; [reflexivity|].
  destruct i as [|i]; cbn in *.
  - injection Hi as ->. rewrite Hf. now destruct (f x).
  - specialize (IH i Hi Hf). destruct (f z); cbn [List.length]; [f_equal|]; exact IH.
Qed.

Lemma Bounded_mark (i : nat) (t : Timer) (w : World) :
  timers w !! i = Some t → Bounded w →
  Bounded (set_timers (<[i := set_fired t]> (timers w)) w).
Proof.
  intros Hi [Hc Hn].
  assert (∀ cid, List.length (attempts cid (set_timers (<[i := set_fired t]> (timers w)) w))
                 = List.length (attempts cid w)) as Hlen.
  { intros cid. unfold attempts. cbn [timers set_timers].
    now apply (length_filter_insert _ _ _ t). }
  split.
  - intros cid c Hcc. rewrite Hlen. now apply Hc.
  - intros cid Hcc. apply length_zero_iff_nil. rewrite Hlen. now rewrite (Hn cid Hcc).
Qed.

Lemma Bounded_fire (i : nat) (w : World) : Bounded w → Bounded (fire i w).
Proof.
  intros H. unfold fire. destruct (timers w !! i) as [t|] eqn:Hi; [|exact H].
  destruct (_ || _); [exact H|].
  pose proof (Bounded_mark i t w Hi H) as H1.
  set (w1 := set_timers _ w) in *.
  destruct (callback t) as [cid seq cmd timeout|cid|sid| |]; cbn [run_callback].
  - destruct (map_has seq (pendingRequests w1)); [|exact H1].
    eapply Bounded_resting; [|exact H1].
    apply (resting_trans _ (set_pendingRequests (map_delete seq (pendingRequests w1)) w1));
      [now apply resting_same|].
    eapply resting_trans; [apply resting_grown, grown_log | apply resting_invoke_reject].
  - destruct (calls w1 !! cid) as [c|] eqn:Hc; [|exact H1].
    destruct H1 as [Hc1 Hn1].
    assert (∀ cid', attempts cid' (set_call cid (set_attempt (attempt c + 1) c) w1)
                    = attempts cid' w1) as Hsame by reflexivity.
    apply (Bounded_attempt_request cid _ (set_attempt (attempt c + 1) c)).
    + unfold set_call. cbn [calls set_calls]. apply list_lookup_insert_eq.
      now apply lookup_lt_Some in Hc.
    + rewrite Hsame. cbn [attempt set_attempt]. now apply Hc1.
    + intros cid' c' Hne Hc'. rewrite Hsame. apply Hc1.
      unfold set_call in Hc'. cbn [calls set_calls] in Hc'.
      now rewrite list_lookup_insert_ne in Hc' by congruence.
    + intros cid' Hn'. rewrite Hsame. apply Hn1.
      unfold set_call in Hn'. cbn [calls set_calls] in Hn'.
      apply lookup_ge_None. apply lookup_ge_None in Hn'. now rewrite length_insert in Hn'.
  - exact (Bounded_resting _ _ (resting_grown _ _ (grown_stop_resume sid w1)) H1).
  - exact (Bounded_resting _ _ (resting_grown _ _ (grown_observe Started w1)) H1).
  - now apply Bounded_request.
Qed.

Lemma Bounded_step (w : World) (t : Task) : Bounded w → Bounded (step w t).
Proof.
  intros H. destruct t; cbn [step].
  - exact (Bounded_resting _ _ (resting_grown _ _ (grown_start w)) H).
  - now apply Bounded_request.
  - exact (Bounded_resting _ _ (resting_grown _ _ (grown_file_step w (CallOpenFile file))) H).
  - exact (Bounded_resting _ _ (resting_grown _ _ (grown_file_step w (CallCloseFile file))) H).
  - exact (Bounded_resting _ _ (resting_grown _ _ (grown_file_step w (FileCallResumes fid))) H).
  - exact (Bounded_resting _ _ (resting_stop w) H).
  - destruct (_ <? _)%nat; [|exact H].
    exact (Bounded_resting _ _ (resting_handleData _ w) H).
  - destruct (_ <? _)%nat; [|exact H].
    exact (Bounded_resting _ _ (resting_grown _ _ (grown_on_exit _ _ _ w)) H).
  - now apply Bounded_fire.
  - destruct (_ <=? _)%Z; [|exact H].
    eapply Bounded_resting; [|exact H]. now apply resting_same.
Qed.

Lemma Bounded_run (ts : list Task) (w : World) : Bounded w → Bounded (run ts w).
Proof.
  revert w. induction ts as [|t ts IH]; intros w H; [exact H|].
  apply IH, Bounded_step, H.
Qed.

Lemma Bounded_new_client (skip : bool) (t0 : Z) : Bounded (new_client skip t0).
Proof.
  split; [|reflexivity]. intros cid c Hc. cbn in Hc. now rewrite lookup_nil in Hc.
Qed.

(** X19.  A call of [request] makes at most four attempts.  In every state
    the client can reach, the timeout timers a call has armed, one with each
    request it has written, are at most one more than its attempt counter,
    and the counter stays within the three retries.  A backoff timer that has
    not fired belongs to a call that sleeps with a retry left, so that the
    turn of the loop it starts passes the loop test: the loop of
    [requestWithRetry] does not run out, and the code that follows it is not
    reached. *)
Theorem X19_at_most_four_attempts :
  ∀ (ts : list Task) (skip : bool) (t0 : Z) (cid : nat),
    let w := run ts (new_client skip t0) in
    (List.length (attempts cid w) ≤ 4)%nat ∧
    (∀ c, calls w !! cid = Some c →
          (Z.of_nat (List.length (attempts cid w)) ≤ attempt c + 1)%Z ∧
          (0 ≤ attempt c ≤ maxRetries c)%Z ∧ maxRetries c = 3%Z) ∧
    (calls w !! cid = None → attempts cid w = []) ∧
    (∀ i t, timers w !! i = Some t → fired t = false → callback t = RetryDelay cid →
            ∃ c, calls w !! cid = Some c ∧ phase c = Sleeping ∧
                 (attempt c + 1 ≤ maxRetries c)%Z).
Proof.
  intros ts skip t0 cid w.
  pose proof (Bounded_run ts _ (Bounded_new_client skip t0)) as [Hb Hn]. fold w in Hb, Hn.
  pose proof (RuntimeInv_run ts _ (RuntimeInv_new_client skip t0)) as [Hr Hrn _].
  fold w in Hr, Hrn.
  split_ands.
  - destruct (calls w !! cid) as [c|] eqn:Hc.
    + specialize (Hb cid c Hc). destruct (Hr cid c Hc) as (_ & Ha & _). lia.
    + rewrite (Hn cid Hc). cbn. lia.
  - intros c Hc. destruct (Hr cid c Hc) as (Hm & Ha & _).
    split; [now apply Hb|]. split; [lia | exact Hm].
  - apply Hn.
  - intros i t Hi Hf Hcb.
    assert (armed_retries cid w ≠ 0) as Hne.
    { unfold armed_retries. intros H0. apply length_zero_iff_nil in H0.
      apply (filter_lookup_nonempty (retry_armed cid) _ _ _ Hi); [|exact H0].
      unfold retry_armed. rewrite Hf, Hcb, Nat.eqb_refl. reflexivity. }
    destruct (calls w !! cid) as [c|] eqn:Hc; [|now rewrite (Hrn cid Hc) in Hne].
    destruct (Hr cid c Hc) as (Hm & Ha & [H0|(_ & Hp & Hlt)]); [contradiction|].
    exists c. split; [reflexivity|]. split; [exact Hp | lia].
Qed.


(** ** The tools on a running client *)

Lemma request_running (cmd : string) (a : option Arguments) (w : World) :
  running w →
  request cmd a w =
  setTimeout (RequestTimeout (List.length (calls w)) (sequence w) cmd (timeout_for cmd))
    (timeout_for cmd)
    (observe (Write {| req_seq := sequence w; req_command := cmd; req_arguments := a |})
       (set_calls (calls w ++ [waiting_call cmd a (sequence w)])
          (set_pendingRequests (map_set (sequence w) (List.length (calls w)) (pendingRequests w))
             (set_sequence (sequence w + 1) w)))).
Proof.
  intros (p & Hp & Hs). unfold request, requestWithRetry.
  cbn [process set_calls]. rewrite Hp, Hs.
  set (c := {| command := cmd; args := a; maxRetries := 3; attempt := 0; phase := Running |}).
  rewrite (attempt_request_written _ _ c p); try assumption.
  - cbn [command args]. do 2 f_equal.
    unfold set_call. cbn [calls set_calls set_pendingRequests set_sequence].
    rewrite insert_app_r_alt, Nat.sub_diag by reflexivity. reflexivity.
  - cbn [calls set_calls]. now apply list_lookup_middle.
  - cbn. lia.
Qed.

Lemma request_not_running (cmd : string) (a : option Arguments) (w : World) :
  ¬ running w →
  request cmd a w =
  observe (Throw (List.length (calls w)) not_started)
    (set_calls (calls w ++ [{| command := cmd; args := a; maxRetries := 3; attempt := 0;
                               phase := Finished (Rejected not_started) |}]) w).
Proof.
  intros Hn. unfold request, requestWithRetry. cbn [process set_calls].
  assert (∀ w', calls w' = calls w ++ [{| command := cmd; args := a; maxRetries := 3;
                                          attempt := 0; phase := Running |}] →
                finish (List.length (calls w)) (Rejected not_started) w'
                = observe (Throw (List.length (calls w)) not_started)
                    (set_calls (calls w ++ [{| command := cmd; args := a; maxRetries := 3;
                                               attempt := 0;
                                               phase := Finished (Rejected not_started) |}]) w'))
    as Hf.
  { intros w' Hw'. unfold finish. rewrite Hw', list_lookup_middle by reflexivity.
    unfold set_call. rewrite Hw'.
    rewrite insert_app_r_alt, Nat.sub_diag by reflexivity. reflexivity. }
  destruct (process w) as [p|] eqn:Hp.
  - destruct (stdin p) eqn:Hs; [exfalso; apply Hn; now exists p|].
    now rewrite Hf.
  - now rewrite Hf.
Qed.

Lemma handleMessage_success (r : TSServerResponse) (w : World) (cid : nat) (c : Call) :
  map_get (request_seq r) (pendingRequests w) = Some cid →
  calls w !! cid = Some c → phase c = Awaiting (request_seq r) → success r = true →
  handleMessage (Response r) w =
  observe (Return cid (res_body r))
    (set_call cid (set_phase (Finished (Resolved (res_body r))) c)
       (observe (Resolve (request_seq r) cid (res_body r))
          (set_pendingRequests (map_delete (request_seq r) (pendingRequests w)) w))).
Proof.
  intros Hm Hc Hp Hs. unfold handleMessage. rewrite Hm, Hs. unfold invoke_resolve.
  rewrite (settle_awaiting _ _ _ _ c), (resume_request_resolved _ _ _ c) by assumption.
  unfold finish. cbn [calls observe set_trace set_pendingRequests]. now rewrite Hc.
Qed.

Lemma finally_closeFile_open {R : Type} (file : string) (r : Settled R) (w : World) :
  running w → resolve file ∈ openFiles w →
  finally_closeFile file r w =
  (set_openFiles (openFiles w ∖ {[resolve file]})
     (observe (Write (close_notification (sequence w) file))
        (set_sequence (sequence w + 1) w)), Done r).
Proof. intros Hr Hin. unfold finally_closeFile. now rewrite closeFile_open. Qed.

Lemma finally_closeFile_closed {R : Type} (file : string) (r : Settled R) (w : World) :
  resolve file ∉ openFiles w → finally_closeFile file r w = (w, Done r).
Proof.
  intros Hin. unfold finally_closeFile. now rewrite closeFile_reclosed.
Qed.

Lemma finally_closeFile_not_running {R : Type} (file : string) (r : Settled R) (w : World) :
  ¬ running w → resolve file ∈ openFiles w →
  finally_closeFile file r w = (w, Done (Thrown not_started)).
Proof.
  intros Hr Hin. unfold finally_closeFile. now rewrite closeFile_not_running.
Qed.

Lemma resume_finished {R : Type} (cid : nat) (k : Outcome → World → World * Tool R)
    (w : World) (c : Call) (o : Outcome) :
  calls w !! cid = Some c → phase c = Finished o → resume (Await cid k) w = k o w.
Proof. intros Hc Hp. unfold resume. now rewrite Hc; cbn; rewrite Hp. Qed.

Lemma add_remove (p : string) (files : gset string) :
  p ∉ files → ({[p]} ∪ files) ∖ {[p]} = files.
Proof.
  intros Hn. apply set_eq. intros x.
  rewrite elem_of_difference, elem_of_union, !elem_of_singleton.
  split.
  - intros [[Hx|Hx] Hne]; [contradiction|assumption].
  - intros Hx. split; [now right|]. intros ->. contradiction.
Qed.

Lemma with_file_begin {R : Type} (file cmd : string) (a : option Arguments)
    (post : Outcome → Settled R) (w0 : World) :
  running w0 → resolve file ∉ openFiles w0 →
  with_file file cmd a post w0 =
  (request cmd a (awaited (openFile file w0)).1,
   Await (List.length (calls w0)) (λ o w, finally_closeFile file (post o) w)).
Proof.
  intros Hr Hn. unfold with_file. now rewrite openFile_fresh.
Qed.

Lemma with_file_round_trip {R : Type} (file cmd : string) (a : option Arguments)
    (post : Outcome → Settled R) (w0 : World) (r : TSServerResponse) :
  running w0 → resolve file ∉ openFiles w0 →
  request_seq r = (sequence w0 + 1)%Z → success r = true →
  let e := answered r (with_file file cmd a post w0) in
  e.2 = Done (post (Resolved (res_body r))) ∧
  round_trip file cmd a (res_body r) w0 e.1.
Proof.
  intros Hr Hn Hseq Hs e. subst e. unfold answered.
  rewrite with_file_begin, openFile_fresh by assumption. cbn [fst snd].
  set (w1 := set_openFiles _ _).
  assert (running w1) as Hr1 by (now apply (running_same w0)).
  rewrite (request_running _ _ _ Hr1).
  change (sequence w1) with (sequence w0 + 1)%Z.
  change (calls w1) with (calls w0). change (pendingRequests w1) with (pendingRequests w0).
  set (cid := List.length (calls w0)).
  set (w2 := setTimeout _ _ _).
  rewrite (handleMessage_success r w2 cid (waiting_call cmd a (sequence w0 + 1))); cycle 1.
  { rewrite Hseq. apply map_get_map_set. }
  { apply list_lookup_middle. reflexivity. }
  { now rewrite Hseq. }
  { assumption. }
  set (w3 := observe (Return _ _) _).
  rewrite (resume_finished cid _ w3 (set_phase (Finished (Resolved (res_body r)))
                                       (waiting_call cmd a (sequence w0 + 1)))
             (Resolved (res_body r))); cycle 1.
  { subst w3 w2. cbn [calls observe set_trace set_call set_calls setTimeout set_timers
                        set_pendingRequests].
    apply list_lookup_insert_eq. rewrite length_app. cbn. subst cid. lia. }
  { reflexivity. }
  rewrite finally_closeFile_open; cycle 1.
  { now apply (running_same w0). }
  { change (openFiles w3) with ({[resolve file]} ∪ openFiles w0).
    apply elem_of_union_l. now apply elem_of_singleton. }
  cbn [fst snd]. split; [reflexivity|]. unfold round_trip.
  subst w3 w2 w1 cid. rewrite Hseq.
  split_ands.
  - cbn. rewrite <- !app_assoc. cbn.
    replace (sequence w0 + 1 + 1)%Z with (sequence w0 + 2)%Z by lia. reflexivity.
  - cbn. now apply add_remove.
  - cbn. lia.
  - reflexivity.
Qed.

Lemma getDefinition_with_file (casts : Casts) (args : Tools.DefinitionArgs) (w : World) :
  getDefinition casts args w =
  with_file (resolve (Tools.a_file args)) "definition"
    (Some (AnyArgs (position_args casts (resolve (Tools.a_file args))
                      (Tools.a_line args) (Tools.a_offset args))))
    (λ o, match o with
          | Resolved response =>
              Returned (Tools.getDefinition_result (response ≫= as_DefinitionInfos casts))
          | Rejected e => Thrown e
          end) w.
Proof. reflexivity. Qed.

Lemma getHover_with_file (casts : Casts) (args : Tools.HoverArgs) (w : World) :
  getHover casts args w =
  with_file (resolve (Tools.a_file args)) "quickinfo"
    (Some (AnyArgs (position_args casts (resolve (Tools.a_file args))
                      (Tools.a_line args) (Tools.a_offset args))))
    (λ o, match o with
          | Resolved response =>
              Returned (Tools.getHover_result <$> (response ≫= as_QuickInfo casts))
          | Rejected _ => Returned None
          end) w.
Proof. reflexivity. Qed.

Lemma getReferences_with_file (casts : Casts) (args : Tools.ReferencesArgs) (w : World) :
  getReferences casts args w =
  with_file (Tools.a_file args) "references"
    (Some (AnyArgs (position_args casts (Tools.a_file args)
                      (Tools.a_line args) (Tools.a_offset args))))
    (λ o, match o with
          | Resolved response =>
              Returned (Tools.getReferences_result
                          (response ≫= as_ReferencesResponseBody casts))
          | Rejected e => Thrown e
          end) w.
Proof. reflexivity. Qed.

Lemma getRename_with_file (casts : Casts) (args : Tools.RenameArgs) (w : World) :
  getRename casts args w =
  with_file (Tools.r_file args) "rename"
    (Some (AnyArgs (position_args casts (Tools.r_file args)
                      (Tools.r_line args) (Tools.r_offset args))))
    (λ o, match o with
          | Resolved response =>
              Returned (Tools.getRename_result (Tools.newName args)
                          (response ≫= as_RenameResponseBody casts))
          | Rejected e => Thrown e
          end) w.
Proof. reflexivity. Qed.

Lemma organizeImports_with_file (casts : Casts) (file : string) (w : World) :
  organizeImports casts file w =
  with_file file "organizeImports" (Some (FileArgs file))
    (λ o, match o with
          | Resolved response =>
              Returned (Tools.organizeImports_result (response ≫= as_Changes casts))
          | Rejected _ => Returned {| Tools.success := false; Tools.o_changes := None |}
          end) w.
Proof. reflexivity. Qed.

(** X7.  A tool with one request, called on a running client for a file that
    is not open, does three things to the child, with consecutive sequence
    numbers: it opens the file, makes its request, and, when the answer has
    arrived, closes the file again; the open-file set is then as it was.
    [getDefinition] and [getHover] resolve the path before they pass it on,
    and send the resolved path in the request; [getReferences], [getRename]
    and [organizeImports] send the path as they were given it, while the
    notifications carry the resolved one.  The tool returns what it computes
    from the body of the answer. *)
Theorem X7_tool_round_trip :
  ∀ (casts : Casts) (w0 : World) (r : TSServerResponse),
    running w0 → request_seq r = (sequence w0 + 1)%Z → success r = true →
    (∀ args : Tools.DefinitionArgs,
       let file := resolve (Tools.a_file args) in
       resolve file ∉ openFiles w0 →
       let e := answered r (getDefinition casts args w0) in
       e.2 = Done (Returned (Tools.getDefinition_result
                               (res_body r ≫= as_DefinitionInfos casts))) ∧
       round_trip file "definition"
         (Some (AnyArgs (position_args casts file (Tools.a_line args) (Tools.a_offset args))))
         (res_body r) w0 e.1) ∧
    (∀ args : Tools.HoverArgs,
       let file := resolve (Tools.a_file args) in
       resolve file ∉ openFiles w0 →
       let e := answered r (getHover casts args w0) in
       e.2 = Done (Returned (Tools.getHover_result <$> (res_body r ≫= as_QuickInfo casts))) ∧
       round_trip file "quickinfo"
         (Some (AnyArgs (position_args casts file (Tools.a_line args) (Tools.a_offset args))))
         (res_body r) w0 e.1) ∧
    (∀ args : Tools.ReferencesArgs,
       let file := Tools.a_file args in
       resolve file ∉ openFiles w0 →
       let e := answered r (getReferences casts args w0) in
       e.2 = Done (Returned (Tools.getReferences_result
                               (res_body r ≫= as_ReferencesResponseBody casts))) ∧
       round_trip file "references"
         (Some (AnyArgs (position_args casts file (Tools.a_line args) (Tools.a_offset args))))
         (res_body r) w0 e.1) ∧
    (∀ args : Tools.RenameArgs,
       let file := Tools.r_file args in
       resolve file ∉ openFiles w0 →
       let e := answered r (getRename casts args w0) in
       e.2 = Done (Returned (Tools.getRename_result (Tools.newName args)
                               (res_body r ≫= as_RenameResponseBody casts))) ∧
       round_trip file "rename"
         (Some (AnyArgs (position_args casts file (Tools.r_line args) (Tools.r_offset args))))
         (res_body r) w0 e.1) ∧
    (∀ file : string,
       resolve file ∉ openFiles w0 →
       let e := answered r (organizeImports casts file w0) in
       e.2 = Done (Returned (Tools.organizeImports_result (res_body r ≫= as_Changes casts))) ∧
       round_trip file "organizeImports" (Some (FileArgs file)) (res_body r) w0 e.1).
Proof.
  intros casts w0 r Hr Hseq Hs. split_ands.
  - intros args file Hn. rewrite getDefinition_with_file.
    now apply with_file_round_trip.
  - intros args file Hn. rewrite getHover_with_file.
    now apply with_file_round_trip.
  - intros args file Hn. rewrite getReferences_with_file.
    now apply with_file_round_trip.
  - intros args file Hn. rewrite getRename_with_file.
    now apply with_file_round_trip.
  - intros file Hn. rewrite organizeImports_with_file.
    now apply with_file_round_trip.
Qed.


Lemma failure_error_not_debug (m : option string) :
  includes (default "" m) "Debug Failure" = false →
  includes (error_message (failure_error m)) "Debug Failure" = false.
Proof.
  intros H. unfold failure_error, truthy. destruct m as [text|]; [|reflexivity].
  cbn in H. destruct (String.eqb text ""); [reflexivity|]. now rewrite H.
Qed.

Lemma handleMessage_failure (r : TSServerResponse) (w : World) (cid : nat) (c : Call) :
  map_get (request_seq r) (pendingRequests w) = Some cid →
  calls w !! cid = Some c → phase c = Awaiting (request_seq r) → success r = false →
  includes (default "" (message r)) "Debug Failure" = false →
  handleMessage (Response r) w =
  observe (Throw cid (failure_error (message r)))
    (set_call cid (set_phase (Finished (Rejected (failure_error (message r)))) c)
       (log Warn "TSServer request failed"
          (observe (Reject (request_seq r) cid (failure_error (message r)))
             (log ErrorLevel "TSServer request failed"
                (set_pendingRequests (map_delete (request_seq r) (pendingRequests w)) w))))).
Proof.
  intros Hm Hc Hp Hs Hd. unfold handleMessage. rewrite Hm, Hs. unfold invoke_reject.
  rewrite (settle_rejected_final cid (request_seq r) _ _ c); try assumption.
  - reflexivity.
  - left. now apply failure_error_not_debug.
Qed.

Lemma with_file_failed {R : Type} (file cmd : string) (a : option Arguments)
    (post : Outcome → Settled R) (w0 : World) (r : TSServerResponse) :
  running w0 → resolve file ∉ openFiles w0 →
  request_seq r = (sequence w0 + 1)%Z → success r = false →
  includes (default "" (message r)) "Debug Failure" = false →
  let e := answered r (with_file file cmd a post w0) in
  e.2 = Done (post (Rejected (failure_error (message r)))) ∧
  failed_trip file cmd a (failure_error (message r)) w0 e.1.
Proof.
  intros Hr Hn Hseq Hs Hd e. subst e. unfold answered.
  rewrite with_file_begin, openFile_fresh by assumption. cbn [fst snd].
  set (w1 := set_openFiles _ _).
  assert (running w1) as Hr1 by (now apply (running_same w0)).
  rewrite (request_running _ _ _ Hr1).
  change (sequence w1) with (sequence w0 + 1)%Z.
  change (calls w1) with (calls w0). change (pendingRequests w1) with (pendingRequests w0).
  set (cid := List.length (calls w0)).
  set (w2 := setTimeout _ _ _).
  rewrite (handleMessage_failure r w2 cid (waiting_call cmd a (sequence w0 + 1))); cycle 1.
  { rewrite Hseq. apply map_get_map_set. }
  { apply list_lookup_middle. reflexivity. }
  { now rewrite Hseq. }
  { assumption. }
  { assumption. }
  set (error := failure_error (message r)).
  set (w3 := observe (Throw _ _) _).
  rewrite (resume_finished cid _ w3 (set_phase (Finished (Rejected error))
                                       (waiting_call cmd a (sequence w0 + 1)))
             (Rejected error)); cycle 1.
  { subst w3 w2. cbn [calls observe log set_trace set_call set_calls setTimeout set_timers
                        set_pendingRequests].
    apply list_lookup_insert_eq. rewrite length_app. cbn. subst cid. lia. }
  { reflexivity. }
  rewrite finally_closeFile_open; cycle 1.
  { now apply (running_same w0). }
  { change (openFiles w3) with ({[resolve file]} ∪ openFiles w0).
    apply elem_of_union_l. now apply elem_of_singleton. }
  cbn [fst snd]. split; [reflexivity|]. unfold failed_trip.
  subst w3 w2 w1 cid. rewrite Hseq.
  split_ands.
  - cbn. rewrite <- !app_assoc. cbn.
    replace (sequence w0 + 1 + 1)%Z with (sequence w0 + 2)%Z by lia. reflexivity.
  - cbn. now apply add_remove.
  - cbn. lia.
  - reflexivity.
Qed.

(** X16.  When tsserver answers the request of a tool with a failure that the
    client does not retry, the tool still closes the file it opened, and the
    open-file set is as it was.  [getDefinition], [getReferences] and
    [getRename] are then rejected with the error the client built from the
    answer; [getHover] returns [null] and [organizeImports] returns
    [{ success: false }]: the error does not reach their callers. *)
Theorem X16_tool_after_failure :
  ∀ (casts : Casts) (w0 : World) (r : TSServerResponse),
    running w0 → request_seq r = (sequence w0 + 1)%Z → success r = false →
    includes (default "" (message r)) "Debug Failure" = false →
    let error := failure_error (message r) in
    (∀ args : Tools.DefinitionArgs,
       let file := resolve (Tools.a_file args) in
       resolve file ∉ openFiles w0 →
       let e := answered r (getDefinition casts args w0) in
       e.2 = Done (Thrown error) ∧
       failed_trip file "definition"
         (Some (AnyArgs (position_args casts file (Tools.a_line args) (Tools.a_offset args))))
         error w0 e.1) ∧
    (∀ args : Tools.HoverArgs,
       let file := resolve (Tools.a_file args) in
       resolve file ∉ openFiles w0 →
       let e := answered r (getHover casts args w0) in
       e.2 = Done (Returned None) ∧
       failed_trip file "quickinfo"
         (Some (AnyArgs (position_args casts file (Tools.a_line args) (Tools.a_offset args))))
         error w0 e.1) ∧
    (∀ args : Tools.ReferencesArgs,
       let file := Tools.a_file args in
       resolve file ∉ openFiles w0 →
       let e := answered r (getReferences casts args w0) in
       e.2 = Done (Thrown error) ∧
       failed_trip file "references"
         (Some (AnyArgs (position_args casts file (Tools.a_line args) (Tools.a_offset args))))
         error w0 e.1) ∧
    (∀ args : Tools.RenameArgs,
       let file := Tools.r_file args in
       resolve file ∉ openFiles w0 →
       let e := answered r (getRename casts args w0) in
       e.2 = Done (Thrown error) ∧
       failed_trip file "rename"
         (Some (AnyArgs (position_args casts file (Tools.r_line args) (Tools.r_offset args))))
         error w0 e.1) ∧
    (∀ file : string,
       resolve file ∉ openFiles w0 →
       let e := answered r (organizeImports casts file w0) in
       e.2 = Done (Returned {| Tools.success := false; Tools.o_changes := None |}) ∧
       failed_trip file "organizeImports" (Some (FileArgs file)) error w0 e.1).
Proof.
  intros casts w0 r Hr Hseq Hs Hd error. split_ands.
  - intros args file Hn. rewrite getDefinition_with_file.
    now apply with_file_failed.
  - intros args file Hn. rewrite getHover_with_file.
    now apply with_file_failed.
  - intros args file Hn. rewrite getReferences_with_file.
    now apply with_file_failed.
  - intros args file Hn. rewrite getRename_with_file.
    now apply with_file_failed.
  - intros file Hn. rewrite organizeImports_with_file.
    now apply with_file_failed.
Qed.


Lemma request_answered (cmd : string) (a : option Arguments) (w : World)
    (r : TSServerResponse) :
  running w → request_seq r = sequence w → success r = true →
  let w' := handleMessage (Response r) (request cmd a w) in
  let cid := List.length (calls w) in
  calls w' !! cid = Some (set_phase (Finished (Resolved (res_body r)))
                            (waiting_call cmd a (sequence w))) ∧
  List.length (calls w') = S cid ∧
  trace w' = trace w ++
    [(now w, Write {| req_seq := sequence w; req_command := cmd; req_arguments := a |});
     (now w, Resolve (sequence w) cid (res_body r));
     (now w, Return cid (res_body r))] ∧
  openFiles w' = openFiles w ∧
  sequence w' = (sequence w + 1)%Z ∧
  process w' = process w ∧
  now w' = now w.
Proof.
  intros Hr Hseq Hs w' cid. subst w'.
  rewrite (request_running _ _ _ Hr). fold cid.
  set (w2 := setTimeout _ _ _).
  rewrite (handleMessage_success r w2 cid (waiting_call cmd a (sequence w))); cycle 1.
  { rewrite Hseq. apply map_get_map_set. }
  { apply list_lookup_middle. reflexivity. }
  { now rewrite Hseq. }
  { assumption. }
  subst w2. rewrite Hseq.
  cbn [calls trace openFiles sequence process now observe log set_trace set_call set_calls
         setTimeout set_timers set_pendingRequests set_sequence].
  split_ands; try reflexivity.
  - apply list_lookup_insert_eq. rewrite length_app. cbn. subst cid. lia.
  - rewrite length_insert, length_app. cbn. subst cid. lia.
  - now rewrite <- !app_assoc.
Qed.

(** X15.  [getDiagnostics] makes its two requests in turn: the request for
    the semantic diagnostics is written when the answer to the request for
    the syntactic ones has arrived, and the file is closed after the second
    answer.  In all, four messages go to the child, with consecutive sequence
    numbers.  The result holds the two bodies, each as [or_empty] gives it:
    the empty array for a body that is missing or falsy. *)
Theorem X15_diagnostics_in_turn :
  ∀ (casts : Casts) (file : string) (w0 : World) (r1 r2 : TSServerResponse),
    running w0 → resolve file ∉ openFiles w0 →
    request_seq r1 = (sequence w0 + 1)%Z → success r1 = true →
    request_seq r2 = (sequence w0 + 2)%Z → success r2 = true →
    let b := getDiagnostics casts file w0 in
    let e1 := answered r1 b in
    let e2 := answered r2 e1 in
    let seq := sequence w0 in
    let cid := List.length (calls w0) in
    let a := Some (AnyArgs (diagnostics_args casts file)) in
    trace b.1 = trace w0 ++
      [(now w0, Write (open_notification seq file));
       (now w0, Write {| req_seq := seq + 1; req_command := "syntacticDiagnosticsSync";
                         req_arguments := a |})] ∧
    trace e1.1 = trace b.1 ++
      [(now w0, Resolve (seq + 1) cid (res_body r1));
       (now w0, Return cid (res_body r1));
       (now w0, Write {| req_seq := seq + 2; req_command := "semanticDiagnosticsSync";
                         req_arguments := a |})] ∧
    trace e2.1 = trace e1.1 ++
      [(now w0, Resolve (seq + 2) (S cid) (res_body r2));
       (now w0, Return (S cid) (res_body r2));
       (now w0, Write (close_notification (seq + 3) file))] ∧
    e2.2 = Done (Returned {| syntactic := or_empty casts (res_body r1);
                             semantic := or_empty casts (res_body r2) |}) ∧
    openFiles e2.1 = openFiles w0.
Proof.
  intros casts file w0 r1 r2 Hr Hn Hseq1 Hs1 Hseq2 Hs2 b e1 e2 seq cid a.
  subst e2 e1 b. unfold getDiagnostics. rewrite openFile_fresh by assumption.
  fold seq a. cbn [fst snd].
  set (w1 := set_openFiles _ _).
  assert (running w1) as Hr1 by (now apply (running_same w0)).
  change (calls w1) with (calls w0). fold cid.
  assert (request_seq r1 = sequence w1) as Hseq1' by exact Hseq1.
  pose proof (request_answered "syntacticDiagnosticsSync" a w1 r1 Hr1 Hseq1' Hs1) as H1.
  cbn zeta in H1. change (calls w1) with (calls w0) in H1. fold cid in H1.
  destruct H1 as (Hc1 & Hl1 & Ht1 & Ho1 & Hq1 & Hp1 & Hn1).
  unfold answered. cbn [fst snd].
  set (w2 := handleMessage (Response r1) _) in *.
  rewrite (resume_finished cid _ w2 _ _ Hc1 eq_refl). cbn [fst snd].
  assert (running w2) as Hr2 by (now apply (running_same w1)).
  rewrite Hl1.
  assert (request_seq r2 = sequence w2) as Hseq2'.
  { rewrite Hq1, Hseq2. change (sequence w1) with (seq + 1)%Z. lia. }
  pose proof (request_answered "semanticDiagnosticsSync" a w2 r2 Hr2 Hseq2' Hs2) as H2.
  cbn zeta in H2. rewrite Hl1 in H2.
  destruct H2 as (Hc2 & Hl2 & Ht2 & Ho2 & Hq2 & Hp2 & Hn2).
  set (w3 := request "semanticDiagnosticsSync" a w2) in *.
  set (w4 := handleMessage (Response r2) w3) in *.
  rewrite (resume_finished (S cid) _ w4 _ _ Hc2 eq_refl).
  rewrite finally_closeFile_open; cycle 1.
  { apply (running_same w2); [|assumption]. exact Hp2. }
  { rewrite Ho2, Ho1. change (openFiles w1) with ({[resolve file]} ∪ openFiles w0).
    apply elem_of_union_l. now apply elem_of_singleton. }
  cbn [fst snd].
  assert (trace w3 = trace w2 ++
            [(now w0, Write {| req_seq := seq + 2; req_command := "semanticDiagnosticsSync";
                               req_arguments := a |})]) as Ht3.
  { unfold w3. rewrite (request_running _ _ _ Hr2).
    cbn [trace now observe set_trace setTimeout set_timers set_calls set_pendingRequests
           set_sequence].
    rewrite Hn1, Hq1. change (now w1) with (now w0). change (sequence w1) with (seq + 1)%Z.
    replace (seq + 1 + 1)%Z with (seq + 2)%Z by lia. reflexivity. }
  split_ands.
  - unfold w1. rewrite (request_running _ _ _ Hr1). cbn. now rewrite <- !app_assoc.
  - rewrite Ht3, Ht1. rewrite <- !app_assoc.
    assert (trace (request "syntacticDiagnosticsSync" a w1) = trace w1 ++
              [(now w1, Write {| req_seq := sequence w1;
                                 req_command := "syntacticDiagnosticsSync";
                                 req_arguments := a |})]) as ->.
    { rewrite (request_running _ _ _ Hr1). reflexivity. }
    rewrite <- !app_assoc. reflexivity.
  - cbn [trace now observe set_trace set_openFiles set_sequence].
    rewrite Ht2, Ht3, Hq2, Hn2, Hn1, Hq1, <- !app_assoc.
    change (now w1) with (now w0). change (sequence w1) with (seq + 1)%Z.
    cbn. replace (seq + 1 + 1)%Z with (seq + 2)%Z by lia.
    replace (seq + 2 + 1)%Z with (seq + 3)%Z by lia. reflexivity.
  - reflexivity.
  - cbn [openFiles set_openFiles]. rewrite Ho2, Ho1.
    change (openFiles w1) with ({[resolve file]} ∪ openFiles w0). now apply add_remove.
Qed.


Lemma outputs_observe_inward (o : Obs) (w : World) :
  outward o = false → outputs (observe o w) = outputs w.
Proof.
  intros Ho. unfold outputs. cbn. rewrite List.filter_app. cbn. rewrite Ho.
  apply app_nil_r.
Qed.

Lemma with_file_not_running {R : Type} (file cmd : string) (a : option Arguments)
    (post : Outcome → Settled R) (w0 : World) :
  ¬ running w0 →
  let b := with_file file cmd a post w0 in
  let e := resume b.2 b.1 in
  e.2 = Done (Thrown not_started) ∧ outputs e.1 = outputs w0 ∧
  openFiles e.1 = openFiles w0 ∧ sequence e.1 = sequence w0.
Proof.
  intros Hr b e. subst e b. unfold with_file.
  destruct (decide (resolve file ∈ openFiles w0)) as [Hin|Hn].
  - rewrite openFile_reopened by assumption. rewrite request_not_running by assumption.
    cbn [fst snd].
    set (w1 := observe _ _).
    rewrite (resume_finished _ _ w1 (set_phase (Finished (Rejected not_started))
                                        (waiting_call cmd a 0))
               (Rejected not_started)); cycle 1.
    { unfold w1. cbn [calls observe set_trace set_calls]. apply list_lookup_middle.
      reflexivity. }
    { reflexivity. }
    rewrite finally_closeFile_not_running; cycle 1.
    { intros (p & Hp & Hs). apply Hr. now exists p. }
    { exact Hin. }
    cbn [fst snd]. split_ands; try reflexivity.
    unfold w1. now rewrite outputs_observe_inward.
  - rewrite openFile_not_running by assumption. cbn. now split_ands.
Qed.

Lemma with_file_lost {R : Type} (file cmd : string) (a : option Arguments)
    (post : Outcome → Settled R) (w0 w : World) (cid : nat)
    (k : Outcome → World → World * Tool R) (c : Call) (o : Outcome) :
  (with_file file cmd a post w0).2 = Await cid k →
  calls w !! cid = Some c → phase c = Finished o →
  ¬ running w → resolve file ∈ openFiles w →
  resume (Await cid k) w = (w, Done (Thrown not_started)).
Proof.
  intros Hb Hc Hp Hr Hin. unfold with_file in Hb.
  destruct (awaited (openFile file w0)) as [w1 [e|]]; [discriminate|].
  cbn in Hb. injection Hb as _ <-.
  rewrite (resume_finished _ _ _ _ _ Hc Hp).
  now apply finally_closeFile_not_running.
Qed.

Lemma getDiagnostics_not_running (casts : Casts) (file : string) (w0 : World) :
  ¬ running w0 →
  let b := getDiagnostics casts file w0 in
  let e := resume b.2 b.1 in
  e.2 = Done (Thrown not_started) ∧ outputs e.1 = outputs w0 ∧
  openFiles e.1 = openFiles w0 ∧ sequence e.1 = sequence w0.
Proof.
  intros Hr b e. subst e b. unfold getDiagnostics.
  destruct (decide (resolve file ∈ openFiles w0)) as [Hin|Hn].
  - rewrite openFile_reopened by assumption. rewrite request_not_running by assumption.
    cbn [fst snd].
    set (w1 := observe _ _).
    rewrite (resume_finished _ _ w1
               (set_phase (Finished (Rejected not_started))
                  (waiting_call "syntacticDiagnosticsSync"
                     (Some (AnyArgs (diagnostics_args casts file))) 0))
               (Rejected not_started)); cycle 1.
    { unfold w1. cbn [calls observe set_trace set_calls]. apply list_lookup_middle.
      reflexivity. }
    { reflexivity. }
    rewrite finally_closeFile_not_running; cycle 1.
    { intros (p & Hp & Hs). apply Hr. now exists p. }
    { exact Hin. }
    cbn [fst snd]. split_ands; try reflexivity.
    unfold w1. now rewrite outputs_observe_inward.
  - rewrite openFile_not_running by assumption. cbn. now split_ands.
Qed.

(** X17.  Of a client that has no child to write to, every tool is rejected
    with 'TSServer not started', and nothing is written.  This is so when the
    tool is called, whether or not the file is in the open-file set; and it
    is so when a tool that is suspended at its request resumes while the file
    is still in the set: the error of [closeFile] in the [finally] block
    replaces what the [try] block has ended with, be it the result computed
    from an answer, the error of the request, or the value that [getHover]
    and [organizeImports] return from their [catch] blocks. *)
Theorem X17_not_started_wins :
  ∀ (casts : Casts),
    (∀ (w0 : World), ¬ running w0 →
       let ended {R : Type} (b : World * Tool R) :=
         (resume b.2 b.1).2 = Done (Thrown not_started) ∧
         outputs (resume b.2 b.1).1 = outputs w0 ∧
         openFiles (resume b.2 b.1).1 = openFiles w0 ∧
         sequence (resume b.2 b.1).1 = sequence w0 in
       (∀ args, ended (getDefinition casts args w0)) ∧
       (∀ args, ended (getHover casts args w0)) ∧
       (∀ args, ended (getReferences casts args w0)) ∧
       (∀ args, ended (getRename casts args w0)) ∧
       (∀ file, ended (organizeImports casts file w0)) ∧
       (∀ file, ended (getDiagnostics casts file w0))) ∧
    (∀ (w : World) (cid : nat) (c : Call) (o : Outcome),
       ¬ running w → calls w !! cid = Some c → phase c = Finished o →
       let lost {R : Type} (file : string) (t : Tool R) :=
         ∀ k, t = Await cid k → resolve file ∈ openFiles w →
              resume t w = (w, Done (Thrown not_started)) in
       (∀ args w0, lost (resolve (Tools.a_file args)) (getDefinition casts args w0).2) ∧
       (∀ args w0, lost (resolve (Tools.a_file args)) (getHover casts args w0).2) ∧
       (∀ args w0, lost (Tools.a_file args) (getReferences casts args w0).2) ∧
       (∀ args w0, lost (Tools.r_file args) (getRename casts args w0).2) ∧
       (∀ file w0, lost file (organizeImports casts file w0).2)).
Proof.
  intros casts. split.
  - intros w0 Hr ended. subst ended. cbn beta. split_ands.
    + intros args. rewrite getDefinition_with_file. now apply with_file_not_running.
    + intros args. rewrite getHover_with_file. now apply with_file_not_running.
    + intros args. rewrite getReferences_with_file. now apply with_file_not_running.
    + intros args. rewrite getRename_with_file. now apply with_file_not_running.
    + intros file. rewrite organizeImports_with_file. now apply with_file_not_running.
    + intros file. now apply getDiagnostics_not_running.
  - intros w cid c o Hr Hc Hp lost. subst lost. cbn beta. split_ands.
    + intros args w0 k Hk Hin. rewrite Hk. rewrite getDefinition_with_file in Hk.
      now apply (with_file_lost _ _ _ _ _ _ _ _ _ _ Hk Hc Hp).
    + intros args w0 k Hk Hin. rewrite Hk. rewrite getHover_with_file in Hk.
      now apply (with_file_lost _ _ _ _ _ _ _ _ _ _ Hk Hc Hp).
    + intros args w0 k Hk Hin. rewrite Hk. rewrite getReferences_with_file in Hk.
      now apply (with_file_lost _ _ _ _ _ _ _ _ _ _ Hk Hc Hp).
    + intros args w0 k Hk Hin. rewrite Hk. rewrite getRename_with_file in Hk.
      now apply (with_file_lost _ _ _ _ _ _ _ _ _ _ Hk Hc Hp).
    + intros file w0 k Hk Hin. rewrite Hk. rewrite organizeImports_with_file in Hk.
      now apply (with_file_lost _ _ _ _ _ _ _ _ _ _ Hk Hc Hp).
Qed.


Lemma request_spec (cmd : string) (a : option Arguments) (w : World) :
  running w →
  let w' := request cmd a w in
  calls w' = calls w ++ [waiting_call cmd a (sequence w)] ∧
  pendingRequests w' = map_set (sequence w) (List.length (calls w)) (pendingRequests w) ∧
  trace w' = trace w ++
    [(now w, Write {| req_seq := sequence w; req_command := cmd; req_arguments := a |})] ∧
  openFiles w' = openFiles w ∧
  sequence w' = (sequence w + 1)%Z ∧
  process w' = process w ∧
  now w' = now w.
Proof.
  intros Hr w'. subst w'. rewrite (request_running _ _ _ Hr). now split_ands.
Qed.

Lemma handleMessage_success_spec (r : TSServerResponse) (w : World) (cid : nat) (c : Call) :
  map_get (request_seq r) (pendingRequests w) = Some cid →
  calls w !! cid = Some c → phase c = Awaiting (request_seq r) → success r = true →
  let w' := handleMessage (Response r) w in
  calls w' = <[cid := set_phase (Finished (Resolved (res_body r))) c]> (calls w) ∧
  pendingRequests w' = map_delete (request_seq r) (pendingRequests w) ∧
  trace w' = trace w ++
    [(now w, Resolve (request_seq r) cid (res_body r)); (now w, Return cid (res_body r))] ∧
  openFiles w' = openFiles w ∧
  sequence w' = sequence w ∧
  process w' = process w ∧
  now w' = now w.
Proof.
  intros Hm Hc Hp Hs w'. subst w'. rewrite (handleMessage_success r w cid c) by assumption.
  cbn [calls pendingRequests trace openFiles sequence process now observe set_trace set_call
         set_calls set_pendingRequests].
  split_ands; try reflexivity. now rewrite <- app_assoc.
Qed.

Lemma finally_closeFile_open_spec {R : Type} (file : string) (r : Settled R) (w : World) :
  running w → resolve file ∈ openFiles w →
  ∃ w', finally_closeFile file r w = (w', Done r) ∧
        calls w' = calls w ∧
        pendingRequests w' = pendingRequests w ∧
        trace w' = trace w ++ [(now w, Write (close_notification (sequence w) file))] ∧
        openFiles w' = openFiles w ∖ {[resolve file]} ∧
        sequence w' = (sequence w + 1)%Z ∧
        process w' = process w ∧
        now w' = now w.
Proof.
  intros Hr Hin. eexists. split; [now apply finally_closeFile_open|]. now split_ands.
Qed.

Lemma openFile_fresh_spec (file : string) (w : World) :
  running w → resolve file ∉ openFiles w →
  ∃ w', awaited (openFile file w) = (w', None) ∧
        calls w' = calls w ∧
        pendingRequests w' = pendingRequests w ∧
        trace w' = trace w ++ [(now w, Write (open_notification (sequence w) file))] ∧
        openFiles w' = {[resolve file]} ∪ openFiles w ∧
        sequence w' = (sequence w + 1)%Z ∧
        process w' = process w ∧
        now w' = now w.
Proof.
  intros Hr Hn. eexists. split; [now apply openFile_fresh|]. now split_ands.
Qed.

Lemma with_file_overlap {R1 R2 : Type} (file1 file2 cmd1 cmd2 : string)
    (a1 a2 : option Arguments) (post1 : Outcome → Settled R1) (post2 : Outcome → Settled R2)
    (w0 : World) (r1 r2 : TSServerResponse) :
  running w0 → resolve file1 = resolve file2 → resolve file1 ∉ openFiles w0 →
  request_seq r1 = (sequence w0 + 1)%Z → success r1 = true →
  request_seq r2 = (sequence w0 + 2)%Z → success r2 = true →
  let seq := sequence w0 in
  let cid := List.length (calls w0) in
  let b1 := with_file file1 cmd1 a1 post1 w0 in
  let b2 := with_file file2 cmd2 a2 post2 b1.1 in
  let e1 := resume b1.2 (handleMessage (Response r1) b2.1) in
  let e2 := resume b2.2 (handleMessage (Response r2) e1.1) in
  let both := handleMessage (Response r2) (handleMessage (Response r1) b2.1) in
  let c1 := closeFile file1 both in
  let c2 := closeFile file2 c1.1 in
  trace b2.1 = trace w0 ++
    [(now w0, Write (open_notification seq file1));
     (now w0, Write {| req_seq := seq + 1; req_command := cmd1; req_arguments := a1 |});
     (now w0, Write {| req_seq := seq + 2; req_command := cmd2; req_arguments := a2 |})] ∧
  e1.2 = Done (post1 (Resolved (res_body r1))) ∧
  trace e1.1 = trace b2.1 ++
    [(now w0, Resolve (seq + 1) cid (res_body r1));
     (now w0, Return cid (res_body r1));
     (now w0, Write (close_notification (seq + 3) file1))] ∧
  (resolve file2 ∉ openFiles e1.1) ∧
  calls e1.1 !! S cid = Some (waiting_call cmd2 a2 (seq + 2)) ∧
  map_get (seq + 2) (pendingRequests e1.1) = Some (S cid) ∧
  e2.2 = Done (post2 (Resolved (res_body r2))) ∧
  trace e2.1 = trace e1.1 ++
    [(now w0, Resolve (seq + 2) (S cid) (res_body r2));
     (now w0, Return (S cid) (res_body r2))] ∧
  c1.2 = Some (suspended_at CloseFile file1) ∧
  c2.2 = Some (suspended_at CloseFile file2) ∧
  trace c2.1 = trace both ++
    [(now w0, Write (close_notification (seq + 3) file1));
     (now w0, Write (close_notification (seq + 4) file2))].
Proof.
  intros Hr Heq Hn Hseq1 Hs1 Hseq2 Hs2 seq cid b1 b2 e1 e2 both c1 c2.
  assert (Hne : (seq + 1)%Z ≠ (seq + 2)%Z) by lia.
  destruct (openFile_fresh_spec file1 w0 Hr Hn)
    as (w1 & Ho & Hc1 & Hm1 & Ht1 & Hf1 & Hq1 & Hp1 & Hn1).
  assert (running w1) as Hr1 by (now apply (running_same w0)).
  destruct (request_spec cmd1 a1 w1 Hr1) as (Hc2 & Hm2 & Ht2 & Hf2 & Hq2 & Hp2 & Hn2).
  remember (request cmd1 a1 w1) as w2 eqn:E2.
  assert (b1 = (w2, Await cid (λ o w, finally_closeFile file1 (post1 o) w))) as Hb1.
  { unfold b1, with_file. rewrite Ho, E2, Hc1. reflexivity. }
  clear E2.
  assert (running w2) as Hr2 by (apply (running_same w1); [exact Hp2 | exact Hr1]).
  rewrite Hc1, Hq1 in Hc2. rewrite Hc1, Hq1, Hm1 in Hm2. rewrite Ht1, Hn1, Hq1 in Ht2.
  rewrite Hf1 in Hf2. rewrite Hq1 in Hq2. rewrite Hn1 in Hn2. rewrite Hp1 in Hp2.
  fold seq cid in Hc2, Hm2, Ht2, Hq2.
  assert (List.length (calls w2) = S cid) as Hl2.
  { rewrite Hc2, length_app. cbn. subst cid. lia. }
  destruct (request_spec cmd2 a2 w2 Hr2) as (Hc3 & Hm3 & Ht3 & Hf3 & Hq3 & Hp3 & Hn3).
  remember (request cmd2 a2 w2) as w3 eqn:E3.
  assert (b2 = (w3, Await (S cid) (λ o w, finally_closeFile file2 (post2 o) w))) as Hb2.
  { unfold b2. rewrite Hb1. cbn [fst snd]. unfold with_file.
    rewrite openFile_reopened; cycle 1.
    { rewrite Hf2, <- Heq. apply elem_of_union_l. now apply elem_of_singleton. }
    now rewrite E3, Hl2. }
  clear E3.
  rewrite Hl2, Hq2, Hm2 in Hm3. rewrite Hq2, Hc2 in Hc3. rewrite Ht2, Hn2, Hq2 in Ht3.
  rewrite Hf2 in Hf3. rewrite Hq2 in Hq3. rewrite Hn2 in Hn3. rewrite Hp2 in Hp3.
  replace (seq + 1 + 1)%Z with (seq + 2)%Z in * by lia.
  assert (running w3) as Hr3 by (apply (running_same w0); [exact Hp3 | exact Hr]).
  assert (calls w3 !! cid = Some (waiting_call cmd1 a1 (seq + 1))) as Hl3.
  { rewrite Hc3. rewrite lookup_app_l by (rewrite length_app; cbn; lia).
    apply list_lookup_middle. reflexivity. }
  destruct (handleMessage_success_spec r1 w3 cid (waiting_call cmd1 a1 (seq + 1)))
    as (Hc4 & Hm4 & Ht4 & Hf4 & Hq4 & Hp4 & Hn4); try assumption.
  { rewrite Hseq1. fold seq. rewrite Hm3.
    rewrite map_get_map_set_ne by assumption. apply map_get_map_set. }
  { now rewrite Hseq1. }
  remember (handleMessage (Response r1) w3) as w4 eqn:E4.
  rewrite Hseq1 in Hm4, Ht4. fold seq in Hm4, Ht4.
  assert (running w4) as Hr4 by (apply (running_same w3); [exact Hp4 | exact Hr3]).
  assert (resolve file1 ∈ openFiles w4) as Hin4.
  { rewrite Hf4, Hf3. apply elem_of_union_l. now apply elem_of_singleton. }
  destruct (finally_closeFile_open_spec file1 (post1 (Resolved (res_body r1))) w4 Hr4 Hin4)
    as (w5 & Hfin & Hc5 & Hm5 & Ht5 & Hf5 & Hq5 & Hp5 & Hn5).
  assert (e1 = (w5, Done (post1 (Resolved (res_body r1))))) as He1.
  { unfold e1. rewrite Hb1, Hb2. cbn [fst snd]. rewrite <- E4.
    rewrite (resume_finished cid _ w4 (set_phase (Finished (Resolved (res_body r1)))
                                         (waiting_call cmd1 a1 (seq + 1)))
               (Resolved (res_body r1))); [exact Hfin| |reflexivity].
    rewrite Hc4. apply list_lookup_insert_eq. now apply lookup_lt_Some in Hl3. }
  clear E4.
  assert (openFiles w5 = openFiles w0) as Ho5.
  { rewrite Hf5, Hf4, Hf3. now apply add_remove. }
  assert (calls w5 !! S cid = Some (waiting_call cmd2 a2 (seq + 2))) as Hl5.
  { rewrite Hc5, Hc4, Hc3. rewrite list_lookup_insert_ne by lia.
    rewrite <- Hl2, Hc2. apply list_lookup_middle. now rewrite <- Hc2. }
  assert (map_get (seq + 2) (pendingRequests w5) = Some (S cid)) as Hg5.
  { rewrite Hm5, Hm4, Hm3. rewrite map_get_map_delete_ne by (intros H; now apply Hne).
    apply map_get_map_set. }
  destruct (handleMessage_success_spec r2 w5 (S cid) (waiting_call cmd2 a2 (seq + 2)))
    as (Hc6 & Hm6 & Ht6 & Hf6 & Hq6 & Hp6 & Hn6); try assumption.
  { now rewrite Hseq2. }
  { now rewrite Hseq2. }
  remember (handleMessage (Response r2) w5) as w6 eqn:E6.
  rewrite Hseq2 in Ht6. fold seq in Ht6.
  assert (e2 = (w6, Done (post2 (Resolved (res_body r2))))) as He2.
  { unfold e2. rewrite Hb2, He1. cbn [fst snd]. rewrite <- E6.
    rewrite (resume_finished (S cid) _ w6 (set_phase (Finished (Resolved (res_body r2)))
                                             (waiting_call cmd2 a2 (seq + 2)))
               (Resolved (res_body r2))); cycle 1.
    { rewrite Hc6. apply list_lookup_insert_eq. now apply lookup_lt_Some in Hl5. }
    { reflexivity. }
    apply finally_closeFile_closed. rewrite Hf6, Ho5, <- Heq. exact Hn. }
  clear E6.
  assert (c1.2 = Some (suspended_at CloseFile file1) ∧
          c2.2 = Some (suspended_at CloseFile file2) ∧
          trace c2.1 = trace both ++
            [(now w0, Write (close_notification (seq + 3) file1));
             (now w0, Write (close_notification (seq + 4) file2))]) as Hboth.
  { subst c2 c1 both. rewrite Hb2. cbn [fst snd].
    pose proof (inward_trans _ _ _ (inward_handleMessage (Response r1) w3)
                  (inward_handleMessage (Response r2) (handleMessage (Response r1) w3)))
      as [Ip Iq If _ In _ _ _ _].
    remember (handleMessage (Response r2) (handleMessage (Response r1) w3)) as wm eqn:E;
      clear E.
    assert (running wm) as Hrm by (apply (running_same w3); [exact Ip | exact Hr3]).
    assert (resolve file1 ∈ openFiles wm) as Hinm.
    { rewrite If, Hf3. apply elem_of_union_l. now apply elem_of_singleton. }
    rewrite (closeFile_begun file1 wm Hrm Hinm). cbn [fst snd].
    rewrite (closeFile_begun file2 (notified "close" file1 wm));
      [|now apply (running_same wm) | now rewrite <- Heq].
    cbn [fst snd]. split; [reflexivity|]. split; [reflexivity|].
    unfold notified, close_notification. cbn [trace now sequence observe set_trace set_sequence].
    rewrite In, Iq, Hn3, Hq3, <- app_assoc.
    replace (seq + 2 + 1)%Z with (seq + 3)%Z by lia.
    replace (seq + 3 + 1)%Z with (seq + 4)%Z by lia. reflexivity. }
  clearbody both c1 c2.
  rewrite He2, He1, Hb2. cbn [fst snd].
  split_ands; try apply Hboth.
  - rewrite Ht3, <- !app_assoc. reflexivity.
  - reflexivity.
  - rewrite Ht5, Ht4, Hn4, Hn3, Hq4, Hq3.
    replace (seq + 2 + 1)%Z with (seq + 3)%Z by lia. now rewrite <- app_assoc.
  - rewrite Ho5, <- Heq. exact Hn.
  - exact Hl5.
  - exact Hg5.
  - reflexivity.
  - rewrite Ht6, Hn5, Hn4, Hn3. reflexivity.
Qed.

(** X18.  Two tools at work on one file, each call of [openFile] and
    [closeFile] having run to its end before the next event.  [getHover],
    called for a file while [getDefinition] is suspended at its request for
    the same file, sends no 'open' notification.  When the answer to
    [getDefinition] is handled, and that to [getHover] in a later turn of
    the event loop, [getDefinition] closes the file although the request of
    [getHover] is still pending: that request is answered for a file the
    client has told tsserver to close, and [getHover] then finds nothing to
    close; one 'open' and one 'close' have been written.  When both answers
    are handled before either tool goes on, each tool comes to [closeFile]
    with the path still in the set: the two calls, one after the other,
    write two 'close' notifications. *)
Theorem X18_overlapping_tools_share_one_open :
  ∀ (casts : Casts) (args1 : Tools.DefinitionArgs) (args2 : Tools.HoverArgs)
    (w0 : World) (r1 r2 : TSServerResponse),
    let file1 := resolve (Tools.a_file args1) in
    let file2 := resolve (Tools.a_file args2) in
    let seq := sequence w0 in
    let cid := List.length (calls w0) in
    let a1 := Some (AnyArgs (position_args casts file1 (Tools.a_line args1)
                               (Tools.a_offset args1))) in
    let a2 := Some (AnyArgs (position_args casts file2 (Tools.a_line args2)
                               (Tools.a_offset args2))) in
    running w0 → resolve file1 = resolve file2 → resolve file1 ∉ openFiles w0 →
    request_seq r1 = (seq + 1)%Z → success r1 = true →
    request_seq r2 = (seq + 2)%Z → success r2 = true →
    let b1 := getDefinition casts args1 w0 in
    let b2 := getHover casts args2 b1.1 in
    let e1 := resume b1.2 (handleMessage (Response r1) b2.1) in
    let e2 := resume b2.2 (handleMessage (Response r2) e1.1) in
    let both := handleMessage (Response r2) (handleMessage (Response r1) b2.1) in
    let c1 := closeFile file1 both in
    let c2 := closeFile file2 c1.1 in
    trace b2.1 = trace w0 ++
      [(now w0, Write (open_notification seq file1));
       (now w0, Write {| req_seq := seq + 1; req_command := "definition";
                         req_arguments := a1 |});
       (now w0, Write {| req_seq := seq + 2; req_command := "quickinfo";
                         req_arguments := a2 |})] ∧
    e1.2 = Done (Returned (Tools.getDefinition_result
                             (res_body r1 ≫= as_DefinitionInfos casts))) ∧
    trace e1.1 = trace b2.1 ++
      [(now w0, Resolve (seq + 1) cid (res_body r1));
       (now w0, Return cid (res_body r1));
       (now w0, Write (close_notification (seq + 3) file1))] ∧
    (resolve file2 ∉ openFiles e1.1) ∧
    calls e1.1 !! S cid = Some (waiting_call "quickinfo" a2 (seq + 2)) ∧
    map_get (seq + 2) (pendingRequests e1.1) = Some (S cid) ∧
    e2.2 = Done (Returned (Tools.getHover_result <$> (res_body r2 ≫= as_QuickInfo casts))) ∧
    trace e2.1 = trace e1.1 ++
      [(now w0, Resolve (seq + 2) (S cid) (res_body r2));
       (now w0, Return (S cid) (res_body r2))] ∧
    c1.2 = Some (suspended_at CloseFile file1) ∧
    c2.2 = Some (suspended_at CloseFile file2) ∧
    trace c2.1 = trace both ++
      [(now w0, Write (close_notification (seq + 3) file1));
       (now w0, Write (close_notification (seq + 4) file2))].
Proof.
  intros casts args1 args2 w0 r1 r2 file1 file2 seq cid a1 a2
    Hr Heq Hn Hseq1 Hs1 Hseq2 Hs2 b1 b2 e1 e2 both c1 c2.
  subst c2 c1 both e2 e1 b2 b1. rewrite getDefinition_with_file. rewrite getHover_with_file.
  now apply (with_file_overlap file1 file2 "definition" "quickinfo" a1 a2).
Qed.


(** ** What the caller of a tool is told *)

Lemma never_throws_and_then {R S : Type} (f : Settled R → Settled S) :
  (∀ r, ∃ s, f r = Returned s) → ∀ t : Tool R, never_throws (and_then f t).
Proof.
  intros Hf. fix IH 1. intros [r|cid k]; cbn [and_then].
  - destruct (Hf r) as [s ->]. constructor.
  - constructor. intros o w. destruct (k o w) as [w' t']. cbn [snd]. apply IH.
Qed.

Lemma never_throws_reply {R : Type} (text : R → string) (b : World * Tool R) :
  never_throws (reply text b).2.
Proof.
  unfold reply. cbn [snd]. apply never_throws_and_then. intros r. eauto.
Qed.

Lemma resume_and_then {R S : Type} (f : Settled R → Settled S) (t : Tool R) (w : World) :
  resume (and_then f t) w = ((resume t w).1, and_then f (resume t w).2).
Proof.
  destruct t as [r|cid k]; [reflexivity|]. cbn [and_then]. unfold resume.
  destruct (phase <$> calls w !! cid) as [[| | |o]|]; try reflexivity.
  now destruct (k o w).
Qed.

(** X20.  Once it has arguments, the handler of 'tools/call' is never
    rejected: whatever the name of the tool, and however the calls of
    [request] that the tool awaits end, the handler returns a result, the
    errors of the tool caught and turned into text.  Without arguments it is
    rejected before it looks at the name. *)
Theorem X20_handler_never_rejects :
  ∀ (casts : Casts) (wire : Wire) (name : string) (w : World),
    (∀ args, never_throws (callTool casts wire name (Some args) w).2) ∧
    callTool casts wire name None w
    = (w, Done (Thrown {| error_message := "Arguments are required" |})).
Proof.
  intros casts wire name w. split; [|reflexivity].
  intros args. unfold callTool.
  repeat (destruct (String.eqb name _); [apply never_throws_reply|]).
  cbn [snd]. constructor.
Qed.


Lemma answered_reply {R : Type} (text : R → string) (r : TSServerResponse)
    (b : World * Tool R) :
  answered r (reply text b) =
  ((answered r b).1,
   and_then (λ r, Returned match r with
                           | Returned result => text_result (text result)
                           | Thrown error => error_result error
                           end) (answered r b).2).
Proof. unfold answered, reply. cbn [fst snd]. apply resume_and_then. Qed.

Lemma getDiagnostics_failed (casts : Casts) (file : string) (w0 : World)
    (r : TSServerResponse) :
  running w0 → resolve file ∉ openFiles w0 →
  request_seq r = (sequence w0 + 1)%Z → success r = false →
  includes (default "" (message r)) "Debug Failure" = false →
  let e := answered r (getDiagnostics casts file w0) in
  e.2 = Done (Thrown (failure_error (message r))) ∧
  failed_trip file "syntacticDiagnosticsSync" (Some (AnyArgs (diagnostics_args casts file)))
    (failure_error (message r)) w0 e.1.
Proof.
  intros Hr Hn Hseq Hs Hd e. subst e. unfold answered, getDiagnostics.
  rewrite openFile_fresh by assumption. cbn [fst snd].
  set (a := Some (AnyArgs (diagnostics_args casts file))).
  set (w1 := set_openFiles _ _).
  assert (running w1) as Hr1 by (now apply (running_same w0)).
  rewrite (request_running _ _ _ Hr1).
  change (sequence w1) with (sequence w0 + 1)%Z.
  change (calls w1) with (calls w0). change (pendingRequests w1) with (pendingRequests w0).
  set (cid := List.length (calls w0)).
  set (w2 := setTimeout _ _ _).
  rewrite (handleMessage_failure r w2 cid
             (waiting_call "syntacticDiagnosticsSync" a (sequence w0 + 1))); cycle 1.
  { rewrite Hseq. apply map_get_map_set. }
  { apply list_lookup_middle. reflexivity. }
  { now rewrite Hseq. }
  { assumption. }
  { assumption. }
  set (error := failure_error (message r)).
  set (w3 := observe (Throw _ _) _).
  rewrite (resume_finished cid _ w3
             (set_phase (Finished (Rejected error))
                (waiting_call "syntacticDiagnosticsSync" a (sequence w0 + 1)))
             (Rejected error)); cycle 1.
  { subst w3 w2. cbn [calls observe log set_trace set_call set_calls setTimeout set_timers
                        set_pendingRequests].
    apply list_lookup_insert_eq. rewrite length_app. cbn. subst cid. lia. }
  { reflexivity. }
  rewrite finally_closeFile_open; cycle 1.
  { now apply (running_same w0). }
  { change (openFiles w3) with ({[resolve file]} ∪ openFiles w0).
    apply elem_of_union_l. now apply elem_of_singleton. }
  cbn [fst snd]. split; [reflexivity|]. unfold failed_trip.
  subst w3 w2 w1 cid. rewrite Hseq.
  split_ands.
  - cbn. rewrite <- !app_assoc. cbn.
    replace (sequence w0 + 1 + 1)%Z with (sequence w0 + 2)%Z by lia. reflexivity.
  - cbn. now apply add_remove.
  - cbn. lia.
  - reflexivity.
Qed.

(** X21.  What the caller of a tool sees when tsserver answers the request
    with a failure that is not retried.  For 'ts_definition', 'ts_references',
    'ts_rename' and 'ts_diagnostics' the result is an error whose text is
    'Error: ' and the message of the error the client built.  For 'ts_hover'
    it is the text 'No hover information available', and for
    'ts_organize_imports' the text of [{ success: false }], neither marked as
    an error.  [getDiagnostics] does not make its second request. *)
Theorem X21_handler_reports_failure :
  ∀ (casts : Casts) (wire : Wire) (w0 : World) (r : TSServerResponse) (args : any),
    running w0 → request_seq r = (sequence w0 + 1)%Z → success r = false →
    includes (default "" (message r)) "Debug Failure" = false →
    let error := failure_error (message r) in
    let ended (name : string) := (answered r (callTool casts wire name (Some args) w0)).2 in
    (resolve (resolve (Tools.a_file (as_DefinitionArgs wire args))) ∉ openFiles w0 →
     ended "ts_definition" = Done (Returned (error_result error)) ∧
     ended "ts_hover" = Done (Returned (text_result "No hover information available"))) ∧
    (resolve (Tools.a_file (as_DefinitionArgs wire args)) ∉ openFiles w0 →
     ended "ts_references" = Done (Returned (error_result error))) ∧
    (resolve (Tools.r_file (as_RenameArgs wire args)) ∉ openFiles w0 →
     ended "ts_rename" = Done (Returned (error_result error))) ∧
    (resolve (as_FileArgs wire args) ∉ openFiles w0 →
     ended "ts_organize_imports"
     = Done (Returned (text_result (show_OrganizeImportsResult wire
                                      {| Tools.success := false; Tools.o_changes := None |}))) ∧
     ended "ts_diagnostics" = Done (Returned (error_result error)) ∧
     failed_trip (as_FileArgs wire args) "syntacticDiagnosticsSync"
       (Some (AnyArgs (diagnostics_args casts (as_FileArgs wire args)))) error w0
       (answered r (callTool casts wire "ts_diagnostics" (Some args) w0)).1).
Proof.
  intros casts wire w0 r args Hr Hseq Hs Hd error ended. subst ended. cbn beta.
  unfold callTool. cbn [String.eqb Ascii.eqb Bool.eqb].
  rewrite !answered_reply. cbn [fst snd].
  split_ands.
  - intros Hn. rewrite getDefinition_with_file.
    destruct (with_file_failed _ "definition"
                (Some (AnyArgs (position_args casts
                                  (resolve (Tools.a_file (as_DefinitionArgs wire args)))
                                  (Tools.a_line (as_DefinitionArgs wire args))
                                  (Tools.a_offset (as_DefinitionArgs wire args)))))
                (λ o, match o with
                      | Resolved response =>
                          Returned (Tools.getDefinition_result
                                      (response ≫= as_DefinitionInfos casts))
                      | Rejected e => Thrown e
                      end) w0 r Hr Hn Hseq Hs Hd) as [-> _].
    rewrite getHover_with_file.
    destruct (with_file_failed _ "quickinfo"
                (Some (AnyArgs (position_args casts
                                  (resolve (Tools.a_file (as_DefinitionArgs wire args)))
                                  (Tools.a_line (as_DefinitionArgs wire args))
                                  (Tools.a_offset (as_DefinitionArgs wire args)))))
                (λ o, match o with
                      | Resolved response =>
                          Returned (Tools.getHover_result <$> (response ≫= as_QuickInfo casts))
                      | Rejected _ => Returned None
                      end) w0 r Hr Hn Hseq Hs Hd) as [-> _].
    split; reflexivity.
  - intros Hn. rewrite getReferences_with_file.
    destruct (with_file_failed _ "references"
                (Some (AnyArgs (position_args casts
                                  (Tools.a_file (as_DefinitionArgs wire args))
                                  (Tools.a_line (as_DefinitionArgs wire args))
                                  (Tools.a_offset (as_DefinitionArgs wire args)))))
                (λ o, match o with
                      | Resolved response =>
                          Returned (Tools.getReferences_result
                                      (response ≫= as_ReferencesResponseBody casts))
                      | Rejected e => Thrown e
                      end) w0 r Hr Hn Hseq Hs Hd) as [-> _].
    reflexivity.
  - intros Hn. rewrite getRename_with_file.
    destruct (with_file_failed _ "rename"
                (Some (AnyArgs (position_args casts
                                  (Tools.r_file (as_RenameArgs wire args))
                                  (Tools.r_line (as_RenameArgs wire args))
                                  (Tools.r_offset (as_RenameArgs wire args)))))
                (λ o, match o with
                      | Resolved response =>
                          Returned (Tools.getRename_result
                                      (Tools.newName (as_RenameArgs wire args))
                                      (response ≫= as_RenameResponseBody casts))
                      | Rejected e => Thrown e
                      end) w0 r Hr Hn Hseq Hs Hd) as [-> _].
    reflexivity.
  - intros Hn. rewrite organizeImports_with_file.
    destruct (with_file_failed _ "organizeImports" (Some (FileArgs (as_FileArgs wire args)))
                (λ o, match o with
                      | Resolved response =>
                          Returned (Tools.organizeImports_result (response ≫= as_Changes casts))
                      | Rejected _ =>
                          Returned {| Tools.success := false; Tools.o_changes := None |}
                      end) w0 r Hr Hn Hseq Hs Hd) as [-> _].
    destruct (getDiagnostics_failed casts _ w0 r Hr Hn Hseq Hs Hd) as [-> Ht].
    split_ands; [reflexivity|reflexivity|exact Ht].
Qed.

Lemma resume_reply {R : Type} (text : R → string) (b : World * Tool R) :
  resume (reply text b).2 (reply text b).1 =
  ((resume b.2 b.1).1,
   and_then (λ r, Returned match r with
                           | Returned result => text_result (text result)
                           | Thrown error => error_result error
                           end) (resume b.2 b.1).2).
Proof. unfold reply. cbn [fst snd]. apply resume_and_then. Qed.

(** X22.  A call of one of the six tools on a client that has no child to
    write to is answered with the text 'Error: TSServer not started', marked
    as an error, and nothing is written.  A call of a tool with any other
    name is answered with 'Error: Unknown tool: ' and the name, and the
    client is not touched. *)
Theorem X22_handler_without_child :
  ∀ (casts : Casts) (wire : Wire) (name : string) (args : any) (w0 : World),
    (name ∈ tool_names → ¬ running w0 →
       let b := callTool casts wire name (Some args) w0 in
       let e := resume b.2 b.1 in
       e.2 = Done (Returned {| content_text := "Error: TSServer not started";
                               isError := true |}) ∧
       outputs e.1 = outputs w0 ∧ openFiles e.1 = openFiles w0 ∧
       sequence e.1 = sequence w0) ∧
    (name ∉ tool_names →
       callTool casts wire name (Some args) w0
       = (w0, Done (Returned {| content_text := "Error: Unknown tool: " +:+ name;
                                isError := true |}))).
Proof.
  intros casts wire name args w0. split.
  - intros Hin Hr b e. subst e b. unfold tool_names in Hin.
    repeat (apply elem_of_cons in Hin as [->|Hin]);
      [| | | | | |now apply elem_of_nil in Hin];
      unfold callTool; cbn [String.eqb Ascii.eqb Bool.eqb]; rewrite resume_reply;
      cbn [fst snd].
    + rewrite getDefinition_with_file.
      pose proof (with_file_not_running (resolve (Tools.a_file (as_DefinitionArgs wire args)))
                    "definition"
                    (Some (AnyArgs (position_args casts
                                      (resolve (Tools.a_file (as_DefinitionArgs wire args)))
                                      (Tools.a_line (as_DefinitionArgs wire args))
                                      (Tools.a_offset (as_DefinitionArgs wire args)))))
                    (λ o, match o with
                          | Resolved response =>
                              Returned (Tools.getDefinition_result
                                          (response ≫= as_DefinitionInfos casts))
                          | Rejected e => Thrown e
                          end) w0 Hr) as (-> & Ho & Hf & Hq).
      now split_ands.
    + rewrite getHover_with_file.
      pose proof (with_file_not_running (resolve (Tools.a_file (as_DefinitionArgs wire args)))
                    "quickinfo"
                    (Some (AnyArgs (position_args casts
                                      (resolve (Tools.a_file (as_DefinitionArgs wire args)))
                                      (Tools.a_line (as_DefinitionArgs wire args))
                                      (Tools.a_offset (as_DefinitionArgs wire args)))))
                    (λ o, match o with
                          | Resolved response =>
                              Returned (Tools.getHover_result
                                          <$> (response ≫= as_QuickInfo casts))
                          | Rejected _ => Returned None
                          end) w0 Hr) as (-> & Ho & Hf & Hq).
      now split_ands.
    + rewrite getReferences_with_file.
      pose proof (with_file_not_running (Tools.a_file (as_DefinitionArgs wire args))
                    "references"
                    (Some (AnyArgs (position_args casts
                                      (Tools.a_file (as_DefinitionArgs wire args))
                                      (Tools.a_line (as_DefinitionArgs wire args))
                                      (Tools.a_offset (as_DefinitionArgs wire args)))))
                    (λ o, match o with
                          | Resolved response =>
                              Returned (Tools.getReferences_result
                                          (response ≫= as_ReferencesResponseBody casts))
                          | Rejected e => Thrown e
                          end) w0 Hr) as (-> & Ho & Hf & Hq).
      now split_ands.
    + rewrite getRename_with_file.
      pose proof (with_file_not_running (Tools.r_file (as_RenameArgs wire args))
                    "rename"
                    (Some (AnyArgs (position_args casts
                                      (Tools.r_file (as_RenameArgs wire args))
                                      (Tools.r_line (as_RenameArgs wire args))
                                      (Tools.r_offset (as_RenameArgs wire args)))))
                    (λ o, match o with
                          | Resolved response =>
                              Returned (Tools.getRename_result
                                          (Tools.newName (as_RenameArgs wire args))
                                          (response ≫= as_RenameResponseBody casts))
                          | Rejected e => Thrown e
                          end) w0 Hr) as (-> & Ho & Hf & Hq).
      now split_ands.
    + pose proof (getDiagnostics_not_running casts (as_FileArgs wire args) w0 Hr)
        as (-> & Ho & Hf & Hq).
      now split_ands.
    + rewrite organizeImports_with_file.
      pose proof (with_file_not_running (as_FileArgs wire args) "organizeImports"
                    (Some (FileArgs (as_FileArgs wire args)))
                    (λ o, match o with
                          | Resolved response =>
                              Returned (Tools.organizeImports_result
                                          (response ≫= as_Changes casts))
                          | Rejected _ =>
                              Returned {| Tools.success := false; Tools.o_changes := None |}
                          end) w0 Hr) as (-> & Ho & Hf & Hq).
      now split_ands.
  - intros Hn. unfold callTool, tool_names in *.
    repeat (apply not_elem_of_cons in Hn as [Hne Hn];
            apply String.eqb_neq in Hne; rewrite Hne; clear Hne).
    reflexivity.
Qed.


(** ** The exit of a child and the handle *)

(** X24.  The ['exit'] listener that [start] registers clears the process
    handle without looking at which child has exited.  So the exit of any
    child the client has spawned, while no call of [stop] waits for it,
    clears the handle whichever child the handle holds: a child that was
    spawned later is neither written to nor killed, and from then on the
    client treats it as gone.  A [request] is rejected with 'TSServer not
    started', and [start] spawns one more child. *)
Theorem X24_exit_clears_the_handle_of_any_child :
  ∀ (w : World) (p0 : nat) (code : option Z) (signal : option string)
    (cmd : string) (a : option Arguments),
    (p0 < spawned w)%nat → waiting_stops p0 w = [] →
    let w1 := step w (ProcessExit p0 code signal) in
    process w1 = None ∧
    outputs w1 = outputs w ∧
    spawned w1 = spawned w ∧
    openFiles w1 = openFiles w ∧
    pendingRequests w1 = pendingRequests w ∧
    (let w2 := step w1 (CallRequest cmd a) in
     calls w2 !! List.length (calls w)
     = Some {| command := cmd; args := a; maxRetries := 3; attempt := 0;
               phase := Finished (Rejected not_started) |} ∧
     outputs w2 = outputs w) ∧
    (let w3 := step w1 CallStart in
     process w3 = Some {| pid := spawned w; stdin := true; killed := false |} ∧
     spawned w3 = S (spawned w) ∧
     outputs w3 = outputs w).
Proof.
  intros w p0 code signal cmd a Hlt Hw w1.
  assert (w1 = observe (Emit (EmitExit code signal))
                 (set_process None (log Info "TSServer process exited" w))) as H1.
  { subst w1. cbn [step]. apply Nat.ltb_lt in Hlt. rewrite Hlt. unfold on_exit.
    change (waiting_stops p0 (observe _ (set_process None (log Info _ w))))
      with (waiting_stops p0 w).
    now rewrite Hw. }
  clearbody w1. subst w1. set (w1 := observe _ _).
  assert (outputs w1 = outputs w) as Ho.
  { unfold w1. rewrite outputs_observe_inward by reflexivity.
    unfold outputs. cbn. rewrite List.filter_app. cbn. apply app_nil_r. }
  assert (¬ running w1) as Hr by (intros (p & Hp & _); discriminate Hp).
  split; [reflexivity|]. split; [exact Ho|].
  split; [reflexivity|]. split; [reflexivity|]. split; [reflexivity|]. split.
  - intros w2. subst w2. cbn [step]. rewrite (request_not_running _ _ _ Hr). split.
    + cbn [calls observe set_trace set_calls]. now apply list_lookup_middle.
    + now rewrite outputs_observe_inward.
  - intros w3. subst w3. cbn [step]. unfold start.
    assert (process w1 = None) as -> by reflexivity.
    rewrite <- Ho. destruct (skipAvailabilityCheck _); now split_ands.
Qed.


End Client.

Arguments Returned {R} r.
Arguments Thrown {R} e.
Arguments Done {any R} r.
Arguments Await {any R} cid k.

(** * The logger and the configuration manager *)

Ltac split_ands := repeat match goal with |- _ ∧ _ => split end.

(** Decimal rendering tells integers apart. *)
Lemma show_inj (a b : Z) : show a = show b → a = b.
Proof.
  unfold show. intros H. apply DecimalZ.to_int_inj.
  assert (∀ z, NilZero.int_of_string (NilZero.string_of_int (Z.to_int z)) = Some (Z.to_int z))
    as Hisi.
  { intros z. apply NilZero.isi; destruct z as [|p|p]; cbn; try discriminate;
      intros [= E]; now apply (DecimalPos.Unsigned.to_uint_nonnil p). }
  pose proof (Hisi a) as Ha. rewrite H, Hisi in Ha. now inversion Ha.
Qed.

(** ** The threshold of the logger *)

(** X9.  A message is logged exactly when logging is enabled and its level
    is no further down the list error, warn, info, debug than the configured
    one: with logging enabled, the level error lets error through, warn lets
    error and warn through, info lets error, warn and info through, and debug
    all four.  With logging disabled nothing is logged; with logging enabled
    an error always is, and so is every level that is above a level that is
    logged.  The default configuration has logging disabled. *)
Theorem X9_log_threshold :
  (∀ (config : Config.DebugConfig) (level : LogLevel.t),
      Logger.shouldLog config level = true ↔
      Config.enabled config = true ∧
      (Logger.indexOf level Logger.levels
         ≤ Logger.indexOf (Config.level config) Logger.levels)%Z) ∧
  (λ level, Logger.indexOf level Logger.levels) <$> Logger.levels = [0; 1; 2; 3]%Z ∧
  (∀ (config : Config.DebugConfig) (level : LogLevel.t),
      Config.enabled config = true →
      Logger.shouldLog config level =
      match Config.level config, level with
      | LogLevel.error, LogLevel.error => true
      | LogLevel.error, _ => false
      | LogLevel.warn, (LogLevel.error | LogLevel.warn) => true
      | LogLevel.warn, _ => false
      | LogLevel.info, LogLevel.debug => false
      | LogLevel.info, _ => true
      | LogLevel.debug, _ => true
      end) ∧
  (∀ (config : Config.DebugConfig) (level : LogLevel.t),
      Config.enabled config = false → Logger.shouldLog config level = false) ∧
  (∀ (config : Config.DebugConfig) (level : LogLevel.t),
      Logger.shouldLog config level = true → Config.enabled config = true) ∧
  (∀ (config : Config.DebugConfig),
      Config.enabled config = true →
      Logger.shouldLog config LogLevel.error = true ∧
      Logger.shouldLog config (Config.level config) = true) ∧
  (∀ (config : Config.DebugConfig) (level1 level2 : LogLevel.t),
      Logger.shouldLog config level2 = true →
      (Logger.indexOf level1 Logger.levels ≤ Logger.indexOf level2 Logger.levels)%Z →
      Logger.shouldLog config level1 = true) ∧
  (∀ (config : Config.DebugConfig) (level : LogLevel.t),
      Config.enabled config = true → Config.level config = LogLevel.debug →
      Logger.shouldLog config level = true) ∧
  (∀ (config : Config.DebugConfig) (level : LogLevel.t),
      Config.enabled config = true → Config.level config = LogLevel.info →
      Logger.shouldLog config level = negb (bool_decide (level = LogLevel.debug))) ∧
  (∀ (level : LogLevel.t),
      Logger.shouldLog (Config.debug Config.defaultConfig_literal) level = false).
Proof.
  split_ands.
  - intros config level. unfold Logger.shouldLog.
    destruct (Config.enabled config); cbn [negb].
    + rewrite Z.leb_le. tauto.
    + split; [discriminate | now intros [? _]].
  - reflexivity.
  - intros config level He. unfold Logger.shouldLog. rewrite He.
    now destruct (Config.level config), level.
  - intros config level He. unfold Logger.shouldLog. now rewrite He.
  - intros config level. unfold Logger.shouldLog. now destruct (Config.enabled config).
  - intros config He. unfold Logger.shouldLog. rewrite He. cbn [negb].
    split; [now destruct (Config.level config)|]. apply Z.leb_refl.
  - intros config level1 level2. unfold Logger.shouldLog.
    destruct (Config.enabled config); cbn [negb]; [|discriminate].
    intros H2 Hle. apply Z.leb_le in H2. apply Z.leb_le. lia.
  - intros config level He Hl. unfold Logger.shouldLog. rewrite He, Hl. now destruct level.
  - intros config level He Hl. unfold Logger.shouldLog. rewrite He, Hl. now destruct level.
  - intros level. reflexivity.
Qed.

(** ** Log rotation *)

Section Rotation.

Variable logDir : string.

Local Abbreviation logFile := (Logger.logFile logDir).
Local Abbreviation rotated := (Logger.rotated logDir).

Local Abbreviation moved := (Logger.currentLog logDir).

Lemma rotated_inj (i j : Z) : rotated i = rotated j → i = j.
Proof.
  unfold Logger.rotated, Fs.join. intros H.
  apply app_inv_head_s in H. cbn in H. inversion H as [H']. now apply show_inj.
Qed.

Lemma rotated_ne_logFile (i : Z) : rotated i ≠ logFile.
Proof.
  unfold Logger.rotated, Logger.logFile, Fs.join. intros H.
  apply app_inv_head_s in H. cbn in H. discriminate H.
Qed.

Lemma moved_rotated (i j : Z) : (0 ≤ i)%Z → (i < j)%Z → moved i ≠ rotated j.
Proof.
  intros H0 Hlt. unfold Logger.currentLog. destruct (Z.eqb_spec i 0).
  - intros H. symmetry in H. now apply rotated_ne_logFile in H.
  - intros H. apply rotated_inj in H. lia.
Qed.

Lemma moved_inj (i j : Z) : (0 ≤ i)%Z → (0 ≤ j)%Z → moved i = moved j → i = j.
Proof.
  intros Hi Hj. unfold Logger.currentLog.
  destruct (Z.eqb_spec i 0), (Z.eqb_spec j 0); intros H; try lia.
  - symmetry in H. now apply rotated_ne_logFile in H.
  - now apply rotated_ne_logFile in H.
  - now apply rotated_inj.
Qed.

Lemma rotate_turn_spec (i : Z) (fs : Fs.Files) :
  (0 ≤ i)%Z → fs !! rotated (i + 1) = None →
  let fs' := Logger.rotate_turn logDir i fs in
  fs' !! rotated (i + 1) = fs !! moved i ∧
  fs' !! moved i = (if (i =? 0)%Z then Fs.emptied (fs !! logFile) else None) ∧
  ∀ p, p ≠ rotated (i + 1) → p ≠ moved i → fs' !! p = fs !! p.
Proof.
  intros Hi Hnext fs'. subst fs'. unfold Logger.rotate_turn. 
  assert (moved i ≠ rotated (i + 1)) as Hne by (apply moved_rotated; lia).
  unfold Logger.currentLog in *. unfold Fs.writeFile, Fs.unlink.
  destruct (Z.eqb_spec i 0) as [->|Hi0].
  - destruct (fs !! logFile) as [data|] eqn:E.
    + split_ands.
      * rewrite lookup_insert_ne by assumption. now rewrite lookup_insert_eq.
      * now rewrite lookup_insert_eq.
      * intros p H1 H2. now rewrite !lookup_insert_ne by congruence.
    + split_ands; [now rewrite Hnext | now rewrite E | reflexivity].
  - destruct (fs !! rotated i) as [data|] eqn:E.
    + split_ands.
      * rewrite lookup_delete_ne by assumption. now rewrite lookup_insert_eq.
      * now rewrite lookup_delete_eq.
      * intros p H1 H2. rewrite lookup_delete_ne by congruence.
        now rewrite lookup_insert_ne by congruence.
    + split_ands; [now rewrite Hnext | now rewrite E | reflexivity].
Qed.

Lemma rotate_loop_spec (n : nat) (fs : Fs.Files) :
  ((1 ≤ n)%nat → fs !! rotated (Z.of_nat n) = None) →
  let fs' := Logger.rotate_loop logDir n fs in
  (∀ i, (0 ≤ i < Z.of_nat n)%Z → fs' !! rotated (i + 1) = fs !! moved i) ∧
  fs' !! logFile = (if decide (n = 0) then fs !! logFile else Fs.emptied (fs !! logFile)) ∧
  (∀ p, p ≠ logFile → (∀ j, (1 ≤ j ≤ Z.of_nat n)%Z → p ≠ rotated j) → fs' !! p = fs !! p).
Proof.
  revert fs. induction n as [|n IH]; intros fs Hpre fs'; subst fs'.
  - split_ands; [intros i Hi; lia | reflexivity | reflexivity].
  - cbn [Logger.rotate_loop].
    assert (fs !! rotated (Z.of_nat n + 1) = None) as Hnext.
    { replace (Z.of_nat n + 1)%Z with (Z.of_nat (S n)) by lia. apply Hpre. lia. }
    destruct (rotate_turn_spec (Z.of_nat n) fs ltac:(lia) Hnext) as (T1 & T2 & T3).
    set (fs1 := Logger.rotate_turn logDir (Z.of_nat n) fs) in *.
    assert ((1 ≤ n)%nat → fs1 !! rotated (Z.of_nat n) = None) as Hpre1.
    { intros Hn. unfold Logger.currentLog in T2. destruct (Z.eqb_spec (Z.of_nat n) 0); [lia | exact T2]. }
    destruct (IH fs1 Hpre1) as (I1 & I2 & I3).
    split_ands.
    + intros i Hi. destruct (decide (i = Z.of_nat n)) as [->|Hne].
      * rewrite I3; [exact T1 | apply rotated_ne_logFile |].
        intros j Hj H. apply rotated_inj in H. lia.
      * rewrite I1 by lia. apply T3.
        -- apply moved_rotated; lia.
        -- intros H. apply moved_inj in H; lia.
    + rewrite decide_False by lia. rewrite I2. destruct (decide (n = 0)) as [->|Hn0].
      * exact T2.
      * f_equal. apply T3.
        -- intros H. symmetry in H. now apply rotated_ne_logFile in H.
        -- unfold Logger.currentLog. destruct (Z.eqb_spec (Z.of_nat n) 0); [lia|].
           intros H. symmetry in H. now apply rotated_ne_logFile in H.
    + intros p Hp Hj. rewrite I3; [|exact Hp | intros j Hj'; apply Hj; lia].
      apply T3; [apply Hj; lia|].
      unfold Logger.currentLog. destruct (Z.eqb_spec (Z.of_nat n) 0); [exact Hp | apply Hj; lia].
Qed.

(** [rotateLogs] with at least one turn of its loop. *)
Lemma rotateLogs_shift (maxFiles : Z) (fs : Fs.Files) :
  (2 ≤ maxFiles)%Z →
  let fs' := Logger.rotateLogs logDir maxFiles fs in
  fs' !! logFile = Fs.emptied (fs !! logFile) ∧
  fs' !! rotated 1 = fs !! logFile ∧
  (∀ i, (1 ≤ i ≤ maxFiles - 2)%Z → fs' !! rotated (i + 1) = fs !! rotated i) ∧
  (∀ p, p ≠ logFile → (∀ j, (1 ≤ j ≤ maxFiles - 1)%Z → p ≠ rotated j) →
        fs' !! p = fs !! p).
Proof.
  intros Hm fs'. subst fs'. unfold Logger.rotateLogs.
  set (fs0 := if Fs.existsSync _ fs then _ else fs).
  assert (fs0 !! rotated (maxFiles - 1) = None ∧
          ∀ p, p ≠ rotated (maxFiles - 1) → fs0 !! p = fs !! p) as [H0 H0'].
  { subst fs0. unfold Fs.existsSync, Fs.unlink.
    destruct (bool_decide_reflect (is_Some (fs !! rotated (maxFiles - 1)))) as [Hs|Hs].
    - split; [apply lookup_delete_eq|]. intros p Hp. now apply lookup_delete_ne.
    - split; [|reflexivity]. now apply eq_None_not_Some. }
  destruct (rotate_loop_spec (Z.to_nat (maxFiles - 1)) fs0) as (L1 & L2 & L3).
  { intros _. now rewrite Z2Nat.id by lia. }
  rewrite Z2Nat.id in L1, L3 by lia.
  assert (∀ i, (0 ≤ i ≤ maxFiles - 2)%Z → fs0 !! moved i = fs !! moved i) as Hsame.
  { intros i Hi. apply H0'. apply moved_rotated; lia. }
  split_ands.
  + rewrite L2, decide_False by lia. f_equal. apply H0'.
    intros H. symmetry in H. now apply rotated_ne_logFile in H.
  + pose proof (L1 0%Z ltac:(lia)) as L0. change (0 + 1)%Z with 1%Z in L0.
    rewrite L0. now rewrite (Hsame 0%Z) by lia.
  + intros i Hi. rewrite (L1 i) by lia. rewrite (Hsame i) by lia.
    unfold Logger.currentLog. destruct (Z.eqb_spec i 0); [lia | reflexivity].
  + intros p Hp Hj. rewrite L3 by assumption. apply H0'. apply Hj. lia.
Qed.

(** [rotateLogs] when its loop has no turn. *)
Lemma rotateLogs_few (maxFiles : Z) (fs : Fs.Files) :
  (maxFiles ≤ 1)%Z →
  let fs' := Logger.rotateLogs logDir maxFiles fs in
  fs' !! logFile = fs !! logFile ∧
  fs' !! rotated (maxFiles - 1) = None ∧
  ∀ p, p ≠ rotated (maxFiles - 1) → fs' !! p = fs !! p.
Proof.
  intros Hm fs'. subst fs'. unfold Logger.rotateLogs.
  replace (Z.to_nat (maxFiles - 1)) with 0%nat by lia. cbn [Logger.rotate_loop].
  unfold Fs.existsSync, Fs.unlink.
  destruct (bool_decide_reflect (is_Some (fs !! rotated (maxFiles - 1)))) as [Hs|Hs].
  + split_ands.
    * apply lookup_delete_ne. apply rotated_ne_logFile.
    * apply lookup_delete_eq.
    * intros p Hp. now apply lookup_delete_ne.
  + split_ands; [reflexivity | now apply eq_None_not_Some | reflexivity].
Qed.

(** X10.  [rotateLogs] with [maxFiles] at least 2 moves every log file one
    place up: afterwards [tsserver-mcp.log.1] holds what the log file held,
    [tsserver-mcp.log.(i+1)] holds what [tsserver-mcp.log.i] held for every
    [i] from 1 to [maxFiles - 2] (and is absent if that was absent), the log
    file, if there was one, is empty, and what [tsserver-mcp.log.(maxFiles-1)]
    held is gone.  No other file changes, so no log file beyond number
    [maxFiles - 1] is made.  With [maxFiles] at most 1 the loop has no turn
    and the log file stays as it is. *)
Theorem X10_rotation_shifts_log_files :
  (∀ (maxFiles : Z) (fs : Fs.Files),
      (2 ≤ maxFiles)%Z →
      let fs' := Logger.rotateLogs logDir maxFiles fs in
      fs' !! logFile = (Fs.emptied (fs !! logFile)) ∧
      fs' !! rotated 1 = fs !! logFile ∧
      (∀ i, (1 ≤ i ≤ maxFiles - 2)%Z → fs' !! rotated (i + 1) = fs !! rotated i) ∧
      (∀ p, p ≠ logFile → (∀ j, (1 ≤ j ≤ maxFiles - 1)%Z → p ≠ rotated j) →
            fs' !! p = fs !! p)) ∧
  (∀ (maxFiles : Z) (fs : Fs.Files),
      (maxFiles ≤ 1)%Z →
      let fs' := Logger.rotateLogs logDir maxFiles fs in
      fs' !! logFile = fs !! logFile ∧
      fs' !! rotated (maxFiles - 1) = None ∧
      ∀ p, p ≠ rotated (maxFiles - 1) → fs' !! p = fs !! p).
Proof.
  split.
  - intros maxFiles fs Hm fs'.
    destruct (rotateLogs_shift maxFiles fs Hm) as (H1 & H2 & H3 & H4).
    split_ands; assumption.
  - intros maxFiles fs Hm fs'.
    destruct (rotateLogs_few maxFiles fs Hm) as (H1 & H2 & H3).
    split_ands; assumption.
Qed.

(** ** One line written to the log file *)

Section WriteToFile.

Context {Context_ : Type}.
Variable JSON_stringify : Context_ → string.

Local Abbreviation writeToFile := (Logger.writeToFile JSON_stringify logDir).
Local Abbreviation formatLogEntry := (Logger.formatLogEntry JSON_stringify).

(** X11.  [writeToFile] writes nothing when [logToFile] is off.  When it is
    on, the formatted line ends up at the end of the log file: a missing log
    file is created with the line; a log file within the size limit is
    extended by it; a log file over the limit is first rotated, so that with
    [maxFiles] at least 2 the log file holds the line alone and what it held
    before is in [tsserver-mcp.log.1].  With [maxFiles] at most 1 the rotation
    moves nothing: the line is appended to the file over the limit, which is
    never cut. *)
Theorem X11_log_line_appended :
  (∀ (config : Config.DebugConfig) (entry : Logger.LogEntry) (fs : Fs.Files),
      Config.logToFile config = false → writeToFile config entry fs = fs) ∧
  (∀ (config : Config.DebugConfig) (entry : Logger.LogEntry) (fs : Fs.Files),
      Config.logToFile config = true → fs !! logFile = None →
      writeToFile config entry fs = <[logFile := formatLogEntry entry]> fs) ∧
  (∀ (config : Config.DebugConfig) (entry : Logger.LogEntry) (fs : Fs.Files) (data : string),
      Config.logToFile config = true → fs !! logFile = Some data →
      (Fs.size data ≤ Config.maxFileSize config * (1024 * 1024))%Z →
      writeToFile config entry fs = <[logFile := data +:+ formatLogEntry entry]> fs) ∧
  (∀ (config : Config.DebugConfig) (entry : Logger.LogEntry) (fs : Fs.Files) (data : string),
      Config.logToFile config = true → fs !! logFile = Some data →
      (Config.maxFileSize config * (1024 * 1024) < Fs.size data)%Z →
      (2 ≤ Config.maxFiles config)%Z →
      writeToFile config entry fs !! logFile = Some (formatLogEntry entry) ∧
      writeToFile config entry fs !! rotated 1 = Some data ∧
      (∀ i, (1 ≤ i ≤ Config.maxFiles config - 2)%Z →
            writeToFile config entry fs !! rotated (i + 1) = fs !! rotated i)) ∧
  (∀ (config : Config.DebugConfig) (entry : Logger.LogEntry) (fs : Fs.Files) (data : string),
      Config.logToFile config = true → fs !! logFile = Some data →
      (Config.maxFileSize config * (1024 * 1024) < Fs.size data)%Z →
      (Config.maxFiles config ≤ 1)%Z →
      writeToFile config entry fs !! logFile = Some (data +:+ formatLogEntry entry)).
Proof.
  split_ands.
  - intros config entry fs Hl. unfold Logger.writeToFile. now rewrite Hl.
  - intros config entry fs Hl Hn. unfold Logger.writeToFile, Logger.rotateLogsIfNeeded.
    rewrite Hl, Hn. cbn [negb]. unfold Fs.appendFile. now rewrite Hn.
  - intros config entry fs data Hl Hd Hs.
    unfold Logger.writeToFile, Logger.rotateLogsIfNeeded. rewrite Hl, Hd. cbn [negb].
    apply Z.ltb_ge in Hs. rewrite Hs. unfold Fs.appendFile. now rewrite Hd.
  - intros config entry fs data Hl Hd Hs Hm.
    unfold Logger.writeToFile, Logger.rotateLogsIfNeeded. rewrite Hl, Hd. cbn [negb].
    apply Z.ltb_lt in Hs. rewrite Hs.
    destruct (rotateLogs_shift (Config.maxFiles config) fs Hm) as (R1 & R2 & R3 & _).
    unfold Fs.appendFile. rewrite R1, Hd. cbn [Fs.emptied default].
    split_ands.
    + now rewrite lookup_insert_eq.
    + rewrite lookup_insert_ne by (intros H; symmetry in H; now apply rotated_ne_logFile in H).
      now rewrite R2.
    + intros i Hi.
      rewrite lookup_insert_ne by (intros H; symmetry in H; now apply rotated_ne_logFile in H).
      now apply R3.
  - intros config entry fs data Hl Hd Hs Hm.
    unfold Logger.writeToFile, Logger.rotateLogsIfNeeded. rewrite Hl, Hd. cbn [negb].
    apply Z.ltb_lt in Hs. rewrite Hs.
    destruct (rotateLogs_few (Config.maxFiles config) fs Hm) as (R1 & _).
    unfold Fs.appendFile. rewrite R1, Hd. cbn [default]. now rewrite lookup_insert_eq.
Qed.

End WriteToFile.

End Rotation.

(** ** The configuration manager *)

Section ManagerFacts.

Variable configPath : string.
Variable JSON_parse : string → option Config.PartialAppConfig.
Variable JSON_stringify : Config.AppConfig → string.

Local Abbreviation load := (Config.load configPath JSON_parse JSON_stringify).
Local Abbreviation save := (Config.save configPath JSON_stringify).
Local Abbreviation setDebugEnabled := (Config.setDebugEnabled configPath JSON_stringify).
Local Abbreviation setDebugLevel := (Config.setDebugLevel configPath JSON_stringify).
Local Abbreviation setLogToFile := (Config.setLogToFile configPath JSON_stringify).

Lemma spread_whole (base : Config.DebugConfig) (c : Config.AppConfig) :
  Config.spread base (Config.p_debug (Config.whole c)) = Config.debug c.
Proof. now destruct c as [[]]. Qed.

Lemma files_save (s : Config.State) :
  Config.files (save s) !! configPath = Some (JSON_stringify (Config.get s)).
Proof. unfold Config.save, Fs.writeFile. cbn. apply lookup_insert_eq. Qed.

Lemma load_present (s : Config.State) (configData : string) :
  Config.files s !! configPath = Some configData →
  load s =
  match JSON_parse configData with
  | Some loadedConfig =>
      Config.set_config
        (Config.Own {| Config.debug := Config.spread (Config.debug (Config.defaultConfig s))
                                                     (Config.p_debug loadedConfig) |}) s
  | None => Config.set_config Config.TheDefault s
  end.
Proof.
  intros H. unfold Config.load, Fs.existsSync. rewrite H.
  rewrite bool_decide_eq_true_2 by (now eexists). reflexivity.
Qed.

(** X12.  The configuration a manager starts with is the object
    [defaultConfig] itself, not a copy of it, and so is the configuration
    [load] falls back to.  While the manager holds that object, a setter
    assigns to the defaults: [defaultConfig] has the new value from then on.
    A later [load] that falls back to the defaults because the file cannot
    be parsed, or that fills in a field the file lacks, therefore yields the
    value that was set, not the value of the source text.  Once [load] has
    built a configuration from a file, the setters leave [defaultConfig]
    alone. *)
Theorem X12_setters_assign_to_the_defaults :
  (∀ (s : Config.State) (enabled : bool) (level : LogLevel.t) (logToFile : bool),
      Config.config s = Config.TheDefault →
      Config.debug (Config.defaultConfig (setDebugEnabled enabled s))
        = Config.with_enabled enabled (Config.debug (Config.defaultConfig s)) ∧
      Config.debug (Config.defaultConfig (setDebugLevel level s))
        = Config.with_level level (Config.debug (Config.defaultConfig s)) ∧
      Config.debug (Config.defaultConfig (setLogToFile logToFile s))
        = Config.with_logToFile logToFile (Config.debug (Config.defaultConfig s)) ∧
      Config.config (setDebugEnabled enabled s) = Config.TheDefault ∧
      Config.config (setDebugLevel level s) = Config.TheDefault ∧
      Config.config (setLogToFile logToFile s) = Config.TheDefault) ∧
  (∀ (s : Config.State) (c : Config.AppConfig) (enabled : bool) (level : LogLevel.t)
     (logToFile : bool),
      Config.config s = Config.Own c →
      Config.defaultConfig (setDebugEnabled enabled s) = Config.defaultConfig s ∧
      Config.defaultConfig (setDebugLevel level s) = Config.defaultConfig s ∧
      Config.defaultConfig (setLogToFile logToFile s) = Config.defaultConfig s ∧
      Config.getDebugConfig (setDebugEnabled enabled s)
        = Config.with_enabled enabled (Config.debug c)) ∧
  (∀ (s : Config.State) (enabled : bool) (fs : Fs.Files) (configData : string),
      Config.config s = Config.TheDefault →
      fs !! configPath = Some configData → JSON_parse configData = None →
      Config.enabled
        (Config.getDebugConfig (load (Config.set_files fs (setDebugEnabled enabled s))))
      = enabled) ∧
  (∀ (s : Config.State) (enabled : bool) (fs : Fs.Files) (configData : string)
     (loadedConfig : Config.PartialAppConfig),
      Config.config s = Config.TheDefault →
      fs !! configPath = Some configData → JSON_parse configData = Some loadedConfig →
      (∀ d, Config.p_debug loadedConfig = Some d → Config.p_enabled d = None) →
      Config.enabled
        (Config.getDebugConfig (load (Config.set_files fs (setDebugEnabled enabled s))))
      = enabled).
Proof.
  split_ands.
  - intros s enabled level logToFile Hc.
    unfold Config.setDebugEnabled, Config.setDebugLevel, Config.setLogToFile,
      Config.assign_debug, Config.save. rewrite Hc. cbn. split_ands; solve [reflexivity | exact Hc].
  - intros s c enabled level logToFile Hc.
    unfold Config.setDebugEnabled, Config.setDebugLevel, Config.setLogToFile,
      Config.assign_debug, Config.save, Config.getDebugConfig, Config.get.
    rewrite Hc. cbn. split_ands; reflexivity.
  - intros s enabled fs configData Hc Hf Hp.
    rewrite (load_present _ configData) by exact Hf. rewrite Hp.
    unfold Config.setDebugEnabled, Config.assign_debug, Config.save, Config.getDebugConfig,
      Config.get. rewrite Hc. reflexivity.
  - intros s enabled fs configData loadedConfig Hc Hf Hp Hd.
    rewrite (load_present _ configData) by exact Hf. rewrite Hp.
    unfold Config.setDebugEnabled, Config.assign_debug, Config.save, Config.getDebugConfig,
      Config.get. rewrite Hc. cbn.
    destruct (Config.p_debug loadedConfig) as [d|] eqn:E; cbn; [|reflexivity].
    now rewrite (Hd d eq_refl).
Qed.

(** X13.  [load] on a first run, when there is no configuration file, writes
    one with the configuration the manager holds and keeps that
    configuration.  When the file is there and parses, every field of
    [debug] the file has is taken from the file and every field it lacks from
    [defaultConfig]; a file without [debug] gives the defaults.  When the
    file does not parse, the manager falls back to [defaultConfig].  In both
    of these cases the file is left as it is. *)
Theorem X13_load_merges_with_defaults :
  (∀ (s : Config.State),
      Config.files s !! configPath = None →
      Config.files (load s) = <[configPath := JSON_stringify (Config.get s)]> (Config.files s) ∧
      Config.config (load s) = Config.config s ∧
      Config.defaultConfig (load s) = Config.defaultConfig s) ∧
  (∀ (s : Config.State) (configData : string) (loadedConfig : Config.PartialAppConfig)
     (d : Config.PartialDebugConfig),
      Config.files s !! configPath = Some configData →
      JSON_parse configData = Some loadedConfig →
      Config.p_debug loadedConfig = Some d →
      let base := Config.debug (Config.defaultConfig s) in
      let loaded := Config.getDebugConfig (load s) in
      Config.enabled loaded = default (Config.enabled base) (Config.p_enabled d) ∧
      Config.level loaded = default (Config.level base) (Config.p_level d) ∧
      Config.logToFile loaded = default (Config.logToFile base) (Config.p_logToFile d) ∧
      Config.maxFileSize loaded = default (Config.maxFileSize base) (Config.p_maxFileSize d) ∧
      Config.maxFiles loaded = default (Config.maxFiles base) (Config.p_maxFiles d) ∧
      Config.files (load s) = Config.files s ∧
      Config.defaultConfig (load s) = Config.defaultConfig s) ∧
  (∀ (s : Config.State) (configData : string) (loadedConfig : Config.PartialAppConfig),
      Config.files s !! configPath = Some configData →
      JSON_parse configData = Some loadedConfig →
      Config.p_debug loadedConfig = None →
      Config.getDebugConfig (load s) = Config.debug (Config.defaultConfig s)) ∧
  (∀ (s : Config.State) (configData : string),
      Config.files s !! configPath = Some configData →
      JSON_parse configData = None →
      Config.config (load s) = Config.TheDefault ∧
      Config.get (load s) = Config.defaultConfig s ∧
      Config.files (load s) = Config.files s).
Proof.
  split_ands.
  - intros s Hf. unfold Config.load, Fs.existsSync. rewrite Hf.
    rewrite bool_decide_eq_false_2 by (intros [x Hx]; discriminate Hx).
    cbn. split_ands; reflexivity.
  - intros s configData loadedConfig d Hf Hp Hd base loaded. subst base loaded.
    rewrite (load_present _ configData) by exact Hf. rewrite Hp.
    unfold Config.getDebugConfig, Config.get. cbn. rewrite Hd. cbn.
    split_ands; reflexivity.
  - intros s configData loadedConfig Hf Hp Hd.
    rewrite (load_present _ configData) by exact Hf. rewrite Hp.
    unfold Config.getDebugConfig, Config.get. cbn. now rewrite Hd.
  - intros s configData Hf Hp.
    rewrite (load_present _ configData) by exact Hf. rewrite Hp.
    split_ands; reflexivity.
Qed.

(** X14.  What a setter stores survives a restart: the setter writes the
    whole configuration to the file, and a manager of a new process that
    loads the file, [JSON.parse] giving back what [JSON.stringify] was given,
    holds the configuration with the value that was set, whatever the
    defaults are.  The same holds for [save] followed by [load] in one
    process. *)
Theorem X14_settings_survive_restart :
  (∀ (s : Config.State),
      JSON_parse (JSON_stringify (Config.get s)) = Some (Config.whole (Config.get s)) →
      Config.getDebugConfig (load (save s)) = Config.getDebugConfig s ∧
      Config.getDebugConfig (load (Config.new_ConfigManager (Config.files (save s))))
        = Config.getDebugConfig s) ∧
  (∀ (s : Config.State) (enabled : bool),
      let s' := setDebugEnabled enabled s in
      JSON_parse (JSON_stringify (Config.get s')) = Some (Config.whole (Config.get s')) →
      Config.getDebugConfig s' = Config.with_enabled enabled (Config.getDebugConfig s) ∧
      Config.getDebugConfig (load (Config.new_ConfigManager (Config.files s')))
        = Config.with_enabled enabled (Config.getDebugConfig s)) ∧
  (∀ (s : Config.State) (level : LogLevel.t),
      let s' := setDebugLevel level s in
      JSON_parse (JSON_stringify (Config.get s')) = Some (Config.whole (Config.get s')) →
      Config.getDebugConfig (load (Config.new_ConfigManager (Config.files s')))
        = Config.with_level level (Config.getDebugConfig s)) ∧
  (∀ (s : Config.State) (logToFile : bool),
      let s' := setLogToFile logToFile s in
      JSON_parse (JSON_stringify (Config.get s')) = Some (Config.whole (Config.get s')) →
      Config.getDebugConfig (load (Config.new_ConfigManager (Config.files s')))
        = Config.with_logToFile logToFile (Config.getDebugConfig s)).
Proof.
  assert (∀ s s0 : Config.State,
            JSON_parse (JSON_stringify (Config.get s)) = Some (Config.whole (Config.get s)) →
            Config.files s0 !! configPath = Some (JSON_stringify (Config.get s)) →
            Config.getDebugConfig (load s0) = Config.getDebugConfig s) as Hload.
  { intros s s0 Hp Hf. rewrite (load_present _ _ Hf), Hp.
    unfold Config.getDebugConfig at 1. unfold Config.get at 1.
    cbn [Config.config Config.set_config Config.debug]. now rewrite spread_whole. }
  assert (∀ s, Config.get (save s) = Config.get s) as Hget by reflexivity.
  split_ands.
  - intros s Hp. split.
    + rewrite <- (Hget s) in Hp. rewrite (Hload (save s) (save s) Hp).
      * reflexivity.
      * rewrite Hget. apply files_save.
    + apply Hload; [exact Hp | apply files_save].
  - intros s enabled s' Hp. subst s'. split.
    + unfold Config.setDebugEnabled, Config.assign_debug, Config.getDebugConfig, Config.get,
        Config.save. destruct (Config.config s) eqn:E; cbn; rewrite ?E; reflexivity.
    + rewrite (Hload _ _ Hp).
      * unfold Config.setDebugEnabled, Config.assign_debug, Config.getDebugConfig, Config.get,
          Config.save. destruct (Config.config s) eqn:E; cbn; rewrite ?E; reflexivity.
      * unfold Config.setDebugEnabled. rewrite Hget. apply files_save.
  - intros s level s' Hp. subst s'. rewrite (Hload _ _ Hp).
    + unfold Config.setDebugLevel, Config.assign_debug, Config.getDebugConfig, Config.get,
        Config.save. destruct (Config.config s) eqn:E; cbn; rewrite ?E; reflexivity.
    + unfold Config.setDebugLevel. rewrite Hget. apply files_save.
  - intros s logToFile s' Hp. subst s'. rewrite (Hload _ _ Hp).
    + unfold Config.setLogToFile, Config.assign_debug, Config.getDebugConfig, Config.get,
        Config.save. destruct (Config.config s) eqn:E; cbn; rewrite ?E; reflexivity.
    + unfold Config.setLogToFile. rewrite Hget. apply files_save.
Qed.

End ManagerFacts.

(** ** What the tools make of a response body *)

Lemma default_truthy (o : option string) : default "" (truthy o) = default "" o.
Proof.
  unfold truthy. destruct o as [s|]; [|reflexivity].
  destruct (String.eqb_spec s "") as [->|_]; reflexivity.
Qed.

(** X23.  [organizeImports] converts all the changes of a response or none:
    the result has [success: true] exactly when the body is a non-empty array
    in which every change has a [span]; it then holds one change for each
    change of the body, in the same order, with the text of the change, or
    the empty text when the change has none.  A body that is missing or
    empty, or in which one change lacks its [span], gives [success: false]
    and no changes at all. *)
Theorem X23_organize_imports_all_or_nothing :
  ∀ (response : option (list Tools.Change)),
    let result := Tools.organizeImports_result response in
    (Tools.success result = true ↔
     ∃ cs, response = Some cs ∧ cs ≠ [] ∧ Forall (λ c, is_Some (Tools.span c)) cs) ∧
    (Tools.success result = false → Tools.o_changes result = None) ∧
    (∀ cs, response = Some cs → Tools.success result = true →
       ∃ out, Tools.o_changes result = Some out ∧
              List.length out = List.length cs ∧
              ∀ i c, cs !! i = Some c →
                ∃ s, Tools.span c = Some s ∧
                     out !! i = Some {| Tools.t_newText := default "" (Tools.c_newText c);
                                        Tools.t_span := Tools.range_of (Tools.start s)
                                                          (Tools.end_ s) |}).
Proof.
  intros response result.
  assert (∀ cs out, mapM Tools.change_of cs = Some out →
            Forall (λ c, is_Some (Tools.span c)) cs ∧
            List.length out = List.length cs ∧
            ∀ i c, cs !! i = Some c →
              ∃ s, Tools.span c = Some s ∧
                   out !! i = Some {| Tools.t_newText := default "" (Tools.c_newText c);
                                      Tools.t_span := Tools.range_of (Tools.start s)
                                                        (Tools.end_ s) |}) as Hmap.
  { intros cs out H. apply mapM_Some in H. split_ands.
    - induction H as [|c t cs out Hc _ IH]; constructor; [|exact IH].
      unfold Tools.change_of in Hc. destruct (Tools.span c); [eauto|discriminate].
    - symmetry. exact (Forall2_length _ cs out H).
    - intros i c Hi. destruct (Forall2_lookup_l _ _ _ _ _ H Hi) as (t & Ht & Hc).
      unfold Tools.change_of in Hc. destruct (Tools.span c) as [s|]; [|discriminate].
      exists s. split; [reflexivity|]. rewrite Ht. injection Hc as <-.
      now rewrite default_truthy. }
  assert (∀ cs, Forall (λ c, is_Some (Tools.span c)) cs →
            is_Some (mapM Tools.change_of cs)) as Hall.
  { intros cs H. apply mapM_is_Some. eapply Forall_impl; [exact H|].
    intros c [s Hs]. cbn. unfold Tools.change_of. rewrite Hs. eauto. }
  subst result. unfold Tools.organizeImports_result.
  destruct response as [[|c cs]|]; cbn [Tools.success Tools.o_changes].
  - split_ands; try discriminate; [|reflexivity].
    split; [discriminate|]. intros (cs & [= <-] & Hne & _). now destruct Hne.
  - destruct (mapM Tools.change_of (c :: cs)) as [out|] eqn:Hm;
      cbn [Tools.success Tools.o_changes].
    + destruct (Hmap _ _ Hm) as (Hf & Hl & Hi). split_ands.
      * split; [|reflexivity]. intros _. exists (c :: cs). now split_ands.
      * discriminate.
      * intros cs' [= <-] _. exists out. now split_ands.
    + split_ands; try discriminate; [|reflexivity].
      split; [discriminate|]. intros (cs' & [= <-] & _ & Hf).
      destruct (Hall _ Hf) as [out Hout]. congruence.
  - split_ands; try discriminate; [|reflexivity].
    split; [discriminate|]. intros (cs & Hcs & _). discriminate.
Qed.

(** * The claims on the scenarios *)

Local Abbreviation parse := Scenario.parse.
Local Abbreviation resolve := Scenario.resolve.
Local Abbreviation started ts := (run parse resolve ts (new_client true 0)).
Local Abbreviation answer1 := (Scenario.render (Scenario.ok 1 "definition" "result1")).
Local Abbreviation answer2 := (Scenario.render (Scenario.ok 2 "quickinfo" "result2")).

Lemma framed_answers :
  framed [answer1; answer2] (Scenario.frame answer1 +:+ Scenario.frame answer2).
Proof.
  change (Scenario.frame answer1 +:+ Scenario.frame answer2)
    with (header "98" true true +:+ answer1 +:+ (header "97" true true +:+ answer2 +:+ "")).
  apply framed_cons; [reflexivity | discriminate | reflexivity |].
  apply framed_cons; [reflexivity | discriminate | reflexivity |].
  apply framed_nil.
Defined.

(** Two whole frames and the start of a third: two slices, the rest kept. *)
Lemma C1_witness :
  framed [answer1; answer2] (Scenario.frame answer1 +:+ Scenario.frame answer2) ∧
  next_frame "Content-Le" = None ∧
  yielded "" ((Scenario.frame answer1 +:+ Scenario.frame answer2) +:+ "Content-Le")
  = ([answer1; answer2], "Content-Le").
Proof.
  split; [exact framed_answers|]. split; [reflexivity|].
  apply (proj2 (proj2 (proj2 (C1_chunks_as_whole parse)))); [exact framed_answers | reflexivity].
Defined.


Lemma two_answers_distinct :
  NoDup (request_seq <$> [Scenario.ok 2 "quickinfo" "result2"; Scenario.ok 1 "definition" "result1"]).
Proof.
  apply NoDup_cons. split; [|apply NoDup_singleton].
  intros H. apply list_elem_of_singleton in H. discriminate H.
Defined.

(** The answers to two requests arrive in the other order. *)
Lemma C2_witness :
  NoDup (request_seq <$>
           [Scenario.ok 2 "quickinfo" "result2"; Scenario.ok 1 "definition" "result1"]) ∧
  settlements (handle_all [Scenario.ok 2 "quickinfo" "result2"; Scenario.ok 1 "definition" "result1"]
                 (started Scenario.two_requests))
  = [(2%Z, 1, Resolved (Some "result2")); (1%Z, 0, Resolved (Some "result1"))].
Proof.
  split; [exact two_answers_distinct|].
  rewrite (proj1 (proj2 (C2_response_settles_its_request) _ _ two_answers_distinct)).
  reflexivity.
Defined.

(** A second answer to request 1. *)
Lemma C3_witness :
  (1%Z ∉ keys (pendingRequests (handleMessage (Response (Scenario.ok 1 "definition" "result1"))
                                  (started Scenario.two_requests)))) ∧
  run_callback (RequestTimeout 0 1 "definition" 15000)
    (handleMessage (Response (Scenario.ok 1 "definition" "result1"))
       (started Scenario.two_requests))
  = handleMessage (Response (Scenario.ok 1 "definition" "result1"))
      (started Scenario.two_requests).
Proof.
  assert (1%Z ∉ keys (pendingRequests
            (handleMessage (Response (Scenario.ok 1 "definition" "result1"))
               (started Scenario.two_requests)))) as H.
  { apply (proj1 (proj1 (proj2 (C3_pending_entry_removed_once parse resolve)) _ 1%Z)).
    reflexivity. }
  split; [exact H|].
  apply (proj1 (proj2 (proj2 (proj2 (C3_pending_entry_removed_once parse resolve)) _ 1%Z H))).
Defined.




(** No answer comes, and the timer of the request fires after 15000 ms. *)
Lemma C7_witness :
  timers (started [CallStart; CallRequest "definition" None; Elapse 15000]) !! 1
    = Some {| armed_at := 0; delay := 15000;
              callback := RequestTimeout 0 1 "definition" 15000; fired := false |} ∧
  (0 + 15000 <= now (started [CallStart; CallRequest "definition" None; Elapse 15000]))%Z ∧
  1%Z ∈ keys (pendingRequests (started [CallStart; CallRequest "definition" None; Elapse 15000])) ∧
  settlements (fire 1 (started [CallStart; CallRequest "definition" None; Elapse 15000]))
  = [(1%Z, 0, Rejected {| error_message := "Request definition timed out after 15000ms" |})].
Proof.
  assert (timers (started [CallStart; CallRequest "definition" None; Elapse 15000]) !! 1
          = Some {| armed_at := 0; delay := 15000;
                    callback := RequestTimeout 0 1 "definition" 15000; fired := false |})
    as Ht by (vm_compute; reflexivity).
  assert (0 + 15000 <= now (started [CallStart; CallRequest "definition" None; Elapse 15000]))%Z
    as Hdue by (vm_compute; discriminate).
  assert (1%Z ∈ keys (pendingRequests
            (started [CallStart; CallRequest "definition" None; Elapse 15000]))) as Hin
    by (vm_compute; apply list_elem_of_here).
  split; [exact Ht|]. split; [exact Hdue|]. split; [exact Hin|].
  rewrite (proj1 (proj2 (proj1 (proj2 (proj2 (proj2 (proj2 (C7_timeout_budget parse resolve)))))
             _ 1 _ 0 1%Z "definition" 15000%Z Ht eq_refl Hdue eq_refl Hin))).
  vm_compute. reflexivity.
Defined.


(** The fourth attempt fails with the signature. *)
Lemma C10_witness :
  map_get 4 (pendingRequests (started Scenario.retry_tasks)) = Some 0 ∧
  calls (started Scenario.retry_tasks) !! 0
    = Some {| command := "definition"; args := None; maxRetries := 3; attempt := 3;
              phase := Awaiting 4 |} ∧
  calls (handleMessage (Response (Scenario.failed 4 "definition" Scenario.debug_failure))
           (started Scenario.retry_tasks)) !! 0
  = Some {| command := "definition"; args := None; maxRetries := 3; attempt := 3;
            phase := Finished (Rejected {| error_message :=
              debug_failure_text Scenario.debug_failure |}) |}.
Proof.
  assert (map_get 4 (pendingRequests (started Scenario.retry_tasks)) = Some 0) as Hget
    by (vm_compute; reflexivity).
  assert (calls (started Scenario.retry_tasks) !! 0
          = Some {| command := "definition"; args := None; maxRetries := 3; attempt := 3;
                    phase := Awaiting 4 |}) as Hc
    by (vm_compute; reflexivity).
  split; [exact Hget|]. split; [exact Hc|].
  rewrite (proj1 (proj1 (proj2 C10_failure_rethrown_as_built)
             (Scenario.failed 4 "definition" Scenario.debug_failure)
             (started Scenario.retry_tasks) 0 _ Hget Hc eq_refl eq_refl
             (or_intror eq_refl))).
  vm_compute. reflexivity.
Defined.




(** C5, as the claim has it, fails: the child exits while request 1 is
    pending, and the request is still in the map, its call still waits, and
    no continuation has been invoked; the call fails 15000 ms later, when its
    own timer fires. *)
Lemma C5_counterexample :
  process (started Scenario.crash_tasks) = None ∧
  pendingRequests (started Scenario.crash_tasks) = [(1%Z, 0)] ∧
  phase <$> calls (started Scenario.crash_tasks) !! 0 = Some (Awaiting 1) ∧
  settlements (started Scenario.crash_tasks) = [] ∧
  trace (started Scenario.crash_tasks)
  = [(0%Z, Write {| req_seq := 1; req_command := "definition"; req_arguments := None |});
     (0%Z, Log Info "TSServer process exited");
     (0%Z, Emit (EmitExit (Some 1%Z) None))] ∧
  phase <$> calls (started (Scenario.crash_tasks ++ [Elapse 15000; TimerFires 1])) !! 0
  = Some (Finished (Rejected {| error_message :=
            "Request definition timed out after 15000ms" |})).
Proof. vm_compute. repeat split. Qed.

(** C10, as the claim has it, fails: the fourth attempt of a request is
    answered with the failure text 'Debug Failure. False expression.'; the
    failure is not retried, and the error the caller gets has another
    message, the failure text with words before and after it. *)
Lemma C10_counterexample :
  message (Scenario.failed 4 "definition" Scenario.debug_failure)
    = Some "Debug Failure. False expression." ∧
  phase <$> calls (started (Scenario.retry_tasks ++ Scenario.last_failure)) !! 0
  = Some (Finished (Rejected {| error_message :=
      "TSServer Debug Failure: Debug Failure. False expression.. This may be due to file state issues or concurrent operations." |})) ∧
  (7000%Z, Throw 0 {| error_message :=
      "TSServer Debug Failure: Debug Failure. False expression.. This may be due to file state issues or concurrent operations." |})
    ∈ trace (started (Scenario.retry_tasks ++ Scenario.last_failure)) ∧
  "TSServer Debug Failure: Debug Failure. False expression.. This may be due to file state issues or concurrent operations."
    ≠ "Debug Failure. False expression.".
Proof.
  split; [reflexivity|]. split; [vm_compute; reflexivity|]. split; [|discriminate].
  vm_compute. repeat first [apply list_elem_of_here | apply list_elem_of_further].
Qed.

(** * Further properties on the scenarios *)

Local Abbreviation waiting :=
  ({| command := "definition"; args := None; maxRetries := 3; attempt := 0;
      phase := Awaiting 1 |} : @Call string).

(** Two requests in flight: the first has its entry and its timer. *)
Lemma X1_witness :
  calls (started Scenario.two_requests) !! 0 = Some waiting ∧
  phase waiting ≠ Running ∧
  map_get 1 (pendingRequests (started Scenario.two_requests)) = Some 0.
Proof.
  assert (calls (started Scenario.two_requests) !! 0 = Some waiting) as Hc
    by (vm_compute; reflexivity).
  destruct (X1_suspended_call_has_live_timer parse resolve Scenario.two_requests true 0 0
              waiting Hc) as (Hr & Haw & _).
  split; [exact Hc|]. split; [exact Hr|]. exact (proj1 (Haw 1%Z eq_refl)).
Defined.


(** The answer to request 1 arrives: request 2 stays, and it was there. *)
Lemma X3_witness :
  2%Z ∈ keys (pendingRequests (handleData parse (Scenario.frame answer1)
                                 (started Scenario.two_requests))) ∧
  2%Z ∈ keys (pendingRequests (started Scenario.two_requests)).
Proof.
  assert (2%Z ∈ keys (pendingRequests (handleData parse (Scenario.frame answer1)
                                         (started Scenario.two_requests)))) as Hin
    by (vm_compute; apply list_elem_of_here).
  split; [exact Hin|].
  exact (proj2 (proj2 (proj2 (proj2 (proj2 (proj2 (proj2
           (X3_handleData_stays_inside parse (Scenario.frame answer1)
              (started Scenario.two_requests)))))))) 2%Z Hin).
Defined.

(** A stray character in front of an answer: the answer is never handled. *)
Lemma X4_witness :
  departs "Content-Length: " (buffer (handleData parse "!" (started Scenario.two_requests)))
    = true ∧
  trace (feed parse [Scenario.frame answer1; Scenario.frame answer2]
           (handleData parse "!" (started Scenario.two_requests)))
  = trace (handleData parse "!" (started Scenario.two_requests)).
Proof.
  assert (departs "Content-Length: "
            (buffer (handleData parse "!" (started Scenario.two_requests))) = true) as Hd
    by (vm_compute; reflexivity).
  split; [exact Hd|].
  exact (proj1 (proj2 (X4_framer_never_resynchronises parse _
                         [Scenario.frame answer1; Scenario.frame answer2] Hd))).
Defined.

Local Abbreviation asleep :=
  ({| command := "definition"; args := None; maxRetries := 3; attempt := 0;
      phase := Sleeping |} : @Call string).

Local Abbreviation exited_asleep :=
  (started [CallStart; CallRequest "definition" None;
            StdoutData (Scenario.frame
                          (Scenario.render (Scenario.failed 1 "definition" Scenario.debug_failure)));
            ProcessExit 0 None None]).

(** The child exits while the call sleeps; then the backoff timer fires. *)
Lemma X5_witness :
  calls exited_asleep !! 0 = Some asleep ∧
  process exited_asleep = None ∧
  (attempt asleep < maxRetries asleep)%Z ∧
  pendingRequests (run_callback (RetryDelay 0) exited_asleep) = [(2%Z, 0)] ∧
  timers (run_callback (RetryDelay 0) exited_asleep) = timers exited_asleep.
Proof.
  assert (calls exited_asleep !! 0 = Some asleep) as Hc by (vm_compute; reflexivity).
  assert (process exited_asleep = None) as Hp by (vm_compute; reflexivity).
  assert (attempt asleep < maxRetries asleep)%Z as Hlt by (vm_compute; reflexivity).
  destruct (proj2 X5_sleeping_call_outlives_stop exited_asleep 0 asleep Hc Hp Hlt)
    as (_ & Hpend & _ & _ & Htimers & _).
  split; [exact Hc|]. split; [exact Hp|]. split; [exact Hlt|].
  split; [|exact Htimers]. rewrite Hpend. vm_compute. reflexivity.
Defined.

Local Abbreviation one_open :=
  (set_openFiles {["/work/a.ts"]} (started [CallStart])).

(** A file is open, the child exits and the client is started again. *)
Lemma X6_witness :
  waiting_stops 0 one_open = [] ∧
  resolve "a.ts" ∈ openFiles one_open ∧
  openFile resolve "a.ts" (start (on_exit 0 (Some 1%Z) None one_open))
  = (start (on_exit 0 (Some 1%Z) None one_open), None).
Proof.
  assert (waiting_stops 0 one_open = []) as Hw.
  { change (waiting_stops 0 one_open) with (waiting_stops 0 (started [CallStart])).
    vm_compute. reflexivity. }
  assert (resolve "a.ts" ∈ openFiles one_open) as Hin
    by (apply elem_of_singleton; reflexivity).
  split; [exact Hw|]. split; [exact Hin|].
  apply (X6_open_files_survive_exit resolve one_open 0 (Some 1%Z) None "a.ts" Hw Hin).
Defined.

Local Abbreviation unstarted :=
  ([CallRequest "definition" None; CallOpenFile "a.ts"; CallStop;
    StdoutData "x"; TimerFires 0; Elapse 5] : list (@Task string)).

(** Requests and a stop on a client that was never started. *)
Lemma X8_witness :
  (CallStart ∉ unstarted) ∧
  outputs (run parse resolve unstarted (new_client false 0)) = [].
Proof.
  assert (CallStart ∉ unstarted) as Hn.
  { intros H. repeat (apply elem_of_cons in H as [H|H]; [discriminate H|]).
    now apply elem_of_nil in H. }
  split; [exact Hn|].
  exact (proj1 (proj2 (proj2 (proj2 (proj2 (proj2 (proj2
           (X8_nothing_before_start parse resolve unstarted false 0 Hn)))))))).
Defined.

(** * The logger and the configuration manager on sample data *)

Local Abbreviation warnings_on :=
  {| Config.enabled := true; Config.level := LogLevel.warn; Config.logToFile := true;
     Config.maxFileSize := 10; Config.maxFiles := 5 |}.

(** With the level 'warn', a warning is logged, and so is an error. *)
Lemma X9_witness :
  Logger.shouldLog warnings_on LogLevel.warn = true ∧
  (Logger.indexOf LogLevel.error Logger.levels ≤ Logger.indexOf LogLevel.warn Logger.levels)%Z ∧
  Logger.shouldLog warnings_on LogLevel.error = true.
Proof.
  assert (Logger.indexOf LogLevel.error Logger.levels
          ≤ Logger.indexOf LogLevel.warn Logger.levels)%Z as Hle by (vm_compute; discriminate).
  split; [reflexivity|]. split; [exact Hle|].
  exact (proj1 (proj2 (proj2 (proj2 (proj2 (proj2 (proj2 X9_log_threshold))))))
           warnings_on LogLevel.error LogLevel.warn
           eq_refl Hle).
Defined.

Local Abbreviation two_logs :=
  (<[Logger.logFile Scenario.logDir := "new lines"]>
     (<[Logger.rotated Scenario.logDir 1 := "old lines"]> (∅ : Fs.Files))).

(** Three files are kept: the first rotated file becomes the second. *)
Lemma X10_witness :
  (2 ≤ 3)%Z ∧ (1 ≤ 1 ≤ 3 - 2)%Z ∧
  Logger.rotateLogs Scenario.logDir 3 two_logs !! Logger.rotated Scenario.logDir (1 + 1)
  = two_logs !! Logger.rotated Scenario.logDir 1.
Proof.
  assert (2 ≤ 3)%Z as H2 by lia.
  assert (1 ≤ 1 ≤ 3 - 2)%Z as H1 by lia.
  split; [exact H2|]. split; [exact H1|].
  exact (proj1 (proj2 (proj2 (proj1 (X10_rotation_shifts_log_files Scenario.logDir)
                                3%Z two_logs H2))) 1%Z H1).
Defined.

(** The first line of a log. *)
Lemma X11_witness :
  Config.logToFile warnings_on = true ∧
  (∅ : Fs.Files) !! Logger.logFile Scenario.logDir = None ∧
  Logger.writeToFile (λ _ : unit, "{}") Scenario.logDir warnings_on Scenario.entry ∅
  = <[Logger.logFile Scenario.logDir :=
        Logger.formatLogEntry (λ _ : unit, "{}") Scenario.entry]> ∅.
Proof.
  assert ((∅ : Fs.Files) !! Logger.logFile Scenario.logDir = None) as Hn by apply lookup_empty.
  split; [reflexivity|]. split; [exact Hn|].
  exact (proj1 (proj2 (X11_log_line_appended Scenario.logDir (λ _ : unit, "{}")))
           warnings_on Scenario.entry ∅ eq_refl Hn).
Defined.

Local Abbreviation first_run := (Config.new_ConfigManager ∅).

(** Logging is switched on in a manager that holds the defaults. *)
Lemma X12_witness :
  Config.config first_run = Config.TheDefault ∧
  Config.enabled
    (Config.debug
       (Config.defaultConfig
          (Config.setDebugEnabled Scenario.configPath Scenario.render_config true first_run)))
  = true.
Proof.
  split; [reflexivity|].
  rewrite (proj1 (proj1 (X12_setters_assign_to_the_defaults Scenario.configPath
                           Scenario.parse_config Scenario.render_config)
                    first_run true LogLevel.info true eq_refl)).
  reflexivity.
Defined.

(** The first run: the file is made. *)
Lemma X13_witness :
  Config.files first_run !! Scenario.configPath = None ∧
  Config.files (Config.load Scenario.configPath Scenario.parse_config Scenario.render_config
                  first_run)
  = <[Scenario.configPath := Scenario.render_config Config.defaultConfig_literal]> ∅.
Proof.
  assert (Config.files first_run !! Scenario.configPath = None) as Hn by apply lookup_empty.
  split; [exact Hn|].
  exact (proj1 (proj1 (X13_load_merges_with_defaults Scenario.configPath
                         Scenario.parse_config Scenario.render_config) first_run Hn)).
Defined.

(** Logging is switched on, and the next process finds it on. *)
Lemma X14_witness :
  Scenario.parse_config
    (Scenario.render_config
       (Config.get (Config.setDebugEnabled Scenario.configPath Scenario.render_config true
                      first_run)))
  = Some (Config.whole
            (Config.get (Config.setDebugEnabled Scenario.configPath Scenario.render_config true
                           first_run))) ∧
  Config.getDebugConfig
    (Config.load Scenario.configPath Scenario.parse_config Scenario.render_config
       (Config.new_ConfigManager
          (Config.files (Config.setDebugEnabled Scenario.configPath Scenario.render_config true
                           first_run))))
  = Config.with_enabled true (Config.debug Config.defaultConfig_literal).
Proof.
  assert (Scenario.parse_config
            (Scenario.render_config
               (Config.get (Config.setDebugEnabled Scenario.configPath Scenario.render_config
                              true first_run)))
          = Some (Config.whole
                    (Config.get (Config.setDebugEnabled Scenario.configPath
                                   Scenario.render_config true first_run)))) as Hp
    by (vm_compute; reflexivity).
  split; [exact Hp|].
  exact (proj2 (proj1 (proj2 (X14_settings_survive_restart Scenario.configPath
                                Scenario.parse_config Scenario.render_config))
                  first_run true Hp)).
Defined.

(** * The tools on sample data *)

Local Abbreviation casts :=
  ({| position_args := λ file _ _, file;
      diagnostics_args := λ file, file;
      is_truthy := λ a, negb (String.eqb a "");
      as_DefinitionInfos := λ _, Some [];
      as_QuickInfo := λ _, None;
      as_ReferencesResponseBody := λ _, None;
      as_RenameResponseBody := λ _, None;
      as_Changes := λ _, None |} : @Casts string).

Local Abbreviation wire :=
  ({| as_DefinitionArgs := λ a, {| Tools.a_file := a; Tools.a_line := 1; Tools.a_offset := 1 |};
      as_RenameArgs := λ a, {| Tools.r_file := a; Tools.r_line := 1; Tools.r_offset := 1;
                               Tools.newName := "x" |};
      as_FileArgs := λ a, a;
      show_DefinitionResult := λ _, "{}";
      show_HoverResult := λ _, "{}";
      show_ReferencesResult := λ _, "{}";
      show_RenameResult := λ _, "{}";
      show_Diagnostics := λ _, "{}";
      show_OrganizeImportsResult := λ _, "{}" |} : @Wire string).

Local Abbreviation position :=
  {| Tools.a_file := "a.ts"; Tools.a_line := 3; Tools.a_offset := 7 |}.

Local Abbreviation ready := (started [CallStart]).

Lemma running_ready : running ready.
Proof. exists {| pid := 0; stdin := true; killed := false |}. split; reflexivity. Qed.

Lemma nothing_open (file : string) : file ∉ openFiles ready.
Proof.
  assert (openFiles ready = ∅) as -> by reflexivity. apply not_elem_of_empty.
Qed.

(** [getDefinition] on a running client, answered with a body. *)
Lemma X7_witness :
  running ready ∧
  request_seq (Scenario.ok 2 "definition" "result") = (sequence ready + 1)%Z ∧
  (answered (Scenario.ok 2 "definition" "result")
     (getDefinition resolve casts position ready)).2
  = Done (Returned {| Tools.definitions := [] |}).
Proof.
  assert (request_seq (Scenario.ok 2 "definition" "result") = (sequence ready + 1)%Z) as Hs
    by reflexivity.
  split; [exact running_ready|]. split; [exact Hs|].
  exact (proj1 (proj1 (X7_tool_round_trip resolve casts ready
                         (Scenario.ok 2 "definition" "result") running_ready Hs eq_refl)
                  position (nothing_open _))).
Defined.

(** [getDiagnostics], its two requests answered in turn; the second body is
    the empty text. *)
Lemma X15_witness :
  running ready ∧
  (answered (Scenario.ok 3 "semanticDiagnosticsSync" "")
     (answered (Scenario.ok 2 "syntacticDiagnosticsSync" "[]")
        (getDiagnostics resolve casts "a.ts" ready))).2
  = Done (Returned {| syntactic := Some "[]"; semantic := None |}).
Proof.
  split; [exact running_ready|].
  exact (proj1 (proj2 (proj2 (proj2
           (X15_diagnostics_in_turn resolve casts "a.ts" ready
              (Scenario.ok 2 "syntacticDiagnosticsSync" "[]")
              (Scenario.ok 3 "semanticDiagnosticsSync" "")
              running_ready (nothing_open _) eq_refl eq_refl eq_refl eq_refl))))).
Defined.

(** tsserver has no project for the file: [getHover] returns [null]. *)
Lemma X16_witness :
  running ready ∧
  includes (default "" (message (Scenario.failed 2 "quickinfo" "No project.")))
    "Debug Failure" = false ∧
  (answered (Scenario.failed 2 "quickinfo" "No project.")
     (getHover resolve casts position ready)).2
  = Done (Returned None).
Proof.
  split; [exact running_ready|]. split; [reflexivity|].
  exact (proj1 (proj1 (proj2
           (X16_tool_after_failure resolve casts ready
              (Scenario.failed 2 "quickinfo" "No project.")
              running_ready eq_refl eq_refl eq_refl))
           position (nothing_open _))).
Defined.

Lemma not_running_new : ¬ running (new_client (any := string) true 0).
Proof. intros (p & Hp & _). discriminate Hp. Qed.

(** [getReferences] on a client that was never started. *)
Lemma X17_witness :
  (¬ running (new_client (any := string) true 0)) ∧
  (resume (getReferences resolve casts position (new_client true 0)).2
     (getReferences resolve casts position (new_client true 0)).1).2
  = Done (Thrown not_started).
Proof.
  split; [exact not_running_new|].
  exact (proj1 (proj1 (proj2 (proj2
           (proj1 (X17_not_started_wins resolve casts) (new_client true 0) not_running_new)))
           position)).
Defined.

(** [getHover] called while [getDefinition] waits, both for 'a.ts': the
    path is gone from the set while the request of [getHover] is pending. *)
Lemma X18_witness :
  running ready ∧
  calls (resume (getDefinition resolve casts position ready).2
           (handleMessage (Response (Scenario.ok 2 "definition" "result"))
              (getHover resolve casts position
                 (getDefinition resolve casts position ready).1).1)).1 !! 1
  = Some (waiting_call "quickinfo" (Some (AnyArgs "/work/a.ts")) 3) ∧
  (resolve (resolve "a.ts")
   ∉ openFiles (resume (getDefinition resolve casts position ready).2
                  (handleMessage (Response (Scenario.ok 2 "definition" "result"))
                     (getHover resolve casts position
                        (getDefinition resolve casts position ready).1).1)).1).
Proof.
  pose proof (X18_overlapping_tools_share_one_open resolve casts position position ready
                (Scenario.ok 2 "definition" "result") (Scenario.ok 3 "quickinfo" "result")
                running_ready eq_refl (nothing_open _) eq_refl eq_refl eq_refl eq_refl)
    as (_ & _ & _ & Hclosed & Hcall & _).
  split; [exact running_ready|]. split; [exact Hcall | exact Hclosed].
Defined.

(** A request that was answered with a debug failure three times: four
    attempts. *)
Lemma X19_witness :
  calls (started Scenario.retry_tasks) !! 0
  = Some {| command := "definition"; args := None; maxRetries := 3; attempt := 3;
            phase := Awaiting 4 |} ∧
  (List.length (attempts 0 (started Scenario.retry_tasks)) ≤ 4)%nat ∧
  List.length (attempts 0 (started Scenario.retry_tasks)) = 4.
Proof.
  split; [vm_compute; reflexivity|].
  split; [|vm_compute; reflexivity].
  exact (proj1 (X19_at_most_four_attempts parse resolve Scenario.retry_tasks true 0 0)).
Defined.

(** 'ts_hover', and tsserver has no project for the file. *)
Lemma X21_witness :
  running ready ∧
  (answered (Scenario.failed 2 "quickinfo" "No project.")
     (callTool resolve casts wire "ts_hover" (Some "a.ts") ready)).2
  = Done (Returned {| content_text := "No hover information available"; isError := false |}).
Proof.
  split; [exact running_ready|].
  exact (proj2 (proj1 (X21_handler_reports_failure resolve casts wire ready
                         (Scenario.failed 2 "quickinfo" "No project.") "a.ts"
                         running_ready eq_refl eq_refl eq_refl)
                  (nothing_open _))).
Defined.

Lemma rename_is_a_tool : "ts_rename" ∈ tool_names.
Proof. unfold tool_names. repeat (first [apply list_elem_of_here | apply list_elem_of_further]). Qed.

Lemma rename_file_is_no_tool : "ts_rename_file" ∉ tool_names.
Proof.
  unfold tool_names. intros H.
  repeat (apply elem_of_cons in H as [H|H]; [discriminate H|]).
  now apply elem_of_nil in H.
Qed.

(** 'ts_rename' on a client that was never started, and a tool that does not
    exist. *)
Lemma X22_witness :
  ("ts_rename" ∈ tool_names) ∧
  (¬ running (new_client (any := string) true 0)) ∧
  (resume (callTool resolve casts wire "ts_rename" (Some "a.ts") (new_client true 0)).2
     (callTool resolve casts wire "ts_rename" (Some "a.ts") (new_client true 0)).1).2
  = Done (Returned {| content_text := "Error: TSServer not started"; isError := true |}) ∧
  ("ts_rename_file" ∉ tool_names) ∧
  callTool resolve casts wire "ts_rename_file" (Some "a.ts") (new_client true 0)
  = (new_client true 0,
     Done (Returned {| content_text := "Error: Unknown tool: ts_rename_file";
                       isError := true |})).
Proof.
  split; [exact rename_is_a_tool|]. split; [exact not_running_new|].
  split.
  - exact (proj1 (proj1 (X22_handler_without_child resolve casts wire "ts_rename" "a.ts"
                           (new_client true 0))
                    rename_is_a_tool not_running_new)).
  - split; [exact rename_file_is_no_tool|].
    exact (proj2 (X22_handler_without_child resolve casts wire "ts_rename_file" "a.ts"
                    (new_client true 0))
             rename_file_is_no_tool).
Defined.

Local Abbreviation one_change :=
  [{| Tools.c_newText := None;
      Tools.span := Some {| Tools.start := {| Tools.line := 1; Tools.offset := 1 |};
                            Tools.end_ := {| Tools.line := 2; Tools.offset := 1 |} |} |}].

(** One change with its span and no text. *)
Lemma X23_witness :
  Forall (λ c, is_Some (Tools.span c)) one_change ∧
  Tools.success (Tools.organizeImports_result (Some one_change)) = true.
Proof.
  assert (Forall (λ c, is_Some (Tools.span c)) one_change) as Hf.
  { apply Forall_singleton. eexists. reflexivity. }
  split; [exact Hf|].
  apply (proj1 (X23_organize_imports_all_or_nothing (Some one_change))).
  exists one_change. split; [reflexivity|]. split; [discriminate | exact Hf].
Defined.

Local Abbreviation restarted :=
  (started [CallStart; CallStop; Elapse 3000; TimerFires 1; CallStart]).

(** The first child is killed after the grace period, a second child is
    spawned, and then the exit of the first one is reported. *)
Lemma X24_witness :
  process restarted = Some {| pid := 1; stdin := true; killed := false |} ∧
  (0 < spawned restarted)%nat ∧
  waiting_stops 0 restarted = [] ∧
  process (step parse resolve restarted (ProcessExit 0 None (Some "SIGKILL"))) = None.
Proof.
  assert (0 < spawned restarted)%nat as Hlt by (vm_compute; lia).
  assert (waiting_stops 0 restarted = []) as Hw by (vm_compute; reflexivity).
  split; [vm_compute; reflexivity|]. split; [exact Hlt|]. split; [exact Hw|].
  exact (proj1 (X24_exit_clears_the_handle_of_any_child parse resolve restarted 0 None
                  (Some "SIGKILL") "definition" None Hlt Hw)).
Defined.
